(** * A static Huffman codec: bit vector, frequency list, tree, pipelines

    Shallow embedding of the C sources [bit_vector.c], [huffman_element.c],
    [huffman_list.c], [huffman_tree.c] and [huffman.c].

    Conventions of the embedding.
    - A [uint8_t] or [uint64_t] is a [Z]; every place where the C arithmetic
      can wrap is written with [u8] or [u64].
    - A pointer is an [option]: [None] is [NULL].  A function that mutates
      the object behind a pointer returns the object's state afterwards next
      to its C return value.
    - [malloc], [calloc] and [realloc] are taken to succeed.  The bytes that
      [realloc] adds when a block grows are indeterminate in C; the model
      takes them from an arbitrary function [fresh].
    - A file descriptor is the byte content of the file, the file position
      and a size limit beyond which writes come back short.
    - The command line is the sequence of the results of [getopt]; the files
      that [main] opens are a map from the file a name leads to, to its
      content.
    - Output to [stdout] is not modelled.  A [printf] that reads past the
      block of its argument is undefined behaviour and modelled as such. *)

From Stdlib Require Import ZArith Lia Bool Ascii String.
From stdpp Require Import base option list strings gmap.

Open Scope Z_scope.

(** ** Machine integers *)

Definition u8 (x : Z) : Z := x mod 2 ^ 8.
Definition u64 (x : Z) : Z := x mod 2 ^ 64.

(** Conversion of a 64-bit unsigned value to [ssize_t] / [off_t]. *)
Definition ssize_t (x : Z) : Z :=
  let y := u64 x in if y <? 2 ^ 63 then y else y - 2 ^ 64.

(** The object representation of a [uint64_t] (little-endian host). *)
Definition u64_bytes (x : Z) : list Z :=
  map (fun i : nat => (x / 2 ^ (8 * Z.of_nat i)) mod 256) (seq 0 8).

Fixpoint u64_of_bytes (bs : list Z) : Z :=
  match bs with
  | [] => 0
  | b :: bs' => b + 256 * u64_of_bytes bs'
  end.

(** ** Files *)

Record file := {
  fd_data : list Z;   (* the bytes of the file *)
  fd_pos : Z;         (* the file position used by read and write *)
  fd_limit : Z        (* no byte is ever stored at or beyond this offset *)
}.

Definition OFF_MAX : Z := 2 ^ 63 - 1.

(** [store data off buf]: the content after [buf] was written at [off]; a gap
    between the old end of the file and [off] reads as zero bytes. *)
Definition store (data : list Z) (off : nat) (buf : list Z) : list Z :=
  take off data ++ replicate (off - length data)%nat 0
    ++ buf ++ drop (off + length buf)%nat data.

(** [pwrite(fd, buf, |buf|, offset)]: returns the file and the number of
    bytes written, or -1. *)
Definition pwrite (fd : file) (buf : list Z) (offset : Z) : file * Z :=
  let off := ssize_t offset in
  if off <? 0 then (fd, -1)
  else match buf with
       | [] => (fd, 0)
       | _ :: _ =>
         let room := Z.min (fd_limit fd) OFF_MAX - off in
         if room <=? 0 then (fd, -1)
         else
           let chunk := take (Z.to_nat room) buf in
           ({| fd_data := store (fd_data fd) (Z.to_nat off) chunk;
               fd_pos := fd_pos fd;
               fd_limit := fd_limit fd |},
            Z.of_nat (length chunk))
       end.

(** [write(fd, buf, |buf|)]: [pwrite] at the file position, which advances. *)
Definition write (fd : file) (buf : list Z) : file * Z :=
  let '(fd', n) := pwrite fd buf (fd_pos fd) in
  if n <? 0 then (fd', n)
  else ({| fd_data := fd_data fd'; fd_pos := fd_pos fd' + n;
           fd_limit := fd_limit fd' |}, n).

(** [pread(fd, buf, n, offset)]: the bytes read (fewer than [n] at the end
    of the file) and the return value. *)
Definition pread (fd : file) (n : nat) (offset : Z) : list Z * Z :=
  let off := ssize_t offset in
  if off <? 0 then ([], -1)
  else
    let buf := take n (drop (Z.to_nat off) (fd_data fd)) in
    (buf, Z.of_nat (length buf)).

(** [read(fd, buf, n)]: [pread] at the file position, which advances. *)
Definition read (fd : file) (n : nat) : file * list Z * Z :=
  let '(buf, r) := pread fd n (fd_pos fd) in
  if r <? 0 then (fd, buf, r)
  else ({| fd_data := fd_data fd; fd_pos := fd_pos fd + r;
           fd_limit := fd_limit fd |}, buf, r).

(** The file as another descriptor sees it after [open]: position 0. *)
Definition reopen (fd : file) : file :=
  {| fd_data := fd_data fd; fd_pos := 0; fd_limit := fd_limit fd |}.

(** ** bit_vector.h *)

Definition VECTOR_BYTE_SIZE : Z := 8.
Definition VECTOR_BYTE_INDEX (index : Z) : Z := index / VECTOR_BYTE_SIZE.
Definition VECTOR_BIT_INDEX (index : Z) : Z := Z.land index 7.
Definition VECTOR_SET_STRING (index : Z) : Z := Z.shiftl 1 (VECTOR_BIT_INDEX index).
Definition VECTOR_CLEAR_STRING (index : Z) : Z := Z.lnot (VECTOR_SET_STRING index).
Definition VECTOR_CHECK_STRING (index : Z) : Z := VECTOR_SET_STRING index.

Definition DEFAULT_VECTOR_INDEX : Z := 0.
Definition VECTOR_FLAG_STREAM : Z := 0.
Definition VECTOR_FLAG_FULL : Z := 1.
Definition VECTOR_BIT_SET : Z := 1.
Definition VECTOR_BIT_OFF : Z := 0.

Record bvector_t := {
  vector : list Z;       (* the storage, one [uint8_t] per entry *)
  vector_length : Z;     (* capacity in bits *)
  working_index : Z      (* number of bits appended *)
}.

(** The pointer a mutator returns: the object it was given, or [NULL]. *)
Definition returned {A} (r : option A * bool) : option A :=
  if r.2 then r.1 else None.

(** [vector[i]], zero being read where the block has no byte [i]. *)
Definition byte_at (bytes : list Z) (i : Z) : Z :=
  default 0 (bytes !! Z.to_nat i).

Section BitVector.

(** Byte [i] of a block that [realloc] has grown past byte [i]. *)
Variable fresh : nat -> Z.

Definition realloc (bytes : list Z) (size : Z) : list Z :=
  map (fun i : nat => default (u8 (fresh i)) (bytes !! i))
      (seq 0 (Z.to_nat size)).

Definition bvector_create (length : Z) : option bvector_t :=
  if length =? 0 then None
  else Some {| vector := replicate (Z.to_nat (length / VECTOR_BYTE_SIZE + 1)) 0;
               vector_length := length;
               working_index := DEFAULT_VECTOR_INDEX |}.

Definition bvector_set_bit (bvector : option bvector_t) (index : Z)
  : option bvector_t * bool :=
  match bvector with
  | None => (None, false)
  | Some b =>
    if vector_length b <=? index then (Some b, false)
    else
      (Some {| vector :=
                 alter (fun x => u8 (Z.lor x (VECTOR_SET_STRING index)))
                       (Z.to_nat (VECTOR_BYTE_INDEX index)) (vector b);
               vector_length := vector_length b;
               working_index := working_index b |}, true)
  end.

Definition bvector_clear_bit (bvector : option bvector_t) (index : Z)
  : option bvector_t * bool :=
  match bvector with
  | None => (None, false)
  | Some b =>
    if vector_length b <=? index then (Some b, false)
    else
      (Some {| vector :=
                 alter (fun x => u8 (Z.land x (VECTOR_CLEAR_STRING index)))
                       (Z.to_nat (VECTOR_BYTE_INDEX index)) (vector b);
               vector_length := vector_length b;
               working_index := working_index b |}, true)
  end.

Definition bvector_check_bit (bvector : option bvector_t) (index : Z) : Z :=
  match bvector with
  | None => -1
  | Some b =>
    if vector_length b <=? index then -2
    else if Z.land (byte_at (vector b) (VECTOR_BYTE_INDEX index))
                   (VECTOR_CHECK_STRING index) =? 0
         then 0 else 1
  end.

Definition bvector_get_size (bvector : option bvector_t) (flag : Z) : Z :=
  match bvector with
  | None => 0
  | Some b =>
    if flag =? VECTOR_FLAG_FULL then vector_length b
    else if flag =? VECTOR_FLAG_STREAM then working_index b
    else 0
  end.

Definition bvector_resize (bvector : option bvector_t) (length : Z)
  : option bvector_t * bool :=
  match bvector with
  | None => (None, false)
  | Some b =>
    (Some {| vector := realloc (vector b) (length / VECTOR_BYTE_SIZE + 1);
             vector_length := length;
             working_index := working_index b |}, true)
  end.

Definition bvector_append_bit (bvector : option bvector_t) (bit : Z)
  : option bvector_t * bool :=
  match bvector with
  | None => (None, false)
  | Some b =>
    if 1 <? bit then (Some b, false)
    else
      let bvector :=
        if working_index b =? vector_length b
        then (bvector_resize (Some b) (u64 (vector_length b * 2))).1
        else Some b in
      let index := from_option working_index 0 bvector in
      let bvector :=
        if bit =? 0 then (bvector_clear_bit bvector index).1
        else (bvector_set_bit bvector index).1 in
      (option_map (fun b' => {| vector := vector b';
                                vector_length := vector_length b';
                                working_index := u64 (working_index b' + 1) |})
                  bvector, true)
  end.

(** The body of the loop of [bvector_append_vector], from [i] on; [n] counts
    the iterations left. *)
Fixpoint append_vector_loop (n : nat) (i : Z)
    (bvector copy_vector : option bvector_t) : option bvector_t :=
  match n with
  | O => bvector
  | S n' =>
    let bit := u8 (bvector_check_bit copy_vector i) in
    append_vector_loop n' (i + 1) (bvector_append_bit bvector bit).1 copy_vector
  end.

Definition bvector_append_vector (bvector copy_vector : option bvector_t)
    (flag : Z) : option bvector_t * bool :=
  match bvector, copy_vector with
  | Some _, Some _ =>
    let append_length := bvector_get_size copy_vector flag in
    (append_vector_loop (Z.to_nat append_length) 0 bvector copy_vector, true)
  | _, _ => (bvector, false)
  end.

(** [bvector_output]: the file afterwards and the return value.  [pwrite] is
    given [length / 8 + 1] bytes of the storage.  The storage holds them
    whenever the cursor is within the capacity; where it does not (a cursor
    beyond a capacity that [bvector_resize] made smaller) the C code reads
    past its block, and the function stands for the C code on the other
    vectors only. *)
Definition bvector_output (bvector : option bvector_t) (fd : file)
    (offset : Z) (flag : Z) : file * Z :=
  match bvector with
  | None => (fd, -1)
  | Some b =>
    let length := bvector_get_size bvector flag in
    let size_to_write := 8 in
    let '(fd, bytes_written) := pwrite fd (u64_bytes length) offset in
    if bytes_written <? size_to_write then (fd, -2)
    else
      let offset := u64 (offset + bytes_written) in
      let length := length / VECTOR_BYTE_SIZE + 1 in
      let size_to_write := length in
      let '(fd, bytes_written) :=
        pwrite fd (take (Z.to_nat size_to_write) (vector b)) offset in
      if bytes_written <? size_to_write then (fd, -4)
      else
        let offset := u64 (offset + bytes_written) in
        (fd, ssize_t offset)
  end.

Definition bvector_input (fd : file) (offset : Z) : option bvector_t :=
  let size_to_read := 8 in
  let '(buf, bytes_read) := pread fd 8 offset in
  if bytes_read <? size_to_read then None
  else
    let length := u64_of_bytes buf in
    let offset := u64 (offset + bytes_read) in
    match bvector_create length with
    | None => None
    | Some b =>
      let length := length / VECTOR_BYTE_SIZE + 1 in
      let size_to_read := length in
      let '(buf, bytes_read) := pread fd (Z.to_nat size_to_read) offset in
      if bytes_read <? size_to_read then None
      else Some {| vector := buf ++ drop (Datatypes.length buf) (vector b);
                   vector_length := vector_length b;
                   working_index := vector_length b |}
    end.

Definition strlen (s : string) : Z := Z.of_nat (String.length s).

(** The loop of [bvector_convert] over the characters of [bit_string]. *)
Fixpoint convert_loop (bit_string : string) (temp : option bvector_t)
  : option bvector_t :=
  match bit_string with
  | EmptyString => temp
  | String bit_code rest =>
    let temp :=
      if Ascii.eqb bit_code "0"%char then returned (bvector_append_bit temp 0)
      else if Ascii.eqb bit_code "1"%char then returned (bvector_append_bit temp 1)
      else temp in
    match temp with
    | None => None
    | Some _ => convert_loop rest temp
    end
  end.

Definition bvector_convert (bit_string : string) : option bvector_t :=
  let length := u64 (strlen bit_string) in
  match bvector_create length with
  | None => None
  | Some temp =>
    match convert_loop bit_string (Some temp) with
    | None => None
    | Some temp => returned (bvector_resize (Some temp) (working_index temp))
    end
  end.

End BitVector.

(** ** huffman_element.h, huffman_element.c *)

Definition DEFAULT_ELEMENT_FREQUENCY : Z := 1.
Definition SPECIAL_ELEMENT_FREQUENCY : Z := 0.

(** A Huffman element.  The tree links are the two children; the list links
    [next] and [previous] are the element's place in the [list] that holds
    it. *)
#[warnings="-register-all"]
Inductive helement_t : Type := Build_helement {
  element : Z;
  leaf_node : Z;
  left_child : option helement_t;
  right_child : option helement_t;
  frequency : Z
}.

Definition helement_create (element leaf_node_flag frequency : Z) : helement_t :=
  {| element := element;
     leaf_node := leaf_node_flag;
     frequency := if frequency =? SPECIAL_ELEMENT_FREQUENCY
                  then DEFAULT_ELEMENT_FREQUENCY else frequency;
     left_child := None;
     right_child := None |}.

(** [helement_swap_list(first, second)] on the list from [first] on, where
    [second] is the element after [first]. *)
Definition helement_swap_list (from_first : list helement_t) : list helement_t :=
  match from_first with
  | first :: second :: rest => second :: first :: rest
  | _ => from_first
  end.

(** ** huffman_list.h, huffman_list.c *)

Definition DEFAULT_LIST_COUNT : Z := 0.
Definition LIST_SPECIAL_ELEMENT : Z := 255.
Definition LIST_BAD_COUNT : Z := 2 ^ 64 - 1.

Record hlist_t := {
  hl_list : list helement_t;   (* the chain from the head along [next] *)
  hl_count : Z
}.

(** A pointer to an element of the list is its position from the head. *)
Fixpoint search_from (l : list helement_t) (element0 : Z) : option nat :=
  match l with
  | [] => None
  | helement_node :: rest =>
    if element helement_node =? element0 then Some O
    else option_map S (search_from rest element0)
  end.

Definition _search (hlist : hlist_t) (element : Z) : option nat :=
  search_from (hl_list hlist) element.

Definition _add (hlist : hlist_t) (element leaf_node_flag frequency : Z)
  : hlist_t * Z :=
  let helement_node := helement_create element leaf_node_flag frequency in
  ({| hl_list := helement_node :: hl_list hlist;
      hl_count := u64 (hl_count hlist + 1) |}, 0).

(** [_fix_order] seen from [helement_node]: the list from that element on
    after the recursion, and the number of places the element moved. *)
Fixpoint fix_order_from (helement_node : helement_t) (rest : list helement_t)
  : list helement_t * nat :=
  match rest with
  | [] => ([helement_node], O)
  | next_node :: rest' =>
    if frequency helement_node <=? frequency next_node
    then (helement_node :: rest, O)
    else
      let '(l, k) := fix_order_from helement_node rest' in
      (next_node :: l, S k)
  end.

(** [_fix_order(hlist, helement_node)], the element being the one at
    position [i]; returns the list and the position the element ended at. *)
Definition _fix_order (hlist : hlist_t) (i : nat) : hlist_t * nat :=
  match drop i (hl_list hlist) with
  | [] => (hlist, i)
  | helement_node :: rest =>
    let '(l, k) := fix_order_from helement_node rest in
    ({| hl_list := take i (hl_list hlist) ++ l; hl_count := hl_count hlist |},
     (i + k)%nat)
  end.

Definition hlist_count (hlist : option hlist_t) : Z :=
  match hlist with
  | Some h => hl_count h
  | None => LIST_BAD_COUNT
  end.

Definition _remove (hlist : hlist_t) : hlist_t :=
  if hlist_count (Some hlist) <? 2 then hlist
  else
    match hl_list hlist with
    | first_temp :: second_temp :: third_temp =>
      {| hl_list := third_temp; hl_count := u64 (hl_count hlist - 2) |}
    | _ => hlist
    end.

Definition hlist_create : hlist_t :=
  {| hl_list := []; hl_count := DEFAULT_LIST_COUNT |}.

(** Returns the list and the created or modified element, as its position
    in the list ([None] when [_add] failed). *)
Definition hlist_add_increment_element (hlist : hlist_t) (element0 frequency0 : Z)
  : hlist_t * option nat :=
  let '(special_element, leaf_node_flag) :=
    if (element0 =? LIST_SPECIAL_ELEMENT)
       && negb (frequency0 =? SPECIAL_ELEMENT_FREQUENCY)
    then (true, 0) else (false, 1) in
  let helement_node := _search hlist element0 in
  let added :=
    match helement_node, special_element with
    | Some i, false =>
      Some ({| hl_list :=
                 alter (fun n => {| element := element n;
                                    leaf_node := leaf_node n;
                                    left_child := left_child n;
                                    right_child := right_child n;
                                    frequency := u64 (frequency n + 1) |})
                       i (hl_list hlist);
               hl_count := hl_count hlist |}, i)
    | _, _ =>
      let '(hlist, err) := _add hlist element0 leaf_node_flag frequency0 in
      if negb (err =? 0) then None else Some (hlist, O)
    end in
  match added with
  | None => (hlist, None)
  | Some (hlist, helement_node) =>
    let '(hlist, i) := _fix_order hlist helement_node in
    (hlist, Some i)
  end.

(** Returns the code, the two elements taken and the list. *)
Definition hlist_get_two_min (hlist : option hlist_t)
  : Z * option (helement_t * helement_t) * option hlist_t :=
  match hlist with
  | None => (-1, None, None)
  | Some h =>
    let count := hlist_count hlist in
    if (2 <=? count) && negb (count =? LIST_BAD_COUNT) then
      match hl_list h with
      | first :: second :: _ => (0, Some (first, second), Some (_remove h))
      | _ => (0, None, Some (_remove h))
      end
    else (-2, None, hlist)
  end.

(** ** huffman_tree.h, huffman_tree.c *)

Definition DEFAULT_TREE_COUNT : Z := 0.
Definition DEFAULT_PARSE_BIT : Z := 0.
Definition TREE_BAD_COUNT : Z := 2 ^ 64 - 1.
Definition TREE_MAX_TABLE_SIZE : Z := 256.

Definition TREE_INPUT_ROOT_ELEMENT_INDEX : Z := 0.
Definition TREE_INPUT_COUNT_OFFSET : Z := 0.
Definition TREE_INPUT_COUNT_SIZE : Z := 8.
Definition TREE_INPUT_ELEMENT_SIZE : Z := 1.
Definition TREE_INPUT_LEAFNODE_SIZE : Z := 1.
Definition TREE_INPUT_OBJECT_SIZE : Z :=
  TREE_INPUT_ELEMENT_SIZE + TREE_INPUT_LEAFNODE_SIZE.
Definition TREE_INPUT_OBJECT_OFFSET (element : Z) : Z :=
  u64 (TREE_INPUT_COUNT_OFFSET + TREE_INPUT_COUNT_SIZE
       + element * TREE_INPUT_OBJECT_SIZE).
Definition TREE_INPUT_ELEMENT_OFFSET (element : Z) : Z :=
  TREE_INPUT_OBJECT_OFFSET element.
Definition TREE_INPUT_LEAFNODE_OFFSET (element : Z) : Z :=
  u64 (TREE_INPUT_OBJECT_OFFSET element + TREE_INPUT_LEAFNODE_SIZE).

Record htree_t := {
  root : option helement_t;
  count : Z;
  _parsed : Z
}.

(** The opcode table: 256 string pointers. *)
Abbreviation opcode_table_t := (list (option string)).

Definition with_left_child (n : helement_t) (c : option helement_t) : helement_t :=
  {| element := element n; leaf_node := leaf_node n; left_child := c;
     right_child := right_child n; frequency := frequency n |}.

Definition with_right_child (n : helement_t) (c : option helement_t) : helement_t :=
  {| element := element n; leaf_node := leaf_node n; left_child := left_child n;
     right_child := c; frequency := frequency n |}.

(** [_parse]: the table and the count afterwards.  [opcode_string] is
    restored by the callee before it returns, so it is passed by value.  In C
    it is a pointer into a block whose size the function does not know:
    [parse_in_block], below, says when no [strcat] writes past that block,
    and [_parse] is the behaviour of the C function in that case. *)
Fixpoint _parse (helement_node : helement_t) (opcode_table : opcode_table_t)
    (opcode_string : string) (count : Z) : opcode_table_t * Z :=
  let count := u64 (count + 1) in
  if negb (leaf_node helement_node =? 0) then
    (<[Z.to_nat (element helement_node) := Some opcode_string]> opcode_table,
     count)
  else
    let '(opcode_table, count) :=
      match left_child helement_node with
      | Some l => _parse l opcode_table (opcode_string +:+ "0") count
      | None => (opcode_table, count)
      end in
    match right_child helement_node with
    | Some r => _parse r opcode_table (opcode_string +:+ "1") count
    | None => (opcode_table, count)
    end.

Fixpoint _output (helement_node : helement_t) (fd : file) (offset : Z)
  : file * Z :=
  let size_to_write := 1 in
  let '(fd, bytes_written) := pwrite fd [element helement_node] offset in
  if bytes_written <? size_to_write then (fd, -1)
  else
    let offset := u64 (offset + bytes_written) in
    let '(fd, bytes_written) := pwrite fd [leaf_node helement_node] offset in
    if bytes_written <? size_to_write then (fd, -1)
    else
      let offset := u64 (offset + bytes_written) in
      let ret := ssize_t offset in
      let right_subtree (fd : file) (ret : Z) : file * Z :=
        match right_child helement_node with
        | Some r =>
          let '(fd, ret) := _output r fd (u64 ret) in
          if ret =? -1 then (fd, -1) else (fd, ret)
        | None => (fd, ret)
        end in
      match left_child helement_node with
      | Some l =>
        let '(fd, ret) := _output l fd offset in
        if ret =? -1 then (fd, -1) else right_subtree fd ret
      | None => right_subtree fd ret
      end.

Definition _input_object (fd : file) (index : Z) : option helement_t :=
  let element_offset := TREE_INPUT_ELEMENT_OFFSET index in
  let leaf_flag_offset := TREE_INPUT_LEAFNODE_OFFSET index in
  let '(buf, bytes_read) := pread fd 1 element_offset in
  if bytes_read <? TREE_INPUT_ELEMENT_SIZE then None
  else
    let element := byte_at buf 0 in
    let '(buf, bytes_read) := pread fd 1 leaf_flag_offset in
    if bytes_read <? TREE_INPUT_LEAFNODE_SIZE then None
    else
      let leaf_flag := byte_at buf 0 in
      Some (helement_create element leaf_flag SPECIAL_ELEMENT_FREQUENCY).

(** [_input]: the element afterwards and the returned index.  The recursion
    follows the file, not a structure of the model, so it is bounded by
    [fuel]; [None] is returned when the bound is hit.  The [htree] argument
    of the C function is never used and is left out. *)
Fixpoint _input (fuel : nat) (fd : file) (helement_node : helement_t)
    (index leaf_flag : Z) : option (helement_t * Z) :=
  match fuel with
  | O => None
  | S fuel =>
    if negb (leaf_flag =? 0) then Some (helement_node, index)
    else
      let leftc_index := u64 (index + 1) in
      match _input_object fd leftc_index with
      | None => Some (helement_node, TREE_BAD_COUNT)
      | Some left_child =>
        let child_leaf_flag := leaf_node left_child in
        match _input fuel fd left_child leftc_index child_leaf_flag with
        | None => None
        | Some (left_child, rightc_index) =>
          let helement_node := with_left_child helement_node (Some left_child) in
          if rightc_index =? TREE_BAD_COUNT
          then Some (helement_node, TREE_BAD_COUNT)
          else
            let rightc_index := u64 (rightc_index + 1) in
            match _input_object fd rightc_index with
            | None => Some (helement_node, TREE_BAD_COUNT)
            | Some right_child =>
              let child_leaf_flag := leaf_node right_child in
              match _input fuel fd right_child rightc_index child_leaf_flag with
              | None => None
              | Some (right_child, ret) =>
                Some (with_right_child helement_node (Some right_child), ret)
              end
            end
        end
      end
  end.

Definition htree_create : htree_t :=
  {| root := None; count := DEFAULT_TREE_COUNT; _parsed := DEFAULT_PARSE_BIT |}.

(** Returns the tree afterwards and the returned pointer. *)
Definition htree_add_element (htree : option htree_t)
    (helement_node : option helement_t) : option htree_t * option helement_t :=
  match htree with
  | None => (None, None)
  | Some t =>
    (Some (match root t with
           | None => {| root := helement_node; count := u64 (count t + 1);
                        _parsed := 0 |}
           | Some _ => {| root := root t; count := count t; _parsed := 0 |}
           end),
     helement_node)
  end.

Definition htree_count (htree : option htree_t) : Z := 0.

(** Returns the parent afterwards and the code.  [right_child] is
    dereferenced without a test: [None] stands for that access through
    [NULL]. *)
Definition htree_connect (parent : option helement_t)
    (left_child0 right_child0 : option helement_t)
  : option (option helement_t * Z) :=
  match parent with
  | None => Some (None, -1)
  | Some p =>
    if negb (leaf_node p =? 0) then Some (parent, -2)
    else
      match right_child0 with
      | None => None
      | Some r =>
        if negb (leaf_node r =? 0)
        then Some (Some (with_right_child (with_left_child p left_child0)
                                          right_child0), 0)
        else Some (Some (with_right_child (with_left_child p right_child0)
                                          left_child0), 0)
      end
  end.

(** [htree_parse] allocates [MAX_OPCODE] bytes for [opcode_string]. *)
Definition MAX_OPCODE : Z := 256.

(** [strcat] on a string of [len] characters writes the bytes [len] and
    [len + 1] of the block.  [parse_in_block n len]: no [strcat] of [_parse]
    on the node [n], entered with a string of [len] characters, writes past
    the [MAX_OPCODE] bytes. *)
Fixpoint parse_in_block (helement_node : helement_t) (len : Z) : bool :=
  if negb (leaf_node helement_node =? 0) then true
  else
    match left_child helement_node with
    | Some l => (len + 1 <? MAX_OPCODE) && parse_in_block l (len + 1)
    | None => true
    end
    && match right_child helement_node with
       | Some r => (len + 1 <? MAX_OPCODE) && parse_in_block r (len + 1)
       | None => true
       end.

(** The table [htree_parse] starts from: every pointer is [NULL]. *)
Definition empty_opcode_table : opcode_table_t :=
  replicate (Z.to_nat TREE_MAX_TABLE_SIZE) None.

(** Returns the tree afterwards and the table.  The behaviour of the C
    function is undefined when [htree_parse_in_block] does not hold. *)
Definition htree_parse (htree : option htree_t)
  : option htree_t * option opcode_table_t :=
  match htree with
  | None => (None, None)
  | Some t =>
    match root t with
    | None => (htree, None)
    | Some r =>
      let opcode_table := empty_opcode_table in
      let opcode_string := EmptyString in
      let '(opcode_table, count) := _parse r opcode_table opcode_string 0 in
      (Some {| root := root t; count := count; _parsed := 1 |},
       Some opcode_table)
    end
  end.

(** No opcode of the tree needs more than the block of [htree_parse]. *)
Definition htree_parse_in_block (htree : option htree_t) : bool :=
  match htree with
  | Some {| root := Some r |} => parse_in_block r 0
  | _ => true
  end.

(** Returns the file and the code; [None] stands for the access through a
    [NULL] root. *)
Definition htree_output (htree : option htree_t) (fd : file) (offset : Z)
  : option (file * Z) :=
  match htree with
  | None => Some (fd, -1)
  | Some t =>
    if _parsed t =? 0 then Some (fd, -2)
    else if count t <? 1 then Some (fd, -3)
    else
      let size_to_write := 8 in
      let '(fd, bytes_written) := write fd (u64_bytes (count t)) in
      if bytes_written <? size_to_write then Some (fd, -4)
      else
        let offset := u64 (offset + size_to_write) in
        match root t with
        | None => None
        | Some r =>
          let '(fd, ret) := _output r fd offset in
          if ret =? -1 then Some (fd, -5) else Some (fd, ret)
        end
  end.

(** The bound given to [_input]: no more elements are read than the file
    has bytes. *)
Definition input_fuel (fd : file) : nat := S (length (fd_data fd)).

Definition htree_input (fd : file) : file * option htree_t :=
  let ROOT_LEAF_FLAG := 0 in
  let this_tree := htree_create in
  let '(fd, buf, bytes_read) := read fd 8 in
  if bytes_read <? TREE_INPUT_COUNT_SIZE then (fd, None)
  else
    let count := u64_of_bytes buf in
    match _input_object fd TREE_INPUT_ROOT_ELEMENT_INDEX with
    | None => (fd, None)
    | Some helement_node =>
      let helement_node :=
        match _input (input_fuel fd) fd helement_node
                     TREE_INPUT_ROOT_ELEMENT_INDEX ROOT_LEAF_FLAG with
        | Some (helement_node, _) => helement_node
        | None => helement_node
        end in
      (fd, Some {| root := Some helement_node; count := count;
                   _parsed := _parsed this_tree |})
    end.

(** Returns the node stepped to and the value left in [*element];
    [None] stands for the access through a [NULL] child. *)
Definition htree_state_step (htree : option htree_t)
    (helement_node : option helement_t) (element0 : Z) (opcode : Z)
  : option (option helement_t * Z) :=
  let LEFT_OPCODE := 0 in
  let RIGHT_OPCODE := 1 in
  match htree, helement_node with
  | None, _ => Some (None, element0)
  | _, None => Some (None, element0)
  | Some t, Some n =>
    if (RIGHT_OPCODE <? opcode) || (opcode <? LEFT_OPCODE)
    then Some (None, element0)
    else
      let helement_node :=
        if opcode =? LEFT_OPCODE then left_child n else right_child n in
      match helement_node with
      | None => None
      | Some c =>
        if negb (leaf_node c =? 0) then Some (root t, element c)
        else Some (helement_node, -1)
      end
  end.

(** ** huffman.c *)

Definition FLAG_ENCODE : Z := 0.
Definition FLAG_DECODE : Z := 1.
Definition FLAG_ASCII : Z := 2.
Definition FLAG_PRINT : Z := 3.
Definition FLAG_HELP : Z := 4.
Definition FLAG_INPUT : Z := 5.
Definition FLAG_OUTPUT : Z := 6.
Definition FLAG_LENGTH : Z := 7.

(** How [huffman_encode] and [huffman_decode] end. *)
Inductive outcome : Type :=
  | Return (code : Z)            (* [return code;] *)
  | ErrorDebug (what : string)   (* [ERROR_DEBUG(...)]: prints, returns [errno] *)
  | Undefined (what : string).   (* the C behaviour is undefined from here *)

(** How a loop of the pipelines ends: normally with its state, by leaving
    the function, or at the bound of the model. *)
Inductive loop (A : Type) : Type :=
  | Done (a : A)
  | Leave (o : outcome)
  | OutOfFuel.
Arguments Done {A} a.
Arguments Leave {A} o.
Arguments OutOfFuel {A}.

(** [array_append]: a buffer and its length are the list of its bytes; the
    [NULL] buffer of length 0 is the empty list. *)
Definition array_append (dest src : list Z) : list Z := dest ++ src.

(** The block [array_append] leaves has room for the bytes of the buffer and
    no more, and [printf] with the conversion s reads through it up to a
    zero byte: the call is defined when the buffer holds one. *)
Definition terminated (buf : list Z) : bool := existsb (Z.eqb 0) buf.

Definition string_bytes (s : string) : list Z :=
  map (fun c => Z.of_nat (nat_of_ascii c)) (list_ascii_of_string s).

Section Pipelines.

Variable fresh : nat -> Z.

(** The global [flags]. *)
Variable flags : option bvector_t.

(** First loop of [huffman_encode]: one [read] per byte of the input. *)
Fixpoint distribution_loop (input : list Z) (distribution_list : hlist_t)
  : loop hlist_t :=
  match input with
  | [] => Done distribution_list
  | element :: rest =>
    let '(distribution_list, temp_ptr) :=
      hlist_add_increment_element distribution_list element
                                  SPECIAL_ELEMENT_FREQUENCY in
    match temp_ptr with
    | None => Leave (ErrorDebug "Error On Add/Increment {distribution_list}")
    | Some _ => distribution_loop rest distribution_list
    end
  end.

(** Second loop of [huffman_encode].  [parent] is a pointer into the list:
    a position, or [None] as long as the variable has not been assigned. *)
Fixpoint merge_loop (fuel : nat) (distribution_list : hlist_t)
    (parent : option nat) : loop (hlist_t * option nat) :=
  match fuel with
  | O => OutOfFuel
  | S fuel =>
    match hlist_get_two_min (Some distribution_list) with
    | (ret, mins, Some distribution_list') =>
      if ret <? 0 then Done (distribution_list', parent)
      else
        match mins with
        | None => Leave (Undefined "min_first read through NULL")
        | Some (min_first, min_second) =>
          let combined_frequency :=
            u64 (frequency min_first + frequency min_second) in
          let '(distribution_list', parent) :=
            hlist_add_increment_element distribution_list'
              LIST_SPECIAL_ELEMENT combined_frequency in
          match parent with
          | None =>
            Leave (ErrorDebug "Error On Add/Increment {distribution_list, frequency}")
          | Some i =>
            match htree_connect (hl_list distribution_list' !! i)
                                (Some min_first) (Some min_second) with
            | None => Leave (Undefined "right_child read through NULL")
            | Some (parent', ret) =>
              let distribution_list' :=
                {| hl_list :=
                     match parent' with
                     | Some p => <[i := p]> (hl_list distribution_list')
                     | None => hl_list distribution_list'
                     end;
                   hl_count := hl_count distribution_list' |} in
              if negb (ret =? 0)
              then Leave (ErrorDebug "Error On Connection {parent}")
              else merge_loop fuel distribution_list' (Some i)
            end
          end
        end
    | (_, _, None) => Leave (Undefined "distribution_list is NULL")
    end
  end.

(** The loop that fills [vector_opcode_table]. *)
Fixpoint vector_table_loop (ascii_opcode_table : opcode_table_t)
  : loop (list (option bvector_t)) :=
  match ascii_opcode_table with
  | [] => Done []
  | entry :: rest =>
    let converted :=
      match entry with
      | None => Done None
      | Some s =>
        match bvector_convert fresh s with
        | None => Leave (ErrorDebug "Error On Convert {vector_opcode_table}")
        | Some v => Done (Some v)
        end
      end in
    match converted with
    | Done v =>
      match vector_table_loop rest with
      | Done vs => Done (v :: vs)
      | other => other
      end
    | Leave o => Leave o
    | OutOfFuel => OutOfFuel
    end
  end.

(** Third loop of [huffman_encode], bit mode: one [read] per byte. *)
Fixpoint vector_opcodes_loop (input : list Z)
    (vector_opcode_table : list (option bvector_t))
    (vector_opcodes : option bvector_t) : option bvector_t :=
  match input with
  | [] => vector_opcodes
  | element :: rest =>
    vector_opcodes_loop rest vector_opcode_table
      (bvector_append_vector fresh vector_opcodes
         (mjoin (vector_opcode_table !! Z.to_nat element))
         VECTOR_FLAG_FULL).1
  end.

(** Third loop of [huffman_encode], text mode. *)
Fixpoint ascii_opcodes_loop (input : list Z)
    (ascii_opcode_table : opcode_table_t) (ascii_opcodes : list Z)
  : loop (list Z) :=
  match input with
  | [] => Done ascii_opcodes
  | element :: rest =>
    match mjoin (ascii_opcode_table !! Z.to_nat element) with
    | None => Leave (Undefined "strlen(NULL)")
    | Some s =>
      ascii_opcodes_loop rest ascii_opcode_table
                         (array_append ascii_opcodes (string_bytes s))
    end
  end.

(** [huffman_encode(in_fd, out_fd)].  [input] is the content of the input
    file, which the function reads twice from the start.  With -p the
    opcodes are printed: in bit mode by [bvector_print], which reads the bits
    below the cursor through [bvector_check_bit]; in text mode by [printf]
    from the buffer of [array_append], which no zero byte ends. *)
Definition huffman_encode (input : list Z) (out_fd : file) : file * outcome :=
  let ascii_set := bvector_check_bit flags FLAG_ASCII in
  let print_set := bvector_check_bit flags FLAG_PRINT in
  match distribution_loop input hlist_create with
  | Leave o => (out_fd, o)
  | OutOfFuel => (out_fd, Undefined "bound of the model")
  | Done distribution_list =>
    match merge_loop (S (length (hl_list distribution_list)))
                     distribution_list None with
    | Leave o => (out_fd, o)
    | OutOfFuel => (out_fd, Undefined "bound of the model")
    | Done (distribution_list, parent) =>
      match parent with
      | None => (out_fd, Undefined "parent is read before it is assigned")
      | Some i =>
        let parent := hl_list distribution_list !! i in
        let distribution_tree := Some htree_create in
        let '(distribution_tree, temp_ptr) :=
          htree_add_element distribution_tree parent in
        match temp_ptr with
        | None => (out_fd, ErrorDebug "Error On Add {distribution_tree: parent}")
        | Some _ =>
          if negb (htree_parse_in_block distribution_tree)
          then (out_fd, Undefined "strcat writes past opcode_string")
          else
          let '(distribution_tree, ascii_opcode_table) :=
            htree_parse distribution_tree in
          match ascii_opcode_table with
          | None =>
            (out_fd, ErrorDebug "Error On Parse {distribution_tree: ascii_opcode_table}")
          | Some ascii_opcode_table =>
            (* the vector opcodes, when the ASCII flag is off *)
            let vectors :=
              if ascii_set =? VECTOR_BIT_OFF then
                match bvector_create 1 with
                | None => Leave (ErrorDebug "Error On Create {vector_opcodes}")
                | Some vector_opcodes =>
                  match vector_table_loop ascii_opcode_table with
                  | Done t => Done (Some (vector_opcodes, t))
                  | Leave o => Leave o
                  | OutOfFuel => OutOfFuel
                  end
                end
              else Done None in
            match vectors with
            | Leave o => (out_fd, o)
            | OutOfFuel => (out_fd, Undefined "bound of the model")
            | Done vectors =>
              match htree_output distribution_tree out_fd 0 with
              | None => (out_fd, Undefined "root read through NULL")
              | Some (out_fd, offset) =>
                if offset <? 0
                then (out_fd, ErrorDebug "Error On Output {distribution_tree}")
                else if ascii_set =? VECTOR_BIT_SET then
                  match ascii_opcodes_loop input ascii_opcode_table [] with
                  | Leave o => (out_fd, o)
                  | OutOfFuel => (out_fd, Undefined "bound of the model")
                  | Done ascii_opcodes =>
                    let '(out_fd, bytes_written) :=
                      pwrite out_fd ascii_opcodes offset in
                    if bytes_written <? Z.of_nat (length ascii_opcodes)
                    then (out_fd, ErrorDebug "Error On Write {out_fd}")
                    else if (print_set =? VECTOR_BIT_SET)
                            && negb (terminated ascii_opcodes)
                    then (out_fd, Undefined "printf reads past ascii_opcodes")
                    else (out_fd, Return 0)
                  end
                else
                  match vectors with
                  | None =>
                    match input with
                    | [] => (out_fd, Return 0)
                    | _ :: _ =>
                      (out_fd, Undefined "vector_opcodes is read before it is assigned")
                    end
                  | Some (vector_opcodes, vector_opcode_table) =>
                    let vector_opcodes :=
                      vector_opcodes_loop input vector_opcode_table
                                          (Some vector_opcodes) in
                    ((bvector_output vector_opcodes out_fd offset
                                     VECTOR_FLAG_STREAM).1, Return 0)
                  end
              end
            end
          end
        end
      end
    end
  end.

(** The loop of [huffman_decode] that reads the text opcodes byte by byte. *)
Fixpoint ascii_read_loop (fuel : nat) (in_fd : file) (offset : Z)
    (ascii_opcodes : list Z) : loop (list Z) :=
  match fuel with
  | O => OutOfFuel
  | S fuel =>
    let '(buf, bytes_read) := pread in_fd 1 offset in
    if 0 <? bytes_read
    then ascii_read_loop fuel in_fd (offset + 1) (array_append ascii_opcodes buf)
    else Done ascii_opcodes
  end.

(** The state of the stepping loop of [huffman_decode]. *)
Record stepping := {
  temp_ptr : option helement_t;
  decoded_element : Z;
  decoded_string : list Z
}.

(** The stepping loop from [i] on, [n] opcodes being left; [None] stands for
    an access through [NULL] inside [htree_state_step]. *)
Fixpoint state_step_loop (n : nat) (i : Z) (ascii_set : Z)
    (ascii_opcodes : list Z) (vector_opcodes : option bvector_t)
    (constructed_tree : option htree_t) (st : stepping) : option stepping :=
  match n with
  | O => Some st
  | S n =>
    let opcode :=
      if negb (ascii_set =? 0) then byte_at ascii_opcodes i - 48
      else bvector_check_bit vector_opcodes i in
    match htree_state_step constructed_tree (temp_ptr st)
                           (decoded_element st) opcode with
    | None => None
    | Some (temp_ptr, decoded_element) =>
      let decoded_string :=
        if 0 <=? decoded_element
        then array_append (decoded_string st) [u8 decoded_element]
        else decoded_string st in
      state_step_loop n (i + 1) ascii_set ascii_opcodes vector_opcodes
        constructed_tree
        {| temp_ptr := temp_ptr; decoded_element := decoded_element;
           decoded_string := decoded_string |}
    end
  end.

(** What [huffman_decode] reads before it steps: the tree, the text opcodes
    and the vector opcodes ([None] while [vector_opcodes] is unassigned).
    With -p the opcodes are printed, in text mode by [printf] from the
    buffer of [array_append]. *)
Definition decode_input (in_fd : file)
  : loop (htree_t * list Z * option bvector_t) :=
  let ascii_set := bvector_check_bit flags FLAG_ASCII in
  let print_set := bvector_check_bit flags FLAG_PRINT in
  let '(in_fd, constructed_tree) := htree_input in_fd in
  match constructed_tree with
  | None => Leave (ErrorDebug "Error On Input {constructed_tree}")
  | Some t =>
    let offset := ssize_t (TREE_INPUT_OBJECT_OFFSET (count t)) in
    if ascii_set =? VECTOR_BIT_OFF then
      match bvector_input in_fd (u64 offset) with
      | None => Leave (ErrorDebug "Error On Input {vector_opcodes}")
      | Some v => Done (t, [], Some v)
      end
    else
      match ascii_read_loop (S (length (fd_data in_fd))) in_fd (u64 offset) [] with
      | Done ascii_opcodes =>
        if (print_set =? VECTOR_BIT_SET) && negb (terminated ascii_opcodes)
        then Leave (Undefined "printf reads past ascii_opcodes")
        else Done (t, ascii_opcodes, None)
      | Leave o => Leave o
      | OutOfFuel => OutOfFuel
      end
  end.

(** The stepping of [huffman_decode] over what [decode_input] gave. *)
Definition decode_steps (t : htree_t) (ascii_opcodes : list Z)
    (vector_opcodes : option bvector_t) : loop stepping :=
  let ascii_set := bvector_check_bit flags FLAG_ASCII in
  let opcode_loop_size :=
    if ascii_set =? VECTOR_BIT_SET then Some (Z.of_nat (length ascii_opcodes))
    else match vector_opcodes with
         | Some _ => Some (bvector_get_size vector_opcodes VECTOR_FLAG_STREAM)
         | None => None
         end in
  match opcode_loop_size with
  | None => Leave (Undefined "vector_opcodes is read before it is assigned")
  | Some opcode_loop_size =>
    match state_step_loop (Z.to_nat opcode_loop_size) 0 ascii_set
            ascii_opcodes vector_opcodes (Some t)
            {| temp_ptr := root t; decoded_element := -1;
               decoded_string := [] |} with
    | None => Leave (Undefined "leaf_node read through NULL")
    | Some st => Done st
    end
  end.

(** [huffman_decode(in_fd, out_fd)]. *)
Definition huffman_decode (in_fd out_fd : file) : file * outcome :=
  match decode_input in_fd with
  | Leave o => (out_fd, o)
  | OutOfFuel => (out_fd, Undefined "bound of the model")
  | Done (constructed_tree, ascii_opcodes, vector_opcodes) =>
    match decode_steps constructed_tree ascii_opcodes vector_opcodes with
    | Leave o => (out_fd, o)
    | OutOfFuel => (out_fd, Undefined "bound of the model")
    | Done st =>
      let '(out_fd, bytes_written) := write out_fd (decoded_string st) in
      if bytes_written <? Z.of_nat (length (decoded_string st))
      then (out_fd, ErrorDebug "Error On Write {out_fd}")
      else (out_fd, Return 0)
    end
  end.

End Pipelines.

(** ** huffman.c: the command line *)

(** What one call of [getopt(count, arg_val, "i:o:aphed")] leaves: its return
    value and the globals [optarg] and [optopt].  [set_flags] is given the
    calls in order; the call that returns -1 ends the list. *)
Record getopt_t := {
  opt_option : Z;
  optarg : option string;
  optopt : Z
}.

(** The globals of huffman.c. *)
Record globals_t := {
  flags : option bvector_t;
  input_filename : option string;
  output_filename : option string
}.

(** How a function ends that can call [print_usage], which calls [exit]. *)
Inductive ending : Type :=
  | Returned (code : Z)     (* [return code;] *)
  | Exited (status : Z).    (* [exit(status);] *)

Definition print_usage (retval : Z) : ending := Exited retval.

Definition with_flags (g : globals_t) (f : option bvector_t) : globals_t :=
  {| flags := f; input_filename := input_filename g;
     output_filename := output_filename g |}.

(** The body of the [switch] of [set_flags]: the globals afterwards, and how
    the function ends when the case does not [break]. *)
Definition set_flags_case (o : getopt_t) (g : globals_t)
  : globals_t * option ending :=
  let c := opt_option o in
  if c =? 105 (* 'i' *) then
    if bvector_check_bit (flags g) FLAG_INPUT =? VECTOR_BIT_SET
    then (g, Some (Returned (-1)))
    else ({| flags := (bvector_set_bit (flags g) FLAG_INPUT).1;
             input_filename := optarg o;
             output_filename := output_filename g |}, None)
  else if c =? 111 (* 'o' *) then
    if bvector_check_bit (flags g) FLAG_OUTPUT =? VECTOR_BIT_SET
    then (g, Some (Returned (-2)))
    else ({| flags := (bvector_set_bit (flags g) FLAG_OUTPUT).1;
             input_filename := input_filename g;
             output_filename := optarg o |}, None)
  else if c =? 101 (* 'e' *) then
    if bvector_check_bit (flags g) FLAG_ENCODE =? VECTOR_BIT_SET
    then (g, Some (Returned (-3)))
    else (with_flags g (bvector_set_bit (flags g) FLAG_ENCODE).1, None)
  else if c =? 100 (* 'd' *) then
    if bvector_check_bit (flags g) FLAG_DECODE =? VECTOR_BIT_SET
    then (g, Some (Returned (-4)))
    else (with_flags g (bvector_set_bit (flags g) FLAG_DECODE).1, None)
  else if c =? 97 (* 'a' *) then
    (with_flags g (bvector_set_bit (flags g) FLAG_ASCII).1, None)
  else if c =? 112 (* 'p' *) then
    (with_flags g (bvector_set_bit (flags g) FLAG_PRINT).1, None)
  else if c =? 104 (* 'h' *) then
    (g, Some (print_usage 0))
  else if c =? 63 (* '?' *) then
    if optopt o =? 105 then (g, Some (Returned (-1)))
    else if optopt o =? 111 then (g, Some (Returned (-2)))
    else (g, Some (Returned (-5)))
  else (g, Some (Returned (-6))).

Fixpoint set_flags_loop (options : list getopt_t) (g : globals_t)
  : globals_t * option ending :=
  match options with
  | [] => (g, None)
  | o :: rest =>
    if opt_option o =? -1 then (g, None)
    else
      match set_flags_case o g with
      | (g', None) => set_flags_loop rest g'
      | leaves => leaves
      end
  end.

(** [set_flags(count, arg_val)]. *)
Definition set_flags (options : list getopt_t) (g : globals_t)
  : globals_t * ending :=
  match set_flags_loop options g with
  | (g', Some e) => (g', e)
  | (g', None) =>
    if (bvector_check_bit (flags g') FLAG_ENCODE =? VECTOR_BIT_OFF)
       && (bvector_check_bit (flags g') FLAG_DECODE =? VECTOR_BIT_OFF)
    then (g', Returned (-7))
    else
      match input_filename g', output_filename g' with
      | Some _, Some _ => (g', Returned 0)
      | _, _ => (g', Returned (-8))
      end
  end.

(** ** huffman.c: [main] *)

(** How the process ends: by [exit], or by the [return] of [main]. *)
Inductive process_end : Type :=
  | Exit (status : Z)
  | FromMain (o : outcome).

(** [main(argc, argv)].  [path] is the file a name leads to when [open]
    follows it (two names, such as a and ./a, can lead to one file), and
    [files] holds the content of every file: every file that exists can be
    opened for reading and every name can be opened for writing; [limit] is
    the size beyond which a write to a file comes back short.  The input is
    opened before the output is created and truncated, and is read
    afterwards: when both names lead to the same file the pipelines read an
    empty input. *)
Definition main (fresh : nat -> Z) (path : string -> string) (limit : Z)
    (options : list getopt_t) (files : gmap string (list Z))
  : gmap string (list Z) * process_end :=
  match bvector_create FLAG_LENGTH with
  | None => (files, FromMain (ErrorDebug "Error On bvector_create {flags}"))
  | Some b =>
    let '(g, ret) :=
      set_flags options {| flags := Some b; input_filename := None;
                           output_filename := None |} in
    match ret with
    | Exited status => (files, Exit status)
    | Returned ret =>
      if ret <? 0 then (files, Exit (-1))
      else
        match input_filename g ≫= (fun name => files !! path name) with
        | None => (files, FromMain (ErrorDebug "Error On Open {input_fd: -1}"))
        | Some _ =>
          match output_filename g with
          | None =>
            (files, FromMain (ErrorDebug "Error On Open {output_fd: -1}"))
          | Some output =>
            let files := <[path output := []]> files in
            let in_fd :=
              {| fd_data :=
                   default [] (input_filename g
                                 ≫= (fun name => files !! path name));
                 fd_pos := 0; fd_limit := limit |} in
            let out_fd := {| fd_data := []; fd_pos := 0; fd_limit := limit |} in
            let '(out_fd, o) :=
              if bvector_check_bit (flags g) FLAG_ENCODE =? VECTOR_BIT_SET
              then huffman_encode fresh (flags g) (fd_data in_fd) out_fd
              else huffman_decode (flags g) in_fd out_fd in
            (<[path output := fd_data out_fd]> files, FromMain o)
          end
        end
    end
  end.

(** * Notions used by the statements *)

(** ** Bit vectors *)

(** The bits of a vector as [bvector_check_bit] reads them, over the whole
    capacity. *)
Definition stored_bits (b : bvector_t) : list Z :=
  map (fun i : nat => bvector_check_bit (Some b) (Z.of_nat i))
      (seq 0 (Z.to_nat (vector_length b))).

(** The characters '0' and '1' of a string, in order, as bits. *)
Fixpoint binary_digits (s : string) : list Z :=
  match s with
  | EmptyString => []
  | String c rest =>
    if Ascii.eqb c "0"%char then 0 :: binary_digits rest
    else if Ascii.eqb c "1"%char then 1 :: binary_digits rest
    else binary_digits rest
  end.

(** What the specification says of [bvector_convert] on [s]. *)
Definition convert_claim (fresh : nat -> Z) (s : string) : Prop :=
  exists b,
    bvector_convert fresh s = Some b
    /\ stored_bits b = binary_digits s
    /\ vector_length b = Z.of_nat (length (binary_digits s))
    /\ working_index b = vector_length b.

(** A block that never hands out a set bit when it grows. *)
Definition zero_fresh (i : nat) : Z := 0.

(** The storage of a vector has the size [bvector_create] and
    [bvector_resize] give it, and the cursor is within the capacity. *)
Definition bvector_sized (b : bvector_t) : Prop :=
  length (vector b) = Z.to_nat (vector_length b / VECTOR_BYTE_SIZE + 1)
  /\ 0 <= working_index b <= vector_length b.

(** The number of storage bytes after the header: as the specification has
    it, and as [bvector_output] computes it. *)
Definition ceil_bytes (header : Z) : Z := (header + 7) / 8 + 1.
Definition floor_bytes (header : Z) : Z := header / 8 + 1.

(** The file and the return value when the header and then [bytes_for
    header] storage bytes are written from [offset] on. *)
Definition output_of (bytes_for : Z -> Z) (b : bvector_t) (fd : file)
    (offset flag : Z) : file * Z :=
  let header := bvector_get_size (Some b) flag in
  let n := bytes_for header in
  ({| fd_data :=
        store (store (fd_data fd) (Z.to_nat offset) (u64_bytes header))
              (Z.to_nat (offset + 8)) (take (Z.to_nat n) (vector b));
      fd_pos := fd_pos fd;
      fd_limit := fd_limit fd |},
   offset + 8 + n).

Definition output_claim (bytes_for : Z -> Z) (b : bvector_t) (fd : file)
    (offset flag : Z) : Prop :=
  bvector_output (Some b) fd offset flag = output_of bytes_for b fd offset flag.

(** ** Frequency lists *)

Fixpoint ascending (l : list helement_t) : bool :=
  match l with
  | [] => true
  | a :: rest =>
    match rest with
    | [] => true
    | b :: _ => (frequency a <=? frequency b) && ascending rest
    end
  end.

Definition head_is_minimum (l : list helement_t) : Prop :=
  match l with
  | [] => True
  | h :: _ => Forall (fun n => frequency h <= frequency n) l
  end.

(** What the specification says of the order after a call. *)
Definition order_claim (hlist : hlist_t) (element frequency : Z) : Prop :=
  ascending (hl_list hlist) = true ->
  let l := hl_list (hlist_add_increment_element hlist element frequency).1 in
  ascending l = true /\ head_is_minimum l.

(** No frequency of the list is at the top of its type. *)
Definition below_top (l : list helement_t) : Prop :=
  Forall (fun n => 0 <= frequency n < 2 ^ 64 - 1) l.

(** ** Trees *)

Fixpoint size (n : helement_t) : nat :=
  S (match left_child n with Some l => size l | None => O end
     + match right_child n with Some r => size r | None => O end).

(** The nodes in pre-order: symbol and leaf flag. *)
Fixpoint preorder (n : helement_t) : list (Z * Z) :=
  (element n, leaf_node n)
    :: match left_child n with Some l => preorder l | None => [] end
    ++ match right_child n with Some r => preorder r | None => [] end.

(** The bytes [_output] writes for a tree. *)
Fixpoint serialized (n : helement_t) : list Z :=
  element n :: leaf_node n
    :: match left_child n with Some l => serialized l | None => [] end
    ++ match right_child n with Some r => serialized r | None => [] end.

(** Every node flagged as a leaf has no child and every other node has two;
    symbols and flags are bytes. *)
Fixpoint proper (n : helement_t) : bool :=
  (0 <=? element n) && (element n <? 256)
  && (0 <=? leaf_node n) && (leaf_node n <? 256)
  && match left_child n, right_child n with
     | None, None => negb (leaf_node n =? 0)
     | Some l, Some r => (leaf_node n =? 0) && proper l && proper r
     | _, _ => false
     end.

(** The tree as [htree_input] rebuilds it: every frequency is the default. *)
Fixpoint rebuilt (n : helement_t) : helement_t :=
  {| element := element n;
     leaf_node := leaf_node n;
     left_child := match left_child n with
                   | Some l => Some (rebuilt l) | None => None end;
     right_child := match right_child n with
                    | Some r => Some (rebuilt r) | None => None end;
     frequency := DEFAULT_ELEMENT_FREQUENCY |}.

(** ** Pipelines *)

(** What the specification says of a stream that ends away from the root:
    [huffman_decode] does not return 0. *)
Definition truncation_claim (flags : option bvector_t) (in_fd out_fd : file)
  : Prop :=
  forall t ascii_opcodes vector_opcodes st,
    decode_input flags in_fd = Done (t, ascii_opcodes, vector_opcodes) ->
    decode_steps flags t ascii_opcodes vector_opcodes = Done st ->
    temp_ptr st <> root t ->
    (huffman_decode flags in_fd out_fd).2 <> Return 0.

(** The flags of a run without [-a] and [-p]. *)
Definition bit_mode_flags : option bvector_t :=
  Some {| vector := [1]; vector_length := FLAG_LENGTH; working_index := 0 |}.

(** A property of the child behind a pointer, when there is one. *)
Definition on_child (P : helement_t -> Prop) (c : option helement_t) : Prop :=
  match c with Some n => P n | None => True end.

(** ** Concrete inputs *)

(** A tree of three nodes. *)
Definition three_nodes : helement_t :=
  {| element := 255; leaf_node := 0;
     left_child := Some (helement_create 97 1 2);
     right_child := Some (helement_create 98 1 3);
     frequency := 5 |}.

(** The list after [add(0xFF, 0)] and [add(0xFF, 1)] on an empty list: a
    node and a leaf that both carry the symbol 0xFF. *)
Definition sentinel_list : hlist_t :=
  (hlist_add_increment_element
     (hlist_add_increment_element hlist_create LIST_SPECIAL_ELEMENT 0).1
     LIST_SPECIAL_ELEMENT 1).1.

(** An element with its frequency replaced. *)
Definition with_frequency (n : helement_t) (f : Z) : helement_t :=
  {| element := element n; leaf_node := leaf_node n;
     left_child := left_child n; right_child := right_child n;
     frequency := f |}.

(** A vector of capacity 16 with 9 bits appended. *)
Definition nine_bits : bvector_t :=
  {| vector := [255; 1; 0]; vector_length := 16; working_index := 9 |}.

(** An empty file that has been opened for writing. *)
Definition new_file : file :=
  {| fd_data := []; fd_pos := 0; fd_limit := 4096 |}.

(** Bit [i] of a block of bytes: bit [i mod 8] of byte [i / 8]. *)
Definition bit_at (bytes : list Z) (i : Z) : bool :=
  Z.testbit (byte_at bytes (i / 8)) (i mod 8).

(** A sorted list whose last element has the greatest frequency a
    [uint64_t] holds. *)
Definition top_frequency_list : hlist_t :=
  {| hl_list := [helement_create 97 1 5; helement_create 98 1 (2 ^ 64 - 1)];
     hl_count := 2 |}.

(** A sorted list of two leaves. *)
Definition two_leaves : hlist_t :=
  {| hl_list := [helement_create 97 1 2; helement_create 98 1 2];
     hl_count := 2 |}.

(** An artifact of five nodes, the leaves 'a' and 'b' under the left child of
    the root and the leaf 'c' as its right child, followed by a stream of the
    single opcode 0. *)
Definition short_stream : file :=
  {| fd_data := [5; 0; 0; 0; 0; 0; 0; 0;
                 255; 0; 255; 0; 97; 1; 98; 1; 99; 1;
                 1; 0; 0; 0; 0; 0; 0; 0;
                 0];
     fd_pos := 0;
     fd_limit := 4096 |}.

(** ** The code tree of the encoder *)

(** The symbol of the leaf a path of opcodes leads to. *)
Fixpoint leaf_at (n : helement_t) (path : list Z) {struct path} : option Z :=
  match path with
  | [] => if negb (leaf_node n =? 0) then Some (element n) else None
  | opcode :: path' =>
    if negb (leaf_node n =? 0) then None
    else match (if opcode =? 0 then left_child n else right_child n) with
         | Some c => leaf_at c path'
         | None => None
         end
  end.

(** The leaves in pre-order with the opcode string [_parse] gives them. *)
Fixpoint opcodes (n : helement_t) (opcode_string : string) : list (Z * string) :=
  if negb (leaf_node n =? 0) then [(element n, opcode_string)]
  else
    match left_child n with
    | Some l => opcodes l (opcode_string +:+ "0")
    | None => []
    end
    ++ match right_child n with
       | Some r => opcodes r (opcode_string +:+ "1")
       | None => []
       end.

Definition is_opcode (b : Z) : Prop := b = 0 \/ b = 1.

(** The vector that collects the opcodes: its storage has the size of its
    capacity, which is positive and at most twice the cursor plus one. *)
Definition stream_ok (b : bvector_t) : Prop :=
  bvector_sized b /\ 0 < vector_length b <= 2 * working_index b + 1.

(** What the table of vector opcodes has for the symbols of [B]: a vector
    whose bits are the code of the symbol. *)
Definition vector_codes (vector_opcode_table : list (option bvector_t))
    (code : Z -> list Z) (B : list Z) : Prop :=
  forall e, e ∈ B ->
    Forall is_opcode (code e)
    /\ exists v, vector_opcode_table !! Z.to_nat e = Some (Some v)
                 /\ stored_bits v = code e.

(** The symbols of the leaves in pre-order. *)
Definition leaves (n : helement_t) : list Z := map fst (opcodes n EmptyString).

(** The table after [_parse]: the entries of the leaves are set one by one. *)
Definition set_opcode (table : opcode_table_t) (x : Z * string) : opcode_table_t :=
  <[Z.to_nat x.1 := Some x.2]> table.

(** Every entry of the opcode table is [NULL] or a string that
    [bvector_convert] takes. *)
Definition convertible (table : opcode_table_t) : Prop :=
  Forall (fun entry => forall s, entry = Some s ->
                                 s <> EmptyString /\ strlen s < 2 ^ 64) table.

(** The sum of the frequencies of a list. *)
Fixpoint total_frequency (l : list helement_t) : Z :=
  match l with
  | [] => 0
  | n :: l' => frequency n + total_frequency l'
  end.

Definition is_leaf_element (n : helement_t) : Prop :=
  leaf_node n = 1 /\ left_child n = None /\ right_child n = None
  /\ 0 <= element n < 256 /\ 1 <= frequency n.

(** The list while the input is read: [seen] is what has been read. *)
Definition distribution_ok (seen : list Z) (hlist : hlist_t) : Prop :=
  Forall is_leaf_element (hl_list hlist)
  /\ NoDup (element <$> hl_list hlist)
  /\ (forall e, e ∈ element <$> hl_list hlist <-> e ∈ seen)
  /\ total_frequency (hl_list hlist) = Z.of_nat (length seen)
  /\ hl_count hlist = Z.of_nat (length (hl_list hlist)).

(** The list while the tree is built: proper trees whose leaves are
    different symbols; [total] is the sum of the frequencies. *)
Definition forest_ok (total : Z) (hlist : hlist_t) : Prop :=
  Forall (fun n => proper n = true /\ 1 <= frequency n) (hl_list hlist)
  /\ NoDup (hl_list hlist ≫= leaves)
  /\ total_frequency (hl_list hlist) = total
  /\ hl_count hlist = Z.of_nat (length (hl_list hlist)).

(** The opcode string of a symbol in an association list. *)
Fixpoint opcode_of (l : list (Z * string)) (e : Z) : string :=
  match l with
  | [] => EmptyString
  | (k, s) :: l' => if k =? e then s else opcode_of l' e
  end.

(** The opcodes [_parse] gives a symbol, as bits. *)
Definition code_of (R : helement_t) (e : Z) : list Z :=
  binary_digits (opcode_of (opcodes R EmptyString) e).

(** How often a symbol occurs in an input. *)
Fixpoint occurrences (e : Z) (B : list Z) : Z :=
  match B with
  | [] => 0
  | b :: B' => (if b =? e then 1 else 0) + occurrences e B'
  end.

(** The frequency list after the input [seen] was read: one leaf for every
    symbol of the input, with the number of its occurrences. *)
Definition counts_of (seen : list Z) (hlist : hlist_t) : Prop :=
  Forall (fun n => leaf_node n = 1 /\ left_child n = None
                   /\ right_child n = None
                   /\ frequency n = occurrences (element n) seen)
         (hl_list hlist)
  /\ NoDup (element <$> hl_list hlist)
  /\ (forall e, e ∈ element <$> hl_list hlist <-> e ∈ seen)
  /\ hl_count hlist = Z.of_nat (length (hl_list hlist)).

(** The flags of a run with [-a]. *)
Definition text_mode_flags : option bvector_t :=
  Some {| vector := [4]; vector_length := FLAG_LENGTH; working_index := 0 |}.

(** A text artifact with the tree [three_nodes] and the characters "0x1". *)
Definition bad_character_file : file :=
  {| fd_data := u64_bytes 3 ++ serialized three_nodes ++ [48; 120; 49];
     fd_pos := 0; fd_limit := 4096 |}.



(** The number of times [getopt] returned [c]. *)
Definition times (c : Z) (options : list getopt_t) : nat :=
  length (filter (fun o => opt_option o = c) options).

(** The options [set_flags] has a case for that goes on: -i and -o with
    their argument, -e, -d, -a and -p. *)
Definition plain (o : getopt_t) : Prop :=
  (opt_option o = 105 /\ is_Some (optarg o))
  \/ (opt_option o = 111 /\ is_Some (optarg o))
  \/ opt_option o = 101 \/ opt_option o = 100
  \/ opt_option o = 97 \/ opt_option o = 112.

(** [getopt] returned [c] once, with the argument [name]. *)
Definition names (c : Z) (name : string) (options : list getopt_t) : Prop :=
  times c options = 1%nat
  /\ forall o, o ∈ options -> opt_option o = c -> optarg o = Some name.

(** An option without an argument, and one with its argument. *)
Definition option_of (c : Z) : getopt_t :=
  {| opt_option := c; optarg := None; optopt := 0 |}.

Definition option_with (c : Z) (name : string) : getopt_t :=
  {| opt_option := c; optarg := Some name; optopt := 0 |}.

(** The flag of an option character. *)
Definition flag_of (c : Z) : Z :=
  if c =? 105 then FLAG_INPUT
  else if c =? 111 then FLAG_OUTPUT
  else if c =? 101 then FLAG_ENCODE
  else if c =? 100 then FLAG_DECODE
  else if c =? 97 then FLAG_ASCII
  else FLAG_PRINT.

(** The flag vector as [main] creates it and [set_flags] keeps it. *)
Definition flags_ok (g : globals_t) : Prop :=
  exists b, flags g = Some b /\ bvector_sized b
            /\ vector_length b = FLAG_LENGTH.

(** The globals when [main] calls [set_flags]. *)
Definition initial_globals : globals_t :=
  {| flags := bvector_create FLAG_LENGTH; input_filename := None;
     output_filename := None |}.

(** Names as [open] follows them from the directory of the run: ./a is the
    file a. *)
Definition here (name : string) : string :=
  match name with
  | String "." (String "/" rest) => rest
  | _ => name
  end.

(** One file, named a, of four bytes. *)
Definition one_file : gmap string (list Z) :=
  {[ "a"%string := [97; 98; 97; 99] ]}.

(** ** A stream that ends inside a code *)

(** The node a path of opcodes leads to. *)
Fixpoint node_at (n : helement_t) (path : list Z) {struct path}
  : option helement_t :=
  match path with
  | [] => Some n
  | opcode :: path' =>
    if negb (leaf_node n =? 0) then None
    else match (if opcode =? 0 then left_child n else right_child n) with
         | Some c => node_at c path'
         | None => None
         end
  end.

(** The opcodes [ops] as an artifact holds them behind the tree.  In text
    mode, run without -p: one character for every opcode.  In bit mode: the
    number of the opcodes in eight bytes and the bytes of their bits. *)
Definition holds_opcodes (flags : option bvector_t) (tail ops : list Z)
  : Prop :=
  (bvector_check_bit flags FLAG_ASCII = 1
   /\ bvector_check_bit flags FLAG_PRINT = 0
   /\ tail = map (fun d => d + 48) ops)
  \/ (bvector_check_bit flags FLAG_ASCII = 0
      /\ exists stream,
           tail = u64_bytes (Z.of_nat (length ops)) ++ stream
           /\ Z.of_nat (length stream) = Z.of_nat (length ops) / 8 + 1
           /\ forall k d, ops !! k = Some d ->
                          bit_at stream (Z.of_nat k) = (d =? 1)).

(** The tree of [short_stream]. *)
Definition five_nodes : helement_t :=
  {| element := 255; leaf_node := 0;
     left_child := Some {| element := 255; leaf_node := 0;
                           left_child := Some (helement_create 97 1 0);
                           right_child := Some (helement_create 98 1 0);
                           frequency := 0 |};
     right_child := Some (helement_create 99 1 0);
     frequency := 0 |}.

(** ** The reconstruction of a tree *)

(** What [_input_object] gives for a node: symbol and flag, no child yet. *)
Definition object_of (n : helement_t) : helement_t :=
  helement_create (element n) (leaf_node n) SPECIAL_ELEMENT_FREQUENCY.

(** * Properties *)

(** ** Appending a bit *)

(** C10. For every bit vector and every bit argument greater than 1,
    [bvector_append_bit] returns [NULL] and leaves the storage, the capacity
    and the cursor of the vector as they were. *)
Theorem bvector_append_bit_rejects (fresh : nat -> Z) (b : bvector_t) (bit : Z) :
  1 < bit ->
  let r := bvector_append_bit fresh (Some b) bit in
  returned r = None /\ r.1 = Some b.
Proof.
  intros Hbit. unfold bvector_append_bit.
  destruct (1 <? bit) eqn:E; [now split | lia].
Qed.

Lemma bvector_append_bit_rejects_witness :
  let b := {| vector := [5]; vector_length := 8; working_index := 3 |} in
  let r := bvector_append_bit zero_fresh (Some b) 2 in
  returned r = None /\ r.1 = Some b.
Proof. apply (bvector_append_bit_rejects zero_fresh); lia. Defined.

(** ** The accessor of the node count *)

(** Induction over a tree: a property holds of a node when it holds of the
    children the node has. *)
Lemma helement_induction (P : helement_t -> Prop) :
  (forall n, on_child P (left_child n) -> on_child P (right_child n) -> P n) ->
  forall n, P n.
Proof.
  intros step. fix IH 1. intros n. apply step.
  - destruct n as [e lf [l|] r f]; simpl; [apply IH | exact I].
  - destruct n as [e lf l [r|] f]; simpl; [apply IH | exact I].
Qed.

Lemma u64_u64_succ (x y : Z) : u64 (u64 x + y) = u64 (x + y).
Proof. unfold u64. now rewrite Zplus_mod_idemp_l. Qed.

(** What [proper] says of a node. *)
Lemma proper_inv (n : helement_t) :
  proper n = true ->
  (0 <= element n < 256) /\ (0 <= leaf_node n < 256)
  /\ ((leaf_node n <> 0 /\ left_child n = None /\ right_child n = None)
      \/ (leaf_node n = 0
          /\ exists l r, left_child n = Some l /\ right_child n = Some r
                         /\ proper l = true /\ proper r = true)).
Proof.
  destruct n as [e lf l r f]; simpl.
  rewrite !andb_true_iff. intros [[[[He1 He2] Hl1] Hl2] Hc].
  split; [lia|]. split; [lia|].
  destruct l as [l|], r as [r|]; try discriminate.
  - right. rewrite !andb_true_iff in Hc. destruct Hc as [[Hz Hpl] Hpr].
    split; [lia|]. now exists l, r.
  - left. apply negb_true_iff in Hc. repeat split; lia.
Qed.

(** On a proper tree [_parse] adds the number of nodes to the count. *)
Lemma _parse_count (n : helement_t) :
  proper n = true ->
  forall table opcode_string count,
    (_parse n table opcode_string count).2 = u64 (count + Z.of_nat (size n)).
Proof.
  induction n as [n IHl IHr] using helement_induction.
  intros Hn table opcode_string count.
  destruct (proper_inv n Hn) as (_ & _ & [(Hlf & Hl & Hr) | (Hlf & l & r & Hl & Hr & Hpl & Hpr)]).
  - destruct n as [e lf l r f]; simpl in *; subst.
    destruct (Z.eqb_spec lf 0); [lia|]. simpl. f_equal.
  - destruct n as [e lf l0 r0 f]; simpl in *; subst. simpl.
    specialize (IHl Hpl table (opcode_string +:+ "0") (u64 (count + 1))).
    destruct (_parse l table (opcode_string +:+ "0") (u64 (count + 1)))
      as [table' count'] eqn:El.
    simpl in IHl. subst count'. rewrite (IHr Hpr).
    rewrite u64_u64_succ, <- Z.add_assoc, u64_u64_succ. f_equal. lia.
Qed.

Lemma htree_parse_root (t : htree_t) (r : helement_t) :
  root t = Some r ->
  htree_parse (Some t)
  = (Some {| root := Some r;
             count := (_parse r empty_opcode_table EmptyString 0).2;
             _parsed := 1 |},
     Some (_parse r empty_opcode_table EmptyString 0).1).
Proof.
  intros Hr. unfold htree_parse. rewrite Hr.
  now destruct (_parse r empty_opcode_table EmptyString 0).
Qed.

(** C9. For every Huffman tree, a parsed one included, [htree_count]
    returns 0: it never reports the number of nodes. *)
Theorem htree_count_is_zero (htree : option htree_t) :
  htree_count htree = 0 /\ htree_count (htree_parse htree).1 = 0.
Proof. split; reflexivity. Qed.

(** After the parse the count is in the field, and the accessor still
    answers 0. *)
Example htree_count_after_parse :
  let t := (htree_parse (Some {| root := Some three_nodes; count := 1;
                                 _parsed := 0 |})).1 in
  option_map count t = Some 3 /\ htree_count t = 0.
Proof. split; reflexivity. Qed.

(** ** Guards of [htree_output] *)

(** C7. For every tree, file and offset, [htree_output] returns -2 when the
    tree has not been parsed and -3 when it is parsed with a count below 1,
    and the file is as it was in both cases. *)
Theorem htree_output_guards (t : htree_t) (fd : file) (offset : Z) :
  _parsed t = 0 \/ count t < 1 ->
  htree_output (Some t) fd offset
  = Some (fd, if _parsed t =? 0 then -2 else -3).
Proof.
  intros H. unfold htree_output.
  destruct (Z.eqb_spec (_parsed t) 0) as [Hp|Hp]; [reflexivity|].
  destruct (Z.ltb_spec (count t) 1); [reflexivity | lia].
Qed.

Lemma htree_output_guards_witness :
  let fd := {| fd_data := [7; 7]; fd_pos := 0; fd_limit := 100 |} in
  htree_output (Some {| root := Some three_nodes; count := 3; _parsed := 0 |})
               fd 0 = Some (fd, -2)
  /\ htree_output (Some {| root := None; count := 0; _parsed := 1 |})
                  fd 0 = Some (fd, -3).
Proof.
  split.
  - apply (htree_output_guards
             {| root := Some three_nodes; count := 3; _parsed := 0 |}).
    left. reflexivity.
  - apply (htree_output_guards {| root := None; count := 0; _parsed := 1 |}).
    right. simpl. lia.
Defined.

(** ** Adding to the frequency list *)

(** The sentinel symbol with a frequency other than 0 always gives a new
    element that is not a leaf, put in from the head; no element of the
    list is touched. *)
Lemma hlist_add_special (hlist : hlist_t) (frequency0 : Z) :
  frequency0 <> 0 ->
  hlist_add_increment_element hlist LIST_SPECIAL_ELEMENT frequency0
  = let '(l, k) := fix_order_from
                     (helement_create LIST_SPECIAL_ELEMENT 0 frequency0)
                     (hl_list hlist) in
    ({| hl_list := l; hl_count := u64 (hl_count hlist + 1) |}, Some k).
Proof.
  intros Hf. unfold hlist_add_increment_element.
  replace (frequency0 =? SPECIAL_ELEMENT_FREQUENCY) with false
    by (symmetry; apply Z.eqb_neq; exact Hf).
  rewrite Z.eqb_refl. cbn [andb negb].
  assert (Hadd : match _search hlist LIST_SPECIAL_ELEMENT with
                 | Some _ | _ =>
                   let '(hlist0, err) :=
                     _add hlist LIST_SPECIAL_ELEMENT 0 frequency0 in
                   if negb (err =? 0) then None else Some (hlist0, O)
                 end
                 = Some ({| hl_list :=
                              helement_create LIST_SPECIAL_ELEMENT 0 frequency0
                                :: hl_list hlist;
                            hl_count := u64 (hl_count hlist + 1) |}, O))
    by (now destruct (_search hlist LIST_SPECIAL_ELEMENT)).
  rewrite Hadd. unfold _fix_order. cbn [drop hl_list take app hl_count].
  now destruct (fix_order_from _ _).
Qed.

(** When the first element that carries the symbol is found and the call is
    not the one of a special element, the frequency of that element goes up
    by one, whatever the frequency argument is. *)
Lemma hlist_increment_found (hlist : hlist_t) (element0 frequency0 : Z) (i : nat) :
  element0 <> LIST_SPECIAL_ELEMENT \/ frequency0 = 0 ->
  _search hlist element0 = Some i ->
  hlist_add_increment_element hlist element0 frequency0
  = let '(h, k) :=
      _fix_order
        {| hl_list := alter (fun n => with_frequency n (u64 (frequency n + 1)))
                            i (hl_list hlist);
           hl_count := hl_count hlist |} i in
    (h, Some k).
Proof.
  intros Hcase Hfound. unfold hlist_add_increment_element.
  replace ((element0 =? LIST_SPECIAL_ELEMENT)
           && negb (frequency0 =? SPECIAL_ELEMENT_FREQUENCY)) with false.
  - rewrite Hfound. reflexivity.
  - symmetry. apply andb_false_iff. destruct Hcase as [H|H].
    + left. now apply Z.eqb_neq.
    + right. subst. reflexivity.
Qed.

(** C6. The list [sentinel_list] holds a node and then a leaf, both with
    the symbol 0xFF and the frequency 1.  The call [add(0xFF, 0)] finds the
    node first: the frequency of the node goes to 2 and the node moves
    behind the leaf, whose frequency stays 1. *)
Theorem sentinel_leaf_not_incremented :
  sentinel_list
  = {| hl_list := [helement_create 255 0 1; helement_create 255 1 1];
       hl_count := 2 |}
  /\ hlist_add_increment_element sentinel_list LIST_SPECIAL_ELEMENT 0
     = ({| hl_list := [helement_create 255 1 1; helement_create 255 0 2];
           hl_count := 2 |}, Some 1%nat).
Proof. split; reflexivity. Qed.

(** ** The encoder on a single symbol *)

(** An input made of one symbol leaves one element in the list. *)
Lemma distribution_loop_one_symbol (n : nat) :
  forall node : helement_t,
  exists node',
    distribution_loop (replicate n (element node))
      {| hl_list := [node]; hl_count := 1 |}
    = Done {| hl_list := [node']; hl_count := 1 |}
    /\ element node' = element node.
Proof.
  induction n as [|n IH]; intros node.
  - exists node. split; reflexivity.
  - cbn [replicate distribution_loop].
    rewrite (hlist_increment_found _ _ SPECIAL_ELEMENT_FREQUENCY O).
    + cbn.
      destruct (IH (with_frequency node (u64 (frequency node + 1))))
        as (node' & Hloop & Hel).
      exists node'. split; [exact Hloop | exact Hel].
    + now right.
    + unfold _search; cbn. now rewrite Z.eqb_refl.
Qed.

(** The merge loop leaves [parent] unassigned on a list of fewer than two
    elements. *)
Lemma merge_loop_short (fuel : nat) (l : list helement_t) (c : Z) :
  c < 2 ->
  merge_loop (S fuel) {| hl_list := l; hl_count := c |} None
  = Done ({| hl_list := l; hl_count := c |}, None).
Proof.
  intros Hc. cbn [merge_loop]. unfold hlist_get_two_min, hlist_count.
  cbn [hl_count]. destruct (Z.leb_spec 2 c); [lia|]. reflexivity.
Qed.

(** The first byte of the input gives the first leaf. *)
Lemma hlist_add_first (b : Z) :
  hlist_add_increment_element hlist_create b SPECIAL_ELEMENT_FREQUENCY
  = ({| hl_list := [helement_create b 1 0]; hl_count := 1 |}, Some O).
Proof.
  unfold hlist_add_increment_element.
  destruct (b =? LIST_SPECIAL_ELEMENT); reflexivity.
Qed.

(** No input made of one symbol is encoded: [parent] is read before any
    element was assigned to it. *)
Lemma huffman_encode_one_symbol (fresh : nat -> Z) (flags : option bvector_t)
    (b : Z) (n : nat) (out_fd : file) :
  huffman_encode fresh flags (replicate n b) out_fd
  = (out_fd, Undefined "parent is read before it is assigned").
Proof.
  unfold huffman_encode. destruct n as [|n].
  - reflexivity.
  - cbn [replicate distribution_loop].
    rewrite hlist_add_first.
    destruct (distribution_loop_one_symbol n (helement_create b 1 0))
      as (node' & Hloop & _).
    cbn [element helement_create] in Hloop. rewrite Hloop.
    cbn [hl_list length]. rewrite merge_loop_short by lia. reflexivity.
Qed.

(** C1. The input of the single byte 0x61 is not encoded: the merge loop ends
    at once, and [htree_add_element] is given [parent], which no statement has
    assigned.  Nothing is written that a later decode could give the byte
    back from. *)
Theorem huffman_encode_single_byte :
  forall (fresh : nat -> Z) (flags : option bvector_t) (out_fd : file),
    huffman_encode fresh flags [97] out_fd
    = (out_fd, Undefined "parent is read before it is assigned").
Proof. intros fresh flags out_fd. exact (huffman_encode_one_symbol fresh flags 97 1 out_fd). Qed.

(** ** Machine integers and files *)

Lemma u64_small (x : Z) : 0 <= x < 2 ^ 64 -> u64 x = x.
Proof. intros H. unfold u64. now apply Z.mod_small. Qed.

Lemma ssize_t_small (x : Z) : 0 <= x < 2 ^ 63 -> ssize_t x = x.
Proof.
  intros H. unfold ssize_t. rewrite u64_small by lia.
  destruct (Z.ltb_spec x (2 ^ 63)); [reflexivity | lia].
Qed.

Lemma u64_bytes_length (x : Z) : length (u64_bytes x) = 8%nat.
Proof. reflexivity. Qed.

(** A write that fits below the limit stores the whole buffer. *)
Lemma pwrite_fits (fd : file) (buf : list Z) (offset : Z) :
  buf <> [] ->
  0 <= offset ->
  offset + Z.of_nat (length buf) <= Z.min (fd_limit fd) OFF_MAX ->
  pwrite fd buf offset
  = ({| fd_data := store (fd_data fd) (Z.to_nat offset) buf;
        fd_pos := fd_pos fd; fd_limit := fd_limit fd |},
     Z.of_nat (length buf)).
Proof.
  intros Hbuf Hoff Hroom. unfold pwrite.
  assert (Hmax : OFF_MAX = 2 ^ 63 - 1) by reflexivity.
  rewrite ssize_t_small by lia.
  destruct (Z.ltb_spec offset 0); [lia|].
  destruct buf as [|x buf]; [congruence|].
  destruct (Z.leb_spec (Z.min (fd_limit fd) OFF_MAX - offset) 0) as [Hle|Hgt].
  - cbn [length] in Hroom. lia.
  - rewrite take_ge by lia. reflexivity.
Qed.

(** ** Writing a bit vector out *)

Lemma get_size_bounds (b : bvector_t) (flag : Z) :
  bvector_sized b ->
  0 <= bvector_get_size (Some b) flag <= vector_length b.
Proof.
  intros [_ H]. unfold bvector_get_size.
  destruct (flag =? VECTOR_FLAG_FULL); [lia|].
  destruct (flag =? VECTOR_FLAG_STREAM); lia.
Qed.

(** The header and then [header / 8 + 1] bytes of the storage are written. *)
Lemma bvector_output_floor (b : bvector_t) (fd : file) (offset flag : Z) :
  bvector_sized b ->
  0 <= offset ->
  offset + 8 + floor_bytes (bvector_get_size (Some b) flag)
    <= Z.min (fd_limit fd) OFF_MAX ->
  bvector_output (Some b) fd offset flag = output_of floor_bytes b fd offset flag.
Proof.
  intros Hsized Hoff Hroom.
  pose proof (get_size_bounds b flag Hsized) as Hsize.
  destruct Hsized as [Hlen Hcur].
  unfold output_of, bvector_output, floor_bytes in *.
  set (header := bvector_get_size (Some b) flag) in *.
  assert (Hmax : OFF_MAX = 2 ^ 63 - 1) by reflexivity.
  assert (Hdiv : 0 <= header / 8 <= vector_length b / 8).
  { split; [apply Z.div_pos; lia | apply Z.div_le_mono; lia]. }
  unfold VECTOR_BYTE_SIZE in *.
  rewrite pwrite_fits; [| discriminate | lia | rewrite u64_bytes_length; lia].
  rewrite u64_bytes_length.
  destruct (Z.ltb_spec (Z.of_nat 8) 8); [lia|].
  rewrite u64_small by lia.
  assert (Htake : length (take (Z.to_nat (header / 8 + 1)) (vector b))
                  = Z.to_nat (header / 8 + 1)).
  { rewrite length_take. lia. }
  rewrite pwrite_fits; cbn [fd_data fd_pos fd_limit].
  - rewrite Htake.
    destruct (Z.ltb_spec (Z.of_nat (Z.to_nat (header / 8 + 1))) (header / 8 + 1));
      [lia|].
    rewrite u64_small by lia. rewrite ssize_t_small by lia.
    change (Z.of_nat 8) with 8. f_equal. lia.
  - intros Hnil. apply (f_equal length) in Hnil.
    rewrite Htake in Hnil. cbn [length] in Hnil. lia.
  - lia.
  - rewrite Htake. lia.
Qed.

(** C3, as amended.  For every bit vector whose storage has the size its
    capacity asks for and whose cursor is within the capacity, and every
    file with room for the writes, [bvector_output] writes the header
    [get_size(v, mode)] at [offset], then [header / 8 + 1] storage bytes (the
    quotient rounded down) at [offset + 8], and returns the offset after
    them. *)
Theorem bvector_output_writes (b : bvector_t) (fd : file) (offset flag : Z) :
  bvector_sized b ->
  0 <= offset ->
  offset + 8 + floor_bytes (bvector_get_size (Some b) flag)
    <= Z.min (fd_limit fd) OFF_MAX ->
  output_claim floor_bytes b fd offset flag.
Proof. exact (bvector_output_floor b fd offset flag). Qed.

Lemma bvector_output_writes_witness :
  output_claim floor_bytes nine_bits new_file 0 VECTOR_FLAG_STREAM.
Proof.
  apply bvector_output_writes.
  - split; [reflexivity | cbn; lia].
  - lia.
  - vm_compute. discriminate.
Defined.

(** The claim with the quotient rounded up fails on a vector of nine bits:
    [bvector_output] writes two storage bytes and returns 10, where the claim
    has three bytes and 11. *)
Lemma bvector_output_not_ceil :
  ~ output_claim ceil_bytes nine_bits new_file 0 VECTOR_FLAG_STREAM.
Proof. unfold output_claim. vm_compute. discriminate. Qed.

(** ** Bits of the storage *)

Lemma land_mask_is_zero (x k : Z) :
  0 <= k -> (Z.land x (Z.shiftl 1 k) =? 0) = negb (Z.testbit x k).
Proof.
  intros Hk. rewrite Z.shiftl_1_l. destruct (Z.testbit x k) eqn:E; simpl.
  - apply Z.eqb_neq. intros H.
    apply (f_equal (fun y => Z.testbit y k)) in H.
    rewrite Z.land_spec, E, Z.pow2_bits_true, Z.bits_0 in H by lia.
    discriminate.
  - apply Z.eqb_eq. apply Z.bits_inj'. intros n Hn.
    rewrite Z.land_spec, Z.bits_0. destruct (Z.eq_dec k n) as [->|Hne].
    + now rewrite E.
    + rewrite Z.pow2_bits_false by lia. apply andb_false_r.
Qed.

Lemma bit_index_mod (index : Z) :
  0 <= index -> VECTOR_BIT_INDEX index = index mod 8.
Proof.
  intros H. unfold VECTOR_BIT_INDEX.
  change 7 with (Z.ones 3). rewrite Z.land_ones by lia. reflexivity.
Qed.

Lemma check_bit_bit_at (b : bvector_t) (index : Z) :
  0 <= index < vector_length b ->
  bvector_check_bit (Some b) index = Z.b2z (bit_at (vector b) index).
Proof.
  intros H. unfold bvector_check_bit, bit_at, VECTOR_CHECK_STRING,
    VECTOR_SET_STRING, VECTOR_BYTE_INDEX, VECTOR_BYTE_SIZE.
  destruct (Z.leb_spec (vector_length b) index); [lia|].
  rewrite bit_index_mod by lia.
  rewrite land_mask_is_zero by (apply Z.mod_pos_bound; lia).
  now destruct (Z.testbit _ _).
Qed.

Lemma testbit_u8 (x k : Z) : 0 <= k < 8 -> Z.testbit (u8 x) k = Z.testbit x k.
Proof. intros H. unfold u8. apply Z.mod_pow2_bits_low. lia. Qed.

Lemma same_bit_position (i j : Z) :
  i / 8 = j / 8 -> i mod 8 = j mod 8 -> i = j.
Proof.
  intros Hd Hm. rewrite (Z.div_mod i 8), (Z.div_mod j 8) by lia. congruence.
Qed.

(** The bits of a block after one byte was changed by [f], when [f] changes
    bit [index mod 8] to [v] and no other of the low eight bits. *)
Lemma bit_at_alter (f : Z -> Z) (v : bool) (bytes : list Z) (index j : Z) :
  0 <= index -> 0 <= j ->
  (Z.to_nat (index / 8) < length bytes)%nat ->
  (forall x k, 0 <= k < 8 ->
               Z.testbit (f x) k = if k =? index mod 8 then v else Z.testbit x k) ->
  bit_at (alter f (Z.to_nat (index / 8)) bytes) j
  = if j =? index then v else bit_at bytes j.
Proof.
  intros Hi Hj Hlen Hf. unfold bit_at, byte_at.
  assert (0 <= index / 8) by (apply Z.div_pos; lia).
  assert (0 <= j / 8) by (apply Z.div_pos; lia).
  assert (0 <= j mod 8 < 8) by (apply Z.mod_pos_bound; lia).
  destruct (Z.eq_dec (j / 8) (index / 8)) as [Hd|Hd].
  - rewrite Hd, list_lookup_alter_eq.
    destruct (lookup_lt_is_Some_2 bytes _ Hlen) as [x Hx].
    rewrite Hx. cbn [fmap option_fmap option_map default from_option id].
    rewrite Hf by lia.
    destruct (Z.eqb_spec (j mod 8) (index mod 8)) as [Hm|Hm].
    + rewrite (same_bit_position j index Hd Hm), Z.eqb_refl. reflexivity.
    + destruct (Z.eqb_spec j index) as [->|_]; [congruence | reflexivity].
  - rewrite list_lookup_alter_ne by lia.
    destruct (Z.eqb_spec j index) as [->|_]; [congruence | reflexivity].
Qed.

Lemma set_string_bits (index k : Z) :
  0 <= index -> 0 <= k ->
  Z.testbit (VECTOR_SET_STRING index) k = (k =? index mod 8).
Proof.
  intros Hi Hk. unfold VECTOR_SET_STRING.
  rewrite bit_index_mod, Z.shiftl_1_l by lia.
  assert (0 <= index mod 8 < 8) by (apply Z.mod_pos_bound; lia).
  destruct (Z.eqb_spec k (index mod 8)) as [->|Hne].
  - apply Z.pow2_bits_true. lia.
  - apply Z.pow2_bits_false. lia.
Qed.

Lemma set_byte_bits (index x k : Z) :
  0 <= index -> 0 <= k < 8 ->
  Z.testbit (u8 (Z.lor x (VECTOR_SET_STRING index))) k
  = if k =? index mod 8 then true else Z.testbit x k.
Proof.
  intros Hi Hk.
  rewrite testbit_u8, Z.lor_spec, set_string_bits by lia.
  destruct (k =? index mod 8); [apply orb_true_r | apply orb_false_r].
Qed.

Lemma clear_byte_bits (index x k : Z) :
  0 <= index -> 0 <= k < 8 ->
  Z.testbit (u8 (Z.land x (VECTOR_CLEAR_STRING index))) k
  = if k =? index mod 8 then false else Z.testbit x k.
Proof.
  intros Hi Hk. unfold VECTOR_CLEAR_STRING.
  rewrite testbit_u8, Z.land_spec, Z.lnot_spec, set_string_bits by lia.
  destruct (k =? index mod 8); [apply andb_false_r | apply andb_true_r].
Qed.

(** ** Appending bits *)

(** The second half of [bvector_append_bit]: the bit is written at the
    cursor and the cursor moves on. *)
Lemma write_at_cursor (bx : bvector_t) (bit : Z) :
  bvector_sized bx ->
  working_index bx < vector_length bx < 2 ^ 64 ->
  bit = 0 \/ bit = 1 ->
  exists b',
    option_map (fun b' => {| vector := vector b';
                             vector_length := vector_length b';
                             working_index := u64 (working_index b' + 1) |})
               (if bit =? 0
                then (bvector_clear_bit (Some bx) (working_index bx)).1
                else (bvector_set_bit (Some bx) (working_index bx)).1)
    = Some b'
    /\ bvector_sized b'
    /\ vector_length b' = vector_length bx
    /\ working_index b' = working_index bx + 1
    /\ forall j, 0 <= j ->
         bit_at (vector b') j
         = if j =? working_index bx then bit =? 1 else bit_at (vector bx) j.
Proof.
  intros [Hlen Hcur] Hcap Hbit.
  assert (Hbyte : (Z.to_nat (working_index bx / 8) < length (vector bx))%nat).
  { rewrite Hlen. unfold VECTOR_BYTE_SIZE.
    assert (working_index bx / 8 <= vector_length bx / 8)
      by (apply Z.div_le_mono; lia).
    assert (0 <= working_index bx / 8) by (apply Z.div_pos; lia).
    lia. }
  assert (Hsized' : forall f,
            bvector_sized
              {| vector := alter f (Z.to_nat (working_index bx / 8)) (vector bx);
                 vector_length := vector_length bx;
                 working_index := working_index bx + 1 |}).
  { intros f. split; cbn [vector vector_length working_index];
      [now rewrite length_alter | lia]. }
  unfold bvector_clear_bit, bvector_set_bit, VECTOR_BYTE_INDEX, VECTOR_BYTE_SIZE.
  destruct (Z.leb_spec (vector_length bx) (working_index bx)); [lia|].
  destruct Hbit as [-> | ->].
  - eexists. split; [cbn; rewrite u64_small by lia; reflexivity|].
    split; [apply Hsized'|]. split; [reflexivity|]. split; [reflexivity|].
    intros j Hj. cbn [vector].
    change (0 =? 1) with false.
    apply bit_at_alter; try lia. intros x k Hk.
    apply clear_byte_bits; lia.
  - eexists. split; [cbn; rewrite u64_small by lia; reflexivity|].
    split; [apply Hsized'|]. split; [reflexivity|]. split; [reflexivity|].
    intros j Hj. cbn [vector].
    change (1 =? 1) with true.
    apply bit_at_alter; try lia. intros x k Hk.
    apply set_byte_bits; lia.
Qed.

(** Appending within the capacity. *)
Lemma append_bit_within (fresh : nat -> Z) (b : bvector_t) (bit : Z) :
  bvector_sized b ->
  working_index b < vector_length b < 2 ^ 64 ->
  bit = 0 \/ bit = 1 ->
  exists b',
    bvector_append_bit fresh (Some b) bit = (Some b', true)
    /\ bvector_sized b'
    /\ vector_length b' = vector_length b
    /\ working_index b' = working_index b + 1
    /\ forall j, 0 <= j ->
         bit_at (vector b') j
         = if j =? working_index b then bit =? 1 else bit_at (vector b) j.
Proof.
  intros Hsized Hcap Hbit.
  destruct (write_at_cursor b bit Hsized Hcap Hbit) as (b' & Hb' & Hrest).
  exists b'. split; [|exact Hrest].
  unfold bvector_append_bit.
  destruct (Z.ltb_spec 1 bit); [lia|].
  destruct (Z.eqb_spec (working_index b) (vector_length b)); [lia|].
  cbn [from_option]. now rewrite Hb'.
Qed.

(** ** Converting a string of digits *)

Lemma map_fmap {A B} (f : A -> B) (l : list A) : map f l = f <$> l.
Proof. reflexivity. Qed.

(** A list is the image of its positions. *)
Lemma map_seq_lookup {A} (f : nat -> A) (l : list A) (start : nat) :
  (forall i x, l !! i = Some x -> x = f (start + i)%nat) ->
  map f (seq start (length l)) = l.
Proof.
  revert start. induction l as [|a l IH]; intros start H; [reflexivity|].
  cbn [length seq map]. f_equal.
  - rewrite (H O a eq_refl). f_equal. lia.
  - apply IH. intros i x Hi. rewrite (H (S i) x Hi). f_equal. lia.
Qed.

(** [realloc] keeps the bytes the old block had. *)
Lemma byte_at_realloc (fresh : nat -> Z) (bytes : list Z) (size i : Z) :
  0 <= i < size ->
  (Z.to_nat i < length bytes)%nat ->
  byte_at (realloc fresh bytes size) i = byte_at bytes i.
Proof.
  intros Hi Hlen. unfold byte_at, realloc.
  rewrite map_fmap, list_lookup_fmap, lookup_seq_lt by lia.
  destruct (lookup_lt_is_Some_2 bytes _ Hlen) as [x Hx].
  cbn. now rewrite Hx.
Qed.

Lemma realloc_length (fresh : nat -> Z) (bytes : list Z) (size : Z) :
  length (realloc fresh bytes size) = Z.to_nat size.
Proof. unfold realloc. now rewrite length_map, length_seq. Qed.

Lemma strlen_String (c : ascii) (s : string) :
  strlen (String c s) = 1 + strlen s.
Proof. unfold strlen. cbn [String.length]. lia. Qed.

(** The loop of [bvector_convert] on a vector with room for every
    character: the digits are appended from the cursor on. *)
Lemma convert_loop_appends (fresh : nat -> Z) (s : string) :
  forall b,
    bvector_sized b ->
    working_index b + strlen s <= vector_length b ->
    vector_length b < 2 ^ 64 ->
    exists b',
      convert_loop fresh s (Some b) = Some b'
      /\ bvector_sized b'
      /\ vector_length b' = vector_length b
      /\ working_index b'
         = working_index b + Z.of_nat (length (binary_digits s))
      /\ (forall j, 0 <= j < working_index b ->
                    bit_at (vector b') j = bit_at (vector b) j)
      /\ (forall k d, binary_digits s !! k = Some d ->
                      bit_at (vector b') (working_index b + Z.of_nat k)
                      = (d =? 1)).
Proof.
  induction s as [|c s IH]; intros b Hsized Hroom Hcap.
  - exists b. cbn [convert_loop binary_digits length].
    split; [reflexivity|]. split; [exact Hsized|]. split; [reflexivity|].
    split; [lia|]. split; [reflexivity|]. intros k d Hk. discriminate Hk.
  - rewrite strlen_String in Hroom.
    assert (Hlen0 : 0 <= strlen s) by (unfold strlen; lia).
    pose proof Hsized as [_ Hcur].
    assert (Hdigit : forall bit, bit = 0 \/ bit = 1 ->
              exists b',
                match returned (bvector_append_bit fresh (Some b) bit) with
                | Some _ =>
                  convert_loop fresh s
                    (returned (bvector_append_bit fresh (Some b) bit))
                | None => None
                end = Some b'
                /\ bvector_sized b'
                /\ vector_length b' = vector_length b
                /\ working_index b'
                   = working_index b + Z.of_nat (length (bit :: binary_digits s))
                /\ (forall j, 0 <= j < working_index b ->
                              bit_at (vector b') j = bit_at (vector b) j)
                /\ (forall k d, (bit :: binary_digits s) !! k = Some d ->
                                bit_at (vector b') (working_index b + Z.of_nat k)
                                = (d =? 1))).
    { intros bit Hbit.
      destruct (append_bit_within fresh b bit Hsized ltac:(lia) Hbit)
        as (b1 & Happ & Hs1 & Hc1 & Hw1 & Hbits1).
      rewrite Happ. cbn [returned fst snd].
      destruct (IH b1 Hs1 ltac:(lia) ltac:(lia))
        as (b' & Hloop & Hs' & Hc' & Hw' & Hlow & Hnew).
      exists b'. split; [exact Hloop|]. split; [exact Hs'|].
      split; [lia|]. split; [cbn [length]; lia|]. split.
      - intros j Hj. rewrite Hlow by lia. rewrite Hbits1 by lia.
        destruct (Z.eqb_spec j (working_index b)); [lia | reflexivity].
      - intros [|k] d Hk.
        + cbn in Hk. injection Hk as <-.
          rewrite Z.add_0_r, Hlow by lia. rewrite Hbits1 by lia.
          now rewrite Z.eqb_refl.
        + cbn in Hk. specialize (Hnew k d Hk).
          rewrite <- Hnew. f_equal. lia. }
    cbn [convert_loop binary_digits].
    destruct (Ascii.eqb c "0"); [apply Hdigit; now left|].
    destruct (Ascii.eqb c "1"); [apply Hdigit; now right|].
    destruct (IH b Hsized ltac:(lia) Hcap) as (b' & Hloop & Hrest).
    exists b'. split; [exact Hloop | exact Hrest].
Qed.

Lemma binary_digits_length (s : string) :
  Z.of_nat (length (binary_digits s)) <= strlen s.
Proof.
  induction s as [|c s IH]; [unfold strlen; cbn; lia|].
  rewrite strlen_String. cbn [binary_digits].
  destruct (Ascii.eqb c "0"); [cbn [length]; lia|].
  destruct (Ascii.eqb c "1"); cbn [length]; lia.
Qed.

Lemma binary_digits_bits (s : string) (k : nat) (d : Z) :
  binary_digits s !! k = Some d -> d = Z.b2z (d =? 1).
Proof.
  revert k. induction s as [|c s IH]; intros k; [discriminate|].
  cbn [binary_digits].
  destruct (Ascii.eqb c "0").
  { destruct k; cbn; [intros [= <-]; reflexivity | apply IH]. }
  destruct (Ascii.eqb c "1").
  { destruct k; cbn; [intros [= <-]; reflexivity | apply IH]. }
  apply IH.
Qed.

(** The vector [bvector_convert] gives for a string that is not empty. *)
Lemma bvector_convert_bits (fresh : nat -> Z) (s : string) :
  s <> EmptyString ->
  strlen s < 2 ^ 64 ->
  convert_claim fresh s.
Proof.
  intros Hne Hlen. unfold convert_claim, bvector_convert.
  assert (Hpos : 0 < strlen s).
  { destruct s; [congruence|]. rewrite strlen_String. unfold strlen. lia. }
  rewrite u64_small by lia. unfold bvector_create.
  destruct (Z.eqb_spec (strlen s) 0); [lia|].
  set (b0 := {| vector := replicate _ 0; vector_length := strlen s;
                working_index := DEFAULT_VECTOR_INDEX |}).
  assert (Hs0 : bvector_sized b0).
  { split; cbn; [now rewrite length_replicate|].
    unfold DEFAULT_VECTOR_INDEX. lia. }
  destruct (convert_loop_appends fresh s b0 Hs0 ltac:(cbn; unfold DEFAULT_VECTOR_INDEX; lia) Hlen)
    as (b' & Hloop & [Hlen' Hcur'] & Hc' & Hw' & _ & Hnew).
  rewrite Hloop. cbn [bvector_resize returned fst snd].
  eexists. split; [reflexivity|].
  cbn [vector_length working_index] in *.
  change (working_index b0) with 0 in *. rewrite Z.add_0_l in *.
  split; [|split; [exact Hw' | reflexivity]].
  unfold stored_bits. cbn [vector_length]. rewrite Hw', Nat2Z.id.
  apply map_seq_lookup. intros i d Hi. cbn [Nat.add].
  pose proof (lookup_lt_Some _ _ _ Hi) as Hilt.
  rewrite check_bit_bit_at by (cbn [vector_length]; lia).
  cbn [vector]. unfold bit_at.
  assert (Hdiv : 0 <= Z.of_nat i / 8 <= working_index b' / 8).
  { split; [apply Z.div_pos; lia | apply Z.div_le_mono; lia]. }
  assert (Hdiv' : working_index b' / 8 <= vector_length b' / 8)
    by (apply Z.div_le_mono; lia).
  unfold VECTOR_BYTE_SIZE in *. rewrite <- Hw'.
  rewrite byte_at_realloc; [| lia | rewrite Hlen'; lia].
  specialize (Hnew i d Hi). rewrite Z.add_0_l in Hnew.
  unfold bit_at in Hnew. rewrite Hnew.
  apply (binary_digits_bits s i d Hi).
Qed.

(** C8, as amended.  For every string that is not empty (and whose length
    is a [uint64_t]), [bvector_convert] gives a vector whose bits are the
    characters '0' and '1' of the string in order, every other character
    being skipped, and whose capacity and cursor are both the number of those
    characters. *)
Theorem bvector_convert_digits (fresh : nat -> Z) (s : string) :
  s <> EmptyString ->
  strlen s < 2 ^ 64 ->
  convert_claim fresh s.
Proof. exact (bvector_convert_bits fresh s). Qed.

Lemma bvector_convert_digits_witness :
  convert_claim zero_fresh "1x01".
Proof.
  apply bvector_convert_digits.
  - discriminate.
  - vm_compute. reflexivity.
Defined.

(** The claim fails on the empty string: [bvector_create(0)] gives [NULL],
    and so does [bvector_convert]. *)
Lemma bvector_convert_empty :
  ~ convert_claim zero_fresh EmptyString.
Proof. intros (b & Hb & _). discriminate Hb. Qed.

(** ** Order of the frequency list *)

Lemma ascending_cons (a : helement_t) (l : list helement_t) :
  ascending (a :: l) = true
  <-> Forall (fun n => frequency a <= frequency n) l /\ ascending l = true.
Proof.
  revert a. induction l as [|b l IH]; intros a.
  - cbn. split; [intros _; split; [constructor | reflexivity] | reflexivity].
  - change (ascending (a :: b :: l))
      with ((frequency a <=? frequency b) && ascending (b :: l)).
    rewrite andb_true_iff, Z.leb_le, Forall_cons. split.
    + intros [Hab Hbl]. split; [|exact Hbl]. split; [exact Hab|].
      apply IH in Hbl as [Hb _].
      eapply Forall_impl; [exact Hb|]. intros n Hn. cbn in Hn. lia.
    + intros [[Hab _] Hbl]. split; assumption.
Qed.

Lemma ascending_app (l1 l2 : list helement_t) :
  ascending (l1 ++ l2) = true
  <-> ascending l1 = true /\ ascending l2 = true
      /\ Forall (fun a => Forall (fun b => frequency a <= frequency b) l2) l1.
Proof.
  induction l1 as [|a l1 IH].
  - cbn. split; [intros H; repeat split; [exact H | constructor] | tauto].
  - cbn [app]. rewrite !ascending_cons, Forall_app, Forall_cons, IH. tauto.
Qed.

Lemma fix_order_from_Forall (P : helement_t -> Prop) (node : helement_t)
    (rest : list helement_t) :
  P node -> Forall P rest -> Forall P (fix_order_from node rest).1.
Proof.
  intros Hnode. induction rest as [|next rest IH]; intros Hrest.
  - cbn. now constructor.
  - cbn [fix_order_from]. apply Forall_cons in Hrest as [Hnext Hrest].
    destruct (frequency node <=? frequency next).
    + cbn. repeat constructor; assumption.
    + specialize (IH Hrest). destruct (fix_order_from node rest) as [l k].
      cbn in *. now constructor.
Qed.

(** Bubbling an element into a sorted list gives a sorted list. *)
Lemma fix_order_from_ascending (node : helement_t) (rest : list helement_t) :
  ascending rest = true -> ascending (fix_order_from node rest).1 = true.
Proof.
  induction rest as [|next rest IH]; intros Hrest; [reflexivity|].
  cbn [fix_order_from].
  destruct (Z.leb_spec (frequency node) (frequency next)) as [Hle|Hgt].
  - cbn [fst]. apply ascending_cons. split; [|exact Hrest].
    apply ascending_cons in Hrest as [Hlow _].
    constructor; [exact Hle|].
    eapply Forall_impl; [exact Hlow|]. intros n Hn. cbn in Hn. lia.
  - apply ascending_cons in Hrest as [Hlow Hrest].
    specialize (IH Hrest).
    assert (Hnode : frequency next <= frequency node) by lia.
    pose proof (fix_order_from_Forall
                  (fun n => frequency next <= frequency n) node rest
                  Hnode Hlow) as Hall.
    destruct (fix_order_from node rest) as [l k]. cbn [fst] in *.
    apply ascending_cons. split; assumption.
Qed.

Lemma ascending_head (l : list helement_t) :
  ascending l = true -> head_is_minimum l.
Proof.
  destruct l as [|h l]; [easy|]. intros H.
  apply ascending_cons in H as [Hlow _]. cbn.
  constructor; [lia | exact Hlow].
Qed.

Lemma search_from_lookup (l : list helement_t) (element0 : Z) (i : nat) :
  search_from l element0 = Some i ->
  exists n, l !! i = Some n /\ element n = element0.
Proof.
  revert i. induction l as [|a l IH]; intros i; [discriminate|].
  cbn [search_from]. destruct (Z.eqb_spec (element a) element0) as [He|He].
  - intros [= <-]. now exists a.
  - destruct (search_from l element0) as [k|]; [|discriminate].
    intros [= <-]. destruct (IH k eq_refl) as (n & Hn & Hel). now exists n.
Qed.

Lemma alter_middle {A} (f : A -> A) (l : list A) (i : nat) (x : A) :
  l !! i = Some x -> alter f i l = take i l ++ f x :: drop (S i) l.
Proof.
  revert i. induction l as [|a l IH]; intros [|i] H; try discriminate.
  - injection H as ->. reflexivity.
  - cbn in *. f_equal. now apply IH.
Qed.

(** [_fix_order] on the element at position [i] after it was changed. *)
Lemma _fix_order_altered (f : helement_t -> helement_t) (l : list helement_t)
    (c : Z) (i : nat) (n : helement_t) :
  l !! i = Some n ->
  _fix_order {| hl_list := alter f i l; hl_count := c |} i
  = ({| hl_list := take i l ++ (fix_order_from (f n) (drop (S i) l)).1;
        hl_count := c |},
     (i + (fix_order_from (f n) (drop (S i) l)).2)%nat).
Proof.
  intros Hn. unfold _fix_order. cbn [hl_list hl_count].
  rewrite (alter_middle f l i n Hn).
  pose proof (lookup_lt_Some _ _ _ Hn) as Hlt.
  rewrite drop_app_length' by (rewrite length_take; lia).
  rewrite take_app_length' by (rewrite length_take; lia).
  now destruct (fix_order_from (f n) (drop (S i) l)).
Qed.

(** C5, as amended.  After every [hlist_add_increment_element] call on a
    list sorted by ascending frequency in which no frequency is 2^64 - 1,
    the list is sorted by ascending frequency, and so its head has the least
    frequency. *)
Theorem hlist_add_keeps_order (hlist : hlist_t) (element0 frequency0 : Z) :
  below_top (hl_list hlist) ->
  order_claim hlist element0 frequency0.
Proof.
  intros Htop Hsorted.
  cut (ascending
         (hl_list (hlist_add_increment_element hlist element0 frequency0).1)
       = true).
  { intros H. split; [exact H | now apply ascending_head]. }
  unfold hlist_add_increment_element.
  set (special := (element0 =? LIST_SPECIAL_ELEMENT)
                  && negb (frequency0 =? SPECIAL_ELEMENT_FREQUENCY)).
  assert (Hadd : forall leaf_node_flag,
            ascending
              (hl_list
                 (let '(h, i) :=
                    _fix_order (_add hlist element0 leaf_node_flag frequency0).1 O
                  in (h, Some i)).1) = true).
  { intros lf. unfold _add, _fix_order. cbn [fst hl_list drop take app].
    pose proof (fix_order_from_ascending
                  (helement_create element0 lf frequency0) (hl_list hlist)
                  Hsorted) as H.
    destruct (fix_order_from _ (hl_list hlist)). exact H. }
  destruct (_search hlist element0) as [i|] eqn:Hsearch.
  2:{ destruct special; apply Hadd. }
  destruct special; [apply Hadd|].
  destruct (search_from_lookup _ _ _ Hsearch) as (n & Hn & _).
  rewrite (_fix_order_altered _ _ _ _ n Hn). cbn [fst hl_list].
  rewrite <- (take_drop_middle _ _ _ Hn) in Hsorted, Htop.
  apply ascending_app in Hsorted as (Hpre & Hpost & Hcross).
  apply ascending_cons in Hpost as [Hlow Hpost].
  apply Forall_app in Htop as [_ Htop].
  apply Forall_cons in Htop as [Hn_top _].
  set (n' := {| element := element n; leaf_node := leaf_node n;
                left_child := left_child n; right_child := right_child n;
                frequency := u64 (frequency n + 1) |}).
  assert (Hfreq : frequency n' = frequency n + 1).
  { cbn. apply u64_small. lia. }
  apply ascending_app. split; [exact Hpre|]. split.
  - now apply fix_order_from_ascending.
  - eapply Forall_impl; [exact Hcross|]. intros a Ha. cbn in Ha.
    apply Forall_cons in Ha as [Han Hapost].
    apply fix_order_from_Forall; [cbn in *; lia | exact Hapost].
Qed.

Lemma hlist_add_keeps_order_witness :
  order_claim two_leaves 97 0.
Proof.
  apply hlist_add_keeps_order.
  repeat constructor; cbn; lia.
Defined.

(** The claim fails where the frequency wraps: after the leaf of frequency
    2^64 - 1 is met again its frequency is 0, and it stays behind the leaf
    of frequency 5. *)
Lemma hlist_add_order_wraps :
  ~ order_claim top_frequency_list 98 0.
Proof.
  intros H. destruct (H eq_refl) as [Hasc _].
  vm_compute in Hasc. discriminate Hasc.
Qed.

(** ** The end of the opcode stream *)

(** A write that fits below the limit stores the whole buffer and moves the
    position behind it. *)
Lemma write_fits (fd : file) (buf : list Z) :
  0 <= fd_pos fd ->
  fd_pos fd + Z.of_nat (length buf) <= Z.min (fd_limit fd) OFF_MAX ->
  (write fd buf).2 = Z.of_nat (length buf)
  /\ fd_pos (write fd buf).1 = fd_pos fd + Z.of_nat (length buf)
  /\ fd_data (write fd buf).1
     = match buf with
       | [] => fd_data fd
       | _ :: _ => store (fd_data fd) (Z.to_nat (fd_pos fd)) buf
       end.
Proof.
  intros Hpos Hroom. unfold write. destruct buf as [|x buf].
  - unfold pwrite. assert (Hmax : OFF_MAX = 2 ^ 63 - 1) by reflexivity.
    rewrite ssize_t_small by (cbn [length] in Hroom; lia).
    destruct (Z.ltb_spec (fd_pos fd) 0); [lia|].
    cbn. split; [reflexivity|]. split; [lia | reflexivity].
  - rewrite pwrite_fits by (try discriminate; assumption).
    destruct (Z.ltb_spec (Z.of_nat (length (x :: buf))) 0); [lia|].
    cbn [fst snd fd_pos fd_data]. repeat split.
Qed.

(** The claim fails on [short_stream]: the single opcode leads from the root
    to its left child, the stream ends there, and [huffman_decode] returns
    0. *)
Lemma huffman_decode_short_stream :
  ~ truncation_claim bit_mode_flags short_stream new_file.
Proof.
  intros H. refine (H _ _ _ _ eq_refl eq_refl _ _).
  - vm_compute. discriminate.
  - reflexivity.
Qed.

(** ** Writing a tree out *)

(** The part of a stored file before the buffer. *)
Lemma store_prefix_length (data : list Z) (off : nat) :
  length (take off data ++ replicate (off - length data) 0) = off.
Proof. rewrite length_app, length_take, length_replicate. lia. Qed.

(** Two writes one behind the other are one write. *)
Lemma store_app (data : list Z) (off : nat) (a b : list Z) :
  store (store data off a) (off + length a) b = store data off (a ++ b).
Proof.
  unfold store.
  set (P := take off data ++ replicate (off - length data) 0).
  pose proof (store_prefix_length data off) as HP. fold P in HP.
  set (R := drop (off + length a) data).
  replace (take off data ++ replicate (off - length data) 0 ++ a ++ R)
    with ((P ++ a) ++ R) by (unfold P; now rewrite <- !app_assoc).
  rewrite take_app_length' by (rewrite length_app; lia).
  replace (off + length a - length ((P ++ a) ++ R))%nat with O
    by (rewrite !length_app; lia).
  rewrite drop_app_ge by (rewrite length_app; lia).
  replace (off + length a + length b - length (P ++ a))%nat with (length b)
    by (rewrite length_app; lia).
  unfold R. rewrite drop_drop, length_app.
  replace (off + length a + length b)%nat with (off + (length a + length b))%nat
    by lia.
  cbn [replicate app]. unfold P. now rewrite <- !app_assoc.
Qed.

Lemma store_empty (buf : list Z) : store [] 0 buf = buf.
Proof. unfold store. cbn. rewrite drop_nil. apply app_nil_r. Qed.

Lemma serialized_length (n : helement_t) :
  length (serialized n) = (2 * size n)%nat.
Proof.
  induction n as [n IHl IHr] using helement_induction.
  destruct n as [e lf [l|] [r|] f]; cbn in *;
    rewrite ?length_app, ?IHl, ?IHr, ?app_nil_r; cbn; lia.
Qed.

(** [_output] stores the serialized tree at [offset] and returns the offset
    behind it, when the file has room. *)
Lemma _output_writes (n : helement_t) :
  forall (fd : file) (offset : Z),
    0 <= offset ->
    offset + 2 * Z.of_nat (size n) <= Z.min (fd_limit fd) OFF_MAX ->
    _output n fd offset
    = ({| fd_data := store (fd_data fd) (Z.to_nat offset) (serialized n);
          fd_pos := fd_pos fd; fd_limit := fd_limit fd |},
       offset + 2 * Z.of_nat (size n)).
Proof.
  induction n as [n IHl IHr] using helement_induction.
  intros fd offset Hoff Hroom.
  assert (Hmax : OFF_MAX = 2 ^ 63 - 1) by reflexivity.
  destruct n as [e lf l r f].
  cbn [_output element leaf_node left_child right_child].
  cbn [size left_child right_child] in Hroom.
  rewrite pwrite_fits by (try discriminate; cbn [length]; lia).
  cbn [length]. change (Z.of_nat 1 <? 1) with false. cbv iota.
  rewrite u64_small by lia.
  rewrite pwrite_fits
    by (try discriminate; cbn [length fd_limit fd_data]; lia).
  cbn [length fd_data fd_pos fd_limit]. change (Z.of_nat 1 <? 1) with false.
  cbv iota. rewrite u64_small by lia.
  replace (Z.to_nat (offset + Z.of_nat 1))
    with (Z.to_nat offset + length [e])%nat by (cbn [length]; lia).
  rewrite store_app. cbn [app].
  rewrite ssize_t_small by lia.
  assert (Hright : forall (fd1 : file) (ret : Z) (done : list Z),
            fd_pos fd1 = fd_pos fd -> fd_limit fd1 = fd_limit fd ->
            fd_data fd1 = store (fd_data fd) (Z.to_nat offset) done ->
            ret = offset + Z.of_nat (length done) ->
            Z.of_nat (length done)
            + 2 * Z.of_nat (match r with Some r => size r | None => O end)
            = 2 * Z.of_nat (size (Build_helement e lf l r f)) ->
            match r with
            | Some r =>
              let '(fd2, ret) := _output r fd1 (u64 ret) in
              if ret =? -1 then (fd2, -1) else (fd2, ret)
            | None => (fd1, ret)
            end
            = ({| fd_data :=
                    store (fd_data fd) (Z.to_nat offset)
                          (done ++ match r with
                                   | Some r => serialized r | None => []
                                   end);
                  fd_pos := fd_pos fd; fd_limit := fd_limit fd |},
               offset + 2 * Z.of_nat (size (Build_helement e lf l r f)))).
  { intros fd1 ret done Hp Hl Hd -> Hsize.
    cbn [size left_child right_child] in *.
    destruct r as [r|].
    - cbn in IHr. rewrite u64_small by lia.
      rewrite IHr by (rewrite ?Hl; lia).
      destruct (Z.eqb_spec (offset + Z.of_nat (length done)
                            + 2 * Z.of_nat (size r)) (-1)); [lia|].
      rewrite Hd, Hp, Hl.
      replace (Z.to_nat (offset + Z.of_nat (length done)))
        with (Z.to_nat offset + length done)%nat by lia.
      rewrite store_app. f_equal. lia.
    - rewrite app_nil_r. destruct fd1 as [d1 p1 l1]. cbn in *. subst.
      f_equal. lia. }
  destruct l as [l|].
  - cbn in IHl.
    rewrite IHl by (cbn [fd_limit]; lia).
    cbn [fd_data fd_pos fd_limit].
    destruct (Z.eqb_spec (offset + Z.of_nat 1 + Z.of_nat 1
                          + 2 * Z.of_nat (size l)) (-1)); [lia|].
    replace (Z.to_nat (offset + Z.of_nat 1 + Z.of_nat 1))
      with (Z.to_nat offset + length [e; lf])%nat by (cbn [length]; lia).
    rewrite store_app.
    rewrite (Hright _ _ ([e; lf] ++ serialized l));
      cbn [fd_pos fd_limit fd_data]; try reflexivity;
      rewrite ?length_app, ?serialized_length;
      cbn [length size left_child right_child]; destruct r; lia.
  - rewrite (Hright _ _ [e; lf]); cbn [fd_pos fd_limit fd_data];
      try reflexivity; cbn [length size left_child right_child];
      destruct r; lia.
Qed.

(** ** Reading a tree back *)

Lemma pread_at (fd : file) (pre buf post : list Z) (offset : Z) :
  fd_data fd = pre ++ buf ++ post ->
  Z.of_nat (length pre) = offset ->
  offset < 2 ^ 63 ->
  pread fd (length buf) offset = (buf, Z.of_nat (length buf)).
Proof.
  intros Hdata Hpre Hoff. unfold pread.
  rewrite ssize_t_small by lia.
  destruct (Z.ltb_spec offset 0); [lia|].
  rewrite Hdata, drop_app_length' by lia.
  rewrite take_app_length. reflexivity.
Qed.

Lemma pread_eof (fd : file) (n : nat) (offset : Z) :
  Z.of_nat (length (fd_data fd)) <= offset ->
  offset < 2 ^ 63 ->
  pread fd n offset = ([], 0).
Proof.
  intros Hlen Hoff. unfold pread.
  rewrite ssize_t_small by lia.
  destruct (Z.ltb_spec offset 0); [lia|].
  rewrite drop_ge by lia. now rewrite take_nil.
Qed.

Lemma object_offset (k : Z) :
  0 <= k -> 8 + 2 * k < 2 ^ 63 ->
  TREE_INPUT_ELEMENT_OFFSET k = 8 + 2 * k
  /\ TREE_INPUT_LEAFNODE_OFFSET k = 8 + 2 * k + 1.
Proof.
  intros Hk Hlt.
  unfold TREE_INPUT_LEAFNODE_OFFSET, TREE_INPUT_ELEMENT_OFFSET,
    TREE_INPUT_OBJECT_OFFSET, TREE_INPUT_COUNT_OFFSET, TREE_INPUT_COUNT_SIZE,
    TREE_INPUT_OBJECT_SIZE, TREE_INPUT_ELEMENT_SIZE, TREE_INPUT_LEAFNODE_SIZE.
  assert (H : u64 (0 + 8 + k * (1 + 1)) = 8 + 2 * k)
    by (rewrite u64_small; lia).
  rewrite H. split; [reflexivity | rewrite u64_small; lia].
Qed.

(** The element read at index [k] when its two bytes are in the file. *)
Lemma _input_object_at (fd : file) (k e lf : Z) (pre post : list Z) :
  0 <= k ->
  fd_data fd = pre ++ e :: lf :: post ->
  Z.of_nat (length pre) = 8 + 2 * k ->
  Z.of_nat (length (fd_data fd)) < 2 ^ 63 ->
  _input_object fd k = Some (helement_create e lf SPECIAL_ELEMENT_FREQUENCY).
Proof.
  intros Hk Hdata Hpre Hlen.
  assert (Hlt : 8 + 2 * k + 1 < 2 ^ 63).
  { rewrite Hdata, length_app in Hlen. cbn [length] in Hlen. lia. }
  destruct (object_offset k Hk ltac:(lia)) as [He Hl].
  unfold _input_object. rewrite He, Hl.
  rewrite (pread_at fd pre [e] (lf :: post)) by (try assumption; lia).
  cbn [length]. change (Z.of_nat 1 <? TREE_INPUT_ELEMENT_SIZE) with false.
  cbv iota.
  rewrite (pread_at fd (pre ++ [e]) [lf] post);
    [| now rewrite <- app_assoc | rewrite length_app; cbn [length]; lia | lia].
  reflexivity.
Qed.

(** No element is read at an index behind the end of the file. *)
Lemma _input_object_eof (fd : file) (k : Z) :
  0 <= k ->
  Z.of_nat (length (fd_data fd)) <= 8 + 2 * k ->
  8 + 2 * k < 2 ^ 63 ->
  _input_object fd k = None.
Proof.
  intros Hk Hlen Hlt.
  destruct (object_offset k Hk Hlt) as [He _].
  unfold _input_object. rewrite He.
  now rewrite pread_eof by lia.
Qed.

Lemma serialized_starts (n : helement_t) :
  exists tail, serialized n = element n :: leaf_node n :: tail.
Proof. destruct n as [e lf l r f]. cbn. eauto. Qed.

Lemma size_positive (n : helement_t) : (0 < size n)%nat.
Proof. destruct n; cbn; lia. Qed.

(** Two ways of writing the same bytes. *)
Ltac same_bytes :=
  repeat (rewrite <- ?app_assoc; cbn [app]); reflexivity.

(** [_input] on the element read at index [k], when the file has the
    serialized proper tree [n] there: the element becomes the tree with
    every frequency at its default, the left child being read at [k + 1] and
    the right child behind the last index of the left subtree; the index
    returned is the last index of the tree. *)
Lemma _input_rebuilds (fd : file) (n : helement_t) :
  proper n = true ->
  forall (fuel : nat) (k : Z) (pre post : list Z),
    (size n <= fuel)%nat ->
    0 <= k ->
    fd_data fd = pre ++ serialized n ++ post ->
    Z.of_nat (length pre) = 8 + 2 * k ->
    Z.of_nat (length (fd_data fd)) < 2 ^ 63 ->
    _input fuel fd
           (helement_create (element n) (leaf_node n) SPECIAL_ELEMENT_FREQUENCY)
           k (leaf_node n)
    = Some (rebuilt n, k + Z.of_nat (size n) - 1).
Proof.
  induction n as [n IHl IHr] using helement_induction.
  intros Hn fuel k pre post Hfuel Hk Hdata Hpre Hlen.
  destruct (proper_inv n Hn)
    as (_ & _ & [(Hlf & Hl & Hr) | (Hlf & l & r & Hl & Hr & Hpl & Hpr)]).
  - (* a leaf *)
    destruct n as [e lf l r f]; cbn in Hl, Hr, Hlf; subst l r.
    destruct fuel as [|fuel]; [cbn in Hfuel; lia|].
    cbn [_input leaf_node element].
    destruct (Z.eqb_spec lf 0); [lia|]. cbn [negb].
    f_equal. f_equal. cbn [size left_child right_child]. lia.
  - (* a node with two children *)
    destruct n as [e lf l0 r0 f]; cbn in Hl, Hr, Hlf; subst l0 r0 lf.
    cbn [on_child left_child right_child] in IHl, IHr.
    cbn [size left_child right_child] in Hfuel.
    destruct fuel as [|fuel]; [lia|].
    cbn [serialized element leaf_node left_child right_child] in Hdata.
    assert (Hsl := serialized_length l). assert (Hsr := serialized_length r).
    assert (Hbound : 8 + 2 * k + 2 + 2 * Z.of_nat (size l)
                     + 2 * Z.of_nat (size r) < 2 ^ 63).
    { rewrite Hdata in Hlen. rewrite !length_app in Hlen.
      cbn [length] in Hlen. rewrite !length_app in Hlen. lia. }
    cbn [_input leaf_node element]. cbn [Z.eqb negb].
    rewrite u64_small by lia.
    destruct (serialized_starts l) as [tl Htl].
    rewrite (_input_object_at fd (k + 1) (element l) (leaf_node l)
               (pre ++ [e; 0]) (tl ++ serialized r ++ post)).
    2:{ lia. }
    2:{ rewrite Hdata, Htl. same_bytes. }
    2:{ rewrite length_app. cbn [length]. lia. }
    2:{ exact Hlen. }
    cbv beta iota zeta.
    change (leaf_node (helement_create (element l) (leaf_node l)
                                       SPECIAL_ELEMENT_FREQUENCY))
      with (leaf_node l).
    rewrite (IHl Hpl fuel (k + 1) (pre ++ [e; 0]) (serialized r ++ post));
      [| lia | lia | rewrite Hdata; same_bytes
       | rewrite length_app; cbn [length]; lia | exact Hlen].
    cbv beta iota zeta.
    pose proof (size_positive l) as Hposl.
    destruct (Z.eqb_spec (k + 1 + Z.of_nat (size l) - 1) TREE_BAD_COUNT)
      as [Hbad|_]; [unfold TREE_BAD_COUNT in Hbad; lia|].
    rewrite u64_small by lia.
    destruct (serialized_starts r) as [tr Htr].
    rewrite (_input_object_at fd (k + 1 + Z.of_nat (size l) - 1 + 1)
               (element r) (leaf_node r)
               (pre ++ [e; 0] ++ serialized l) (tr ++ post)).
    2:{ lia. }
    2:{ rewrite Hdata, Htr. same_bytes. }
    2:{ rewrite !length_app. cbn [length]. lia. }
    2:{ exact Hlen. }
    cbv beta iota zeta.
    change (leaf_node (helement_create (element r) (leaf_node r)
                                       SPECIAL_ELEMENT_FREQUENCY))
      with (leaf_node r).
    rewrite (IHr Hpr fuel (k + 1 + Z.of_nat (size l) - 1 + 1)
               (pre ++ [e; 0] ++ serialized l) post);
      [| lia | lia | rewrite Hdata; same_bytes
       | rewrite !length_app; cbn [length]; lia | exact Hlen].
    f_equal. f_equal. cbn [size left_child right_child]. lia.
Qed.

Lemma u64_of_bytes_digits (n : nat) :
  forall x, 0 <= x < 256 ^ Z.of_nat n ->
    u64_of_bytes
      (map (fun i : nat => (x / 2 ^ (8 * Z.of_nat i)) mod 256) (seq 0 n)) = x.
Proof.
  induction n as [|n IH]; intros x Hx.
  - cbn in *. lia.
  - cbn [seq map u64_of_bytes]. rewrite <- seq_shift, map_map.
    change (8 * Z.of_nat 0) with 0. rewrite Z.pow_0_r, Z.div_1_r.
    rewrite (map_ext _ (fun i : nat =>
                          (x / 256 / 2 ^ (8 * Z.of_nat i)) mod 256)).
    + rewrite IH.
      * pose proof (Z.div_mod x 256). lia.
      * rewrite Nat2Z.inj_succ, Z.pow_succ_r in Hx by lia.
        split; [apply Z.div_pos; lia | apply Z.div_lt_upper_bound; lia].
    + intros i. rewrite Z.div_div by lia.
      replace (8 * Z.of_nat (S i)) with (8 + 8 * Z.of_nat i) by lia.
      rewrite Z.pow_add_r by lia. reflexivity.
Qed.

Lemma u64_of_bytes_u64_bytes (x : Z) :
  0 <= x < 2 ^ 64 -> u64_of_bytes (u64_bytes x) = x.
Proof. intros Hx. apply (u64_of_bytes_digits 8). exact Hx. Qed.

(** [htree_input] on a file that starts with a count and a serialized proper
    tree.  A root that is a leaf is given no child as long as nothing
    follows it in the file. *)
Lemma htree_input_rebuilds (fd : file) (c : Z) (r : helement_t) (post : list Z) :
  proper r = true ->
  0 <= c < 2 ^ 64 ->
  fd_pos fd = 0 ->
  fd_data fd = u64_bytes c ++ serialized r ++ post ->
  Z.of_nat (length (fd_data fd)) < 2 ^ 63 ->
  leaf_node r = 0 \/ post = [] ->
  (htree_input fd).2
  = Some {| root := Some (rebuilt r); count := c; _parsed := 0 |}.
Proof.
  intros Hr Hc Hpos Hdata Hlen Hroot. unfold htree_input, read.
  rewrite Hpos.
  assert (Hread : pread fd 8 0 = (u64_bytes c, 8)).
  { apply (pread_at fd [] (u64_bytes c) (serialized r ++ post) 0 Hdata eq_refl).
    lia. }
  rewrite Hread. change (8 <? 0) with false.
  change (8 <? TREE_INPUT_COUNT_SIZE) with false. cbv iota.
  rewrite u64_of_bytes_u64_bytes by exact Hc.
  set (fd' := {| fd_data := fd_data fd; fd_pos := 0 + 8;
                 fd_limit := fd_limit fd |}).
  destruct (serialized_starts r) as [tl Htl].
  unfold TREE_INPUT_ROOT_ELEMENT_INDEX.
  rewrite (_input_object_at fd' 0 (element r) (leaf_node r)
             (u64_bytes c) (tl ++ post));
    [| lia
     | cbn [fd' fd_data]; rewrite Hdata, Htl; same_bytes
     | reflexivity | exact Hlen].
  assert (Hsize : (size r <= input_fuel fd')%nat).
  { unfold input_fuel. cbn [fd' fd_data]. rewrite Hdata, !length_app.
    rewrite serialized_length. lia. }
  destruct (proper_inv r Hr)
    as (_ & _ & [(Hlf & Hl & Hrc) | (Hlf & _)]).
  - (* the root is a leaf *)
    destruct Hroot as [Hz | ->]; [congruence|].
    assert (Hser : serialized r = [element r; leaf_node r]).
    { destruct r as [e lf l rc f]. cbn in Hl, Hrc. now subst. }
    unfold input_fuel. cbn [_input]. cbn [Z.eqb negb].
    rewrite _input_object_eof;
      [| rewrite u64_small by lia; lia
       | cbn [fd' fd_data]; rewrite Hdata, Hser, !length_app, u64_bytes_length;
         rewrite u64_small by lia; cbn [length]; lia
       | rewrite u64_small by lia; lia].
    cbn [snd]. f_equal. f_equal.
    destruct r as [e lf l rc f]. cbn in Hl, Hrc. now subst.
  - (* the root has children *)
    rewrite <- Hlf at 2.
    rewrite (_input_rebuilds fd' r Hr (input_fuel fd') 0 (u64_bytes c) post
               Hsize ltac:(lia) Hdata eq_refl Hlen).
    reflexivity.
Qed.

Lemma preorder_rebuilt (n : helement_t) : preorder (rebuilt n) = preorder n.
Proof.
  induction n as [n IHl IHr] using helement_induction.
  destruct n as [e lf [l|] [r|] f]; cbn in *; now rewrite ?IHl, ?IHr.
Qed.

Lemma proper_rebuilt (n : helement_t) : proper (rebuilt n) = proper n.
Proof.
  induction n as [n IHl IHr] using helement_induction.
  destruct n as [e lf [l|] [r|] f]; cbn in *; now rewrite ?IHl, ?IHr.
Qed.

(** The parse does not look at the frequencies. *)
Lemma _parse_rebuilt (n : helement_t) :
  forall table opcode_string count,
    _parse (rebuilt n) table opcode_string count
    = _parse n table opcode_string count.
Proof.
  induction n as [n IHl IHr] using helement_induction.
  intros table opcode_string count.
  destruct n as [e lf l r f]. cbn in IHl, IHr.
  cbn [_parse rebuilt leaf_node element left_child right_child].
  destruct (lf =? 0); cbn [negb]; [|reflexivity].
  destruct l as [l|]; cbn [on_child] in IHl.
  - rewrite IHl. destruct (_parse l _ _ _) as [table' count'].
    destruct r as [r|]; cbn [on_child] in IHr; [apply IHr | reflexivity].
  - destruct r as [r|]; cbn [on_child] in IHr; [apply IHr | reflexivity].
Qed.

(** [htree_output] on a parsed tree and a new file: the count and the
    serialized tree make the file. *)
Lemma htree_output_writes (t : htree_t) (r : helement_t) (fd : file) :
  root t = Some r ->
  _parsed t <> 0 ->
  1 <= count t < 2 ^ 64 ->
  fd_data fd = [] ->
  fd_pos fd = 0 ->
  8 + 2 * Z.of_nat (size r) <= Z.min (fd_limit fd) OFF_MAX ->
  htree_output (Some t) fd 0
  = Some ({| fd_data := u64_bytes (count t) ++ serialized r;
             fd_pos := 8; fd_limit := fd_limit fd |},
          8 + 2 * Z.of_nat (size r)).
Proof.
  intros Hroot Hparsed Hcount Hdata Hpos Hroom. unfold htree_output.
  destruct (Z.eqb_spec (_parsed t) 0); [contradiction|].
  destruct (Z.ltb_spec (count t) 1); [lia|].
  unfold write. rewrite Hpos.
  rewrite pwrite_fits
    by (try discriminate; rewrite ?u64_bytes_length; lia).
  rewrite u64_bytes_length. change (Z.of_nat 8 <? 0) with false.
  change (Z.of_nat 8 <? 8) with false. cbv iota.
  cbn [fd_data fd_pos fd_limit]. rewrite Hroot, Hdata, Hpos.
  rewrite u64_small by lia.
  rewrite _output_writes by (cbn [fd_limit]; lia).
  cbn [fd_data fd_pos fd_limit].
  destruct (Z.eqb_spec (0 + 8 + 2 * Z.of_nat (size r)) (-1)); [lia|].
  change (Z.to_nat (0 + 8)) with (Z.to_nat 0 + length (u64_bytes (count t)))%nat.
  change (Z.of_nat 8) with 8. change (8 <? 8) with false. cbv iota.
  rewrite store_app. change (Z.to_nat 0) with O. rewrite store_empty.
  reflexivity.
Qed.

(** ** The indices of the reconstruction *)

Lemma parse_in_block_rebuilt (n : helement_t) :
  forall len, parse_in_block (rebuilt n) len = parse_in_block n len.
Proof.
  induction n as [n IHl IHr] using helement_induction.
  intros len.
  destruct n as [e lf [l|] [r|] f]; cbn in *; now rewrite ?IHl, ?IHr.
Qed.

(** The indices [_input] works with, for a node with two children whose
    serialized subtree starts at index [k] of the file: the left child is
    read at [k + 1]; [last], the index [_input] returns for the left child,
    is the last index of the left subtree; the right child is read at
    [last + 1]; the index returned for the node is the last of its
    subtree. *)
Lemma _input_indices (fd : file) (n l r : helement_t) (k : Z)
    (pre post : list Z) :
  proper n = true ->
  left_child n = Some l ->
  right_child n = Some r ->
  0 <= k ->
  fd_data fd = pre ++ serialized n ++ post ->
  Z.of_nat (length pre) = 8 + 2 * k ->
  Z.of_nat (length (fd_data fd)) < 2 ^ 63 ->
  exists last,
    last = k + Z.of_nat (size l)
    /\ _input_object fd (k + 1) = Some (object_of l)
    /\ _input (size l) fd (object_of l) (k + 1) (leaf_node l)
       = Some (rebuilt l, last)
    /\ _input_object fd (last + 1) = Some (object_of r)
    /\ _input (size r) fd (object_of r) (last + 1) (leaf_node r)
       = Some (rebuilt r, k + Z.of_nat (size n) - 1)
    /\ _input (size n) fd (object_of n) k (leaf_node n)
       = Some (rebuilt n, k + Z.of_nat (size n) - 1)
    /\ left_child (rebuilt n) = Some (rebuilt l)
    /\ right_child (rebuilt n) = Some (rebuilt r).
Proof.
  intros Hn Hl Hr Hk Hdata Hpre Hlen.
  destruct (proper_inv n Hn)
    as (_ & _ & [(_ & Hl' & _) | (Hlf & l' & r' & Hl' & Hr' & Hpl & Hpr)]);
    [congruence|].
  assert (l' = l) by congruence. assert (r' = r) by congruence. subst l' r'.
  assert (Hser : serialized n
                 = element n :: leaf_node n :: serialized l ++ serialized r).
  { destruct n as [e lf l0 r0 f]. cbn in Hl, Hr. subst l0 r0. reflexivity. }
  assert (Hsize : size n = S (size l + size r)).
  { destruct n as [e lf l0 r0 f]. cbn in Hl, Hr. subst l0 r0. reflexivity. }
  assert (Hsl := serialized_length l). assert (Hsr := serialized_length r).
  assert (Hstartl : exists ml, serialized l = element l :: leaf_node l :: ml)
    by (destruct l as [e lf [?|] [?|] f]; eexists; reflexivity).
  assert (Hstartr : exists mr, serialized r = element r :: leaf_node r :: mr)
    by (destruct r as [e lf [?|] [?|] f]; eexists; reflexivity).
  destruct Hstartl as [ml Hml], Hstartr as [mr Hmr].
  exists (k + Z.of_nat (size l)). split; [reflexivity|].
  assert (Hdl : fd_data fd
                = (pre ++ [element n; leaf_node n])
                    ++ serialized l ++ (serialized r ++ post)).
  { rewrite Hdata, Hser. repeat (rewrite <- ?app_assoc; cbn [app]).
    reflexivity. }
  assert (Hdr : fd_data fd
                = (pre ++ [element n; leaf_node n] ++ serialized l)
                    ++ serialized r ++ post).
  { rewrite Hdata, Hser. repeat (rewrite <- ?app_assoc; cbn [app]).
    reflexivity. }
  split.
  { apply (_input_object_at fd (k + 1) _ _ (pre ++ [element n; leaf_node n])
             (ml ++ serialized r ++ post)); try lia.
    - rewrite Hdl, Hml. repeat (rewrite <- ?app_assoc; cbn [app]).
      reflexivity.
    - rewrite length_app. cbn [length]. lia. }
  split.
  { unfold object_of.
    rewrite (_input_rebuilds fd l Hpl (size l) (k + 1)
               (pre ++ [element n; leaf_node n]) (serialized r ++ post));
      try lia; try assumption.
    - f_equal. f_equal. lia.
    - rewrite length_app. cbn [length]. lia. }
  split.
  { apply (_input_object_at fd (k + Z.of_nat (size l) + 1) _ _
             (pre ++ [element n; leaf_node n] ++ serialized l)
             (mr ++ post)); try lia.
    - rewrite Hdr, Hmr. repeat (rewrite <- ?app_assoc; cbn [app]).
      reflexivity.
    - rewrite !length_app. cbn [length]. lia. }
  split.
  { unfold object_of.
    rewrite (_input_rebuilds fd r Hpr (size r) (k + Z.of_nat (size l) + 1)
               (pre ++ [element n; leaf_node n] ++ serialized l) post);
      try lia; try assumption.
    - f_equal. f_equal. lia.
    - rewrite !length_app. cbn [length]. lia. }
  split.
  { unfold object_of.
    now rewrite (_input_rebuilds fd n Hn (size n) k pre post) by (try lia; assumption). }
  destruct n as [e lf l0 r0 f]. cbn in Hl, Hr. subst l0 r0.
  split; reflexivity.
Qed.

(** C4.  For every parsed tree (the parse bit is set and the count is not
    0, as [htree_parse] leaves them) in which the nodes flagged as leaves
    have no child and all others have two: [htree_output] writes the count
    and the nodes in pre-order, and [htree_input] on that file gives a tree
    with the same nodes in the same pre-order, with the same symbols and leaf
    flags (every frequency is the default).  The reconstruction reads the
    left child of a node whose subtree starts at index [k] at [k + 1], and
    its right child at [last + 1], [last] being the index [_input] returned
    for the left subtree.  The tree read back has the same opcode table:
    wherever [htree_parse] stays within its block on the tree written, it
    does so on the tree read and returns the same table. *)
Theorem htree_output_then_input (t : htree_t) (r : helement_t) (fd : file) :
  root t = Some r ->
  proper r = true ->
  _parsed t <> 0 ->
  1 <= count t < 2 ^ 64 ->
  fd_data fd = [] ->
  fd_pos fd = 0 ->
  8 + 2 * Z.of_nat (size r) <= Z.min (fd_limit fd) OFF_MAX ->
  exists fd',
    htree_output (Some t) fd 0 = Some (fd', 8 + 2 * Z.of_nat (size r))
    /\ fd_data fd' = u64_bytes (count t) ++ serialized r
    /\ (htree_input (reopen fd')).2
       = Some {| root := Some (rebuilt r); count := count t; _parsed := 0 |}
    /\ preorder (rebuilt r) = preorder r
    /\ (forall (n left right : helement_t) (k : Z) (pre post : list Z),
          proper n = true ->
          left_child n = Some left ->
          right_child n = Some right ->
          0 <= k ->
          fd_data fd' = pre ++ serialized n ++ post ->
          Z.of_nat (length pre) = 8 + 2 * k ->
          exists last,
            last = k + Z.of_nat (size left)
            /\ _input_object (reopen fd') (k + 1) = Some (object_of left)
            /\ _input (size left) (reopen fd') (object_of left) (k + 1)
                      (leaf_node left)
               = Some (rebuilt left, last)
            /\ _input_object (reopen fd') (last + 1) = Some (object_of right)
            /\ _input (size right) (reopen fd') (object_of right) (last + 1)
                      (leaf_node right)
               = Some (rebuilt right, k + Z.of_nat (size n) - 1)
            /\ _input (size n) (reopen fd') (object_of n) k (leaf_node n)
               = Some (rebuilt n, k + Z.of_nat (size n) - 1)
            /\ left_child (rebuilt n) = Some (rebuilt left)
            /\ right_child (rebuilt n) = Some (rebuilt right))
    /\ (htree_parse_in_block (Some t) = true ->
        htree_parse_in_block
          (Some {| root := Some (rebuilt r); count := count t; _parsed := 0 |})
        = true
        /\ (htree_parse (Some {| root := Some (rebuilt r); count := count t;
                                 _parsed := 0 |})).2
           = (htree_parse (Some t)).2).
Proof.
  intros Hroot Hproper Hparsed Hcount Hdata Hpos Hroom.
  assert (Hmax : OFF_MAX = 2 ^ 63 - 1) by reflexivity.
  pose proof (size_positive r) as Hsize.
  eexists. split.
  { apply htree_output_writes; assumption. }
  cbn [fd_data]. split; [reflexivity|]. split.
  { apply (htree_input_rebuilds _ (count t) r []); try assumption.
    - lia.
    - reflexivity.
    - cbn [reopen fd_data]. now rewrite app_nil_r.
    - cbn [reopen fd_data]. rewrite length_app, u64_bytes_length,
        serialized_length. lia.
    - now right. }
  split; [apply preorder_rebuilt|]. split.
  { intros n l rr k pre post Hn Hl Hr Hk Hfile Hpre.
    apply (_input_indices _ n l rr k pre post Hn Hl Hr Hk);
      cbn [reopen fd_data]; try assumption.
    rewrite length_app, u64_bytes_length, serialized_length. lia. }
  intros Hblock. split.
  { cbn [htree_parse_in_block]. rewrite parse_in_block_rebuilt.
    destruct t as [r0 c0 p0]. cbn [root] in Hroot. subst r0. exact Hblock. }
  rewrite (htree_parse_root t r Hroot).
  rewrite (htree_parse_root
             {| root := Some (rebuilt r); count := count t; _parsed := 0 |}
             (rebuilt r) eq_refl).
  cbn [snd]. now rewrite _parse_rebuilt.
Qed.

Lemma htree_output_then_input_witness :
  exists fd',
    htree_output (htree_parse (Some {| root := Some three_nodes; count := 1;
                                       _parsed := 0 |})).1 new_file 0
    = Some (fd', 14)
    /\ fd_data fd' = [3; 0; 0; 0; 0; 0; 0; 0; 255; 0; 97; 1; 98; 1]
    /\ (htree_input (reopen fd')).2
       = Some {| root := Some (rebuilt three_nodes); count := 3;
                 _parsed := 0 |}
    /\ preorder (rebuilt three_nodes) = preorder three_nodes
    /\ _input_object (reopen fd') 1 = Some (helement_create 97 1 0)
    /\ _input_object (reopen fd') 2 = Some (helement_create 98 1 0)
    /\ (htree_parse (Some {| root := Some (rebuilt three_nodes); count := 3;
                             _parsed := 0 |})).2
       = (htree_parse (Some {| root := Some three_nodes; count := 1;
                               _parsed := 0 |})).2.
Proof.
  destruct (htree_output_then_input
              {| root := Some three_nodes; count := 3; _parsed := 1 |}
              three_nodes new_file)
    as (fd' & Houtput & Hdata & Hinput & Hpre & Hindex & Htable);
    try reflexivity; try discriminate; try (cbn [count]; lia).
  exists fd'.
  destruct (Hindex three_nodes (helement_create 97 1 2)
              (helement_create 98 1 3) 0 (u64_bytes 3) [])
    as (last & -> & Hleft & _ & Hright & _); try reflexivity; try lia.
  { now rewrite Hdata. }
  destruct (Htable eq_refl) as [_ Hsame].
  repeat split; assumption.
Defined.

(** ** The bound given to [_input] is never hit *)

(** An element that was read has its two bytes in the file. *)
Lemma _input_object_in_file (fd : file) (k : Z) (n : helement_t) :
  0 <= k -> 8 + 2 * k + 1 < 2 ^ 63 ->
  _input_object fd k = Some n ->
  8 + 2 * k + 1 < Z.of_nat (length (fd_data fd)).
Proof.
  intros Hk Hlt. destruct (object_offset k Hk ltac:(lia)) as [He Hl].
  unfold _input_object. rewrite He, Hl.
  destruct (Z.le_gt_cases (Z.of_nat (length (fd_data fd))) (8 + 2 * k + 1))
    as [Hshort|Hlong]; [|intros _; exact Hlong].
  destruct (pread fd 1 (8 + 2 * k)) as [buf1 r1].
  destruct (r1 <? TREE_INPUT_ELEMENT_SIZE); [discriminate|].
  rewrite pread_eof by lia.
  change (0 <? TREE_INPUT_LEAFNODE_SIZE) with true. discriminate.
Qed.

(** With [fuel] above the number of elements the file has behind index [k],
    [_input] returns, and the index it returns is not before [k]. *)
Lemma _input_returns (fd : file) :
  Z.of_nat (length (fd_data fd)) < 2 ^ 61 ->
  forall (fuel : nat) (node : helement_t) (k leaf_flag : Z),
    0 <= k <= Z.of_nat (length (fd_data fd)) ->
    Z.of_nat (length (fd_data fd)) < 8 + 2 * k + 2 * Z.of_nat fuel ->
    exists node' ret,
      _input (S fuel) fd node k leaf_flag = Some (node', ret)
      /\ (ret = TREE_BAD_COUNT
          \/ k <= ret <= Z.of_nat (length (fd_data fd))).
Proof.
  intros Hlen. induction fuel as [|fuel IH]; intros node k lf Hk Hfuel.
  - (* no element is left behind [k] *)
    cbn [_input]. destruct (lf =? 0); cbn [negb].
    + rewrite u64_small by lia.
      destruct (_input_object fd (k + 1)) as [c|] eqn:Hobj.
      * apply _input_object_in_file in Hobj; [exfalso|..]; lia.
      * eexists _, _. split; [reflexivity | now left].
    + eexists _, _. split; [reflexivity | right; lia].
  - remember (S fuel) as fuel' eqn:Hf'.
    cbn [_input]. destruct (lf =? 0); cbn [negb].
    2:{ eexists _, _. split; [reflexivity | right; lia]. }
    rewrite u64_small by lia.
    destruct (_input_object fd (k + 1)) as [l|] eqn:Hl.
    2:{ eexists _, _. split; [reflexivity | now left]. }
    pose proof (_input_object_in_file fd (k + 1) l ltac:(lia) ltac:(lia) Hl)
      as Hin.
    subst fuel'.
    destruct (IH l (k + 1) (leaf_node l) ltac:(lia) ltac:(lia))
      as (l' & ret & Hleft & Hret).
    rewrite Hleft.
    destruct (Z.eqb_spec ret TREE_BAD_COUNT) as [Hbad|Hgood].
    { eexists _, _. split; [reflexivity | now left]. }
    destruct Hret as [Hbad|Hret]; [contradiction|].
    rewrite u64_small by lia.
    destruct (_input_object fd (ret + 1)) as [r|] eqn:Hr.
    2:{ eexists _, _. split; [reflexivity | now left]. }
    pose proof (_input_object_in_file fd (ret + 1) r ltac:(lia) ltac:(lia) Hr)
      as Hin'.
    destruct (IH r (ret + 1) (leaf_node r) ltac:(lia) ltac:(lia))
      as (r' & ret' & Hright & Hret').
    rewrite Hright.
    eexists _, _. split; [reflexivity|].
    destruct Hret' as [Hbad|Hret']; [now left | right; lia].
Qed.

(** [htree_input] never leaves the recursion at the bound. *)
Lemma htree_input_bound_not_hit (fd : file) (node : helement_t) :
  Z.of_nat (length (fd_data fd)) < 2 ^ 61 ->
  _input (input_fuel fd) fd node TREE_INPUT_ROOT_ELEMENT_INDEX 0 <> None.
Proof.
  intros Hlen. unfold input_fuel, TREE_INPUT_ROOT_ELEMENT_INDEX.
  destruct (_input_returns fd Hlen (length (fd_data fd)) node 0 0
              ltac:(lia) ltac:(lia)) as (node' & ret & H & _).
  now rewrite H.
Qed.

(** * Encoding and decoding an input with two different symbols *)

(** ** Stepping through the tree *)

(** Stepping along the path to a leaf: the symbol of the leaf is appended and
    the stepping is back at the root. *)
Lemma state_step_walk (t : htree_t) (vec : option bvector_t) (ascii : list Z)
    (e : Z) (path : list Z) :
  forall (n : helement_t) (i : Z) (st : stepping) (m : nat),
    leaf_node n = 0 ->
    leaf_at n path = Some e ->
    0 <= e < 256 ->
    Forall is_opcode path ->
    temp_ptr st = Some n ->
    (forall k b, path !! k = Some b ->
                 bvector_check_bit vec (i + Z.of_nat k) = b) ->
    exists last,
      state_step_loop (length path + m) i 0 ascii vec (Some t) st
      = state_step_loop m (i + Z.of_nat (length path)) 0 ascii vec (Some t)
          {| temp_ptr := root t; decoded_element := last;
             decoded_string := decoded_string st ++ [e] |}.
Proof.
  induction path as [|b path IH]; intros n i st m Hn Hleaf He Hbits Hst Hvec.
  - cbn [leaf_at] in Hleaf. rewrite Hn in Hleaf. discriminate.
  - cbn [length Nat.add state_step_loop]. cbn [Z.eqb negb].
    pose proof (Hvec O b eq_refl) as Hfirst.
    change (Z.of_nat 0) with 0 in Hfirst. rewrite Z.add_0_r in Hfirst.
    rewrite Hfirst.
    apply Forall_cons in Hbits as [Hb Hbits].
    cbn [leaf_at] in Hleaf. rewrite Hn in Hleaf. cbn [Z.eqb negb] in Hleaf.
    unfold htree_state_step. rewrite Hst.
    assert (Hrange : (1 <? b) || (b <? 0) = false)
      by (destruct Hb as [-> | ->]; reflexivity).
    rewrite Hrange.
    destruct (if b =? 0 then left_child n else right_child n) as [c|];
      [|discriminate].
    destruct (Z.eqb_spec (leaf_node c) 0) as [Hc|Hc]; cbn [negb].
    + (* the child is a node: the walk goes on *)
      change (0 <=? -1) with false. cbv iota.
      destruct (IH c (i + 1) {| temp_ptr := Some c; decoded_element := -1;
                                decoded_string := decoded_string st |} m
                   Hc Hleaf He Hbits eq_refl) as [last Hlast].
      { intros k b' Hk. rewrite <- (Hvec (S k) b' Hk). f_equal. lia. }
      exists last. rewrite Hlast. cbn [decoded_string]. f_equal. lia.
    + (* the child is a leaf: its symbol is emitted *)
      destruct path as [|b' path'].
      2:{ cbn [leaf_at] in Hleaf.
          destruct (Z.eqb_spec (leaf_node c) 0); [contradiction|].
          discriminate. }
      cbn [leaf_at] in Hleaf.
      destruct (Z.eqb_spec (leaf_node c) 0); [contradiction|].
      cbn [negb] in Hleaf. injection Hleaf as Hel. rewrite Hel.
      destruct (Z.leb_spec 0 e); [|lia].
      exists e. cbn [length Nat.add]. unfold array_append.
      replace (u8 e) with e by (unfold u8; rewrite Z.mod_small; lia).
      reflexivity.
Qed.

(** Stepping over the opcodes of a sequence of symbols gives the symbols. *)
Lemma state_step_stream (t : htree_t) (R : helement_t) (vec : option bvector_t)
    (ascii : list Z) (code : Z -> list Z) (B : list Z) :
  root t = Some R ->
  leaf_node R = 0 ->
  (forall e, e ∈ B ->
             leaf_at R (code e) = Some e /\ 0 <= e < 256
             /\ Forall is_opcode (code e)) ->
  forall (i : Z) (st : stepping),
    temp_ptr st = Some R ->
    (forall k b, concat (map code B) !! k = Some b ->
                 bvector_check_bit vec (i + Z.of_nat k) = b) ->
    exists last,
      state_step_loop (length (concat (map code B))) i 0 ascii vec (Some t) st
      = Some {| temp_ptr := Some R; decoded_element := last;
                decoded_string := decoded_string st ++ B |}.
Proof.
  intros Hroot HR. induction B as [|e B IH]; intros Hcode i st Hst Hvec.
  - exists (decoded_element st). cbn. rewrite app_nil_r, <- Hst.
    now destruct st.
  - cbn [map concat]. rewrite length_app.
    destruct (Hcode e ltac:(left)) as (Hleaf & He & Hops).
    destruct (state_step_walk t vec ascii e (code e) R i st
                (length (concat (map code B))) HR Hleaf He Hops Hst)
      as [last Hwalk].
    { intros k b Hk. apply Hvec. cbn [map concat].
      now apply lookup_app_l_Some. }
    rewrite Hwalk.
    destruct (IH ltac:(intros e' He'; apply Hcode; now right)
                 (i + Z.of_nat (length (code e)))
                 {| temp_ptr := root t; decoded_element := last;
                    decoded_string := decoded_string st ++ [e] |}
                 Hroot) as [last' Hrest].
    { intros k b Hk.
      replace (i + Z.of_nat (length (code e)) + Z.of_nat k)
        with (i + Z.of_nat (length (code e) + k)) by lia.
      apply Hvec. cbn [map concat].
      rewrite lookup_app_r by lia.
      now replace (length (code e) + k - length (code e))%nat with k by lia. }
    exists last'. rewrite Hrest. cbn [decoded_string].
    now rewrite <- app_assoc.
Qed.

(** ** The stream vector of the encoder *)

Lemma append_bit_stream (fresh : nat -> Z) (b : bvector_t) (bit : Z) :
  stream_ok b ->
  working_index b < 2 ^ 62 ->
  is_opcode bit ->
  exists b',
    bvector_append_bit fresh (Some b) bit = (Some b', true)
    /\ stream_ok b'
    /\ working_index b' = working_index b + 1
    /\ forall j, 0 <= j <= working_index b ->
         bit_at (vector b') j
         = if j =? working_index b then bit =? 1 else bit_at (vector b) j.
Proof.
  intros [Hsized Hcap] Hwi Hbit.
  pose proof Hsized as [Hlen Hcur].
  destruct (Z.eq_dec (working_index b) (vector_length b)) as [Hfull|Hroom].
  - (* the vector is full: it is doubled first *)
    set (b1 := {| vector := realloc fresh (vector b)
                              (vector_length b * 2 / VECTOR_BYTE_SIZE + 1);
                  vector_length := vector_length b * 2;
                  working_index := working_index b |}).
    assert (Hs1 : bvector_sized b1).
    { split; cbn [b1 vector vector_length working_index];
        [apply realloc_length | lia]. }
    destruct (write_at_cursor b1 bit Hs1
                ltac:(cbn [b1 vector_length working_index]; lia) Hbit)
      as (b' & Hb' & Hs' & Hc' & Hw' & Hbits).
    exists b'. split; [|split; [|split]].
    + unfold bvector_append_bit.
      destruct (Z.ltb_spec 1 bit); [destruct Hbit; lia|].
      destruct (Z.eqb_spec (working_index b) (vector_length b));
        [|contradiction].
      cbn [bvector_resize fst from_option].
      rewrite u64_small by lia. fold b1. now rewrite Hb'.
    + split; [exact Hs'|]. rewrite Hc', Hw'.
      cbn [b1 vector_length working_index]. lia.
    + exact Hw'.
    + intros j Hj. rewrite Hbits by lia.
      cbn [b1 working_index vector].
      destruct (Z.eqb_spec j (working_index b)); [reflexivity|].
      unfold bit_at.
      assert (0 <= j / 8 <= vector_length b / 8)
        by (split; [apply Z.div_pos; lia | apply Z.div_le_mono; lia]).
      assert (vector_length b / 8 <= vector_length b * 2 / 8)
        by (apply Z.div_le_mono; lia).
      unfold VECTOR_BYTE_SIZE in *.
      rewrite byte_at_realloc by lia. reflexivity.
  - destruct (append_bit_within fresh b bit Hsized ltac:(lia) Hbit)
      as (b' & Happ & Hs' & Hc' & Hw' & Hbits).
    exists b'. split; [exact Happ|]. split; [|split; [exact Hw'|]].
    + split; [exact Hs' | lia].
    + intros j Hj. apply Hbits. lia.
Qed.

Lemma append_vector_loop_bits (fresh : nat -> Z) (copy : option bvector_t)
    (p : list Z) :
  forall (i : Z) (b : bvector_t),
    stream_ok b ->
    working_index b + Z.of_nat (length p) < 2 ^ 62 ->
    Forall is_opcode p ->
    (forall k d, p !! k = Some d ->
                 bvector_check_bit copy (i + Z.of_nat k) = d) ->
    exists b',
      append_vector_loop fresh (length p) i (Some b) copy = Some b'
      /\ stream_ok b'
      /\ working_index b' = working_index b + Z.of_nat (length p)
      /\ (forall j, 0 <= j < working_index b ->
                    bit_at (vector b') j = bit_at (vector b) j)
      /\ (forall k d, p !! k = Some d ->
                      bit_at (vector b') (working_index b + Z.of_nat k)
                      = (d =? 1)).
Proof.
  induction p as [|d p IH]; intros i b Hok Hlen Hops Hcopy.
  - exists b. cbn [length append_vector_loop].
    split; [reflexivity|]. split; [exact Hok|]. split; [cbn; lia|].
    split; [reflexivity|]. intros k d Hk. discriminate Hk.
  - cbn [length append_vector_loop]. cbn [length] in Hlen.
    apply Forall_cons in Hops as [Hd Hops].
    pose proof (Hcopy O d eq_refl) as Hfirst.
    change (Z.of_nat 0) with 0 in Hfirst. rewrite Z.add_0_r in Hfirst.
    rewrite Hfirst.
    replace (u8 d) with d by (destruct Hd as [-> | ->]; reflexivity).
    pose proof Hok as [[_ Hcur] _].
    destruct (append_bit_stream fresh b d Hok ltac:(lia) Hd)
      as (b1 & Happ & Hok1 & Hw1 & Hbits1).
    rewrite Happ. cbn [fst].
    destruct (IH (i + 1) b1 Hok1 ltac:(lia) Hops) as (b' & Hloop & Hok' & Hw' & Hlow & Hnew).
    { intros k d' Hk. rewrite <- (Hcopy (S k) d' Hk). f_equal. lia. }
    exists b'. split; [exact Hloop|]. split; [exact Hok'|].
    split; [lia|]. split.
    + intros j Hj. rewrite Hlow by lia. rewrite Hbits1 by lia.
      destruct (Z.eqb_spec j (working_index b)); [lia | reflexivity].
    + intros [|k] d' Hk.
      * cbn in Hk. injection Hk as <-.
        change (Z.of_nat 0) with 0. rewrite Z.add_0_r.
        rewrite Hlow by lia. rewrite Hbits1 by lia.
        now rewrite Z.eqb_refl.
      * cbn in Hk. rewrite <- (Hnew k d' Hk). f_equal. lia.
Qed.

Lemma stored_bits_length (v : bvector_t) :
  length (stored_bits v) = Z.to_nat (vector_length v).
Proof. unfold stored_bits. now rewrite length_map, length_seq. Qed.

Lemma stored_bits_lookup (v : bvector_t) (k : nat) (d : Z) :
  stored_bits v !! k = Some d -> bvector_check_bit (Some v) (Z.of_nat k) = d.
Proof.
  unfold stored_bits. rewrite map_fmap, list_lookup_fmap.
  intros H. apply fmap_Some in H as (i & Hi & ->).
  apply lookup_seq in Hi as [-> _]. reflexivity.
Qed.

(** The third loop of the encoder appends the codes of the symbols. *)
Lemma vector_opcodes_loop_bits (fresh : nat -> Z)
    (vector_opcode_table : list (option bvector_t)) (code : Z -> list Z)
    (B : list Z) :
  vector_codes vector_opcode_table code B ->
  forall b,
    stream_ok b ->
    working_index b + Z.of_nat (length (concat (map code B))) < 2 ^ 62 ->
    exists b',
      vector_opcodes_loop fresh B vector_opcode_table (Some b) = Some b'
      /\ stream_ok b'
      /\ working_index b'
         = working_index b + Z.of_nat (length (concat (map code B)))
      /\ (forall j, 0 <= j < working_index b ->
                    bit_at (vector b') j = bit_at (vector b) j)
      /\ (forall k d, concat (map code B) !! k = Some d ->
                      bit_at (vector b') (working_index b + Z.of_nat k)
                      = (d =? 1)).
Proof.
  induction B as [|e B IH]; intros Hcodes b Hok Hlen.
  - exists b. cbn. split; [reflexivity|]. split; [exact Hok|].
    split; [lia|]. split; [reflexivity|]. intros k d Hk. discriminate Hk.
  - cbn [map concat vector_opcodes_loop] in *. rewrite length_app in *.
    destruct (Hcodes e ltac:(left)) as (Hops & v & Hv & Hbits).
    rewrite Hv. cbn [mjoin option_join].
    unfold bvector_append_vector, bvector_get_size.
    change (VECTOR_FLAG_FULL =? VECTOR_FLAG_FULL) with true. cbv iota.
    cbn [fst].
    assert (Hcap : Z.to_nat (vector_length v) = length (code e))
      by (rewrite <- Hbits; symmetry; apply stored_bits_length).
    rewrite Hcap.
    pose proof Hok as [[_ Hcur] _].
    destruct (append_vector_loop_bits fresh (Some v) (code e) 0 b Hok
                ltac:(lia) Hops)
      as (b1 & Happ & Hok1 & Hw1 & Hlow1 & Hnew1).
    { intros k d Hk. rewrite Z.add_0_l. apply stored_bits_lookup.
      now rewrite Hbits. }
    rewrite Happ.
    destruct (IH ltac:(intros e' He'; apply Hcodes; now right) b1 Hok1
                 ltac:(lia)) as (b' & Hloop & Hok' & Hw' & Hlow & Hnew).
    exists b'. split; [exact Hloop|]. split; [exact Hok'|].
    split; [lia|]. split.
    + intros j Hj. rewrite Hlow by lia. apply Hlow1. lia.
    + intros k d Hk.
      destruct (Nat.lt_ge_cases k (length (code e))) as [Hlt|Hge].
      * rewrite lookup_app_l in Hk by exact Hlt.
        pose proof (lookup_lt_Some _ _ _ Hk).
        rewrite Hlow by lia. now apply Hnew1.
      * rewrite lookup_app_r in Hk by exact Hge.
        rewrite <- (Hnew _ _ Hk). f_equal. lia.
Qed.

Lemma binary_digits_app (s1 s2 : string) :
  binary_digits (s1 +:+ s2) = binary_digits s1 ++ binary_digits s2.
Proof.
  induction s1 as [|c s1 IH]; [reflexivity|].
  change (String c s1 +:+ s2) with (String c (s1 +:+ s2)).
  cbn [binary_digits].
  destruct (Ascii.eqb c "0"); [cbn [app]; now rewrite IH|].
  destruct (Ascii.eqb c "1"); [cbn [app]; now rewrite IH|]. exact IH.
Qed.

Lemma strlen_app (s1 s2 : string) : strlen (s1 +:+ s2) = strlen s1 + strlen s2.
Proof.
  induction s1 as [|c s1 IH].
  - change (EmptyString +:+ s2) with s2. unfold strlen. cbn [String.length]. lia.
  - change (String c s1 +:+ s2) with (String c (s1 +:+ s2)).
    rewrite !strlen_String, IH. lia.
Qed.

(** The opcode string of a leaf of a proper tree spells the path to the
    leaf. *)
Lemma opcodes_paths (n : helement_t) :
  proper n = true ->
  forall (s : string) (e : Z) (code : string),
    (e, code) ∈ opcodes n s ->
    exists p,
      binary_digits code = binary_digits s ++ p
      /\ strlen code = strlen s + Z.of_nat (length p)
      /\ leaf_at n p = Some e
      /\ Forall is_opcode p
      /\ 0 <= e < 256
      /\ (length p < size n)%nat.
Proof.
  induction n as [n IHl IHr] using helement_induction.
  intros Hn s e code Hin.
  destruct (proper_inv n Hn)
    as (He & _ & [(Hlf & Hl & Hr) | (Hlf & l & r & Hl & Hr & Hpl & Hpr)]).
  - destruct n as [e0 lf l r f]; cbn in *; subst.
    destruct (Z.eqb_spec lf 0); [contradiction|]. cbn [negb] in Hin.
    apply list_elem_of_singleton in Hin. injection Hin as -> ->.
    exists []. rewrite app_nil_r. cbn [leaf_at leaf_node element].
    destruct (Z.eqb_spec lf 0); [contradiction|]. cbn.
    repeat split; try lia. constructor.
  - destruct n as [e0 lf l0 r0 f]; cbn in Hl, Hr, Hlf, He; subst.
    cbn [on_child left_child right_child] in IHl, IHr.
    cbn [opcodes leaf_node left_child right_child Z.eqb negb] in Hin.
    apply elem_of_app in Hin as [Hin|Hin].
    + destruct (IHl Hpl _ _ _ Hin) as (p & Hd & Hlen & Hleaf & Hops & Hrange & Hsz).
      exists (0 :: p).
      rewrite binary_digits_app, <- app_assoc in Hd.
      rewrite strlen_app in Hlen.
      split; [exact Hd|]. split; [cbn [length]; unfold strlen in *; cbn in *; lia|].
      split; [exact Hleaf|]. split; [constructor; [now left | exact Hops]|].
      split; [exact Hrange|]. cbn [length size left_child right_child]. lia.
    + destruct (IHr Hpr _ _ _ Hin) as (p & Hd & Hlen & Hleaf & Hops & Hrange & Hsz).
      exists (1 :: p).
      rewrite binary_digits_app, <- app_assoc in Hd.
      rewrite strlen_app in Hlen.
      split; [exact Hd|]. split; [cbn [length]; unfold strlen in *; cbn in *; lia|].
      split; [exact Hleaf|]. split; [constructor; [now right | exact Hops]|].
      split; [exact Hrange|]. cbn [length size left_child right_child]. lia.
Qed.

Lemma _parse_table (n : helement_t) :
  forall table s count,
    (_parse n table s count).1 = foldl set_opcode table (opcodes n s).
Proof.
  induction n as [n IHl IHr] using helement_induction.
  intros table s count.
  destruct n as [e lf l r f]. cbn in IHl, IHr.
  cbn [_parse opcodes leaf_node element left_child right_child].
  destruct (lf =? 0); cbn [negb]; [|reflexivity].
  rewrite foldl_app.
  destruct l as [l|]; cbn [on_child] in IHl.
  - pose proof (IHl table (s +:+ "0") (u64 (count + 1))) as Hleft.
    destruct (_parse l table (s +:+ "0") (u64 (count + 1)))
      as [table' count'].
    cbn [fst] in Hleft. rewrite <- Hleft.
    destruct r as [r|]; cbn [on_child] in IHr; [apply IHr | reflexivity].
  - cbn [foldl]. destruct r as [r|]; cbn [on_child] in IHr; [apply IHr | reflexivity].
Qed.

Lemma foldl_set_opcode_length (l : list (Z * string)) :
  forall table, length (foldl set_opcode table l) = length table.
Proof.
  induction l as [|x l IH]; intros table; [reflexivity|].
  cbn [foldl]. rewrite IH. unfold set_opcode. apply length_insert.
Qed.

Lemma foldl_set_opcode_other (l : list (Z * string)) (e : Z) :
  0 <= e ->
  Forall (fun x => 0 <= x.1) l ->
  e ∉ map fst l ->
  forall table, foldl set_opcode table l !! Z.to_nat e = table !! Z.to_nat e.
Proof.
  intros He. induction l as [|x l IH]; intros Hpos Hnot table; [reflexivity|].
  apply Forall_cons in Hpos as [Hx Hpos].
  cbn [map] in Hnot. apply not_elem_of_cons in Hnot as [Hne Hnot].
  cbn [foldl]. rewrite (IH Hpos Hnot). unfold set_opcode.
  apply list_lookup_insert_ne. lia.
Qed.

Lemma foldl_set_opcode_lookup (l : list (Z * string)) (e : Z) (code : string) :
  Forall (fun x => 0 <= x.1) l ->
  NoDup (map fst l) ->
  (e, code) ∈ l ->
  forall table,
    (Z.to_nat e < length table)%nat ->
    foldl set_opcode table l !! Z.to_nat e = Some (Some code).
Proof.
  induction l as [|x l IH]; intros Hpos Hdup Hin table Hlen.
  - now apply elem_of_nil in Hin.
  - apply Forall_cons in Hpos as [Hx Hpos].
    cbn [map] in Hdup. apply NoDup_cons in Hdup as [Hnot Hdup].
    cbn [foldl]. apply elem_of_cons in Hin as [<- | Hin].
    + cbn [fst] in *. rewrite foldl_set_opcode_other by assumption.
      unfold set_opcode. cbn [fst snd]. now apply list_lookup_insert_eq.
    + apply IH; try assumption. unfold set_opcode. now rewrite length_insert.
Qed.

Lemma vector_table_loop_done (fresh : nat -> Z) (table : opcode_table_t) :
  convertible table ->
  exists vt,
    vector_table_loop fresh table = Done vt
    /\ forall i s, table !! i = Some (Some s) ->
         exists v, vt !! i = Some (Some v)
                   /\ stored_bits v = binary_digits s.
Proof.
  induction table as [|entry table IH]; intros Hall.
  - exists []. split; [reflexivity|]. intros i s Hi. discriminate Hi.
  - apply Forall_cons in Hall as [Hentry Hall].
    destruct (IH Hall) as (vt & Hloop & Hvt).
    cbn [vector_table_loop]. destruct entry as [s|].
    + destruct (Hentry s eq_refl) as [Hne Hlen].
      destruct (bvector_convert_bits fresh s Hne Hlen) as (v & Hv & Hbits & _).
      rewrite Hv, Hloop. exists (Some v :: vt). split; [reflexivity|].
      intros [|i] s' Hi.
      * cbn in Hi. injection Hi as <-. now exists v.
      * cbn in Hi. now apply Hvt.
    + rewrite Hloop. exists (None :: vt). split; [reflexivity|].
      intros [|i] s' Hi; [discriminate Hi | now apply Hvt].
Qed.

Lemma total_frequency_app (l1 l2 : list helement_t) :
  total_frequency (l1 ++ l2) = total_frequency l1 + total_frequency l2.
Proof. induction l1 as [|a l1 IH]; cbn; lia. Qed.

(** Where [fix_order_from] puts the element. *)
Lemma fix_order_from_split (node : helement_t) (rest : list helement_t) :
  exists pre post,
    rest = pre ++ post
    /\ fix_order_from node rest = (pre ++ node :: post, length pre).
Proof.
  induction rest as [|next rest IH].
  - exists [], []. split; reflexivity.
  - cbn [fix_order_from]. destruct (frequency node <=? frequency next).
    + exists [], (next :: rest). split; reflexivity.
    + destruct IH as (pre & post & -> & Heq). rewrite Heq.
      exists (next :: pre), post. split; reflexivity.
Qed.

(** A call that adds an element: the element is put somewhere in the
    list. *)
Lemma hlist_add_places (hlist : hlist_t) (element0 frequency0 : Z) :
  (element0 = LIST_SPECIAL_ELEMENT /\ frequency0 <> 0)
  \/ _search hlist element0 = None ->
  exists pre post,
    hl_list hlist = pre ++ post
    /\ hlist_add_increment_element hlist element0 frequency0
       = ({| hl_list :=
               pre ++ helement_create element0
                        (if (element0 =? LIST_SPECIAL_ELEMENT)
                            && negb (frequency0 =? 0) then 0 else 1)
                        frequency0 :: post;
             hl_count := u64 (hl_count hlist + 1) |},
          Some (length pre)).
Proof.
  intros Hcase. unfold hlist_add_increment_element.
  unfold SPECIAL_ELEMENT_FREQUENCY.
  set (special := (element0 =? LIST_SPECIAL_ELEMENT) && negb (frequency0 =? 0)).
  assert (Hadded :
    match _search hlist element0, (if special then (true, 0) else (false, 1)).1 with
    | Some i, false => false
    | _, _ => true
    end = true).
  { destruct Hcase as [[-> Hf] | Hnone].
    - unfold special. rewrite Z.eqb_refl.
      destruct (Z.eqb_spec frequency0 0); [contradiction|].
      cbn. now destruct (_search hlist LIST_SPECIAL_ELEMENT).
    - rewrite Hnone. now destruct special. }
  destruct (fix_order_from_split
              (helement_create element0 (if special then 0 else 1) frequency0)
              (hl_list hlist)) as (pre & post & Hsplit & Hfix).
  exists pre, post. split; [exact Hsplit|].
  destruct special; cbn [fst] in Hadded;
    destruct (_search hlist element0); try discriminate Hadded;
    unfold _add, _fix_order; cbn [Z.eqb negb fst snd hl_list hl_count drop take app];
    rewrite Hfix; reflexivity.
Qed.

Lemma search_from_None (l : list helement_t) (element0 : Z) :
  search_from l element0 = None -> element0 ∉ element <$> l.
Proof.
  induction l as [|a l IH]; [intros _; apply not_elem_of_nil|].
  cbn [search_from]. rewrite fmap_cons.
  destruct (Z.eqb_spec (element a) element0); [discriminate|].
  destruct (search_from l element0); [discriminate|]. intros _.
  apply not_elem_of_cons. split; [congruence | now apply IH].
Qed.

(** ** The first loop: one leaf for every symbol of the input *)

Lemma total_frequency_length (l : list helement_t) :
  Forall is_leaf_element l -> Z.of_nat (length l) <= total_frequency l.
Proof.
  induction 1 as [|n l Hn _ IH]; cbn; [lia|].
  destruct Hn as (_ & _ & _ & _ & Hf). lia.
Qed.

Lemma distribution_step (seen : list Z) (hlist : hlist_t) (b : Z) :
  distribution_ok seen hlist ->
  0 <= b < 256 ->
  Z.of_nat (length seen) + 1 < 2 ^ 64 ->
  exists hlist' i,
    hlist_add_increment_element hlist b SPECIAL_ELEMENT_FREQUENCY
    = (hlist', Some i)
    /\ distribution_ok (b :: seen) hlist'.
Proof.
  intros (Hleaf & Hdup & Hmem & Htotal & Hcount) Hb Hlen.
  destruct (_search hlist b) as [i|] eqn:Hsearch.
  - (* the symbol has its leaf: the frequency goes up *)
    destruct (search_from_lookup _ _ _ Hsearch) as (n & Hn & Hel).
    rewrite (hlist_increment_found hlist b SPECIAL_ELEMENT_FREQUENCY i)
      by (try assumption; now right).
    rewrite (_fix_order_altered _ _ _ _ n Hn).
    destruct (fix_order_from_split
                (with_frequency n (u64 (frequency n + 1)))
                (drop (S i) (hl_list hlist))) as (pre & post & Hsplit & Hfix).
    rewrite Hfix. cbn [fst snd]. eexists _, _. split; [reflexivity|].
    pose proof (take_drop_middle _ _ _ Hn) as Hmid.
    rewrite Hsplit in Hmid. clear Hfix Hsplit Hsearch Hn.
    set (n' := with_frequency n (u64 (frequency n + 1))).
    remember (take i (hl_list hlist)) as front eqn:Hfront. clear Hfront.
    unfold distribution_ok. cbn [hl_list hl_count].
    destruct hlist as [l c]. cbn [hl_list hl_count] in *. subst l c.
    assert (Hperm : front ++ pre ++ n' :: post ≡ₚ n' :: front ++ pre ++ post).
    { rewrite !app_assoc. symmetry. apply Permutation_middle. }
    assert (Hperm0 : front ++ n :: pre ++ post ≡ₚ n :: front ++ pre ++ post).
    { symmetry. apply Permutation_middle. }
    rewrite Hperm0 in Hleaf, Hdup. rewrite fmap_cons in Hdup.
    apply Forall_cons in Hleaf as [(H1 & H2 & H3 & H4 & H5) Hrest].
    assert (Hfn : frequency n
                  <= total_frequency (front ++ n :: pre ++ post)).
    { rewrite total_frequency_app. cbn [total_frequency].
      rewrite total_frequency_app.
      apply Forall_app in Hrest as [Ha Hb'].
      apply Forall_app in Hb' as [Hb' Hc'].
      pose proof (total_frequency_length _ Ha).
      pose proof (total_frequency_length _ Hb').
      pose proof (total_frequency_length _ Hc'). lia. }
    assert (Hfreq : frequency n' = frequency n + 1).
    { cbn. apply u64_small. lia. }
    split; [|split; [|split; [|split]]].
    + rewrite Hperm. constructor; [|exact Hrest].
      split; [exact H1|]. split; [exact H2|]. split; [exact H3|].
      split; [exact H4|]. rewrite Hfreq. lia.
    + rewrite Hperm, fmap_cons. exact Hdup.
    + intros e. rewrite Hperm, fmap_cons, !elem_of_cons.
      rewrite <- (Hmem e), Hperm0, fmap_cons, elem_of_cons.
      change (element n') with (element n). rewrite Hel. tauto.
    + rewrite !total_frequency_app in *. cbn [total_frequency length] in *.
      rewrite !total_frequency_app in *. lia.
    + rewrite !length_app. cbn [length]. rewrite !length_app. cbn [length]. lia.
  - (* a new leaf *)
    destruct (hlist_add_places hlist b SPECIAL_ELEMENT_FREQUENCY
                ltac:(now right)) as (pre & post & Hsplit & Hadd).
    rewrite Hadd. eexists _, _. split; [reflexivity|].
    replace ((b =? LIST_SPECIAL_ELEMENT) && negb (SPECIAL_ELEMENT_FREQUENCY =? 0))
      with false by (now rewrite andb_false_r).
    set (n := helement_create b 1 SPECIAL_ELEMENT_FREQUENCY).
    apply search_from_None in Hsearch.
    pose proof (total_frequency_length _ Hleaf) as Hlen'.
    unfold distribution_ok. cbn [hl_list hl_count].
    rewrite Hsplit in *.
    assert (Hperm : pre ++ n :: post ≡ₚ n :: pre ++ post)
      by (symmetry; apply Permutation_middle).
    split; [|split; [|split; [|split]]].
    + rewrite Hperm. constructor; [|exact Hleaf].
      unfold is_leaf_element. cbn. repeat split; (reflexivity || lia).
    + rewrite Hperm, fmap_cons. apply NoDup_cons. split; assumption.
    + intros e. rewrite Hperm, fmap_cons, !elem_of_cons, Hmem.
      reflexivity.
    + rewrite total_frequency_app in *. cbn [total_frequency length].
      change (frequency n) with 1. lia.
    + rewrite Hcount, u64_small; rewrite !length_app; cbn [length];
        rewrite ?length_app in Hlen'; lia.
Qed.

Lemma distribution_loop_ok (B : list Z) :
  Forall (fun b => 0 <= b < 256) B ->
  forall seen hlist,
    distribution_ok seen hlist ->
    Z.of_nat (length seen) + Z.of_nat (length B) < 2 ^ 64 ->
    exists hlist',
      distribution_loop B hlist = Done hlist'
      /\ distribution_ok (rev B ++ seen) hlist'.
Proof.
  induction 1 as [|b B Hb _ IH]; intros seen hlist Hok Hlen.
  - exists hlist. split; [reflexivity | exact Hok].
  - cbn [distribution_loop]. cbn [length] in Hlen.
    destruct (distribution_step seen hlist b Hok Hb ltac:(lia))
      as (hlist' & i & Hstep & Hok').
    rewrite Hstep.
    destruct (IH (b :: seen) hlist' Hok' ltac:(cbn [length]; lia))
      as (hlist'' & Hloop & Hok'').
    exists hlist''. split; [exact Hloop|].
    cbn [rev]. now rewrite <- app_assoc.
Qed.

(** ** The second loop: the tree is built *)

Lemma opcodes_symbols (n : helement_t) :
  forall s s', map fst (opcodes n s) = map fst (opcodes n s').
Proof.
  induction n as [n IHl IHr] using helement_induction. intros s s'.
  destruct n as [e lf l r f]. cbn in IHl, IHr.
  cbn [opcodes leaf_node element left_child right_child].
  destruct (lf =? 0); cbn [negb]; [|reflexivity].
  rewrite !map_app. f_equal.
  - destruct l as [l|]; [apply IHl | reflexivity].
  - destruct r as [r|]; [apply IHr | reflexivity].
Qed.

Lemma leaves_node (n l r : helement_t) :
  leaf_node n = 0 -> left_child n = Some l -> right_child n = Some r ->
  leaves n = leaves l ++ leaves r.
Proof.
  intros Hlf Hl Hr. unfold leaves.
  destruct n as [e lf l0 r0 f]. cbn in Hlf, Hl, Hr. subst.
  cbn [opcodes leaf_node left_child right_child Z.eqb negb].
  rewrite map_app. f_equal; apply opcodes_symbols.
Qed.

Lemma leaves_leaf (n : helement_t) :
  leaf_node n <> 0 -> leaves n = [element n].
Proof.
  intros Hlf. unfold leaves. destruct n as [e lf l r f]. cbn in *.
  destruct (Z.eqb_spec lf 0); [contradiction | reflexivity].
Qed.

Lemma forest_length (total : Z) (hlist : hlist_t) :
  forest_ok total hlist -> Z.of_nat (length (hl_list hlist)) <= total.
Proof.
  intros (Hall & _ & <- & _). induction Hall as [|n l [_ Hn] _ IH]; cbn; lia.
Qed.

Lemma insert_middle {A} (pre post : list A) (x y : A) :
  <[length pre := y]> (pre ++ x :: post) = pre ++ y :: post.
Proof.
  induction pre as [|a pre IH]; [reflexivity|].
  simpl. f_equal. exact IH.
Qed.

(** One round of the loop: the two first elements become the children of a
    new node, which is put into the rest of the list. *)
Lemma merge_step (total : Z) (x y : helement_t) (rest : list helement_t)
    (c : Z) (parent : option nat) (fuel : nat) :
  forest_ok total {| hl_list := x :: y :: rest; hl_count := c |} ->
  total < 2 ^ 63 ->
  exists P pre post,
    rest = pre ++ post
    /\ merge_loop (S fuel) {| hl_list := x :: y :: rest; hl_count := c |} parent
       = merge_loop fuel {| hl_list := pre ++ P :: post; hl_count := c - 1 |}
                    (Some (length pre))
    /\ proper P = true
    /\ leaf_node P = 0
    /\ frequency P = frequency x + frequency y
    /\ leaves P ≡ₚ leaves x ++ leaves y.
Proof.
  intros Hok Htotal.
  pose proof (forest_length _ _ Hok) as Hlen.
  destruct Hok as (Hall & Hdup & Hsum & Hcount).
  cbn [hl_list hl_count length total_frequency] in *.
  apply Forall_cons in Hall as [[Hpx Hfx] Hall].
  apply Forall_cons in Hall as [[Hpy Hfy] Hall].
  assert (Hrest : 0 <= total_frequency rest).
  { clear -Hall. induction Hall as [|n l [_ Hn] _ IH]; cbn; lia. }
  set (combined := frequency x + frequency y).
  destruct (hlist_add_places
              {| hl_list := rest; hl_count := c - 2 |}
              LIST_SPECIAL_ELEMENT combined
              ltac:(left; split; [reflexivity | unfold combined; lia]))
    as (pre & post & Hsplit & Hadd).
  cbn [hl_list hl_count] in Hsplit, Hadd.
  replace ((LIST_SPECIAL_ELEMENT =? LIST_SPECIAL_ELEMENT)
           && negb (combined =? 0)) with true in Hadd
    by (symmetry; apply andb_true_iff; split;
        [reflexivity | apply negb_true_iff, Z.eqb_neq; unfold combined; lia]).
  set (P0 := helement_create LIST_SPECIAL_ELEMENT 0 combined) in *.
  set (P := if negb (leaf_node y =? 0)
            then with_right_child (with_left_child P0 (Some x)) (Some y)
            else with_right_child (with_left_child P0 (Some y)) (Some x)).
  exists P, pre, post. split; [exact Hsplit|]. split.
  { cbn [merge_loop]. unfold hlist_get_two_min, hlist_count.
    cbn [hl_count hl_list]. rewrite Hcount.
    destruct (Z.leb_spec 2 (Z.of_nat (S (S (length rest))))); [|lia].
    destruct (Z.eqb_spec (Z.of_nat (S (S (length rest)))) LIST_BAD_COUNT)
      as [Hbad|_]; [unfold LIST_BAD_COUNT in Hbad; lia|].
    cbn [andb negb]. change (0 <? 0) with false. cbv iota.
    unfold _remove, hlist_count. cbn [hl_count hl_list].
    destruct (Z.ltb_spec (Z.of_nat (S (S (length rest)))) 2); [lia|].
    rewrite (u64_small (Z.of_nat (S (S (length rest))) - 2)) by lia.
    rewrite (u64_small (frequency x + frequency y)) by lia.
    fold combined. rewrite <- Hcount, Hadd.
    cbn [hl_list hl_count]. rewrite list_lookup_middle by reflexivity.
    unfold htree_connect. change (leaf_node P0) with 0.
    cbn [Z.eqb negb].
    rewrite u64_small by lia.
    assert (Hconn :
      (if negb (leaf_node y =? 0)
       then Some (Some (with_right_child (with_left_child P0 (Some x)) (Some y)), 0)
       else Some (Some (with_right_child (with_left_child P0 (Some y)) (Some x)), 0))
      = Some (Some P, 0)) by (unfold P; now destruct (negb (leaf_node y =? 0))).
    rewrite Hconn. cbn [Z.eqb negb]. rewrite insert_middle.
    f_equal. f_equal. lia. }
  assert (Hcases : (left_child P = Some x /\ right_child P = Some y)
                   \/ (left_child P = Some y /\ right_child P = Some x)).
  { unfold P. destruct (negb (leaf_node y =? 0)); [left | right]; now split. }
  assert (HlfP : leaf_node P = 0)
    by (unfold P; now destruct (negb (leaf_node y =? 0))).
  split; [|split; [exact HlfP|split]].
  - unfold P. destruct (negb (leaf_node y =? 0)); cbn; now rewrite Hpx, Hpy.
  - assert (HfP : frequency P = frequency P0)
      by (unfold P; now destruct (negb (leaf_node y =? 0))).
    rewrite HfP. cbn.
    destruct (Z.eqb_spec combined SPECIAL_ELEMENT_FREQUENCY) as [Hz|_];
      [unfold SPECIAL_ELEMENT_FREQUENCY, combined in Hz; lia | reflexivity].
  - destruct Hcases as [[Hl Hr] | [Hl Hr]];
      rewrite (leaves_node P _ _ HlfP Hl Hr); [reflexivity|].
    apply Permutation_app_comm.
Qed.

Lemma bind_middle {A B} (f : A -> list B) (pre post : list A) (x : A) :
  (pre ++ x :: post) ≫= f ≡ₚ f x ++ (pre ++ post) ≫= f.
Proof.
  rewrite !bind_app, bind_cons. rewrite !app_assoc.
  apply Permutation_app_tail, Permutation_app_comm.
Qed.

Lemma forest_ok_step (total : Z) (x y P : helement_t)
    (pre post : list helement_t) (c : Z) :
  forest_ok total {| hl_list := x :: y :: pre ++ post; hl_count := c |} ->
  proper P = true ->
  frequency P = frequency x + frequency y ->
  leaves P ≡ₚ leaves x ++ leaves y ->
  forest_ok total {| hl_list := pre ++ P :: post; hl_count := c - 1 |}.
Proof.
  intros (Hall & Hdup & Hsum & Hcount) HP Hf Hleaves.
  cbn [hl_list hl_count] in *.
  apply Forall_cons in Hall as [[Hpx Hfx] Hall].
  apply Forall_cons in Hall as [[Hpy Hfy] Hall].
  apply Forall_app in Hall as [Hpre Hpost].
  unfold forest_ok. cbn [hl_list hl_count].
  split; [|split; [|split]].
  - apply Forall_app. split; [exact Hpre|].
    constructor; [split; [exact HP | lia] | exact Hpost].
  - rewrite bind_middle, Hleaves. rewrite !bind_cons in Hdup.
    now rewrite <- app_assoc.
  - rewrite total_frequency_app in *. cbn [total_frequency] in *.
    rewrite total_frequency_app in Hsum. lia.
  - rewrite Hcount. cbn [length]. rewrite !length_app. cbn [length]. lia.
Qed.

(** The loop ends with one tree in the list, and [parent] points to it. *)
Lemma merge_loop_builds (total : Z) :
  total < 2 ^ 63 ->
  forall (fuel : nat) (hlist : hlist_t) (parent : option nat),
    forest_ok total hlist ->
    (length (hl_list hlist) < fuel)%nat ->
    (2 <= length (hl_list hlist))%nat
    \/ (exists R, hl_list hlist = [R] /\ parent = Some O /\ leaf_node R = 0) ->
    exists R,
      merge_loop fuel hlist parent
      = Done ({| hl_list := [R]; hl_count := 1 |}, Some O)
      /\ proper R = true
      /\ leaf_node R = 0
      /\ leaves R ≡ₚ hl_list hlist ≫= leaves.
Proof.
  intros Htotal. induction fuel as [|fuel IH]; intros hlist parent Hok Hfuel Hcase.
  - lia.
  - destruct Hcase as [Hlong | (R & HR & -> & Hlf)].
    + destruct hlist as [[|x [|y rest]] c]; cbn [hl_list length] in Hlong;
        try lia.
      destruct (merge_step total x y rest c parent fuel Hok Htotal)
        as (P & pre & post & -> & Hstep & HP & HlfP & HfP & HleavesP).
      rewrite Hstep.
      pose proof (forest_ok_step total x y P pre post c Hok HP HfP HleavesP)
        as Hok'.
      destruct (IH _ (Some (length pre)) Hok') as (R & Hloop & HR & HlfR & HleavesR).
      * cbn [hl_list length] in *. rewrite length_app in *.
        cbn [length]. lia.
      * cbn [hl_list].
        destruct pre as [|a pre]; [destruct post as [|a post]|].
        -- right. exists P. now repeat split.
        -- left. cbn [app length]. lia.
        -- left. cbn [app length]. rewrite length_app. cbn [length]. lia.
      * exists R. split; [exact Hloop|]. split; [exact HR|].
        split; [exact HlfR|]. rewrite HleavesR. cbn [hl_list].
        rewrite bind_middle, HleavesP, !bind_cons. now rewrite <- app_assoc.
    + destruct hlist as [l c]. cbn [hl_list] in *. subst l.
      destruct Hok as ([[HpR _] _]%Forall_cons & _ & _ & Hcount).
      cbn [hl_list hl_count length] in Hcount. subst c.
      exists R. split; [reflexivity|]. split; [exact HpR|].
      split; [exact Hlf|]. cbn. now rewrite app_nil_r.
Qed.

(** A list of leaves is a forest. *)
Lemma distribution_forest (seen : list Z) (hlist : hlist_t) :
  distribution_ok seen hlist ->
  forest_ok (Z.of_nat (length seen)) hlist
  /\ hl_list hlist ≫= leaves = element <$> hl_list hlist.
Proof.
  intros (Hleaf & Hdup & Hmem & Htotal & Hcount).
  assert (Hleaves : hl_list hlist ≫= leaves = element <$> hl_list hlist).
  { clear -Hleaf. induction Hleaf as [|n l Hn _ IH]; [reflexivity|].
    rewrite bind_cons, fmap_cons, IH.
    destruct Hn as (Hlf & _). rewrite leaves_leaf by lia. reflexivity. }
  split; [|exact Hleaves].
  split; [|split; [|split]]; try assumption.
  - eapply Forall_impl; [exact Hleaf|].
    intros [e lf l r f] (Hlf & Hl & Hr & He & Hf). cbn in *. subst.
    split; [|exact Hf].
    destruct (Z.leb_spec 0 e); [|lia]. destruct (Z.ltb_spec e 256); [|lia].
    reflexivity.
  - now rewrite Hleaves.
Qed.

(** ** The artifact *)

Lemma store_at_end (data buf : list Z) :
  store data (length data) buf = data ++ buf.
Proof.
  unfold store. rewrite take_ge by lia. rewrite drop_ge by lia.
  replace (length data - length data)%nat with O by lia.
  cbn [replicate app]. now rewrite app_nil_r.
Qed.

Lemma htree_input_data (fd : file) : fd_data (htree_input fd).1 = fd_data fd.
Proof.
  unfold htree_input, read.
  destruct (pread fd 8 (fd_pos fd)) as [buf r].
  destruct (r <? 0); cbn.
  - destruct (r <? TREE_INPUT_COUNT_SIZE); [reflexivity|].
    now destruct (_input_object fd _).
  - destruct (r <? TREE_INPUT_COUNT_SIZE); [reflexivity|].
    now destruct (_input_object _ _).
Qed.

(** [bvector_input] reads back what [bvector_output] wrote. *)
Lemma bvector_input_reads (fd : file) (offset w : Z) (pre bytes post : list Z) :
  fd_data fd = pre ++ u64_bytes w ++ bytes ++ post ->
  Z.of_nat (length pre) = offset ->
  0 < w < 2 ^ 64 ->
  Z.of_nat (length bytes) = w / 8 + 1 ->
  Z.of_nat (length (fd_data fd)) < 2 ^ 63 ->
  bvector_input fd offset
  = Some {| vector := bytes; vector_length := w; working_index := w |}.
Proof.
  intros Hdata Hpre Hw Hbytes Hlen. unfold bvector_input.
  assert (Hsizes : offset + 8 + Z.of_nat (length bytes) < 2 ^ 63).
  { rewrite Hdata, !length_app, u64_bytes_length in Hlen. lia. }
  assert (Hread : pread fd 8 offset = (u64_bytes w, 8)).
  { apply (pread_at fd pre (u64_bytes w) (bytes ++ post) offset Hdata Hpre).
    lia. }
  rewrite Hread. change (8 <? 8) with false. cbv iota.
  rewrite u64_of_bytes_u64_bytes by lia.
  unfold bvector_create. destruct (Z.eqb_spec w 0); [lia|].
  rewrite u64_small by lia. unfold VECTOR_BYTE_SIZE.
  cbn [vector vector_length].
  assert (Hread2 : pread fd (Z.to_nat (w / 8 + 1)) (offset + 8)
                   = (bytes, w / 8 + 1)).
  { rewrite <- Hbytes, Nat2Z.id.
    apply (pread_at fd (pre ++ u64_bytes w) bytes post).
    - rewrite Hdata. now rewrite <- app_assoc.
    - rewrite length_app, u64_bytes_length. lia.
    - lia. }
  rewrite Hread2. rewrite Z.ltb_irrefl.
  rewrite drop_ge by (rewrite length_replicate; lia).
  now rewrite app_nil_r.
Qed.

Lemma bit_at_take (bytes : list Z) (n : nat) (k : Z) :
  0 <= k -> (Z.to_nat (k / 8) < n)%nat ->
  bit_at (take n bytes) k = bit_at bytes k.
Proof.
  intros Hk Hn. unfold bit_at, byte_at. now rewrite lookup_take_lt.
Qed.

(** ** The size of the tree *)

Lemma proper_size (n : helement_t) :
  proper n = true -> (size n + 1 = 2 * length (leaves n))%nat.
Proof.
  induction n as [n IHl IHr] using helement_induction. intros Hn.
  destruct (proper_inv n Hn)
    as (_ & _ & [(Hlf & Hl & Hr) | (Hlf & l & r & Hl & Hr & Hpl & Hpr)]).
  - rewrite leaves_leaf by exact Hlf.
    destruct n as [e lf l r f]. cbn in *. subst. reflexivity.
  - rewrite (leaves_node n l r Hlf Hl Hr), length_app.
    destruct n as [e lf l0 r0 f]. cbn in Hl, Hr. subst.
    cbn [on_child left_child right_child] in IHl, IHr.
    specialize (IHl Hpl). specialize (IHr Hpr).
    cbn [size left_child right_child]. lia.
Qed.

Lemma bytes_no_dup_length (l : list Z) :
  NoDup l -> Forall (fun b => 0 <= b < 256) l -> (length l <= 256)%nat.
Proof.
  intros Hdup Hall.
  change 256%nat with (Z.to_nat 256). rewrite <- (length_seqZ 0 256).
  apply submseteq_length, NoDup_submseteq; [exact Hdup|].
  intros x Hx. apply elem_of_seqZ.
  rewrite Forall_forall in Hall. specialize (Hall x Hx). lia.
Qed.

Lemma leaf_at_rebuilt (p : list Z) :
  forall n, leaf_at (rebuilt n) p = leaf_at n p.
Proof.
  induction p as [|b p IH]; intros [e lf l r f]; cbn [leaf_at rebuilt leaf_node element left_child right_child].
  - reflexivity.
  - destruct (negb (lf =? 0)); [reflexivity|].
    destruct (b =? 0).
    + destruct l as [l|]; [apply IH | reflexivity].
    + destruct r as [r|]; [apply IH | reflexivity].
Qed.

Lemma opcode_of_in (l : list (Z * string)) (e : Z) (s : string) :
  NoDup (map fst l) -> (e, s) ∈ l -> opcode_of l e = s.
Proof.
  induction l as [|[k v] l IH]; intros Hdup Hin.
  - now apply elem_of_nil in Hin.
  - cbn [map fst] in Hdup. apply NoDup_cons in Hdup as [Hnot Hdup].
    cbn [opcode_of]. apply elem_of_cons in Hin as [Heq | Hin].
    + injection Heq as -> ->. now rewrite Z.eqb_refl.
    + destruct (Z.eqb_spec k e) as [->|_]; [|now apply IH].
      exfalso. apply Hnot. rewrite map_fmap.
      apply list_elem_of_fmap. now exists (e, s).
Qed.

Lemma leaves_opcode (n : helement_t) (e : Z) :
  e ∈ leaves n -> exists s, (e, s) ∈ opcodes n EmptyString.
Proof.
  unfold leaves. rewrite map_fmap. intros H.
  apply list_elem_of_fmap in H as ([k s] & -> & Hin). now exists s.
Qed.

Lemma concat_length_bound {A} (f : Z -> list A) (B : list Z) (m : nat) :
  (forall e, e ∈ B -> (length (f e) <= m)%nat) ->
  (length (concat (map f B)) <= length B * m)%nat.
Proof.
  induction B as [|b B IH]; intros H; [cbn; lia|].
  cbn [map concat length]. rewrite length_app.
  pose proof (H b ltac:(left)).
  specialize (IH ltac:(intros e He; apply H; now right)). lia.
Qed.

(** ** The tree of an input with two different symbols *)

Lemma two_members_length {A} (l : list A) (x y : A) :
  x ∈ l -> y ∈ l -> x <> y -> (2 <= length l)%nat.
Proof.
  intros Hx Hy Hne. destruct l as [|a [|b l]]; cbn [length]; [| |lia].
  - now apply elem_of_nil in Hx.
  - apply list_elem_of_singleton in Hx, Hy. congruence.
Qed.

Lemma elem_of_rev {A} (l : list A) (x : A) : x ∈ rev l <-> x ∈ l.
Proof. rewrite rev_alt. apply elem_of_reverse. Qed.

Lemma huffman_tree_built (B : list Z) (x y : Z) :
  Forall (fun b => 0 <= b < 256) B ->
  x ∈ B -> y ∈ B -> x <> y ->
  Z.of_nat (length B) < 2 ^ 63 ->
  exists hlist R,
    distribution_loop B hlist_create = Done hlist
    /\ merge_loop (S (length (hl_list hlist))) hlist None
       = Done ({| hl_list := [R]; hl_count := 1 |}, Some O)
    /\ proper R = true
    /\ leaf_node R = 0
    /\ NoDup (leaves R)
    /\ (forall e, e ∈ B -> e ∈ leaves R).
Proof.
  intros HB Hx Hy Hne Hlen.
  assert (Hstart : distribution_ok [] hlist_create).
  { unfold distribution_ok, hlist_create. cbn [hl_list hl_count].
    split; [constructor|]. split; [constructor|].
    split; [reflexivity|]. split; reflexivity. }
  destruct (distribution_loop_ok B HB [] hlist_create Hstart
              ltac:(cbn [length]; lia))
    as (hlist & Hloop & Hok).
  rewrite app_nil_r in Hok.
  destruct (distribution_forest _ _ Hok) as [Hforest Hleaves].
  rewrite length_rev in Hforest.
  destruct Hok as (_ & Hdup & Hmem & _ & _).
  assert (Hlong : (2 <= length (hl_list hlist))%nat).
  { rewrite <- (length_fmap element).
    apply (two_members_length _ x y); [| |exact Hne];
      apply Hmem, elem_of_rev; assumption. }
  destruct (merge_loop_builds _ Hlen (S (length (hl_list hlist))) hlist None
              Hforest ltac:(lia) ltac:(now left))
    as (R & Hmerge & HR & Hlf & Hperm).
  exists hlist, R. repeat split; try assumption.
  - rewrite Hperm, Hleaves. exact Hdup.
  - intros e He. rewrite Hperm, Hleaves. now apply Hmem, elem_of_rev.
Qed.

(** ** The codes of the tree *)

Lemma opcodes_range (n : helement_t) (s : string) :
  proper n = true -> Forall (fun x : Z * string => 0 <= x.1) (opcodes n s).
Proof.
  intros Hn. apply Forall_forall. intros [e code] Hin.
  destruct (opcodes_paths n Hn s e code Hin) as (_ & _ & _ & _ & _ & He & _).
  cbn [fst]. lia.
Qed.

Lemma tree_codes (R : helement_t) (e : Z) :
  proper R = true ->
  leaf_node R = 0 ->
  NoDup (leaves R) ->
  e ∈ leaves R ->
  leaf_at R (code_of R e) = Some e
  /\ 0 <= e < 256
  /\ Forall is_opcode (code_of R e)
  /\ (0 < length (code_of R e) < size R)%nat
  /\ (_parse R empty_opcode_table EmptyString 0).1 !! Z.to_nat e
     = Some (Some (opcode_of (opcodes R EmptyString) e)).
Proof.
  intros HR Hlf Hdup He.
  destruct (leaves_opcode R e He) as [s Hs].
  assert (Hof : opcode_of (opcodes R EmptyString) e = s)
    by now apply opcode_of_in.
  destruct (opcodes_paths R HR EmptyString e s Hs)
    as (p & Hdigits & _ & Hleaf & Hops & Hrange & Hsize).
  cbn [binary_digits app] in Hdigits.
  unfold code_of. rewrite Hof, Hdigits.
  split; [exact Hleaf|]. split; [exact Hrange|]. split; [exact Hops|].
  split.
  - split; [|exact Hsize]. destruct p as [|b p]; [|cbn [length]; lia].
    cbn [leaf_at] in Hleaf. rewrite Hlf in Hleaf. discriminate Hleaf.
  - rewrite _parse_table.
    apply foldl_set_opcode_lookup;
      [now apply opcodes_range | exact Hdup | exact Hs |].
    unfold empty_opcode_table. rewrite length_replicate.
    unfold TREE_MAX_TABLE_SIZE. lia.
Qed.

Lemma foldl_set_opcode_entries (P : option string -> Prop)
    (l : list (Z * string)) :
  Forall (fun x => P (Some x.2)) l ->
  forall table, Forall P table -> Forall P (foldl set_opcode table l).
Proof.
  induction 1 as [|x l Hx _ IH]; intros table Htable; [exact Htable|].
  cbn [foldl]. apply IH. unfold set_opcode.
  now apply Forall_insert.
Qed.

Lemma parse_table_convertible (R : helement_t) :
  proper R = true ->
  leaf_node R = 0 ->
  Z.of_nat (size R) < 2 ^ 64 ->
  convertible (_parse R empty_opcode_table EmptyString 0).1.
Proof.
  intros HR Hlf Hbound. rewrite _parse_table. unfold convertible.
  apply foldl_set_opcode_entries.
  - apply Forall_forall. intros [e code] Hin s [= <-]. cbn [snd].
    destruct (opcodes_paths R HR EmptyString e code Hin)
      as (p & _ & Hlen & Hleaf & _ & _ & Hsize).
    change (strlen EmptyString) with 0 in Hlen.
    split; [|lia].
    intros ->. change (strlen EmptyString) with 0 in Hlen.
    destruct p as [|b p]; [|cbn [length] in Hlen; lia].
    cbn [leaf_at] in Hleaf. rewrite Hlf in Hleaf. discriminate Hleaf.
  - unfold empty_opcode_table. apply Forall_replicate.
    intros s Hs. discriminate Hs.
Qed.

Lemma tree_size_bound (R : helement_t) :
  proper R = true -> NoDup (leaves R) ->
  (forall e, e ∈ leaves R -> 0 <= e < 256) ->
  (size R <= 511)%nat.
Proof.
  intros HR Hdup Hrange.
  pose proof (proper_size R HR) as Hsize.
  pose proof (bytes_no_dup_length (leaves R) Hdup
                ltac:(now apply Forall_forall)) as Hlen.
  lia.
Qed.

Lemma leaves_range (R : helement_t) (e : Z) :
  proper R = true -> e ∈ leaves R -> 0 <= e < 256.
Proof.
  intros HR He. destruct (leaves_opcode R e He) as [s Hs].
  now destruct (opcodes_paths R HR EmptyString e s Hs)
    as (_ & _ & _ & _ & _ & Hrange & _).
Qed.

(** ** The block of [htree_parse] *)

Lemma leaves_nonempty (n : helement_t) :
  proper n = true -> (0 < length (leaves n))%nat.
Proof.
  intros Hn. pose proof (proper_size n Hn). pose proof (size_positive n). lia.
Qed.

(** With a string of [len] characters at a subtree, [_parse] stays in the
    block when [len] and the number of leaves make no more than 256. *)
Lemma parse_in_block_leaves (n : helement_t) :
  forall len : Z,
    proper n = true ->
    0 <= len ->
    len + Z.of_nat (length (leaves n)) <= MAX_OPCODE ->
    parse_in_block n len = true.
Proof.
  induction n as [n IHl IHr] using helement_induction.
  intros len Hn Hlen Hroom.
  destruct (proper_inv n Hn)
    as (_ & _ & [(Hlf & Hl & Hr) | (Hlf & l & r & Hl & Hr & Hpl & Hpr)]).
  - destruct n as [e lf l r f]; cbn in Hl, Hr, Hlf; subst l r.
    cbn [parse_in_block leaf_node].
    now destruct (Z.eqb_spec lf 0).
  - rewrite (leaves_node n l r Hlf Hl Hr), length_app in Hroom.
    pose proof (leaves_nonempty l Hpl). pose proof (leaves_nonempty r Hpr).
    destruct n as [e lf l0 r0 f]; cbn in Hl, Hr, Hlf; subst l0 r0 lf.
    cbn [on_child left_child right_child] in IHl, IHr.
    cbn [parse_in_block leaf_node left_child right_child Z.eqb negb].
    rewrite (IHl (len + 1) Hpl) by lia. rewrite (IHr (len + 1) Hpr) by lia.
    destruct (Z.ltb_spec (len + 1) MAX_OPCODE); [reflexivity | lia].
Qed.

(** The trees of the encoder: every symbol at one leaf.  [_parse] stays in
    the block of [htree_parse]. *)
Lemma parse_stays_in_block (R : helement_t) :
  proper R = true -> NoDup (leaves R) -> parse_in_block R 0 = true.
Proof.
  intros HR Hdup. apply parse_in_block_leaves; [exact HR | lia |].
  pose proof (bytes_no_dup_length (leaves R) Hdup
                ltac:(apply Forall_forall; intros e He;
                      exact (leaves_range R e HR He))) as Hlen.
  unfold MAX_OPCODE. lia.
Qed.

(** ** The encoder *)

Lemma huffman_encode_writes (fresh : nat -> Z) (flags : option bvector_t)
    (B : list Z) (x y : Z) (out_fd : file) :
  bvector_check_bit flags FLAG_ASCII = 0 ->
  Forall (fun b => 0 <= b < 256) B ->
  x ∈ B -> y ∈ B -> x <> y ->
  Z.of_nat (length B) < 2 ^ 52 ->
  fd_data out_fd = [] ->
  fd_pos out_fd = 0 ->
  1040 + 64 * Z.of_nat (length B) <= Z.min (fd_limit out_fd) OFF_MAX ->
  exists R stream art,
    huffman_encode fresh flags B out_fd = (art, Return 0)
    /\ proper R = true /\ leaf_node R = 0 /\ NoDup (leaves R)
    /\ (forall e, e ∈ B -> e ∈ leaves R)
    /\ fd_data art
       = u64_bytes (Z.of_nat (size R)) ++ serialized R
         ++ u64_bytes (Z.of_nat (length (concat (map (code_of R) B))))
         ++ stream
    /\ Z.of_nat (length stream)
       = Z.of_nat (length (concat (map (code_of R) B))) / 8 + 1
    /\ (forall k d, concat (map (code_of R) B) !! k = Some d ->
                    bit_at stream (Z.of_nat k) = (d =? 1)).
Proof.
  intros Hflag HB Hx Hy Hne Hlen Hdata Hpos Hroom.
  destruct (huffman_tree_built B x y HB Hx Hy Hne ltac:(lia))
    as (hlist & R & Hdist & Hmerge & HR & Hlf & Hdup & Hmem).
  pose proof (tree_size_bound R HR Hdup (fun e He => leaves_range R e HR He))
    as Hsize.
  assert (Hmax : OFF_MAX = 2 ^ 63 - 1) by reflexivity.
  pose proof (size_positive R) as Hnodes.
  exists R.
  unfold huffman_encode. rewrite Hflag, Hdist, Hmerge.
  cbn [hl_list]. change ([R] !! O) with (Some R).
  unfold htree_add_element, htree_create. cbn [root count].
  cbn [htree_parse_in_block]. rewrite (parse_stays_in_block R HR Hdup).
  cbn [negb].
  rewrite (htree_parse_root
             {| root := Some R; count := u64 (DEFAULT_TREE_COUNT + 1);
                _parsed := 0 |} R eq_refl).
  rewrite (_parse_count R HR).
  rewrite u64_small by lia. rewrite Z.add_0_l.
  change (0 =? VECTOR_BIT_OFF) with true. cbv iota.
  change (0 =? VECTOR_BIT_SET) with false. cbv iota.
  change (bvector_create 1)
    with (Some {| vector := [0]; vector_length := 1; working_index := 0 |}).
  destruct (vector_table_loop_done fresh _
              (parse_table_convertible R HR Hlf ltac:(lia)))
    as (vt & Htable & Hvt).
  rewrite Htable.
  rewrite (htree_output_writes
             {| root := Some R; count := Z.of_nat (size R); _parsed := 1 |}
             R out_fd eq_refl); cbn [_parsed count];
    try assumption; try lia.
  destruct (Z.ltb_spec (8 + 2 * Z.of_nat (size R)) 0); [lia|].
  assert (Hcodes : vector_codes vt (code_of R) B).
  { intros e He.
    destruct (tree_codes R e HR Hlf Hdup (Hmem e He))
      as (_ & _ & Hops & _ & Hentry).
    split; [exact Hops|].
    destruct (Hvt _ _ Hentry) as (v & Hv & Hbits). now exists v. }
  assert (Hbits : (length (concat (map (code_of R) B)) <= length B * 510)%nat).
  { apply concat_length_bound. intros e He.
    destruct (tree_codes R e HR Hlf Hdup (Hmem e He))
      as (_ & _ & _ & Hcode & _). lia. }
  set (L := length (concat (map (code_of R) B))) in *.
  destruct (vector_opcodes_loop_bits fresh vt (code_of R) B Hcodes
              {| vector := [0]; vector_length := 1; working_index := 0 |})
    as (b' & Hloop & [Hsized Hcap] & Hcursor & _ & Hstream).
  { split; [split; [reflexivity|] |]; cbn [working_index vector_length]; lia. }
  { cbn [working_index]. fold L. lia. }
  fold L in Hcursor, Hstream. cbn [working_index] in Hcursor, Hstream.
  rewrite Z.add_0_l in Hcursor.
  rewrite Hloop.
  rewrite bvector_output_floor; [|exact Hsized|lia|].
  2:{ unfold floor_bytes, bvector_get_size, VECTOR_FLAG_STREAM, VECTOR_FLAG_FULL.
      cbn [Z.eqb fd_limit]. rewrite Hcursor.
      assert (Z.of_nat L / 8 <= Z.of_nat L) by (apply Z.div_le_upper_bound; lia).
      assert (0 <= Z.of_nat L / 8) by (apply Z.div_pos; lia).
      assert (Z.of_nat L / 8 <= 64 * Z.of_nat (length B)).
      { apply Z.div_le_upper_bound; lia. }
      lia. }
  unfold output_of, floor_bytes, bvector_get_size, VECTOR_FLAG_STREAM,
    VECTOR_FLAG_FULL.
  cbn [Z.eqb fd_data fd_pos fd_limit fst]. rewrite Hcursor.
  exists (take (Z.to_nat (Z.of_nat L / 8 + 1)) (vector b')).
  eexists. split; [reflexivity|].
  split; [exact HR|]. split; [exact Hlf|]. split; [exact Hdup|].
  split; [exact Hmem|].
  assert (H0 : 0 <= Z.of_nat L / 8) by (apply Z.div_pos; lia).
  split; [|split].
  - cbn [fd_data].
    replace (Z.to_nat (8 + 2 * Z.of_nat (size R)))
      with (length (u64_bytes (Z.of_nat (size R)) ++ serialized R))
      by (rewrite length_app, u64_bytes_length, serialized_length; lia).
    rewrite store_at_end.
    replace (Z.to_nat (8 + 2 * Z.of_nat (size R) + 8))
      with (length ((u64_bytes (Z.of_nat (size R)) ++ serialized R)
                    ++ u64_bytes (Z.of_nat L)))
      by (rewrite !length_app, !u64_bytes_length, serialized_length; lia).
    rewrite store_at_end. now rewrite <- !app_assoc.
  - rewrite length_take. destruct Hsized as [Hvec Hcur].
    rewrite Hvec. unfold VECTOR_BYTE_SIZE.
    assert (Z.of_nat L / 8 <= vector_length b' / 8)
      by (apply Z.div_le_mono; lia).
    lia.
  - intros k d Hk. rewrite bit_at_take.
    + now rewrite <- (Hstream k d Hk).
    + lia.
    + apply lookup_lt_Some in Hk. fold L in Hk.
      assert (Z.of_nat k / 8 <= Z.of_nat L / 8)
        by (apply Z.div_le_mono; lia).
      assert (0 <= Z.of_nat k / 8) by (apply Z.div_pos; lia).
      lia.
Qed.

(** ** The decoder *)

Lemma concat_codes_opcodes (code : Z -> list Z) (B : list Z) :
  (forall e, e ∈ B -> Forall is_opcode (code e)) ->
  Forall is_opcode (concat (map code B)).
Proof.
  induction B as [|b B IH]; intros H; [constructor|].
  cbn [map concat]. apply Forall_app. split.
  - apply H. now left.
  - apply IH. intros e He. apply H. now right.
Qed.

Lemma huffman_decode_reads (flags : option bvector_t) (R : helement_t)
    (code : Z -> list Z) (B stream : list Z) (in_fd out_fd : file) :
  bvector_check_bit flags FLAG_ASCII = 0 ->
  proper R = true ->
  leaf_node R = 0 ->
  (forall e, e ∈ B ->
             leaf_at R (code e) = Some e /\ 0 <= e < 256
             /\ Forall is_opcode (code e)) ->
  (0 < length (concat (map code B)))%nat ->
  fd_pos in_fd = 0 ->
  fd_data in_fd
  = u64_bytes (Z.of_nat (size R)) ++ serialized R
    ++ u64_bytes (Z.of_nat (length (concat (map code B)))) ++ stream ->
  Z.of_nat (length stream)
  = Z.of_nat (length (concat (map code B))) / 8 + 1 ->
  Z.of_nat (length (fd_data in_fd)) < 2 ^ 60 ->
  (forall k d, concat (map code B) !! k = Some d ->
               bit_at stream (Z.of_nat k) = (d =? 1)) ->
  fd_data out_fd = [] ->
  fd_pos out_fd = 0 ->
  Z.of_nat (length B) <= Z.min (fd_limit out_fd) OFF_MAX ->
  exists dec,
    huffman_decode flags in_fd out_fd = (dec, Return 0)
    /\ fd_data dec = B.
Proof.
  intros Hflag HR Hlf Hcode Hsome Hpos Hdata Hstream Hlen Hbits
         Hodata Hopos Hroom.
  set (L := length (concat (map code B))) in *.
  pose proof (size_positive R) as Hnodes.
  assert (Hsizes : Z.of_nat (length (fd_data in_fd))
                   = 8 + 2 * Z.of_nat (size R) + 8 + (Z.of_nat L / 8 + 1)).
  { rewrite Hdata, !length_app, !u64_bytes_length, serialized_length. lia. }
  assert (H0 : 0 <= Z.of_nat L / 8) by (apply Z.div_pos; lia).
  assert (HL : Z.of_nat L < 2 ^ 63).
  { assert (Z.of_nat L < 8 * (Z.of_nat L / 8 + 1)).
    { pose proof (Z.mul_succ_div_gt (Z.of_nat L) 8 ltac:(lia)). lia. }
    lia. }
  unfold huffman_decode, decode_input. rewrite Hflag.
  destruct (htree_input in_fd) as [fd' constructed_tree] eqn:Hin.
  pose proof (htree_input_rebuilds in_fd (Z.of_nat (size R)) R
                (u64_bytes (Z.of_nat L) ++ stream) HR ltac:(lia) Hpos Hdata
                ltac:(lia) ltac:(now left)) as Htree.
  pose proof (htree_input_data in_fd) as Hsame.
  rewrite Hin in Htree, Hsame. cbn [fst snd] in Htree, Hsame. subst constructed_tree.
  cbn [count]. change (0 =? VECTOR_BIT_OFF) with true. cbv iota.
  unfold TREE_INPUT_OBJECT_OFFSET, TREE_INPUT_COUNT_OFFSET,
    TREE_INPUT_COUNT_SIZE, TREE_INPUT_OBJECT_SIZE, TREE_INPUT_ELEMENT_SIZE,
    TREE_INPUT_LEAFNODE_SIZE.
  rewrite (u64_small (0 + 8 + _)) by lia.
  rewrite ssize_t_small by lia. rewrite u64_small by lia.
  rewrite (bvector_input_reads fd' _ (Z.of_nat L)
             (u64_bytes (Z.of_nat (size R)) ++ serialized R) stream []).
  2:{ rewrite Hsame, Hdata, app_nil_r. now rewrite <- app_assoc. }
  2:{ rewrite length_app, u64_bytes_length, serialized_length. lia. }
  2:{ lia. }
  2:{ exact Hstream. }
  2:{ rewrite Hsame. lia. }
  unfold decode_steps. rewrite Hflag.
  change (0 =? VECTOR_BIT_SET) with false. cbv iota.
  unfold bvector_get_size, VECTOR_FLAG_STREAM, VECTOR_FLAG_FULL.
  cbn [Z.eqb working_index root]. rewrite Nat2Z.id.
  destruct (state_step_stream
              {| root := Some (rebuilt R); count := Z.of_nat (size R);
                 _parsed := 0 |}
              (rebuilt R)
              (Some {| vector := stream; vector_length := Z.of_nat L;
                       working_index := Z.of_nat L |})
              [] code B eq_refl) with (i := 0)
      (st := {| temp_ptr := Some (rebuilt R); decoded_element := -1;
                decoded_string := [] |})
    as [last Hsteps].
  { destruct R; exact Hlf. }
  { intros e He. rewrite leaf_at_rebuilt. now apply Hcode. }
  { reflexivity. }
  { intros k d Hk. rewrite Z.add_0_l.
    rewrite check_bit_bit_at
      by (cbn [vector_length]; apply lookup_lt_Some in Hk; fold L in Hk; lia).
    cbn [vector]. rewrite (Hbits k d Hk).
    assert (Hops : Forall is_opcode (concat (map code B))).
    { apply concat_codes_opcodes. intros e He. now apply Hcode. }
    rewrite Forall_forall in Hops.
    destruct (Hops d (list_elem_of_lookup_2 _ _ _ Hk)) as [-> | ->]; reflexivity. }
  fold L in Hsteps. rewrite Hsteps. cbn [decoded_string app].
  destruct (write out_fd B) as [dec n] eqn:Hwrite.
  destruct (write_fits out_fd B ltac:(lia) ltac:(lia)) as (Hn & _ & Hdec).
  rewrite Hwrite in Hn, Hdec. cbn [fst snd] in Hn, Hdec. subst n.
  rewrite Z.ltb_irrefl. exists dec. split; [reflexivity|].
  rewrite Hdec, Hodata, Hopos. destruct B as [|b B]; [reflexivity|].
  change (Z.to_nat 0) with (@length Z []). now rewrite store_at_end.
Qed.

(** ** Encoding, then decoding *)

(** Bit mode: the encoder's file read back by the decoder. *)
Lemma bit_mode_round_trip (fresh : nat -> Z)
    (encode_flags decode_flags : option bvector_t) (B : list Z) (x y : Z)
    (out_fd decoded_fd : file) :
  bvector_check_bit encode_flags FLAG_ASCII = 0 ->
  bvector_check_bit decode_flags FLAG_ASCII = 0 ->
  Forall (fun b => 0 <= b < 256) B ->
  x ∈ B -> y ∈ B -> x <> y ->
  Z.of_nat (length B) < 2 ^ 52 ->
  fd_data out_fd = [] ->
  fd_pos out_fd = 0 ->
  1040 + 64 * Z.of_nat (length B) <= Z.min (fd_limit out_fd) OFF_MAX ->
  fd_data decoded_fd = [] ->
  fd_pos decoded_fd = 0 ->
  Z.of_nat (length B) <= Z.min (fd_limit decoded_fd) OFF_MAX ->
  exists artifact,
    huffman_encode fresh encode_flags B out_fd = (artifact, Return 0)
    /\ forall in_fd,
         fd_pos in_fd = 0 ->
         fd_data in_fd = fd_data artifact ->
         exists decoded,
           huffman_decode decode_flags in_fd decoded_fd = (decoded, Return 0)
           /\ fd_data decoded = B.
Proof.
  intros Heflag Hdflag HB Hx Hy Hne Hlen Hdata Hpos Hroom Hddata Hdpos Hdroom.
  destruct (huffman_encode_writes fresh encode_flags B x y out_fd
              Heflag HB Hx Hy Hne Hlen Hdata Hpos Hroom)
    as (R & stream & artifact & Hencode & HR & Hlf & Hdup & Hmem & Hart
        & Hstream & Hbits).
  pose proof (tree_size_bound R HR Hdup (fun e He => leaves_range R e HR He))
    as Hsize.
  assert (Hcodes : forall e, e ∈ B ->
            leaf_at R (code_of R e) = Some e /\ 0 <= e < 256
            /\ Forall is_opcode (code_of R e)
            /\ (0 < length (code_of R e) <= 510)%nat).
  { intros e He.
    destruct (tree_codes R e HR Hlf Hdup (Hmem e He))
      as (Hleaf & Hrange & Hops & Hcode & _).
    repeat split; try assumption; lia. }
  assert (Hlong : (length (concat (map (code_of R) B)) <= length B * 510)%nat).
  { apply concat_length_bound. intros e He.
    destruct (Hcodes e He) as (_ & _ & _ & Hcode). lia. }
  assert (Hsome : (0 < length (concat (map (code_of R) B)))%nat).
  { destruct B as [|b B]; [now apply elem_of_nil in Hx|].
    cbn [map concat]. rewrite length_app.
    destruct (Hcodes b ltac:(left)) as (_ & _ & _ & Hcode). lia. }
  exists artifact. split; [exact Hencode|]. intros in_fd Hipos Hidata.
  destruct (huffman_decode_reads decode_flags R (code_of R) B stream
              in_fd decoded_fd Hdflag HR Hlf)
    as (decoded & Hdecode & Hsame); try assumption; try reflexivity;
    try (rewrite Hidata; assumption).
  - intros e He. destruct (Hcodes e He) as (Hleaf & Hrange & Hops & _).
    now repeat split.
  - rewrite Hidata, Hart, !length_app, !u64_bytes_length,
      serialized_length.
    set (L := length (concat (map (code_of R) B))) in *.
    assert (Z.of_nat L / 8 <= 64 * Z.of_nat (length B))
      by (apply Z.div_le_upper_bound; lia).
    lia.
  - exists decoded. now split.
Qed.

(** X1. For an input of bytes with at least two different values, in bit
    mode: [huffman_encode] returns 0 and [huffman_decode], run on the file it
    wrote, returns 0 and writes the input. *)
Theorem huffman_round_trip (fresh : nat -> Z)
    (encode_flags decode_flags : option bvector_t) (B : list Z) (x y : Z)
    (out_fd decoded_fd : file) :
  bvector_check_bit encode_flags FLAG_ASCII = 0 ->
  bvector_check_bit decode_flags FLAG_ASCII = 0 ->
  Forall (fun b => 0 <= b < 256) B ->
  x ∈ B -> y ∈ B -> x <> y ->
  Z.of_nat (length B) < 2 ^ 52 ->
  fd_data out_fd = [] ->
  fd_pos out_fd = 0 ->
  1040 + 64 * Z.of_nat (length B) <= Z.min (fd_limit out_fd) OFF_MAX ->
  fd_data decoded_fd = [] ->
  fd_pos decoded_fd = 0 ->
  Z.of_nat (length B) <= Z.min (fd_limit decoded_fd) OFF_MAX ->
  exists artifact decoded,
    huffman_encode fresh encode_flags B out_fd = (artifact, Return 0)
    /\ huffman_decode decode_flags (reopen artifact) decoded_fd
       = (decoded, Return 0)
    /\ fd_data decoded = B.
Proof.
  intros Heflag Hdflag HB Hx Hy Hne Hlen Hdata Hpos Hroom Hddata Hdpos Hdroom.
  destruct (bit_mode_round_trip fresh encode_flags decode_flags B x y out_fd
              decoded_fd Heflag Hdflag HB Hx Hy Hne Hlen Hdata Hpos Hroom
              Hddata Hdpos Hdroom) as (artifact & Hencode & Hdecode).
  destruct (Hdecode (reopen artifact) eq_refl eq_refl) as (decoded & Hd & Hsame).
  now exists artifact, decoded.
Qed.

(** An input of four bytes with three different values. *)
Example huffman_round_trip_example :
  exists artifact decoded,
    huffman_encode zero_fresh bit_mode_flags [97; 98; 97; 99] new_file
    = (artifact, Return 0)
    /\ huffman_decode bit_mode_flags (reopen artifact) new_file
       = (decoded, Return 0)
    /\ fd_data decoded = [97; 98; 97; 99].
Proof.
  apply (huffman_round_trip zero_fresh bit_mode_flags bit_mode_flags
           [97; 98; 97; 99] 97 98 new_file new_file);
    try reflexivity; try (vm_compute; lia); try (vm_compute; congruence).
  - repeat constructor; lia.
  - repeat constructor.
  - repeat constructor.
Defined.

(** * Bit vectors *)

(** ** Creating, setting, clearing and checking *)

Lemma byte_at_zeroes (n : nat) (i : Z) : byte_at (replicate n 0) i = 0.
Proof.
  unfold byte_at. destruct (replicate n 0 !! Z.to_nat i) as [x|] eqn:E.
  - apply lookup_replicate in E as [-> _]. reflexivity.
  - reflexivity.
Qed.

(** X2. For every length other than 0, [bvector_create] gives a vector of
    that capacity whose cursor is 0 and whose bits all read 0; for length 0
    it gives [NULL]. *)
Theorem bvector_create_zeroed (length : Z) :
  0 < length ->
  bvector_create 0 = None
  /\ exists b,
       bvector_create length = Some b
       /\ vector_length b = length
       /\ working_index b = 0
       /\ bvector_sized b
       /\ forall index, 0 <= index < length ->
                        bvector_check_bit (Some b) index = 0.
Proof.
  intros Hpos. split; [reflexivity|]. unfold bvector_create.
  destruct (Z.eqb_spec length 0); [lia|].
  eexists. split; [reflexivity|]. cbn [vector_length working_index vector].
  split; [reflexivity|]. split; [reflexivity|]. split.
  - split; cbn [vector vector_length working_index].
    + apply length_replicate.
    + unfold DEFAULT_VECTOR_INDEX. lia.
  - intros index Hindex. unfold bvector_check_bit.
    cbn [vector vector_length].
    destruct (Z.leb_spec length index); [lia|].
    now rewrite byte_at_zeroes.
Qed.

Lemma bvector_create_zeroed_witness :
  bvector_create 0 = None
  /\ exists b,
       bvector_create 12 = Some b
       /\ vector_length b = 12
       /\ working_index b = 0
       /\ bvector_sized b
       /\ forall index, 0 <= index < 12 ->
                        bvector_check_bit (Some b) index = 0.
Proof. apply (bvector_create_zeroed 12). lia. Defined.

(** The byte of an index is within a storage of the right size. *)
Lemma byte_index_in_storage (b : bvector_t) (index : Z) :
  bvector_sized b ->
  0 <= index < vector_length b ->
  (Z.to_nat (index / 8) < length (vector b))%nat.
Proof.
  intros [Hlen _] Hindex. rewrite Hlen. unfold VECTOR_BYTE_SIZE.
  assert (index / 8 <= vector_length b / 8) by (apply Z.div_le_mono; lia).
  assert (0 <= index / 8) by (apply Z.div_pos; lia).
  lia.
Qed.

(** What [bvector_check_bit] reads after a bit was set or cleared. *)
Lemma set_bit_reads (b : bvector_t) (index : Z) :
  bvector_sized b ->
  0 <= index < vector_length b ->
  exists b',
    bvector_set_bit (Some b) index = (Some b', true)
    /\ bvector_sized b'
    /\ vector_length b' = vector_length b
    /\ working_index b' = working_index b
    /\ forall j, 0 <= j < vector_length b ->
         bvector_check_bit (Some b') j
         = if j =? index then 1 else bvector_check_bit (Some b) j.
Proof.
  intros Hsized Hindex.
  pose proof (byte_index_in_storage b index Hsized Hindex) as Hbyte.
  unfold bvector_set_bit, VECTOR_BYTE_INDEX, VECTOR_BYTE_SIZE.
  destruct (Z.leb_spec (vector_length b) index); [lia|].
  eexists. split; [reflexivity|]. cbn [vector_length working_index].
  split; [|split; [reflexivity|split; [reflexivity|]]].
  - destruct Hsized as [Hlen Hcur]. split; cbn [vector vector_length
      working_index]; [now rewrite length_alter | exact Hcur].
  - intros j Hj.
    rewrite !check_bit_bit_at by (cbn [vector_length]; lia). cbn [vector].
    rewrite (bit_at_alter _ true) by
      (try lia; intros x k Hk; apply set_byte_bits; lia).
    now destruct (j =? index).
Qed.

Lemma clear_bit_reads (b : bvector_t) (index : Z) :
  bvector_sized b ->
  0 <= index < vector_length b ->
  exists b',
    bvector_clear_bit (Some b) index = (Some b', true)
    /\ bvector_sized b'
    /\ vector_length b' = vector_length b
    /\ working_index b' = working_index b
    /\ forall j, 0 <= j < vector_length b ->
         bvector_check_bit (Some b') j
         = if j =? index then 0 else bvector_check_bit (Some b) j.
Proof.
  intros Hsized Hindex.
  pose proof (byte_index_in_storage b index Hsized Hindex) as Hbyte.
  unfold bvector_clear_bit, VECTOR_BYTE_INDEX, VECTOR_BYTE_SIZE.
  destruct (Z.leb_spec (vector_length b) index); [lia|].
  eexists. split; [reflexivity|]. cbn [vector_length working_index].
  split; [|split; [reflexivity|split; [reflexivity|]]].
  - destruct Hsized as [Hlen Hcur]. split; cbn [vector vector_length
      working_index]; [now rewrite length_alter | exact Hcur].
  - intros j Hj.
    rewrite !check_bit_bit_at by (cbn [vector_length]; lia). cbn [vector].
    rewrite (bit_at_alter _ false) by
      (try lia; intros x k Hk; apply clear_byte_bits; lia).
    now destruct (j =? index).
Qed.

(** X3. On a vector whose storage has the size of its capacity and an index
    within the capacity, [bvector_set_bit] and [bvector_clear_bit] return the
    vector, [bvector_check_bit] then reads 1 (0 after a clear) at that index
    and what it read before at every other index; capacity and cursor are
    kept. *)
Theorem bvector_set_clear_one_bit (b : bvector_t) (index : Z) :
  bvector_sized b ->
  0 <= index < vector_length b ->
  (exists b',
     bvector_set_bit (Some b) index = (Some b', true)
     /\ vector_length b' = vector_length b
     /\ working_index b' = working_index b
     /\ bvector_check_bit (Some b') index = 1
     /\ forall j, 0 <= j < vector_length b -> j <> index ->
                  bvector_check_bit (Some b') j = bvector_check_bit (Some b) j)
  /\ (exists b',
        bvector_clear_bit (Some b) index = (Some b', true)
        /\ vector_length b' = vector_length b
        /\ working_index b' = working_index b
        /\ bvector_check_bit (Some b') index = 0
        /\ forall j, 0 <= j < vector_length b -> j <> index ->
                     bvector_check_bit (Some b') j = bvector_check_bit (Some b) j).
Proof.
  intros Hsized Hindex. split.
  - destruct (set_bit_reads b index Hsized Hindex)
      as (b' & Hset & _ & Hcap & Hcur & Hbits).
    exists b'. split; [exact Hset|]. split; [exact Hcap|].
    split; [exact Hcur|]. split.
    + rewrite Hbits by lia. now rewrite Z.eqb_refl.
    + intros j Hj Hne. rewrite Hbits by lia.
      destruct (Z.eqb_spec j index); [contradiction | reflexivity].
  - destruct (clear_bit_reads b index Hsized Hindex)
      as (b' & Hclear & _ & Hcap & Hcur & Hbits).
    exists b'. split; [exact Hclear|]. split; [exact Hcap|].
    split; [exact Hcur|]. split.
    + rewrite Hbits by lia. now rewrite Z.eqb_refl.
    + intros j Hj Hne. rewrite Hbits by lia.
      destruct (Z.eqb_spec j index); [contradiction | reflexivity].
Qed.

Lemma bvector_set_clear_one_bit_witness :
  (exists b',
     bvector_set_bit (Some nine_bits) 10 = (Some b', true)
     /\ vector_length b' = vector_length nine_bits
     /\ working_index b' = working_index nine_bits
     /\ bvector_check_bit (Some b') 10 = 1
     /\ forall j, 0 <= j < vector_length nine_bits -> j <> 10 ->
                  bvector_check_bit (Some b') j
                  = bvector_check_bit (Some nine_bits) j)
  /\ (exists b',
        bvector_clear_bit (Some nine_bits) 10 = (Some b', true)
        /\ vector_length b' = vector_length nine_bits
        /\ working_index b' = working_index nine_bits
        /\ bvector_check_bit (Some b') 10 = 0
        /\ forall j, 0 <= j < vector_length nine_bits -> j <> 10 ->
                     bvector_check_bit (Some b') j
                     = bvector_check_bit (Some nine_bits) j).
Proof.
  apply (bvector_set_clear_one_bit nine_bits 10).
  - split; [reflexivity | cbn; lia].
  - cbn; lia.
Defined.

(** ** Appending *)

(** The bits of a block that [realloc] resized, below the old and the new
    size. *)
Lemma bit_at_realloc (fresh : nat -> Z) (bytes : list Z) (size j : Z) :
  0 <= j ->
  j / 8 < size ->
  (Z.to_nat (j / 8) < length bytes)%nat ->
  bit_at (realloc fresh bytes size) j = bit_at bytes j.
Proof.
  intros Hj Hsize Hlen. unfold bit_at.
  assert (0 <= j / 8) by (apply Z.div_pos; lia).
  now rewrite byte_at_realloc by lia.
Qed.

(** Appending to a vector of any positive capacity: a full vector is doubled
    first. *)
Lemma append_bit_grows (fresh : nat -> Z) (b : bvector_t) (bit : Z) :
  bvector_sized b ->
  0 < vector_length b < 2 ^ 63 ->
  bit = 0 \/ bit = 1 ->
  exists b',
    bvector_append_bit fresh (Some b) bit = (Some b', true)
    /\ bvector_sized b'
    /\ vector_length b'
       = (if working_index b =? vector_length b
          then 2 * vector_length b else vector_length b)
    /\ working_index b' = working_index b + 1
    /\ forall j, 0 <= j -> j < vector_length b \/ j = working_index b ->
         bit_at (vector b') j
         = if j =? working_index b then bit =? 1 else bit_at (vector b) j.
Proof.
  intros Hsized Hcap Hbit. pose proof Hsized as [Hlen Hcur].
  destruct (Z.eqb_spec (working_index b) (vector_length b)) as [Hfull|Hroom].
  - set (b1 := {| vector := realloc fresh (vector b)
                              (vector_length b * 2 / VECTOR_BYTE_SIZE + 1);
                  vector_length := vector_length b * 2;
                  working_index := working_index b |}).
    assert (Hs1 : bvector_sized b1).
    { split; cbn [b1 vector vector_length working_index];
        [apply realloc_length | lia]. }
    destruct (write_at_cursor b1 bit Hs1
                ltac:(cbn [b1 vector_length working_index]; lia) Hbit)
      as (b' & Hb' & Hs' & Hc' & Hw' & Hbits).
    exists b'. split; [|split; [exact Hs'|split; [|split; [exact Hw'|]]]].
    + unfold bvector_append_bit.
      destruct (Z.ltb_spec 1 bit); [lia|].
      destruct (Z.eqb_spec (working_index b) (vector_length b));
        [|contradiction].
      cbn [bvector_resize fst from_option].
      rewrite u64_small by lia. fold b1. now rewrite Hb'.
    + rewrite Hc'. cbn [b1 vector_length]. lia.
    + intros j Hj Hin. rewrite Hbits by lia. cbn [b1 working_index vector].
      destruct (Z.eqb_spec j (working_index b)); [reflexivity|].
      apply bit_at_realloc; [lia| |].
      * assert (j / 8 <= vector_length b * 2 / 8)
          by (apply Z.div_le_mono; lia).
        unfold VECTOR_BYTE_SIZE. lia.
      * apply byte_index_in_storage; [exact Hsized | lia].
  - destruct (append_bit_within fresh b bit Hsized ltac:(lia) Hbit)
      as (b' & Happ & Hs' & Hc' & Hw' & Hbits).
    exists b'. split; [exact Happ|]. split; [exact Hs'|].
    split; [exact Hc'|]. split; [exact Hw'|].
    intros j Hj _. apply Hbits. lia.
Qed.

(** X4. On a vector of positive capacity (below 2^63) whose storage has the
    size of the capacity and whose cursor is within the capacity (what
    [bvector_create] gives and appending keeps; a [bvector_resize] to a
    smaller length can leave the cursor beyond the capacity, and then no bit
    is stored), [bvector_append_bit] with a bit 0 or 1 returns the vector
    with the cursor moved by one; the capacity is doubled exactly when the
    vector was full; [bvector_check_bit] reads the bit at the old cursor and
    what it read before at every other index of the old capacity. *)
Theorem bvector_append_bit_appends (fresh : nat -> Z) (b : bvector_t) (bit : Z) :
  bvector_sized b ->
  0 < vector_length b < 2 ^ 63 ->
  bit = 0 \/ bit = 1 ->
  exists b',
    bvector_append_bit fresh (Some b) bit = (Some b', true)
    /\ bvector_sized b'
    /\ working_index b' = working_index b + 1
    /\ vector_length b'
       = (if working_index b =? vector_length b
          then 2 * vector_length b else vector_length b)
    /\ bvector_check_bit (Some b') (working_index b) = bit
    /\ forall j, 0 <= j < vector_length b -> j <> working_index b ->
         bvector_check_bit (Some b') j = bvector_check_bit (Some b) j.
Proof.
  intros Hsized Hcap Hbit. pose proof Hsized as [_ Hcur].
  destruct (append_bit_grows fresh b bit Hsized Hcap Hbit)
    as (b' & Happ & Hs' & Hc' & Hw' & Hbits).
  assert (Hwider : vector_length b <= vector_length b').
  { rewrite Hc'. destruct (working_index b =? vector_length b); lia. }
  assert (Hinside : working_index b < vector_length b').
  { rewrite Hc'.
    destruct (Z.eqb_spec (working_index b) (vector_length b)); lia. }
  exists b'. split; [exact Happ|]. split; [exact Hs'|].
  split; [exact Hw'|]. split; [exact Hc'|]. split.
  - rewrite check_bit_bit_at by lia.
    rewrite Hbits by lia. rewrite Z.eqb_refl.
    destruct Hbit as [-> | ->]; reflexivity.
  - intros j Hj Hne. rewrite !check_bit_bit_at by lia.
    rewrite Hbits by lia.
    destruct (Z.eqb_spec j (working_index b)); [contradiction | reflexivity].
Qed.

Lemma bvector_append_bit_appends_witness :
  let b := {| vector := [5]; vector_length := 3; working_index := 3 |} in
  exists b',
    bvector_append_bit zero_fresh (Some b) 1 = (Some b', true)
    /\ bvector_sized b'
    /\ working_index b' = working_index b + 1
    /\ vector_length b'
       = (if working_index b =? vector_length b
          then 2 * vector_length b else vector_length b)
    /\ bvector_check_bit (Some b') (working_index b) = 1
    /\ forall j, 0 <= j < vector_length b -> j <> working_index b ->
         bvector_check_bit (Some b') j = bvector_check_bit (Some b) j.
Proof.
  apply (bvector_append_bit_appends zero_fresh
           {| vector := [5]; vector_length := 3; working_index := 3 |} 1).
  - split; [reflexivity | cbn; lia].
  - cbn; lia.
  - now right.
Defined.

(** X5. A vector of capacity 0 never grows: [bvector_append_bit] doubles 0
    to 0, stores nothing, moves the cursor all the same and returns the
    vector; no index can be read afterwards. *)
Theorem bvector_append_bit_no_capacity (fresh : nat -> Z) (b : bvector_t)
    (bit : Z) :
  vector_length b = 0 ->
  0 <= working_index b < 2 ^ 64 - 1 ->
  0 <= bit <= 1 ->
  exists b',
    bvector_append_bit fresh (Some b) bit = (Some b', true)
    /\ vector_length b' = 0
    /\ working_index b' = working_index b + 1
    /\ forall index, 0 <= index -> bvector_check_bit (Some b') index = -2.
Proof.
  intros Hcap Hcur Hbit. unfold bvector_append_bit.
  destruct (Z.ltb_spec 1 bit); [lia|].
  assert (Hstep : forall bx index, vector_length bx <= index ->
            (if bit =? 0
             then (bvector_clear_bit (Some bx) index).1
             else (bvector_set_bit (Some bx) index).1) = Some bx).
  { intros bx index Hbx. unfold bvector_clear_bit, bvector_set_bit.
    destruct (Z.leb_spec (vector_length bx) index); [|lia].
    now destruct (bit =? 0). }
  destruct (Z.eqb_spec (working_index b) (vector_length b)) as [Hfull|Hroom].
  - cbn [bvector_resize fst from_option working_index].
    rewrite Hcap. change (u64 (0 * 2)) with 0.
    rewrite Hstep by (cbn [vector_length]; lia).
    cbn [option_map vector vector_length working_index].
    eexists. split; [reflexivity|]. cbn [vector_length working_index].
    split; [reflexivity|]. split; [apply u64_small; lia|].
    intros index Hindex. unfold bvector_check_bit. cbn [vector_length].
    destruct (Z.leb_spec 0 index); [reflexivity | lia].
  - cbn [from_option]. rewrite Hstep by lia.
    cbn [option_map]. eexists. split; [reflexivity|].
    cbn [vector_length working_index].
    split; [exact Hcap|]. split; [apply u64_small; lia|].
    intros index Hindex. unfold bvector_check_bit. cbn [vector_length].
    rewrite Hcap. destruct (Z.leb_spec 0 index); [reflexivity | lia].
Qed.

Lemma bvector_append_bit_no_capacity_witness :
  let b := {| vector := [0]; vector_length := 0; working_index := 0 |} in
  bvector_convert zero_fresh "x" = Some b
  /\ exists b',
       bvector_append_bit zero_fresh (Some b) 1 = (Some b', true)
       /\ vector_length b' = 0
       /\ working_index b' = working_index b + 1
       /\ forall index, 0 <= index -> bvector_check_bit (Some b') index = -2.
Proof.
  split; [reflexivity|].
  apply (bvector_append_bit_no_capacity zero_fresh
           {| vector := [0]; vector_length := 0; working_index := 0 |} 1);
    cbn; lia.
Defined.

(** The loop of [bvector_append_vector] on a destination of any positive
    capacity [<= limit]: the capacity stays below twice the cursor or
    [limit]. *)
Lemma append_vector_loop_grows (fresh : nat -> Z) (copy : option bvector_t)
    (limit : Z) (p : list Z) :
  forall (i : Z) (b : bvector_t),
    bvector_sized b ->
    0 < vector_length b <= Z.max limit (2 * working_index b) ->
    limit < 2 ^ 63 ->
    working_index b + Z.of_nat (length p) < 2 ^ 62 ->
    Forall (fun d => d = 0 \/ d = 1) p ->
    (forall k d, p !! k = Some d ->
                 bvector_check_bit copy (i + Z.of_nat k) = d) ->
    exists b',
      append_vector_loop fresh (length p) i (Some b) copy = Some b'
      /\ bvector_sized b'
      /\ vector_length b <= vector_length b'
         <= Z.max limit (2 * working_index b')
      /\ working_index b' = working_index b + Z.of_nat (length p)
      /\ (forall j, 0 <= j < working_index b ->
                    bit_at (vector b') j = bit_at (vector b) j)
      /\ (forall k d, p !! k = Some d ->
                      bit_at (vector b') (working_index b + Z.of_nat k)
                      = (d =? 1)).
Proof.
  induction p as [|d p IH]; intros i b Hsized Hcap Hlimit Hlen Hops Hcopy.
  - exists b. cbn [length append_vector_loop].
    split; [reflexivity|]. split; [exact Hsized|]. split; [lia|].
    split; [cbn; lia|].
    split; [reflexivity|]. intros k d Hk. discriminate Hk.
  - cbn [length append_vector_loop]. cbn [length] in Hlen.
    apply Forall_cons in Hops as [Hd Hops].
    pose proof (Hcopy O d eq_refl) as Hfirst.
    change (Z.of_nat 0) with 0 in Hfirst. rewrite Z.add_0_r in Hfirst.
    rewrite Hfirst.
    replace (u8 d) with d by (destruct Hd as [-> | ->]; reflexivity).
    pose proof Hsized as [_ Hcur].
    destruct (append_bit_grows fresh b d Hsized ltac:(lia) Hd)
      as (b1 & Happ & Hs1 & Hc1 & Hw1 & Hbits1).
    rewrite Happ. cbn [fst].
    assert (Hcap1 : vector_length b <= vector_length b1
                    <= Z.max limit (2 * working_index b1)).
    { rewrite Hc1, Hw1.
      destruct (Z.eqb_spec (working_index b) (vector_length b)); lia. }
    destruct (IH (i + 1) b1 Hs1 ltac:(lia) Hlimit ltac:(lia) Hops)
      as (b' & Hloop & Hs' & Hc' & Hw' & Hlow & Hnew).
    { intros k d' Hk. rewrite <- (Hcopy (S k) d' Hk). f_equal. lia. }
    exists b'. split; [exact Hloop|]. split; [exact Hs'|].
    split; [lia|]. split; [lia|]. split.
    + intros j Hj. rewrite Hlow by lia. rewrite Hbits1 by lia.
      destruct (Z.eqb_spec j (working_index b)); [lia | reflexivity].
    + intros [|k] d' Hk.
      * cbn in Hk. injection Hk as <-.
        change (Z.of_nat 0) with 0. rewrite Z.add_0_r.
        rewrite Hlow by lia.
        rewrite Hbits1 by lia. now rewrite Z.eqb_refl.
      * cbn in Hk. rewrite <- (Hnew k d' Hk). f_equal. lia.
Qed.

(** A bit read within the capacity is 0 or 1. *)
Lemma check_bit_binary (b : bvector_t) (index : Z) :
  0 <= index < vector_length b ->
  bvector_check_bit (Some b) index = 0 \/ bvector_check_bit (Some b) index = 1.
Proof.
  intros H. rewrite check_bit_bit_at by exact H.
  destruct (bit_at (vector b) index); [now right | now left].
Qed.

(** X6. On a destination of positive capacity (below 2^63) and a copy
    vector, each with a storage of the size of its capacity and a cursor
    within the capacity, the two sizes making less than 2^62 bits:
    [bvector_append_vector] appends the bits of [copy_vector] in order, as
    many as [bvector_get_size] gives for the flag, behind the cursor of the
    destination, whose earlier bits keep their values.  (A destination of
    capacity 0 takes no bit.) *)
Theorem bvector_append_vector_appends (fresh : nat -> Z) (b copy : bvector_t)
    (flag : Z) :
  bvector_sized b ->
  0 < vector_length b < 2 ^ 63 ->
  bvector_sized copy ->
  working_index b + bvector_get_size (Some copy) flag < 2 ^ 62 ->
  exists b',
    bvector_append_vector fresh (Some b) (Some copy) flag = (Some b', true)
    /\ bvector_sized b'
    /\ working_index b' = working_index b + bvector_get_size (Some copy) flag
    /\ (forall j, 0 <= j < working_index b ->
                  bvector_check_bit (Some b') j = bvector_check_bit (Some b) j)
    /\ (forall k, 0 <= k < bvector_get_size (Some copy) flag ->
                  bvector_check_bit (Some b') (working_index b + k)
                  = bvector_check_bit (Some copy) k).
Proof.
  intros Hsized Hcap Hcopy Hlen.
  pose proof (get_size_bounds copy flag Hcopy) as Hn.
  set (n := bvector_get_size (Some copy) flag) in *.
  set (p := map (fun k : nat => bvector_check_bit (Some copy) (Z.of_nat k))
                (seq 0 (Z.to_nat n))).
  assert (Hp : length p = Z.to_nat n)
    by (unfold p; now rewrite length_map, length_seq).
  assert (Hlookup : forall k d, p !! k = Some d ->
            bvector_check_bit (Some copy) (Z.of_nat k) = d /\ (k < Z.to_nat n)%nat).
  { intros k d Hk. unfold p in Hk.
    rewrite map_fmap, list_lookup_fmap in Hk.
    apply fmap_Some in Hk as (i & Hi & ->).
    apply lookup_seq in Hi as [-> Hlt]. now split. }
  pose proof Hsized as [_ Hcur].
  destruct (append_vector_loop_grows fresh (Some copy) (vector_length b) p 0 b
              Hsized ltac:(lia) ltac:(lia) ltac:(lia))
    as (b' & Hloop & Hs' & Hc' & Hw' & Hlow & Hnew).
  { apply Forall_forall. intros d Hd.
    apply list_elem_of_lookup_1 in Hd as [k Hk].
    destruct (Hlookup k d Hk) as [<- Hlt].
    apply check_bit_binary. lia. }
  { intros k d Hk. rewrite Z.add_0_l. now apply Hlookup. }
  pose proof Hs' as [_ Hcur'].
  exists b'. split; [|split; [exact Hs'|split; [lia|split]]].
  - unfold bvector_append_vector. fold n. now rewrite <- Hp, Hloop.
  - intros j Hj. rewrite !check_bit_bit_at by lia. now rewrite Hlow.
  - intros k Hk.
    assert (Hpk : p !! Z.to_nat k
                  = Some (bvector_check_bit (Some copy) k)).
    { unfold p. rewrite map_fmap, list_lookup_fmap, lookup_seq_lt by lia.
      cbn. now rewrite Z2Nat.id by lia. }
    pose proof (Hnew _ _ Hpk) as Hbit. rewrite Z2Nat.id in Hbit by lia.
    rewrite check_bit_bit_at by lia. rewrite Hbit.
    destruct (check_bit_binary copy k ltac:(lia)) as [-> | ->]; reflexivity.
Qed.

Lemma bvector_append_vector_appends_witness :
  let b := {| vector := [5]; vector_length := 3; working_index := 3 |} in
  exists b',
    bvector_append_vector zero_fresh (Some b) (Some nine_bits)
                          VECTOR_FLAG_STREAM = (Some b', true)
    /\ bvector_sized b'
    /\ working_index b'
       = working_index b + bvector_get_size (Some nine_bits) VECTOR_FLAG_STREAM
    /\ (forall j, 0 <= j < working_index b ->
                  bvector_check_bit (Some b') j = bvector_check_bit (Some b) j)
    /\ (forall k, 0 <= k < bvector_get_size (Some nine_bits) VECTOR_FLAG_STREAM ->
                  bvector_check_bit (Some b') (working_index b + k)
                  = bvector_check_bit (Some nine_bits) k).
Proof.
  apply (bvector_append_vector_appends zero_fresh
           {| vector := [5]; vector_length := 3; working_index := 3 |}
           nine_bits VECTOR_FLAG_STREAM).
  - split; [reflexivity | cbn; lia].
  - cbn; lia.
  - split; [reflexivity | cbn; lia].
  - cbn; lia.
Defined.

(** X7. [bvector_resize] sets the capacity to the new length, keeps the
    cursor where it was (also beyond a smaller capacity) and keeps every bit
    below the old and the new capacity. *)
Theorem bvector_resize_keeps_bits (fresh : nat -> Z) (b : bvector_t)
    (length : Z) :
  bvector_sized b ->
  0 <= length ->
  exists b',
    bvector_resize fresh (Some b) length = (Some b', true)
    /\ vector_length b' = length
    /\ working_index b' = working_index b
    /\ Datatypes.length (vector b') = Z.to_nat (length / 8 + 1)
    /\ forall j, 0 <= j < Z.min (vector_length b) length ->
         bvector_check_bit (Some b') j = bvector_check_bit (Some b) j.
Proof.
  intros Hsized Hlength. unfold bvector_resize. eexists.
  split; [reflexivity|]. cbn [vector vector_length working_index].
  split; [reflexivity|]. split; [reflexivity|].
  split; [apply realloc_length|].
  intros j Hj. rewrite !check_bit_bit_at by (cbn [vector_length]; lia).
  cbn [vector]. f_equal. apply bit_at_realloc; [lia| |].
  - assert (j / 8 <= length / 8) by (apply Z.div_le_mono; lia).
    unfold VECTOR_BYTE_SIZE. lia.
  - apply byte_index_in_storage; [exact Hsized | lia].
Qed.

Lemma bvector_resize_keeps_bits_witness :
  exists b',
    bvector_resize zero_fresh (Some nine_bits) 4 = (Some b', true)
    /\ vector_length b' = 4
    /\ working_index b' = working_index nine_bits
    /\ Datatypes.length (vector b') = Z.to_nat (4 / 8 + 1)
    /\ forall j, 0 <= j < Z.min (vector_length nine_bits) 4 ->
         bvector_check_bit (Some b') j = bvector_check_bit (Some nine_bits) j.
Proof.
  apply (bvector_resize_keeps_bits zero_fresh nine_bits 4).
  - split; [reflexivity | cbn; lia].
  - lia.
Defined.

(** ** Writing a vector out and reading it back *)

(** A written buffer lies behind [off] bytes. *)
Lemma store_split (data : list Z) (off : nat) (buf : list Z) :
  exists pre post,
    store data off buf = pre ++ buf ++ post
    /\ length pre = off
    /\ (length post = length data - (off + length buf))%nat.
Proof.
  exists (take off data ++ replicate (off - length data) 0),
         (drop (off + length buf) data).
  split; [unfold store; now rewrite <- app_assoc|].
  split.
  - rewrite length_app, length_take, length_replicate. lia.
  - now rewrite length_drop.
Qed.

(** Writing directly behind a prefix of the file. *)
Lemma store_behind (pre rest buf : list Z) :
  store (pre ++ rest) (length pre) buf = pre ++ buf ++ drop (length buf) rest.
Proof.
  unfold store. rewrite take_app_length.
  replace (length pre - length (pre ++ rest))%nat with O
    by (rewrite length_app; lia).
  cbn [replicate app]. f_equal. f_equal.
  rewrite drop_app_ge by lia. f_equal. lia.
Qed.

(** The file after [bvector_output], in pieces. *)
Lemma output_of_floor_data (b : bvector_t) (fd : file) (offset flag : Z) :
  bvector_sized b ->
  0 <= offset ->
  let header := bvector_get_size (Some b) flag in
  exists pre post,
    fd_data (output_of floor_bytes b fd offset flag).1
    = pre ++ u64_bytes header
          ++ take (Z.to_nat (header / 8 + 1)) (vector b) ++ post
    /\ Z.of_nat (length pre) = offset
    /\ Z.of_nat (length (take (Z.to_nat (header / 8 + 1)) (vector b)))
       = header / 8 + 1
    /\ (length post
        = length (fd_data fd)
          - (Z.to_nat offset + 8 + Z.to_nat (header / 8 + 1)))%nat.
Proof.
  intros Hsized Hoff header.
  pose proof (get_size_bounds b flag Hsized) as Hsize. fold header in Hsize.
  destruct Hsized as [Hlen Hcur].
  assert (Hdiv : 0 <= header / 8 <= vector_length b / 8).
  { split; [apply Z.div_pos; lia | apply Z.div_le_mono; lia]. }
  unfold output_of, floor_bytes. fold header. cbn [fst fd_data].
  destruct (store_split (fd_data fd) (Z.to_nat offset) (u64_bytes header))
    as (pre & post1 & -> & Hpre & Hpost1).
  replace (Z.to_nat (offset + 8)) with (length (pre ++ u64_bytes header))
    by (rewrite length_app, u64_bytes_length; lia).
  rewrite app_assoc, store_behind, <- app_assoc.
  exists pre, (drop (length (take (Z.to_nat (header / 8 + 1)) (vector b))) post1).
  split; [reflexivity|]. split; [lia|]. split.
  - rewrite length_take, Hlen. unfold VECTOR_BYTE_SIZE. lia.
  - rewrite length_drop, Hpost1, u64_bytes_length, length_take, Hlen.
    unfold VECTOR_BYTE_SIZE. lia.
Qed.

(** X8. What [bvector_output] wrote, [bvector_input] reads back from the
    same offset, when the written size is not 0: a vector whose capacity and
    cursor are both the written size (the cursor for the stream mode, the
    capacity for the full mode) and whose bits below it are the bits of the
    vector written. *)
Theorem bvector_output_then_input (b : bvector_t) (fd : file)
    (offset flag : Z) :
  bvector_sized b ->
  vector_length b < 2 ^ 64 ->
  0 <= offset ->
  0 < bvector_get_size (Some b) flag ->
  offset + 8 + floor_bytes (bvector_get_size (Some b) flag)
    <= Z.min (fd_limit fd) OFF_MAX ->
  Z.of_nat (length (fd_data fd)) < 2 ^ 63 ->
  exists b',
    bvector_input (bvector_output (Some b) fd offset flag).1 offset = Some b'
    /\ vector_length b' = bvector_get_size (Some b) flag
    /\ working_index b' = bvector_get_size (Some b) flag
    /\ forall j, 0 <= j < bvector_get_size (Some b) flag ->
         bvector_check_bit (Some b') j = bvector_check_bit (Some b) j.
Proof.
  intros Hsized Hcap Hoff Hsome Hroom Hlen.
  pose proof (get_size_bounds b flag Hsized) as Hsize.
  assert (Hmax : OFF_MAX = 2 ^ 63 - 1) by reflexivity.
  rewrite (bvector_output_floor b fd offset flag Hsized Hoff Hroom).
  destruct (output_of_floor_data b fd offset flag Hsized Hoff)
    as (pre & post & Hdata & Hpre & Hbytes & Hpost).
  set (header := bvector_get_size (Some b) flag) in *.
  unfold floor_bytes in Hroom.
  rewrite (bvector_input_reads _ offset header pre
             (take (Z.to_nat (header / 8 + 1)) (vector b)) post Hdata Hpre);
    [|lia|exact Hbytes|].
  - eexists. split; [reflexivity|]. cbn [vector_length working_index vector].
    split; [reflexivity|]. split; [reflexivity|].
    intros j Hj. rewrite !check_bit_bit_at by (cbn [vector_length]; lia).
    cbn [vector]. f_equal. apply bit_at_take; [lia|].
    assert (0 <= j / 8 <= header / 8)
      by (split; [apply Z.div_pos; lia | apply Z.div_le_mono; lia]).
    lia.
  - rewrite Hdata, !length_app, u64_bytes_length. lia.
Qed.

Lemma bvector_output_then_input_witness :
  exists b',
    bvector_input
      (bvector_output (Some nine_bits) new_file 0 VECTOR_FLAG_STREAM).1 0
    = Some b'
    /\ vector_length b' = bvector_get_size (Some nine_bits) VECTOR_FLAG_STREAM
    /\ working_index b' = bvector_get_size (Some nine_bits) VECTOR_FLAG_STREAM
    /\ forall j, 0 <= j < bvector_get_size (Some nine_bits) VECTOR_FLAG_STREAM ->
         bvector_check_bit (Some b') j = bvector_check_bit (Some nine_bits) j.
Proof.
  apply (bvector_output_then_input nine_bits new_file 0 VECTOR_FLAG_STREAM).
  - split; [reflexivity | cbn; lia].
  - cbn; lia.
  - lia.
  - cbn; lia.
  - vm_compute. discriminate.
  - cbn; lia.
Defined.

(** X9. A vector whose size under the flag is 0 (a stream into which no bit
    was appended) is written by [bvector_output] as a header 0 and one byte,
    and [bvector_input] returns [NULL] on what was written. *)
Theorem bvector_empty_not_read_back (b : bvector_t) (fd : file)
    (offset flag : Z) :
  bvector_sized b ->
  0 <= offset ->
  bvector_get_size (Some b) flag = 0 ->
  offset + 9 <= Z.min (fd_limit fd) OFF_MAX ->
  (bvector_output (Some b) fd offset flag).2 = offset + 9
  /\ bvector_input (bvector_output (Some b) fd offset flag).1 offset = None.
Proof.
  intros Hsized Hoff Hnone Hroom.
  assert (Hmax : OFF_MAX = 2 ^ 63 - 1) by reflexivity.
  rewrite (bvector_output_floor b fd offset flag Hsized Hoff)
    by (rewrite Hnone; unfold floor_bytes; change (0 / 8 + 1) with 1; lia).
  destruct (output_of_floor_data b fd offset flag Hsized Hoff)
    as (pre & post & Hdata & Hpre & _ & _).
  rewrite Hnone in Hdata. split.
  - unfold output_of. rewrite Hnone. cbn [snd]. unfold floor_bytes.
    change (0 / 8 + 1) with 1. lia.
  - unfold bvector_input.
    assert (Hread : pread (output_of floor_bytes b fd offset flag).1 8 offset
                    = (u64_bytes 0, 8)).
    { apply (pread_at _ pre (u64_bytes 0) _ offset Hdata Hpre). lia. }
    rewrite Hread. reflexivity.
Qed.

Lemma bvector_empty_not_read_back_witness :
  let b := {| vector := [0]; vector_length := 1; working_index := 0 |} in
  (bvector_output (Some b) new_file 0 VECTOR_FLAG_STREAM).2 = 0 + 9
  /\ bvector_input (bvector_output (Some b) new_file 0 VECTOR_FLAG_STREAM).1 0
     = None.
Proof.
  apply (bvector_empty_not_read_back
           {| vector := [0]; vector_length := 1; working_index := 0 |}
           new_file 0 VECTOR_FLAG_STREAM).
  - split; [reflexivity | cbn; lia].
  - lia.
  - reflexivity.
  - vm_compute. discriminate.
Defined.

(** A write for which the file has no room, or not enough, comes back
    short. *)
Lemma pwrite_short (fd : file) (buf : list Z) (offset : Z) :
  buf <> [] ->
  0 <= offset < 2 ^ 63 ->
  Z.min (fd_limit fd) OFF_MAX < offset + Z.of_nat (length buf) ->
  (pwrite fd buf offset).2 < Z.of_nat (length buf).
Proof.
  intros Hbuf Hoff Hroom. unfold pwrite. rewrite ssize_t_small by lia.
  destruct (Z.ltb_spec offset 0); [lia|].
  destruct buf as [|x buf]; [congruence|].
  destruct (Z.leb_spec (Z.min (fd_limit fd) OFF_MAX - offset) 0).
  - cbn [snd length]. lia.
  - cbn [snd]. rewrite length_take. lia.
Qed.

(** X10. When the file has no room for all that [bvector_output] writes
    at the offset, the function returns -2 if not even the eight bytes of the
    header fit and -4 if the header fits and the storage bytes do not; for a
    [NULL] vector it returns -1. *)
Theorem bvector_output_no_room (b : bvector_t) (fd : file) (offset flag : Z) :
  bvector_sized b ->
  0 <= offset < 2 ^ 63 ->
  Z.min (fd_limit fd) OFF_MAX
    < offset + 8 + floor_bytes (bvector_get_size (Some b) flag) ->
  (bvector_output (Some b) fd offset flag).2
  = (if Z.min (fd_limit fd) OFF_MAX <? offset + 8 then -2 else -4)
  /\ (bvector_output None fd offset flag).2 = -1.
Proof.
  intros Hsized Hoff Hroom.
  pose proof (get_size_bounds b flag Hsized) as Hsize.
  assert (Hmax : OFF_MAX = 2 ^ 63 - 1) by reflexivity.
  split; [|reflexivity].
  destruct (Z.ltb_spec (Z.min (fd_limit fd) OFF_MAX) (offset + 8))
    as [Hheader|Hheader].
  - unfold bvector_output.
    pose proof (pwrite_short fd (u64_bytes (bvector_get_size (Some b) flag))
                  offset ltac:(discriminate) Hoff) as Hshort.
    rewrite u64_bytes_length in Hshort. specialize (Hshort ltac:(lia)).
    destruct (pwrite fd _ offset) as [fd1 n1]. cbn [snd] in Hshort.
    destruct (Z.ltb_spec n1 8); [reflexivity | lia].
  - unfold bvector_output, floor_bytes in *.
    set (header := bvector_get_size (Some b) flag) in *.
    destruct Hsized as [Hlen Hcur].
    assert (Hdiv : 0 <= header / 8 <= vector_length b / 8).
    { split; [apply Z.div_pos; lia | apply Z.div_le_mono; lia]. }
    rewrite pwrite_fits; [| discriminate | lia | rewrite u64_bytes_length; lia].
    rewrite u64_bytes_length. change (Z.of_nat 8 <? 8) with false. cbv iota.
    rewrite u64_small by lia.
    set (fd1 := {| fd_data := _; fd_pos := _; fd_limit := _ |}).
    set (bytes := take (Z.to_nat (header / VECTOR_BYTE_SIZE + 1)) (vector b)).
    assert (Hbytes : Z.of_nat (length bytes) = header / 8 + 1).
    { unfold bytes. rewrite length_take, Hlen. unfold VECTOR_BYTE_SIZE. lia. }
    assert (Hsome : bytes <> []).
    { intros E. assert (length bytes = 0%nat) by now rewrite E. lia. }
    pose proof (pwrite_short fd1 bytes (offset + Z.of_nat 8) Hsome
                  ltac:(lia) ltac:(cbn [fd1 fd_limit]; lia)) as Hshort.
    destruct (pwrite fd1 bytes (offset + Z.of_nat 8)) as [fd2 n2].
    cbn [snd] in Hshort. unfold VECTOR_BYTE_SIZE.
    destruct (Z.ltb_spec n2 (header / 8 + 1)); [reflexivity | lia].
Qed.

Lemma bvector_output_no_room_witness :
  let fd := {| fd_data := []; fd_pos := 0; fd_limit := 9 |} in
  (bvector_output (Some nine_bits) fd 0 VECTOR_FLAG_STREAM).2
  = (if Z.min (fd_limit fd) OFF_MAX <? 0 + 8 then -2 else -4)
  /\ (bvector_output None fd 0 VECTOR_FLAG_STREAM).2 = -1.
Proof.
  apply (bvector_output_no_room nine_bits
           {| fd_data := []; fd_pos := 0; fd_limit := 9 |} 0 VECTOR_FLAG_STREAM).
  - split; [reflexivity | cbn; lia].
  - lia.
  - vm_compute. reflexivity.
Defined.

(** A file that ends too early, or a header 0. *)
Lemma bvector_input_incomplete (fd : file) (offset : Z) :
  0 <= offset < 2 ^ 62 ->
  Z.of_nat (length (fd_data fd)) < offset + 8
  \/ (exists pre w rest,
        fd_data fd = pre ++ u64_bytes w ++ rest
        /\ Z.of_nat (length pre) = offset
        /\ 0 <= w < 2 ^ 64
        /\ (w = 0 \/ Z.of_nat (length rest) < w / 8 + 1)) ->
  bvector_input fd offset = None.
Proof.
  intros Hoff [Hlen | (pre & w & rest & Hdata & Hpre & Hw & Hshort)].
  - unfold bvector_input, pread.
    rewrite ssize_t_small by lia.
    destruct (Z.ltb_spec offset 0); [lia|].
    destruct (Z.ltb_spec (Z.of_nat (length (take 8 (drop (Z.to_nat offset)
                                                       (fd_data fd))))) 8)
      as [_|Hfull]; [reflexivity|].
    rewrite length_take, length_drop in Hfull. lia.
  - unfold bvector_input.
    assert (Hread : pread fd 8 offset = (u64_bytes w, 8)).
    { apply (pread_at fd pre (u64_bytes w) rest offset Hdata Hpre). lia. }
    rewrite Hread. change (8 <? 8) with false. cbv iota.
    rewrite u64_of_bytes_u64_bytes by lia.
    unfold bvector_create. destruct (Z.eqb_spec w 0) as [|Hw0]; [reflexivity|].
    destruct Hshort as [|Hshort]; [contradiction|].
    rewrite u64_small by lia. unfold pread.
    rewrite ssize_t_small by lia.
    destruct (Z.ltb_spec (offset + 8) 0); [lia|].
    cbn [vector vector_length].
    set (buf := take _ (drop _ (fd_data fd))).
    assert (Hbuf : Z.of_nat (length buf) <= Z.of_nat (length rest)).
    { unfold buf. rewrite length_take, length_drop, Hdata, !length_app,
        u64_bytes_length. lia. }
    unfold VECTOR_BYTE_SIZE.
    destruct (Z.ltb_spec (Z.of_nat (length buf)) (w / 8 + 1));
      [reflexivity | lia].
Qed.

(** X11. [bvector_input] returns [NULL] when the file has fewer than eight
    bytes from the offset on, when the header read is 0, and when the file
    ends before the [header / 8 + 1] storage bytes behind the header. *)
Theorem bvector_input_short_file (fd : file) (offset : Z) :
  0 <= offset < 2 ^ 62 ->
  Z.of_nat (length (fd_data fd)) < offset + 8
  \/ (exists pre w rest,
        fd_data fd = pre ++ u64_bytes w ++ rest
        /\ Z.of_nat (length pre) = offset
        /\ 0 <= w < 2 ^ 64
        /\ (w = 0 \/ Z.of_nat (length rest) < w / 8 + 1)) ->
  bvector_input fd offset = None.
Proof. exact (bvector_input_incomplete fd offset). Qed.

Lemma bvector_input_short_file_witness :
  bvector_input {| fd_data := u64_bytes 9 ++ [255]; fd_pos := 0;
                   fd_limit := 64 |} 0 = None.
Proof.
  apply (bvector_input_short_file
           {| fd_data := u64_bytes 9 ++ [255]; fd_pos := 0; fd_limit := 64 |} 0).
  - lia.
  - right. exists [], 9, [255]. repeat split; try lia.
    right. vm_compute. reflexivity.
Defined.

(** * Frequency lists *)

Lemma occurrences_bounds (e : Z) (B : list Z) :
  0 <= occurrences e B <= Z.of_nat (length B).
Proof.
  induction B as [|b B IH]; cbn [occurrences length]; [lia|].
  destruct (b =? e); lia.
Qed.

Lemma occurrences_none (e : Z) (B : list Z) : e ∉ B -> occurrences e B = 0.
Proof.
  induction B as [|b B IH]; intros H; [reflexivity|].
  apply not_elem_of_cons in H as [Hne Hnot]. cbn [occurrences].
  destruct (Z.eqb_spec b e); [congruence|]. rewrite IH by exact Hnot. lia.
Qed.

Lemma occurrences_some (e : Z) (B : list Z) : e ∈ B -> 1 <= occurrences e B.
Proof.
  induction B as [|b B IH]; intros H; [now apply elem_of_nil in H|].
  cbn [occurrences]. pose proof (occurrences_bounds e B).
  destruct (Z.eqb_spec b e); [lia|].
  apply elem_of_cons in H as [->|H]; [congruence|]. specialize (IH H). lia.
Qed.

(** Where [fix_order_from] puts the element: behind the elements of smaller
    frequency that followed it, before the first one that has at least its
    frequency. *)
Lemma fix_order_from_place (node : helement_t) (rest : list helement_t) :
  exists pre post,
    rest = pre ++ post
    /\ fix_order_from node rest = (pre ++ node :: post, length pre)
    /\ Forall (fun n => frequency n < frequency node) pre
    /\ match post with
       | [] => True
       | next :: _ => frequency node <= frequency next
       end.
Proof.
  induction rest as [|next rest IH].
  - exists [], []. repeat split; constructor.
  - cbn [fix_order_from].
    destruct (Z.leb_spec (frequency node) (frequency next)).
    + exists [], (next :: rest). repeat split; [constructor | assumption].
    + destruct IH as (pre & post & -> & Heq & Hpre & Hpost). rewrite Heq.
      exists (next :: pre), post. repeat split; [|exact Hpost].
      constructor; [lia | exact Hpre].
Qed.

(** One byte of the input. *)
Lemma counts_of_step (seen : list Z) (hlist : hlist_t) (b : Z) :
  counts_of seen hlist ->
  Z.of_nat (length seen) + 1 < 2 ^ 64 ->
  exists hlist' i,
    hlist_add_increment_element hlist b SPECIAL_ELEMENT_FREQUENCY
    = (hlist', Some i)
    /\ counts_of (b :: seen) hlist'.
Proof.
  intros (Hleaf & Hdup & Hmem & Hcount) Hlen.
  assert (Hshort : Z.of_nat (length (hl_list hlist)) <= Z.of_nat (length seen)).
  { rewrite <- (length_fmap element).
    apply Nat2Z.inj_le, submseteq_length, NoDup_submseteq; [exact Hdup|].
    intros e He. now apply Hmem. }
  destruct (_search hlist b) as [i|] eqn:Hsearch.
  - (* the symbol has its leaf: the frequency goes up *)
    destruct (search_from_lookup _ _ _ Hsearch) as (n & Hn & Hel).
    rewrite (hlist_increment_found hlist b SPECIAL_ELEMENT_FREQUENCY i)
      by (try assumption; now right).
    rewrite (_fix_order_altered _ _ _ _ n Hn).
    destruct (fix_order_from_split
                (with_frequency n (u64 (frequency n + 1)))
                (drop (S i) (hl_list hlist))) as (pre & post & Hsplit & Hfix).
    rewrite Hfix. cbn [fst snd]. eexists _, _. split; [reflexivity|].
    pose proof (take_drop_middle _ _ _ Hn) as Hmid.
    rewrite Hsplit in Hmid. clear Hfix Hsplit Hsearch Hn.
    set (n' := with_frequency n (u64 (frequency n + 1))).
    remember (take i (hl_list hlist)) as front eqn:Hfront. clear Hfront.
    unfold counts_of. cbn [hl_list hl_count].
    destruct hlist as [l c]. cbn [hl_list hl_count] in *. subst l c.
    assert (Hperm : front ++ pre ++ n' :: post ≡ₚ n' :: front ++ pre ++ post).
    { rewrite !app_assoc. symmetry. apply Permutation_middle. }
    assert (Hperm0 : front ++ n :: pre ++ post ≡ₚ n :: front ++ pre ++ post).
    { symmetry. apply Permutation_middle. }
    rewrite Hperm0 in Hleaf, Hdup. rewrite fmap_cons in Hdup.
    apply NoDup_cons in Hdup as [Hfirst Hdup].
    apply Forall_cons in Hleaf as [(H1 & H2 & H3 & H4) Hrest].
    pose proof (occurrences_bounds (element n) seen) as Hocc.
    assert (Hfreq : frequency n' = frequency n + 1).
    { cbn. apply u64_small. lia. }
    split; [|split; [|split]].
    + rewrite Hperm. constructor.
      * split; [exact H1|]. split; [exact H2|]. split; [exact H3|].
        rewrite Hfreq, H4. change (element n') with (element n).
        cbn [occurrences]. rewrite Hel, Z.eqb_refl. lia.
      * rewrite Forall_forall in Hrest. apply Forall_forall.
        intros m Hm. destruct (Hrest m Hm) as (G1 & G2 & G3 & G4).
        repeat split; try assumption. rewrite G4. cbn [occurrences].
        destruct (Z.eqb_spec b (element m)) as [Heq|_]; [|lia].
        exfalso. apply Hfirst. rewrite Hel, Heq.
        apply list_elem_of_fmap. now exists m.
    + rewrite Hperm, fmap_cons. apply NoDup_cons. split; assumption.
    + intros e. rewrite Hperm, fmap_cons, !elem_of_cons.
      rewrite <- (Hmem e), Hperm0, fmap_cons, elem_of_cons.
      change (element n') with (element n). rewrite Hel. tauto.
    + rewrite !length_app. cbn [length]. rewrite !length_app. cbn [length]. lia.
  - (* a new leaf *)
    destruct (hlist_add_places hlist b SPECIAL_ELEMENT_FREQUENCY
                ltac:(now right)) as (pre & post & Hsplit & Hadd).
    rewrite Hadd. eexists _, _. split; [reflexivity|].
    replace ((b =? LIST_SPECIAL_ELEMENT) && negb (SPECIAL_ELEMENT_FREQUENCY =? 0))
      with false by (now rewrite andb_false_r).
    set (n := helement_create b 1 SPECIAL_ELEMENT_FREQUENCY).
    apply search_from_None in Hsearch.
    unfold counts_of. cbn [hl_list hl_count].
    rewrite Hsplit in *.
    assert (Hperm : pre ++ n :: post ≡ₚ n :: pre ++ post)
      by (symmetry; apply Permutation_middle).
    split; [|split; [|split]].
    + rewrite Hperm. constructor.
      * cbn. repeat split. rewrite Z.eqb_refl.
        rewrite occurrences_none; [reflexivity|].
        intros Hin. apply Hsearch. now apply Hmem.
      * rewrite Forall_forall in Hleaf. apply Forall_forall.
        intros m Hm. destruct (Hleaf m Hm) as (G1 & G2 & G3 & G4).
        repeat split; try assumption. rewrite G4. cbn [occurrences].
        destruct (Z.eqb_spec b (element m)) as [Heq|_]; [|lia].
        exfalso. apply Hsearch. rewrite Heq.
        apply list_elem_of_fmap. now exists m.
    + rewrite Hperm, fmap_cons. apply NoDup_cons. split; assumption.
    + intros e. rewrite Hperm, fmap_cons, !elem_of_cons, Hmem.
      reflexivity.
    + rewrite Hcount, u64_small; rewrite !length_app; cbn [length];
        rewrite ?length_app in Hshort; lia.
Qed.

Lemma counts_of_loop (B : list Z) :
  forall seen hlist,
    counts_of seen hlist ->
    Z.of_nat (length seen) + Z.of_nat (length B) < 2 ^ 64 ->
    exists hlist',
      distribution_loop B hlist = Done hlist'
      /\ counts_of (rev B ++ seen) hlist'.
Proof.
  induction B as [|b B IH]; intros seen hlist Hok Hlen.
  - exists hlist. split; [reflexivity | exact Hok].
  - cbn [distribution_loop]. cbn [length] in Hlen.
    destruct (counts_of_step seen hlist b Hok ltac:(lia))
      as (hlist' & i & Hstep & Hok').
    rewrite Hstep.
    destruct (IH (b :: seen) hlist' Hok' ltac:(cbn [length]; lia))
      as (hlist'' & Hloop & Hok'').
    exists hlist''. split; [exact Hloop|].
    cbn [rev]. now rewrite <- app_assoc.
Qed.

Lemma occurrences_app (e : Z) (B1 B2 : list Z) :
  occurrences e (B1 ++ B2) = occurrences e B1 + occurrences e B2.
Proof. induction B1 as [|b B1 IH]; cbn [app occurrences]; lia. Qed.

Lemma occurrences_rev (e : Z) (B : list Z) :
  occurrences e (rev B) = occurrences e B.
Proof.
  induction B as [|b B IH]; [reflexivity|].
  cbn [rev]. rewrite occurrences_app, IH. cbn [occurrences]. lia.
Qed.

(** X12. The first loop of [huffman_encode], over an input of fewer than
    2^64 bytes, leaves in the list exactly one element for every byte value
    that occurs in the input: a leaf without children whose frequency is the
    number of occurrences of the value; the count of the list is the number
    of different values. *)
Theorem distribution_loop_counts (B : list Z) :
  Z.of_nat (length B) < 2 ^ 64 ->
  exists hlist,
    distribution_loop B hlist_create = Done hlist
    /\ NoDup (element <$> hl_list hlist)
    /\ (forall e, e ∈ element <$> hl_list hlist <-> e ∈ B)
    /\ Forall (fun n => leaf_node n = 1 /\ left_child n = None
                        /\ right_child n = None
                        /\ frequency n = occurrences (element n) B)
              (hl_list hlist)
    /\ hl_count hlist = Z.of_nat (length (hl_list hlist)).
Proof.
  intros Hlen.
  assert (Hstart : counts_of [] hlist_create).
  { unfold counts_of, hlist_create. cbn [hl_list hl_count].
    split; [constructor|]. split; [constructor|].
    split; reflexivity. }
  destruct (counts_of_loop B [] hlist_create Hstart ltac:(cbn [length]; lia))
    as (hlist & Hloop & Hleaf & Hdup & Hmem & Hcount).
  rewrite app_nil_r in *.
  exists hlist. split; [exact Hloop|]. split; [exact Hdup|]. split.
  - intros e. rewrite Hmem. apply elem_of_rev.
  - split; [|exact Hcount]. eapply Forall_impl; [exact Hleaf|].
    intros n (H1 & H2 & H3 & H4). rewrite occurrences_rev in H4.
    now repeat split.
Qed.

Lemma distribution_loop_counts_witness :
  exists hlist,
    distribution_loop [97; 98; 97; 99; 97] hlist_create = Done hlist
    /\ NoDup (element <$> hl_list hlist)
    /\ (forall e, e ∈ element <$> hl_list hlist <-> e ∈ [97; 98; 97; 99; 97])
    /\ Forall (fun n => leaf_node n = 1 /\ left_child n = None
                        /\ right_child n = None
                        /\ frequency n
                           = occurrences (element n) [97; 98; 97; 99; 97])
              (hl_list hlist)
    /\ hl_count hlist = Z.of_nat (length (hl_list hlist)).
Proof. apply (distribution_loop_counts [97; 98; 97; 99; 97]). cbn. lia. Defined.

(** ** Adding and incrementing *)

Lemma search_from_absent (l : list helement_t) (element0 : Z) :
  element0 ∉ element <$> l -> search_from l element0 = None.
Proof.
  induction l as [|a l IH]; intros H; [reflexivity|].
  rewrite fmap_cons in H. apply not_elem_of_cons in H as [Hne Hnot].
  cbn [search_from]. destruct (Z.eqb_spec (element a) element0); [congruence|].
  now rewrite IH.
Qed.

(** [_search] returns the first element that has the symbol. *)
Lemma search_from_first (l : list helement_t) (element0 : Z) (i : nat) :
  search_from l element0 = Some i -> element0 ∉ element <$> take i l.
Proof.
  revert i. induction l as [|a l IH]; intros i; [discriminate|].
  cbn [search_from]. destruct (Z.eqb_spec (element a) element0) as [He|He].
  - intros [= <-]. apply not_elem_of_nil.
  - destruct (search_from l element0) as [k|]; [|discriminate].
    intros [= <-]. cbn [take]. rewrite fmap_cons.
    apply not_elem_of_cons. split; [congruence | now apply IH].
Qed.

Lemma search_from_present (l : list helement_t) (element0 : Z) :
  element0 ∈ element <$> l -> exists i, search_from l element0 = Some i.
Proof.
  intros H. destruct (search_from l element0) as [i|] eqn:E; [now exists i|].
  now apply search_from_None in E.
Qed.

(** X13. For a symbol that no element of the list has, and for the special
    element 0xFF with a frequency other than 0, [hlist_add_increment_element]
    creates an element (a leaf, or for the special element a node that is
    not a leaf), puts it behind the elements at the head of the list whose
    frequency is smaller than its own and before the first that has at least
    its frequency, adds one to the count and returns a pointer to it; the
    other elements keep their order. *)
Theorem hlist_add_new_symbol (hlist : hlist_t) (element0 frequency0 : Z) :
  (element0 = LIST_SPECIAL_ELEMENT /\ frequency0 <> 0)
  \/ element0 ∉ element <$> hl_list hlist ->
  0 <= hl_count hlist < 2 ^ 64 - 1 ->
  exists pre post,
    let node :=
      helement_create element0
        (if (element0 =? LIST_SPECIAL_ELEMENT) && negb (frequency0 =? 0)
         then 0 else 1) frequency0 in
    hl_list hlist = pre ++ post
    /\ hlist_add_increment_element hlist element0 frequency0
       = ({| hl_list := pre ++ node :: post;
             hl_count := hl_count hlist + 1 |}, Some (length pre))
    /\ Forall (fun n => frequency n < frequency node) pre
    /\ match post with
       | [] => True
       | next :: _ => frequency node <= frequency next
       end.
Proof.
  intros Hcase Hcount.
  set (special := (element0 =? LIST_SPECIAL_ELEMENT) && negb (frequency0 =? 0)).
  destruct (fix_order_from_place
              (helement_create element0 (if special then 0 else 1) frequency0)
              (hl_list hlist)) as (pre & post & Hsplit & Hfix & Hpre & Hpost).
  exists pre, post. cbv zeta. fold special.
  split; [exact Hsplit|]. split; [|split; assumption].
  unfold hlist_add_increment_element, SPECIAL_ELEMENT_FREQUENCY. fold special.
  assert (Hadded :
    match _search hlist element0, (if special then (true, 0) else (false, 1)).1 with
    | Some i, false => false
    | _, _ => true
    end = true).
  { destruct Hcase as [[-> Hf] | Hnone].
    - unfold special. rewrite Z.eqb_refl.
      destruct (Z.eqb_spec frequency0 0); [contradiction|].
      cbn. now destruct (_search hlist LIST_SPECIAL_ELEMENT).
    - unfold _search. rewrite (search_from_absent _ _ Hnone).
      now destruct special. }
  destruct special; cbn [fst] in Hadded;
    destruct (_search hlist element0); try discriminate Hadded;
    unfold _add, _fix_order; cbn [Z.eqb negb fst snd hl_list hl_count drop take app];
    rewrite Hfix, u64_small by lia; reflexivity.
Qed.

Lemma hlist_add_new_symbol_witness :
  exists pre post,
    let node :=
      helement_create 99
        (if (99 =? LIST_SPECIAL_ELEMENT) && negb (3 =? 0) then 0 else 1) 3 in
    hl_list two_leaves = pre ++ post
    /\ hlist_add_increment_element two_leaves 99 3
       = ({| hl_list := pre ++ node :: post;
             hl_count := hl_count two_leaves + 1 |}, Some (length pre))
    /\ Forall (fun n => frequency n < frequency node) pre
    /\ match post with
       | [] => True
       | next :: _ => frequency node <= frequency next
       end.
Proof.
  apply (hlist_add_new_symbol two_leaves 99 3).
  - right. vm_compute. intros H.
    repeat (apply elem_of_cons in H as [H|H]; [discriminate H|]).
    now apply elem_of_nil in H.
  - vm_compute. split; [discriminate | reflexivity].
Defined.

(** X14. For a symbol that an element of the list has (the special element
    with a frequency other than 0 apart), [hlist_add_increment_element] adds
    one to the frequency of the first element with that symbol, whatever its
    leaf flag, moves it behind the following elements of smaller frequency,
    keeps the count and returns a pointer to it. *)
Theorem hlist_add_present_symbol (hlist : hlist_t) (element0 frequency0 : Z) :
  element0 <> LIST_SPECIAL_ELEMENT \/ frequency0 = 0 ->
  element0 ∈ element <$> hl_list hlist ->
  exists before node pre post,
    let node' := with_frequency node (u64 (frequency node + 1)) in
    hl_list hlist = before ++ node :: pre ++ post
    /\ element node = element0
    /\ (element0 ∉ element <$> before)
    /\ hlist_add_increment_element hlist element0 frequency0
       = ({| hl_list := before ++ pre ++ node' :: post;
             hl_count := hl_count hlist |},
          Some (length before + length pre)%nat)
    /\ Forall (fun n => frequency n < frequency node') pre
    /\ match post with
       | [] => True
       | next :: _ => frequency node' <= frequency next
       end.
Proof.
  intros Hcase Hin.
  destruct (search_from_present _ _ Hin) as [i Hsearch].
  destruct (search_from_lookup _ _ _ Hsearch) as (n & Hn & Hel).
  pose proof (search_from_first _ _ _ Hsearch) as Hfirst.
  destruct (fix_order_from_place
              (with_frequency n (u64 (frequency n + 1)))
              (drop (S i) (hl_list hlist)))
    as (pre & post & Hsplit & Hfix & Hpre & Hpost).
  exists (take i (hl_list hlist)), n, pre, post. cbv zeta.
  split; [rewrite <- Hsplit; symmetry; now apply take_drop_middle|].
  split; [exact Hel|]. split; [exact Hfirst|].
  split; [|split; assumption].
  rewrite (hlist_increment_found hlist element0 frequency0 i Hcase Hsearch).
  rewrite (_fix_order_altered _ _ _ _ n Hn), Hfix. cbn [fst snd].
  rewrite length_take_le by (apply lookup_lt_Some in Hn; lia).
  reflexivity.
Qed.

Lemma hlist_add_present_symbol_witness :
  exists before node pre post,
    let node' := with_frequency node (u64 (frequency node + 1)) in
    hl_list sentinel_list = before ++ node :: pre ++ post
    /\ element node = 255
    /\ (255 ∉ element <$> before)
    /\ hlist_add_increment_element sentinel_list 255 0
       = ({| hl_list := before ++ pre ++ node' :: post;
             hl_count := hl_count sentinel_list |},
          Some (length before + length pre)%nat)
    /\ Forall (fun n => frequency n < frequency node') pre
    /\ match post with
       | [] => True
       | next :: _ => frequency node' <= frequency next
       end.
Proof.
  apply (hlist_add_present_symbol sentinel_list 255 0).
  - now right.
  - vm_compute. left.
Defined.

(** ** Taking the two minima *)

(** X15. On a list in ascending order of frequency that holds at least two
    elements and whose count is the number of its elements,
    [hlist_get_two_min] returns 0, hands out the first two elements, which
    have the two smallest frequencies of the list, and removes them: the
    list is left with the other elements in their order and the count less
    two. *)
Theorem hlist_get_two_min_takes (hlist : hlist_t) (first second : helement_t)
    (rest : list helement_t) :
  hl_list hlist = first :: second :: rest ->
  hl_count hlist = Z.of_nat (length (hl_list hlist)) ->
  hl_count hlist < 2 ^ 64 - 1 ->
  ascending (hl_list hlist) = true ->
  hlist_get_two_min (Some hlist)
  = (0, Some (first, second),
     Some {| hl_list := rest; hl_count := hl_count hlist - 2 |})
  /\ frequency first <= frequency second
  /\ Forall (fun n => frequency second <= frequency n) rest.
Proof.
  intros Hlist Hcount Hmax Hasc.
  rewrite Hlist in Hcount, Hasc. cbn [length] in Hcount.
  apply ascending_cons in Hasc as [Hfirst Hasc].
  apply Forall_cons in Hfirst as [Hfs _].
  apply ascending_cons in Hasc as [Hsecond _].
  split; [|split; assumption].
  unfold hlist_get_two_min, hlist_count, _remove, hlist_count, LIST_BAD_COUNT.
  destruct (Z.leb_spec 2 (hl_count hlist)); [|lia].
  destruct (Z.eqb_spec (hl_count hlist) (2 ^ 64 - 1)); [lia|].
  cbn [andb negb]. rewrite Hlist.
  destruct (Z.ltb_spec (hl_count hlist) 2); [lia|].
  now rewrite u64_small by lia.
Qed.

Lemma hlist_get_two_min_takes_witness :
  hlist_get_two_min (Some two_leaves)
  = (0, Some (helement_create 97 1 2, helement_create 98 1 2),
     Some {| hl_list := []; hl_count := hl_count two_leaves - 2 |})
  /\ frequency (helement_create 97 1 2) <= frequency (helement_create 98 1 2)
  /\ Forall (fun n => frequency (helement_create 98 1 2) <= frequency n) [].
Proof.
  apply (hlist_get_two_min_takes two_leaves); reflexivity.
Defined.

(** * Huffman trees *)

(** ** Adding the root and connecting children *)

(** X16. On a tree that has a root [htree_add_element] leaves the root and
    the count as they are, returns the element all the same, and resets the
    parse bit: [htree_output] then returns -2 and writes nothing until the
    tree is parsed again. *)
Theorem htree_add_element_keeps_root (t : htree_t) (r n : helement_t)
    (fd : file) (offset : Z) :
  root t = Some r ->
  exists t',
    htree_add_element (Some t) (Some n) = (Some t', Some n)
    /\ root t' = Some r
    /\ count t' = count t
    /\ htree_output (Some t') fd offset = Some (fd, -2).
Proof.
  intros Hroot. unfold htree_add_element. rewrite Hroot.
  eexists. split; [reflexivity|]. cbn [root count].
  split; [reflexivity|]. split; reflexivity.
Qed.

Lemma htree_add_element_keeps_root_witness :
  exists t',
    htree_add_element
      (Some {| root := Some three_nodes; count := 3; _parsed := 1 |})
      (Some (helement_create 120 1 0)) = (Some t', Some (helement_create 120 1 0))
    /\ root t' = Some three_nodes
    /\ count t' = 3
    /\ htree_output (Some t') new_file 0 = Some (new_file, -2).
Proof.
  apply (htree_add_element_keeps_root
           {| root := Some three_nodes; count := 3; _parsed := 1 |}
           three_nodes (helement_create 120 1 0) new_file 0).
  reflexivity.
Defined.

(** X17. [htree_connect] on a parent that is not flagged as a leaf returns 0
    and gives the parent the two elements as children, the second one on the
    right when it is a leaf and on the left when it is not (the first one
    takes the other side); symbol, flag and frequency of the parent are
    kept, and the parent with two proper subtrees is a proper tree.  A parent
    flagged as a leaf is refused with -2 and left as it is. *)
Theorem htree_connect_children (parent l r : helement_t) :
  leaf_node parent = 0 ->
  exists p',
    htree_connect (Some parent) (Some l) (Some r) = Some (Some p', 0)
    /\ element p' = element parent
    /\ leaf_node p' = 0
    /\ frequency p' = frequency parent
    /\ (if leaf_node r =? 0
        then left_child p' = Some r /\ right_child p' = Some l
        else left_child p' = Some l /\ right_child p' = Some r)
    /\ (0 <= element parent < 256 -> proper l = true -> proper r = true ->
        proper p' = true)
    /\ forall leaf, leaf_node leaf <> 0 ->
         htree_connect (Some leaf) (Some l) (Some r) = Some (Some leaf, -2).
Proof.
  intros Hlf. unfold htree_connect. rewrite Hlf. cbn [Z.eqb negb].
  destruct (Z.eqb_spec (leaf_node r) 0) as [Hr|Hr]; cbn [negb];
    (eexists; split; [reflexivity|];
     cbn [with_right_child with_left_child element leaf_node frequency
          left_child right_child];
     split; [reflexivity|]; split; [exact Hlf|]; split; [reflexivity|];
     split; [now split|]; split;
     [intros He Hpl Hpr;
      cbn [proper element leaf_node left_child right_child with_right_child
           with_left_child];
      rewrite Hlf, Hpl, Hpr;
      destruct (Z.leb_spec 0 (element parent)); [|lia];
      destruct (Z.ltb_spec (element parent) 256); [|lia]; reflexivity
     |intros leaf Hleaf; destruct (Z.eqb_spec (leaf_node leaf) 0);
      [contradiction | reflexivity]]).
Qed.

Lemma htree_connect_children_witness :
  let parent := helement_create 255 0 3 in
  let l := helement_create 97 1 1 in
  let r := helement_create 98 1 2 in
  exists p',
    htree_connect (Some parent) (Some l) (Some r) = Some (Some p', 0)
    /\ element p' = element parent
    /\ leaf_node p' = 0
    /\ frequency p' = frequency parent
    /\ (if leaf_node r =? 0
        then left_child p' = Some r /\ right_child p' = Some l
        else left_child p' = Some l /\ right_child p' = Some r)
    /\ (0 <= element parent < 256 -> proper l = true -> proper r = true ->
        proper p' = true)
    /\ forall leaf, leaf_node leaf <> 0 ->
         htree_connect (Some leaf) (Some l) (Some r) = Some (Some leaf, -2).
Proof.
  apply (htree_connect_children (helement_create 255 0 3)
           (helement_create 97 1 1) (helement_create 98 1 2)).
  reflexivity.
Defined.

(** ** The opcode table *)

(** In a proper tree a path to a leaf is shorter than the number of
    leaves. *)
Lemma leaf_at_depth (p : list Z) :
  forall (n : helement_t) (e : Z),
    proper n = true -> leaf_at n p = Some e ->
    (length p < length (leaves n))%nat.
Proof.
  induction p as [|b p IH]; intros n e Hn Hleaf.
  - now apply leaves_nonempty.
  - destruct (proper_inv n Hn)
      as (_ & _ & [(Hlf & Hl & Hr) | (Hlf & l & r & Hl & Hr & Hpl & Hpr)]).
    + cbn [leaf_at] in Hleaf. destruct (Z.eqb_spec (leaf_node n) 0);
        [contradiction | discriminate Hleaf].
    + cbn [leaf_at] in Hleaf. rewrite Hlf, Hl, Hr in Hleaf.
      cbn [Z.eqb negb] in Hleaf.
      rewrite (leaves_node n l r Hlf Hl Hr), length_app. cbn [length].
      pose proof (leaves_nonempty l Hpl). pose proof (leaves_nonempty r Hpr).
      destruct (b =? 0).
      * specialize (IH l e Hpl Hleaf). lia.
      * specialize (IH r e Hpr Hleaf). lia.
Qed.

(** No path to a leaf goes on behind the leaf. *)
Lemma leaf_at_prefix (p q : list Z) :
  forall (n : helement_t) (e e' : Z),
    leaf_at n p = Some e -> leaf_at n (p ++ q) = Some e' ->
    q = [] /\ e = e'.
Proof.
  induction p as [|b p IH]; intros n e e' Hp Hpq.
  - cbn [leaf_at app] in *.
    destruct (negb (leaf_node n =? 0)) eqn:Hlf; [|discriminate Hp].
    destruct q as [|c q].
    + cbn [leaf_at] in Hpq. rewrite Hlf in Hpq. split; congruence.
    + cbn [leaf_at] in Hpq. rewrite Hlf in Hpq. discriminate Hpq.
  - cbn [leaf_at app] in *.
    destruct (negb (leaf_node n =? 0)); [discriminate Hp|].
    destruct (if b =? 0 then left_child n else right_child n) as [c|];
      [|discriminate Hp].
    now apply (IH c e e').
Qed.

(** The entries of the table [_parse] fills for a proper tree whose leaves
    have different symbols. *)
Lemma parse_entries (R : helement_t) :
  proper R = true ->
  NoDup (leaves R) ->
  let table := (_parse R empty_opcode_table EmptyString 0).1 in
  length table = 256%nat
  /\ (forall e, e ∈ leaves R ->
        exists code,
          table !! Z.to_nat e = Some (Some code)
          /\ leaf_at R (binary_digits code) = Some e
          /\ String.length code = length (binary_digits code)
          /\ (String.length code < length (leaves R))%nat)
  /\ (forall e, 0 <= e < 256 -> e ∉ leaves R ->
        table !! Z.to_nat e = Some None).
Proof.
  intros HR Hdup table. unfold table. rewrite _parse_table.
  assert (Hempty : length empty_opcode_table = 256%nat) by reflexivity.
  split; [now rewrite foldl_set_opcode_length|]. split.
  - intros e He. destruct (leaves_opcode R e He) as [code Hcode].
    destruct (opcodes_paths R HR EmptyString e code Hcode)
      as (p & Hdigits & Hlen & Hleaf & _ & Hrange & _).
    cbn [binary_digits app] in Hdigits.
    change (strlen EmptyString) with 0 in Hlen. unfold strlen in Hlen.
    exists code. rewrite Hdigits.
    split; [|split; [exact Hleaf|split; [lia|]]].
    + apply foldl_set_opcode_lookup;
        [now apply opcodes_range | exact Hdup | exact Hcode | lia].
    + pose proof (leaf_at_depth p R e HR Hleaf). lia.
  - intros e He Hnot.
    rewrite foldl_set_opcode_other;
      [| lia | now apply opcodes_range | exact Hnot].
    unfold empty_opcode_table. apply lookup_replicate_2.
    unfold TREE_MAX_TABLE_SIZE. lia.
Qed.

(** X18. For a tree whose root is a proper tree with leaves of different
    symbols, [htree_parse] sets the parse bit, sets the count to the number
    of nodes and returns a table of 256 entries: the entry of the symbol of
    a leaf is a string of the characters '0' and '1' that spells the path
    from the root to the leaf (0 for left, 1 for right) and is shorter than
    the number of leaves, so shorter than 256; every other entry is
    [NULL]. *)
Theorem htree_parse_table (t : htree_t) (R : helement_t) :
  root t = Some R ->
  proper R = true ->
  NoDup (leaves R) ->
  exists t' table,
    htree_parse (Some t) = (Some t', Some table)
    /\ root t' = Some R
    /\ count t' = Z.of_nat (size R)
    /\ _parsed t' = 1
    /\ length table = 256%nat
    /\ (forall e, e ∈ leaves R ->
          exists code,
            table !! Z.to_nat e = Some (Some code)
            /\ leaf_at R (binary_digits code) = Some e
            /\ String.length code = length (binary_digits code)
            /\ (String.length code < length (leaves R) <= 256)%nat)
    /\ (forall e, 0 <= e < 256 -> e ∉ leaves R ->
          table !! Z.to_nat e = Some None).
Proof.
  intros Hroot HR Hdup.
  pose proof (tree_size_bound R HR Hdup (fun e He => leaves_range R e HR He))
    as Hsize.
  pose proof (bytes_no_dup_length (leaves R) Hdup) as Hleaves.
  specialize (Hleaves ltac:(apply Forall_forall; intros e He;
                            now apply (leaves_range R))).
  destruct (parse_entries R HR Hdup) as (Hlen & Hcodes & Hnone).
  rewrite (htree_parse_root t R Hroot).
  eexists _, _. split; [reflexivity|]. cbn [root count _parsed].
  split; [reflexivity|]. split.
  { rewrite (_parse_count R HR). apply u64_small. lia. }
  split; [reflexivity|]. split; [exact Hlen|]. split; [|exact Hnone].
  intros e He. destruct (Hcodes e He) as (code & H1 & H2 & H3 & H4).
  exists code. repeat split; try assumption.
Qed.

Lemma htree_parse_table_witness :
  exists t' table,
    htree_parse (Some {| root := Some three_nodes; count := 1; _parsed := 0 |})
    = (Some t', Some table)
    /\ root t' = Some three_nodes
    /\ count t' = Z.of_nat (size three_nodes)
    /\ _parsed t' = 1
    /\ length table = 256%nat
    /\ (forall e, e ∈ leaves three_nodes ->
          exists code,
            table !! Z.to_nat e = Some (Some code)
            /\ leaf_at three_nodes (binary_digits code) = Some e
            /\ String.length code = length (binary_digits code)
            /\ (String.length code < length (leaves three_nodes) <= 256)%nat)
    /\ (forall e, 0 <= e < 256 -> e ∉ leaves three_nodes ->
          table !! Z.to_nat e = Some None).
Proof.
  apply (htree_parse_table
           {| root := Some three_nodes; count := 1; _parsed := 0 |}
           three_nodes).
  - reflexivity.
  - reflexivity.
  - vm_compute. repeat constructor; intros H;
      repeat (apply elem_of_cons in H as [H|H]; [discriminate H|]);
      now apply elem_of_nil in H.
Defined.

(** A string that starts with another one is that one and a rest. *)
Lemma prefix_rest (s1 : string) :
  forall s2, String.prefix s1 s2 = true -> exists rest, s2 = s1 +:+ rest.
Proof.
  induction s1 as [|a s1 IH]; intros s2 H.
  - now exists s2.
  - destruct s2 as [|b s2]; [discriminate H|]. cbn [String.prefix] in H.
    destruct (ascii_dec a b) as [->|]; [|discriminate H].
    destruct (IH s2 H) as [rest ->]. now exists rest.
Qed.

(** X19. The opcodes of a table [htree_parse] returns for such a tree are
    prefix-free: the opcode string of a symbol is not the start of the opcode
    string of another symbol (and not equal to it). *)
Theorem htree_parse_prefix_free (t : htree_t) (R : helement_t)
    (table : opcode_table_t) (e1 e2 : Z) (c1 c2 : string) :
  root t = Some R ->
  proper R = true ->
  NoDup (leaves R) ->
  (htree_parse (Some t)).2 = Some table ->
  0 <= e1 < 256 ->
  0 <= e2 < 256 ->
  table !! Z.to_nat e1 = Some (Some c1) ->
  table !! Z.to_nat e2 = Some (Some c2) ->
  e1 <> e2 ->
  String.prefix c1 c2 = false.
Proof.
  intros Hroot HR Hdup Hparse He1 He2 Hc1 Hc2 Hne.
  rewrite (htree_parse_root t R Hroot) in Hparse. cbn [snd] in Hparse.
  injection Hparse as <-.
  destruct (parse_entries R HR Hdup) as (_ & Hcodes & Hnone).
  assert (Hleaf : forall e c, 0 <= e < 256 ->
            (_parse R empty_opcode_table EmptyString 0).1 !! Z.to_nat e
            = Some (Some c) ->
            leaf_at R (binary_digits c) = Some e).
  { intros e c He Hc. destruct (decide (e ∈ leaves R)) as [Hin|Hout].
    - destruct (Hcodes e Hin) as (code & Hcode & Hpath & _).
      rewrite Hc in Hcode. now injection Hcode as <-.
    - rewrite (Hnone e He Hout) in Hc. discriminate Hc. }
  pose proof (Hleaf e1 c1 He1 Hc1) as Hp1.
  pose proof (Hleaf e2 c2 He2 Hc2) as Hp2.
  destruct (String.prefix c1 c2) eqn:Hprefix; [|reflexivity].
  destruct (prefix_rest c1 c2 Hprefix) as [rest ->].
  rewrite binary_digits_app in Hp2.
  destruct (leaf_at_prefix _ _ R e1 e2 Hp1 Hp2) as [_ Heq]. contradiction.
Qed.

Lemma htree_parse_prefix_free_witness : String.prefix "0" "1" = false.
Proof.
  apply (htree_parse_prefix_free
           {| root := Some three_nodes; count := 1; _parsed := 0 |}
           three_nodes
           (_parse three_nodes empty_opcode_table EmptyString 0).1
           97 98 "0" "1"); try reflexivity; try lia.
  vm_compute. repeat constructor; intros H;
    repeat (apply elem_of_cons in H as [H|H]; [discriminate H|]);
    now apply elem_of_nil in H.
Defined.

(** ** Writing a tree out *)

(** X20. [htree_output] writes the count with [write], at the file position,
    and the tree with [pwrite], from the offset it was given plus 8 on, in
    pre-order with two bytes for every node; it returns the offset behind the
    tree.  The two places are the same only when the file position is the
    offset. *)
Theorem htree_output_layout (t : htree_t) (r : helement_t) (fd : file)
    (offset : Z) :
  root t = Some r ->
  _parsed t <> 0 ->
  1 <= count t < 2 ^ 64 ->
  0 <= fd_pos fd ->
  fd_pos fd + 8 <= Z.min (fd_limit fd) OFF_MAX ->
  0 <= offset ->
  offset + 8 + 2 * Z.of_nat (size r) <= Z.min (fd_limit fd) OFF_MAX ->
  htree_output (Some t) fd offset
  = Some ({| fd_data :=
               store (store (fd_data fd) (Z.to_nat (fd_pos fd))
                            (u64_bytes (count t)))
                     (Z.to_nat (offset + 8)) (serialized r);
             fd_pos := fd_pos fd + 8;
             fd_limit := fd_limit fd |},
          offset + 8 + 2 * Z.of_nat (size r)).
Proof.
  intros Hroot Hparsed Hcount Hpos Hheader Hoff Hroom.
  assert (Hmax : OFF_MAX = 2 ^ 63 - 1) by reflexivity.
  unfold htree_output.
  destruct (Z.eqb_spec (_parsed t) 0); [contradiction|].
  destruct (Z.ltb_spec (count t) 1); [lia|].
  unfold write.
  rewrite pwrite_fits
    by (try discriminate; rewrite ?u64_bytes_length; lia).
  rewrite u64_bytes_length. change (Z.of_nat 8 <? 0) with false.
  change (Z.of_nat 8 <? 8) with false. cbv iota.
  cbn [fd_data fd_pos fd_limit]. rewrite Hroot.
  rewrite u64_small by lia.
  rewrite _output_writes by (cbn [fd_limit]; lia).
  cbn [fd_data fd_pos fd_limit].
  destruct (Z.eqb_spec (offset + 8 + 2 * Z.of_nat (size r)) (-1)); [lia|].
  reflexivity.
Qed.

Lemma htree_output_layout_witness :
  let t := {| root := Some three_nodes; count := 3; _parsed := 1 |} in
  htree_output (Some t) new_file 4
  = Some ({| fd_data :=
               store (store (fd_data new_file) (Z.to_nat (fd_pos new_file))
                            (u64_bytes (count t)))
                     (Z.to_nat (4 + 8)) (serialized three_nodes);
             fd_pos := fd_pos new_file + 8;
             fd_limit := fd_limit new_file |},
          4 + 8 + 2 * Z.of_nat (size three_nodes)).
Proof.
  apply (htree_output_layout
           {| root := Some three_nodes; count := 3; _parsed := 1 |}
           three_nodes new_file 4);
    try reflexivity; try discriminate; try (cbn; lia);
    try (vm_compute; discriminate).
Defined.

(** A tree for which the file has not enough room is not written out. *)
Lemma _output_no_room (n : helement_t) :
  forall (fd : file) (offset : Z),
    0 <= offset < 2 ^ 63 ->
    Z.min (fd_limit fd) OFF_MAX < offset + 2 * Z.of_nat (size n) ->
    (_output n fd offset).2 = -1.
Proof.
  induction n as [n IHl IHr] using helement_induction.
  intros fd offset Hoff Hroom.
  assert (Hmax : OFF_MAX = 2 ^ 63 - 1) by reflexivity.
  destruct n as [e lf l r f].
  cbn [on_child left_child right_child] in IHl, IHr.
  cbn [_output element leaf_node left_child right_child].
  destruct (Z.le_gt_cases (offset + 1) (Z.min (fd_limit fd) OFF_MAX))
    as [Hfirst|Hfirst].
  2:{ pose proof (pwrite_short fd [e] offset ltac:(discriminate) Hoff
                    ltac:(cbn [length]; lia)) as Hshort.
      destruct (pwrite fd [e] offset) as [fd1 n1]. cbn [snd length] in Hshort.
      destruct (Z.ltb_spec n1 1); [reflexivity | lia]. }
  rewrite pwrite_fits by (try discriminate; cbn [length]; lia).
  cbn [length]. change (Z.of_nat 1 <? 1) with false. cbv iota.
  rewrite u64_small by lia.
  set (fd1 := {| fd_data := _; fd_pos := _; fd_limit := _ |}).
  destruct (Z.le_gt_cases (offset + 2) (Z.min (fd_limit fd) OFF_MAX))
    as [Hsecond|Hsecond].
  2:{ pose proof (pwrite_short fd1 [lf] (offset + Z.of_nat 1)
                    ltac:(discriminate) ltac:(lia)
                    ltac:(cbn [length fd1 fd_limit]; lia)) as Hshort.
      destruct (pwrite fd1 [lf] (offset + Z.of_nat 1)) as [fd2 n2].
      cbn [snd length] in Hshort.
      destruct (Z.ltb_spec n2 1); [reflexivity | lia]. }
  rewrite pwrite_fits by (try discriminate; cbn [length fd1 fd_limit]; lia).
  cbn [length]. change (Z.of_nat 1 <? 1) with false. cbv iota.
  rewrite u64_small by lia.
  set (fd2 := {| fd_data := _; fd_pos := _; fd_limit := _ |}).
  replace (offset + Z.of_nat 1 + Z.of_nat 1) with (offset + 2) by lia.
  rewrite ssize_t_small by lia.
  cbn [size left_child right_child] in Hroom.
  assert (Hright : forall (fdx : file) (ret : Z),
            fd_limit fdx = fd_limit fd ->
            0 <= ret <= Z.min (fd_limit fd) OFF_MAX ->
            Z.min (fd_limit fd) OFF_MAX
              < ret + 2 * Z.of_nat (match r with Some r => size r | None => O end) ->
            (match r with
             | Some r =>
               let '(fd, ret) := _output r fdx (u64 ret) in
               if ret =? -1 then (fd, -1) else (fd, ret)
             | None => (fdx, ret)
             end).2 = -1).
  { intros fdx ret Hlim Hret Hno. destruct r as [r|]; [|lia].
    rewrite u64_small by lia.
    pose proof (IHr fdx ret ltac:(lia) ltac:(rewrite Hlim; lia)) as Hr.
    destruct (_output r fdx ret) as [fd3 ret3]. cbn [snd] in Hr. subst ret3.
    reflexivity. }
  destruct l as [l|].
  - destruct (Z.le_gt_cases (offset + 2 + 2 * Z.of_nat (size l))
                            (Z.min (fd_limit fd) OFF_MAX)) as [Hleft|Hleft].
    + rewrite _output_writes by (cbn [fd2 fd1 fd_limit]; lia).
      destruct (Z.eqb_spec (offset + 2 + 2 * Z.of_nat (size l)) (-1)); [lia|].
      apply Hright; [reflexivity | lia | lia].
    + pose proof (IHl fd2 (offset + 2) ltac:(lia)
                      ltac:(cbn [fd2 fd1 fd_limit]; lia)) as Hl.
      destruct (_output l fd2 (offset + 2)) as [fd3 ret3].
      cbn [snd] in Hl. subst ret3. reflexivity.
  - apply Hright; [reflexivity | lia | lia].
Qed.

(** X21. A parsed tree for which the file has not enough room is refused by
    [htree_output]: with -4 when the eight bytes of the count do not fit at
    the file position, with -5 when they fit and the tree does not fit from
    the offset plus 8 on. *)
Theorem htree_output_no_room (t : htree_t) (r : helement_t) (fd : file)
    (offset : Z) :
  root t = Some r ->
  _parsed t <> 0 ->
  1 <= count t < 2 ^ 64 ->
  0 <= fd_pos fd < 2 ^ 63 ->
  0 <= offset < 2 ^ 63 - 8 ->
  Z.min (fd_limit fd) OFF_MAX < fd_pos fd + 8
  \/ Z.min (fd_limit fd) OFF_MAX < offset + 8 + 2 * Z.of_nat (size r) ->
  exists fd',
    htree_output (Some t) fd offset
    = Some (fd', if Z.min (fd_limit fd) OFF_MAX <? fd_pos fd + 8
                 then -4 else -5).
Proof.
  intros Hroot Hparsed Hcount Hpos Hoff Hroom.
  assert (Hmax : OFF_MAX = 2 ^ 63 - 1) by reflexivity.
  unfold htree_output.
  destruct (Z.eqb_spec (_parsed t) 0); [contradiction|].
  destruct (Z.ltb_spec (count t) 1); [lia|].
  destruct (Z.ltb_spec (Z.min (fd_limit fd) OFF_MAX) (fd_pos fd + 8))
    as [Hheader|Hheader].
  - unfold write.
    pose proof (pwrite_short fd (u64_bytes (count t)) (fd_pos fd)
                  ltac:(discriminate) Hpos
                  ltac:(rewrite u64_bytes_length; lia)) as Hshort.
    rewrite u64_bytes_length in Hshort.
    destruct (pwrite fd (u64_bytes (count t)) (fd_pos fd)) as [fd1 n1].
    cbn [snd] in Hshort.
    destruct (Z.ltb_spec n1 0).
    + destruct (Z.ltb_spec n1 8); [|lia]. now eexists.
    + destruct (Z.ltb_spec n1 8); [|lia]. now eexists.
  - destruct Hroom as [Hroom|Hroom]; [lia|].
    unfold write.
    rewrite pwrite_fits
      by (try discriminate; rewrite ?u64_bytes_length; lia).
    rewrite u64_bytes_length. change (Z.of_nat 8 <? 0) with false.
    change (Z.of_nat 8 <? 8) with false. cbv iota.
    cbn [fd_data fd_pos fd_limit]. rewrite Hroot.
    rewrite u64_small by lia.
    set (fd1 := {| fd_data := _; fd_pos := _; fd_limit := _ |}).
    pose proof (_output_no_room r fd1 (offset + 8) ltac:(lia)
                  ltac:(cbn [fd1 fd_limit]; lia)) as Hout.
    destruct (_output r fd1 (offset + 8)) as [fd2 ret].
    cbn [snd] in Hout. subst ret. now eexists.
Qed.

Lemma htree_output_no_room_witness :
  let t := {| root := Some three_nodes; count := 3; _parsed := 1 |} in
  let fd := {| fd_data := []; fd_pos := 0; fd_limit := 12 |} in
  exists fd',
    htree_output (Some t) fd 0
    = Some (fd', if Z.min (fd_limit fd) OFF_MAX <? fd_pos fd + 8
                 then -4 else -5).
Proof.
  apply (htree_output_no_room
           {| root := Some three_nodes; count := 3; _parsed := 1 |}
           three_nodes {| fd_data := []; fd_pos := 0; fd_limit := 12 |} 0);
    try reflexivity; try discriminate; try (cbn; lia).
Defined.

(** ** Reading a tree in *)

(** [_input] fills in children and leaves symbol and flag of the node. *)
Lemma _input_keeps_node (fuel : nat) (fd : file) (node : helement_t)
    (k lf : Z) (n' : helement_t) (ret : Z) :
  _input fuel fd node k lf = Some (n', ret) ->
  element n' = element node /\ leaf_node n' = leaf_node node.
Proof.
  destruct fuel as [|fuel]; [discriminate|].
  cbn [_input]. destruct (negb (lf =? 0)); [intros [= <- _]; now split|].
  destruct (_input_object fd (u64 (k + 1))) as [lc|];
    [|intros [= <- _]; now split].
  destruct (_input fuel fd lc (u64 (k + 1)) (leaf_node lc)) as [[lc' rk]|];
    [|discriminate].
  destruct (rk =? TREE_BAD_COUNT); [intros [= <- _]; now split|].
  destruct (_input_object fd (u64 (rk + 1))) as [rc|];
    [|intros [= <- _]; now split].
  destruct (_input fuel fd rc (u64 (rk + 1)) (leaf_node rc)) as [[rc' rr]|];
    [|discriminate].
  intros [= <- _]. now split.
Qed.

(** What [htree_input] returns, by the length of the file. *)
Lemma htree_input_header (fd : file) :
  fd_pos fd = 0 ->
  ((htree_input fd).2 = None <-> (length (fd_data fd) < 10)%nat)
  /\ forall t, (htree_input fd).2 = Some t ->
       count t = u64_of_bytes (take 8 (fd_data fd))
       /\ _parsed t = 0
       /\ exists r, root t = Some r
                    /\ element r = byte_at (fd_data fd) 8
                    /\ leaf_node r = byte_at (fd_data fd) 9.
Proof.
  intros Hpos. unfold htree_input, read. rewrite Hpos.
  unfold pread. change (ssize_t 0 <? 0) with false. cbv iota.
  change (Z.to_nat (ssize_t 0)) with O. rewrite drop_0.
  destruct (Z.ltb_spec (Z.of_nat (length (take 8 (fd_data fd)))) 0); [lia|].
  rewrite length_take.
  destruct (Z.ltb_spec (Z.of_nat (8 `min` length (fd_data fd)))
                       TREE_INPUT_COUNT_SIZE) as [Hshort|Hcount];
    unfold TREE_INPUT_COUNT_SIZE in *.
  { cbn [snd]. split; [|intros t Ht; discriminate Ht].
    split; [intros _; lia | reflexivity]. }
  unfold _input_object, pread.
  change (TREE_INPUT_ELEMENT_OFFSET TREE_INPUT_ROOT_ELEMENT_INDEX) with 8.
  change (TREE_INPUT_LEAFNODE_OFFSET TREE_INPUT_ROOT_ELEMENT_INDEX) with 9.
  change (ssize_t 8 <? 0) with false. change (ssize_t 9 <? 0) with false.
  cbv iota. change (Z.to_nat (ssize_t 8)) with 8%nat.
  change (Z.to_nat (ssize_t 9)) with 9%nat. cbn [fd_data].
  unfold TREE_INPUT_ELEMENT_SIZE, TREE_INPUT_LEAFNODE_SIZE.
  rewrite !length_take, !length_drop.
  destruct (Z.ltb_spec (Z.of_nat (1 `min` (length (fd_data fd) - 8))) 1)
    as [Hno|Helement].
  { cbn [snd]. split; [|intros t Ht; discriminate Ht].
    split; [intros _; lia | reflexivity]. }
  destruct (Z.ltb_spec (Z.of_nat (1 `min` (length (fd_data fd) - 9))) 1)
    as [Hno|Hflag].
  { cbn [snd]. split; [|intros t Ht; discriminate Ht].
    split; [intros _; lia | reflexivity]. }
  cbn [snd]. split; [split; [discriminate | lia]|].
  assert (Hfirst : byte_at (take 1 (drop 8 (fd_data fd))) 0
                   = byte_at (fd_data fd) 8).
  { unfold byte_at. change (Z.to_nat 0) with O. change (Z.to_nat 8) with 8%nat.
    rewrite lookup_take_lt, lookup_drop by lia. reflexivity. }
  assert (Hsecond : byte_at (take 1 (drop 9 (fd_data fd))) 0
                    = byte_at (fd_data fd) 9).
  { unfold byte_at. change (Z.to_nat 0) with O. change (Z.to_nat 9) with 9%nat.
    rewrite lookup_take_lt, lookup_drop by lia. reflexivity. }
  rewrite Hfirst, Hsecond.
  set (node := helement_create _ _ _).
  match goal with
  | |- context [_input ?a ?b node ?c ?d] =>
    pose proof (_input_keeps_node a b node c d) as Hkept;
    set (result := _input a b node c d) in *
  end.
  intros t [= <-]. cbn [count _parsed root].
  split; [reflexivity|]. split; [reflexivity|].
  destruct result as [[n' ret]|].
  - destruct (Hkept n' ret eq_refl) as [He Hl].
    exists n'. split; [reflexivity|]. now split.
  - exists node. split; [reflexivity|]. now split.
Qed.

(** X22. [htree_input] on a file read from its start returns [NULL] exactly
    when the file has fewer than ten bytes (the count and the two bytes of the
    root).  Otherwise it returns a tree, also when the file ends in the
    middle of the tree: the count is the number in the first eight bytes,
    whatever is read behind them, the root has the first symbol and flag,
    and the parse bit is off. *)
Theorem htree_input_needs_ten_bytes (fd : file) :
  fd_pos fd = 0 ->
  ((htree_input fd).2 = None <-> (length (fd_data fd) < 10)%nat)
  /\ forall t, (htree_input fd).2 = Some t ->
       count t = u64_of_bytes (take 8 (fd_data fd))
       /\ _parsed t = 0
       /\ exists r, root t = Some r
                    /\ element r = byte_at (fd_data fd) 8
                    /\ leaf_node r = byte_at (fd_data fd) 9.
Proof. exact (htree_input_header fd). Qed.

Lemma htree_input_needs_ten_bytes_witness :
  let fd := {| fd_data := u64_bytes 5 ++ [255; 0; 97; 1]; fd_pos := 0;
               fd_limit := 64 |} in
  ((htree_input fd).2 = None <-> (length (fd_data fd) < 10)%nat)
  /\ forall t, (htree_input fd).2 = Some t ->
       count t = u64_of_bytes (take 8 (fd_data fd))
       /\ _parsed t = 0
       /\ exists r, root t = Some r
                    /\ element r = byte_at (fd_data fd) 8
                    /\ leaf_node r = byte_at (fd_data fd) 9.
Proof.
  apply (htree_input_needs_ten_bytes
           {| fd_data := u64_bytes 5 ++ [255; 0; 97; 1]; fd_pos := 0;
              fd_limit := 64 |}).
  reflexivity.
Defined.

(** * The pipelines in text mode *)

(** ** Stepping in either mode *)

(** Stepping along the path to a leaf, the opcodes being read from the text
    or from the vector: the symbol of the leaf is appended, it is the value
    left in [decoded_element], and the stepping is back at the root. *)
Lemma state_step_walk_any (t : htree_t) (ascii_set : Z)
    (vec : option bvector_t) (ascii : list Z) (e : Z) (path : list Z) :
  forall (n : helement_t) (i : Z) (st : stepping) (m : nat),
    leaf_node n = 0 ->
    leaf_at n path = Some e ->
    0 <= e < 256 ->
    Forall is_opcode path ->
    temp_ptr st = Some n ->
    (forall k b, path !! k = Some b ->
                 (if negb (ascii_set =? 0)
                  then byte_at ascii (i + Z.of_nat k) - 48
                  else bvector_check_bit vec (i + Z.of_nat k)) = b) ->
    state_step_loop (length path + m) i ascii_set ascii vec (Some t) st
    = state_step_loop m (i + Z.of_nat (length path)) ascii_set ascii vec
        (Some t)
        {| temp_ptr := root t; decoded_element := e;
           decoded_string := decoded_string st ++ [e] |}.
Proof.
  induction path as [|b path IH]; intros n i st m Hn Hleaf He Hbits Hst Hvec.
  - cbn [leaf_at] in Hleaf. rewrite Hn in Hleaf. discriminate.
  - cbn [length Nat.add state_step_loop].
    pose proof (Hvec O b eq_refl) as Hfirst.
    change (Z.of_nat 0) with 0 in Hfirst. rewrite Z.add_0_r in Hfirst.
    rewrite Hfirst.
    apply Forall_cons in Hbits as [Hb Hbits].
    cbn [leaf_at] in Hleaf. rewrite Hn in Hleaf. cbn [Z.eqb negb] in Hleaf.
    unfold htree_state_step. rewrite Hst.
    assert (Hrange : (1 <? b) || (b <? 0) = false)
      by (destruct Hb as [-> | ->]; reflexivity).
    rewrite Hrange.
    destruct (if b =? 0 then left_child n else right_child n) as [c|];
      [|discriminate].
    destruct (Z.eqb_spec (leaf_node c) 0) as [Hc|Hc]; cbn [negb].
    + (* the child is a node: the walk goes on *)
      change (0 <=? -1) with false. cbv iota.
      rewrite (IH c (i + 1) {| temp_ptr := Some c; decoded_element := -1;
                               decoded_string := decoded_string st |} m
                  Hc Hleaf He Hbits eq_refl).
      * cbn [decoded_string]. f_equal. lia.
      * intros k b' Hk. rewrite <- (Hvec (S k) b' Hk).
        replace (i + 1 + Z.of_nat k) with (i + Z.of_nat (S k)) by lia.
        reflexivity.
    + (* the child is a leaf: its symbol is emitted *)
      destruct path as [|b' path'].
      2:{ cbn [leaf_at] in Hleaf.
          destruct (Z.eqb_spec (leaf_node c) 0); [contradiction|].
          discriminate. }
      cbn [leaf_at] in Hleaf.
      destruct (Z.eqb_spec (leaf_node c) 0); [contradiction|].
      cbn [negb] in Hleaf. injection Hleaf as Hel. rewrite Hel.
      destruct (Z.leb_spec 0 e); [|lia].
      cbn [length Nat.add]. unfold array_append.
      replace (u8 e) with e by (unfold u8; rewrite Z.mod_small; lia).
      reflexivity.
Qed.

(** Stepping over the opcodes of a sequence of symbols gives the symbols;
    [decoded_element] is left with the last of them. *)
Lemma state_step_stream_any (t : htree_t) (R : helement_t) (ascii_set : Z)
    (vec : option bvector_t) (ascii : list Z) (code : Z -> list Z)
    (B : list Z) :
  root t = Some R ->
  leaf_node R = 0 ->
  (forall e, e ∈ B ->
             leaf_at R (code e) = Some e /\ 0 <= e < 256
             /\ Forall is_opcode (code e)) ->
  forall (i : Z) (st : stepping) (m : nat),
    temp_ptr st = Some R ->
    (forall k b, concat (map code B) !! k = Some b ->
                 (if negb (ascii_set =? 0)
                  then byte_at ascii (i + Z.of_nat k) - 48
                  else bvector_check_bit vec (i + Z.of_nat k)) = b) ->
    state_step_loop (length (concat (map code B)) + m) i ascii_set ascii vec
                    (Some t) st
    = state_step_loop m (i + Z.of_nat (length (concat (map code B))))
        ascii_set ascii vec (Some t)
        {| temp_ptr := Some R;
           decoded_element := default (decoded_element st) (last B);
           decoded_string := decoded_string st ++ B |}.
Proof.
  intros Hroot HR. induction B as [|e B IH]; intros Hcode i st m Hst Hvec.
  - cbn [map concat length Nat.add last default from_option id].
    rewrite app_nil_r, Z.add_0_r, <- Hst. now destruct st.
  - cbn [map concat]. rewrite length_app, <- Nat.add_assoc.
    destruct (Hcode e ltac:(left)) as (Hleaf & He & Hops).
    rewrite (state_step_walk_any t ascii_set vec ascii e (code e) R i st _
               HR Hleaf He Hops Hst).
    2:{ intros k b Hk. apply Hvec. cbn [map concat].
        now apply lookup_app_l_Some. }
    rewrite Hroot.
    rewrite (IH ltac:(intros e' He'; apply Hcode; now right)
                (i + Z.of_nat (length (code e)))
                {| temp_ptr := Some R; decoded_element := e;
                   decoded_string := decoded_string st ++ [e] |} m eq_refl).
    2:{ intros k b Hk.
        replace (i + Z.of_nat (length (code e)) + Z.of_nat k)
          with (i + Z.of_nat (length (code e) + k)) by lia.
        apply Hvec. cbn [map concat].
        rewrite lookup_app_r by lia.
        now replace (length (code e) + k - length (code e))%nat with k by lia. }
    cbn [decoded_string decoded_element]. f_equal; [lia|].
    rewrite last_cons, <- app_assoc. cbn [app].
    now destruct (last B).
Qed.

(** ** The encoder in text mode *)

(** An opcode string made of the characters '0' and '1' only, as bytes. *)
Lemma string_bytes_digits (s : string) :
  strlen s = Z.of_nat (length (binary_digits s)) ->
  string_bytes s = map (fun d => d + 48) (binary_digits s).
Proof.
  induction s as [|c s IH]; intros Hlen; [reflexivity|].
  rewrite strlen_String in Hlen. cbn [binary_digits] in *.
  pose proof (binary_digits_length s) as Hle.
  unfold string_bytes in *. cbn [list_ascii_of_string map].
  destruct (Ascii.eqb_spec c "0"%char) as [->|H0].
  - cbn [length map] in *. rewrite IH by lia. reflexivity.
  - destruct (Ascii.eqb_spec c "1"%char) as [->|H1].
    + cbn [length map] in *. rewrite IH by lia. reflexivity.
    + lia.
Qed.

Lemma ascii_opcodes_loop_appends (table : opcode_table_t) (code : Z -> list Z)
    (B : list Z) :
  (forall e, e ∈ B ->
     exists s, table !! Z.to_nat e = Some (Some s)
               /\ string_bytes s = map (fun d => d + 48) (code e)) ->
  forall acc,
    ascii_opcodes_loop B table acc
    = Done (acc ++ map (fun d => d + 48) (concat (map code B))).
Proof.
  induction B as [|e B IH]; intros Hcodes acc.
  - cbn. now rewrite app_nil_r.
  - cbn [ascii_opcodes_loop map concat].
    destruct (Hcodes e ltac:(left)) as (s & Hs & Hbytes).
    rewrite Hs. cbn [mjoin option_join]. unfold array_append.
    rewrite IH by (intros e' He'; apply Hcodes; now right).
    now rewrite Hbytes, map_app, app_assoc.
Qed.

Lemma huffman_encode_text_writes (fresh : nat -> Z) (flags : option bvector_t)
    (B : list Z) (x y : Z) (out_fd : file) :
  bvector_check_bit flags FLAG_ASCII = 1 ->
  bvector_check_bit flags FLAG_PRINT = 0 ->
  Forall (fun b => 0 <= b < 256) B ->
  x ∈ B -> y ∈ B -> x <> y ->
  Z.of_nat (length B) < 2 ^ 52 ->
  fd_data out_fd = [] ->
  fd_pos out_fd = 0 ->
  1040 + 512 * Z.of_nat (length B) <= Z.min (fd_limit out_fd) OFF_MAX ->
  exists R art,
    huffman_encode fresh flags B out_fd = (art, Return 0)
    /\ proper R = true /\ leaf_node R = 0 /\ NoDup (leaves R)
    /\ (forall e, e ∈ B -> e ∈ leaves R)
    /\ fd_data art
       = u64_bytes (Z.of_nat (size R)) ++ serialized R
         ++ map (fun d => d + 48) (concat (map (code_of R) B)).
Proof.
  intros Hflag Hprint HB Hx Hy Hne Hlen Hdata Hpos Hroom.
  destruct (huffman_tree_built B x y HB Hx Hy Hne ltac:(lia))
    as (hlist & R & Hdist & Hmerge & HR & Hlf & Hdup & Hmem).
  pose proof (tree_size_bound R HR Hdup (fun e He => leaves_range R e HR He))
    as Hsize.
  assert (Hmax : OFF_MAX = 2 ^ 63 - 1) by reflexivity.
  pose proof (size_positive R) as Hnodes.
  exists R.
  unfold huffman_encode. rewrite Hflag, Hprint, Hdist, Hmerge.
  cbn [hl_list]. change ([R] !! O) with (Some R).
  unfold htree_add_element, htree_create. cbn [root count].
  cbn [htree_parse_in_block]. rewrite (parse_stays_in_block R HR Hdup).
  cbn [negb].
  rewrite (htree_parse_root
             {| root := Some R; count := u64 (DEFAULT_TREE_COUNT + 1);
                _parsed := 0 |} R eq_refl).
  rewrite (_parse_count R HR).
  rewrite u64_small by lia. rewrite Z.add_0_l.
  change (1 =? VECTOR_BIT_OFF) with false. cbv iota.
  change (1 =? VECTOR_BIT_SET) with true. cbv iota.
  rewrite (htree_output_writes
             {| root := Some R; count := Z.of_nat (size R); _parsed := 1 |}
             R out_fd eq_refl); cbn [_parsed count];
    try assumption; try lia.
  destruct (Z.ltb_spec (8 + 2 * Z.of_nat (size R)) 0); [lia|].
  rewrite (ascii_opcodes_loop_appends _ (code_of R)).
  2:{ intros e He.
      destruct (leaves_opcode R e (Hmem e He)) as [s Hs].
      destruct (tree_codes R e HR Hlf Hdup (Hmem e He))
        as (_ & _ & _ & _ & Hentry).
      exists (opcode_of (opcodes R EmptyString) e). split; [exact Hentry|].
      unfold code_of. apply string_bytes_digits.
      rewrite (opcode_of_in _ e s Hdup Hs).
      destruct (opcodes_paths R HR EmptyString e s Hs)
        as (p & Hdigits & Hstrlen & _).
      cbn [binary_digits app] in Hdigits. rewrite Hdigits.
      change (strlen EmptyString) with 0 in Hstrlen. lia. }
  cbn [app].
  assert (Hbits : (length (concat (map (code_of R) B)) <= length B * 510)%nat).
  { apply concat_length_bound. intros e He.
    destruct (tree_codes R e HR Hlf Hdup (Hmem e He))
      as (_ & _ & _ & Hcode & _). lia. }
  assert (Hsome : (0 < length (concat (map (code_of R) B)))%nat).
  { destruct B as [|b B]; [now apply elem_of_nil in Hx|].
    cbn [map concat]. rewrite length_app.
    destruct (tree_codes R b HR Hlf Hdup (Hmem b ltac:(left)))
      as (_ & _ & _ & Hcode & _). lia. }
  set (chars := map (fun d => d + 48) (concat (map (code_of R) B))).
  assert (Hchars : length chars = length (concat (map (code_of R) B)))
    by (unfold chars; apply length_map).
  rewrite pwrite_fits; cbn [fd_data fd_pos fd_limit].
  - rewrite Z.ltb_irrefl. change (0 =? VECTOR_BIT_SET) with false.
    cbn [andb]. eexists. split; [reflexivity|].
    split; [exact HR|]. split; [exact Hlf|]. split; [exact Hdup|].
    split; [exact Hmem|]. cbn [fd_data].
    replace (Z.to_nat (8 + 2 * Z.of_nat (size R)))
      with (length (u64_bytes (Z.of_nat (size R)) ++ serialized R))
      by (rewrite length_app, u64_bytes_length, serialized_length; lia).
    rewrite store_at_end. now rewrite <- app_assoc.
  - intros E. rewrite E in Hchars. cbn [length] in Hchars. lia.
  - lia.
  - lia.
Qed.

(** ** The decoder in text mode *)

(** The loop that reads the text opcodes reads the file to its end. *)
Lemma ascii_read_loop_reads (fd : file) (rest : list Z) :
  forall (fuel : nat) (pre acc : list Z),
    fd_data fd = pre ++ rest ->
    Z.of_nat (length (fd_data fd)) < 2 ^ 63 ->
    (length rest < fuel)%nat ->
    ascii_read_loop fuel fd (Z.of_nat (length pre)) acc = Done (acc ++ rest).
Proof.
  induction rest as [|c rest IH]; intros fuel pre acc Hdata Hlen Hfuel.
  - destruct fuel as [|fuel]; [cbn [length] in Hfuel; lia|].
    cbn [ascii_read_loop].
    pose proof Hlen as Hpre. rewrite Hdata, length_app in Hpre.
    cbn [length] in Hpre.
    rewrite pread_eof by (rewrite ?Hdata, ?length_app; cbn [length]; lia).
    cbn. now rewrite app_nil_r.
  - destruct fuel as [|fuel]; [cbn [length] in Hfuel; lia|].
    cbn [ascii_read_loop].
    assert (Hread : pread fd 1 (Z.of_nat (length pre)) = ([c], 1)).
    { apply (pread_at fd pre [c] rest _ Hdata eq_refl).
      rewrite Hdata, length_app in Hlen. lia. }
    rewrite Hread. change (0 <? 1) with true. cbv iota.
    unfold array_append.
    replace (Z.of_nat (length pre) + 1) with (Z.of_nat (length (pre ++ [c])))
      by (rewrite length_app; cbn [length]; lia).
    rewrite (IH fuel (pre ++ [c]) (acc ++ [c]));
      [now rewrite <- app_assoc | now rewrite <- app_assoc | exact Hlen |].
    cbn [length] in Hfuel. lia.
Qed.

Lemma byte_at_map (f : Z -> Z) (l : list Z) (k : nat) (d : Z) :
  l !! k = Some d -> byte_at (map f l) (Z.of_nat k) = f d.
Proof.
  intros H. unfold byte_at. rewrite Nat2Z.id, map_fmap, list_lookup_fmap, H.
  reflexivity.
Qed.

Lemma huffman_decode_text_reads (flags : option bvector_t) (R : helement_t)
    (code : Z -> list Z) (B : list Z) (in_fd out_fd : file) :
  bvector_check_bit flags FLAG_ASCII = 1 ->
  bvector_check_bit flags FLAG_PRINT = 0 ->
  proper R = true ->
  leaf_node R = 0 ->
  (forall e, e ∈ B ->
             leaf_at R (code e) = Some e /\ 0 <= e < 256
             /\ Forall is_opcode (code e)) ->
  fd_pos in_fd = 0 ->
  fd_data in_fd
  = u64_bytes (Z.of_nat (size R)) ++ serialized R
    ++ map (fun d => d + 48) (concat (map code B)) ->
  Z.of_nat (length (fd_data in_fd)) < 2 ^ 60 ->
  fd_data out_fd = [] ->
  fd_pos out_fd = 0 ->
  Z.of_nat (length B) <= Z.min (fd_limit out_fd) OFF_MAX ->
  exists dec,
    huffman_decode flags in_fd out_fd = (dec, Return 0)
    /\ fd_data dec = B.
Proof.
  intros Hflag Hprint HR Hlf Hcode Hpos Hdata Hlen Hodata Hopos Hroom.
  set (chars := map (fun d => d + 48) (concat (map code B))) in *.
  pose proof (size_positive R) as Hnodes.
  assert (Hsizes : Z.of_nat (length (fd_data in_fd))
                   = 8 + 2 * Z.of_nat (size R) + Z.of_nat (length chars)).
  { rewrite Hdata, !length_app, !u64_bytes_length, serialized_length. lia. }
  unfold huffman_decode, decode_input. rewrite Hflag, Hprint.
  destruct (htree_input in_fd) as [fd' constructed_tree] eqn:Hin.
  pose proof (htree_input_rebuilds in_fd (Z.of_nat (size R)) R chars
                HR ltac:(lia) Hpos Hdata ltac:(lia) ltac:(now left)) as Htree.
  pose proof (htree_input_data in_fd) as Hsame.
  rewrite Hin in Htree, Hsame. cbn [fst snd] in Htree, Hsame.
  subst constructed_tree.
  cbn [count]. change (1 =? VECTOR_BIT_OFF) with false. cbv iota.
  unfold TREE_INPUT_OBJECT_OFFSET, TREE_INPUT_COUNT_OFFSET,
    TREE_INPUT_COUNT_SIZE, TREE_INPUT_OBJECT_SIZE, TREE_INPUT_ELEMENT_SIZE,
    TREE_INPUT_LEAFNODE_SIZE.
  rewrite (u64_small (0 + 8 + _)) by lia.
  rewrite ssize_t_small by lia. rewrite u64_small by lia.
  replace (0 + 8 + Z.of_nat (size R) * (1 + 1))
    with (Z.of_nat (length (u64_bytes (Z.of_nat (size R)) ++ serialized R)))
    by (rewrite length_app, u64_bytes_length, serialized_length; lia).
  rewrite (ascii_read_loop_reads fd' chars);
    [| rewrite Hsame, Hdata; now rewrite <- app_assoc
     | rewrite Hsame; lia
     | rewrite Hsame, Hdata, !length_app; lia].
  change (0 =? VECTOR_BIT_SET) with false. cbn [andb app].
  unfold decode_steps. rewrite Hflag.
  change (1 =? VECTOR_BIT_SET) with true. cbv iota.
  rewrite Nat2Z.id. cbn [root].
  assert (Hchars : length chars = length (concat (map code B)))
    by (unfold chars; apply length_map).
  rewrite Hchars, <- (Nat.add_0_r (length (concat (map code B)))).
  rewrite (state_step_stream_any
             {| root := Some (rebuilt R); count := Z.of_nat (size R);
                _parsed := 0 |}
             (rebuilt R) 1 None chars code B eq_refl).
  - cbn [state_step_loop decoded_string app].
    destruct (write out_fd B) as [dec n] eqn:Hwrite.
    destruct (write_fits out_fd B ltac:(lia) ltac:(lia)) as (Hn & _ & Hdec).
    rewrite Hwrite in Hn, Hdec. cbn [fst snd] in Hn, Hdec. subst n.
    rewrite Z.ltb_irrefl. exists dec. split; [reflexivity|].
    rewrite Hdec, Hodata, Hopos. destruct B as [|b B]; [reflexivity|].
    change (Z.to_nat 0) with (@length Z []). now rewrite store_at_end.
  - destruct R; exact Hlf.
  - intros e He. rewrite leaf_at_rebuilt. now apply Hcode.
  - reflexivity.
  - intros k d Hk. change (negb (1 =? 0)) with true. cbv iota.
    rewrite Z.add_0_l. unfold chars. rewrite (byte_at_map _ _ k d Hk). lia.
Qed.

(** Text mode: the encoder's file read back by the decoder. *)
Lemma text_mode_round_trip (fresh : nat -> Z)
    (encode_flags decode_flags : option bvector_t) (B : list Z) (x y : Z)
    (out_fd decoded_fd : file) :
  bvector_check_bit encode_flags FLAG_ASCII = 1 ->
  bvector_check_bit decode_flags FLAG_ASCII = 1 ->
  bvector_check_bit encode_flags FLAG_PRINT = 0 ->
  bvector_check_bit decode_flags FLAG_PRINT = 0 ->
  Forall (fun b => 0 <= b < 256) B ->
  x ∈ B -> y ∈ B -> x <> y ->
  Z.of_nat (length B) < 2 ^ 50 ->
  fd_data out_fd = [] ->
  fd_pos out_fd = 0 ->
  1040 + 512 * Z.of_nat (length B) <= Z.min (fd_limit out_fd) OFF_MAX ->
  fd_data decoded_fd = [] ->
  fd_pos decoded_fd = 0 ->
  Z.of_nat (length B) <= Z.min (fd_limit decoded_fd) OFF_MAX ->
  exists artifact,
    huffman_encode fresh encode_flags B out_fd = (artifact, Return 0)
    /\ forall in_fd,
         fd_pos in_fd = 0 ->
         fd_data in_fd = fd_data artifact ->
         exists decoded,
           huffman_decode decode_flags in_fd decoded_fd = (decoded, Return 0)
           /\ fd_data decoded = B.
Proof.
  intros Heflag Hdflag Heprint Hdprint HB Hx Hy Hne Hlen Hdata Hpos Hroom Hddata Hdpos Hdroom.
  destruct (huffman_encode_text_writes fresh encode_flags B x y out_fd
              Heflag Heprint HB Hx Hy Hne ltac:(lia) Hdata Hpos Hroom)
    as (R & artifact & Hencode & HR & Hlf & Hdup & Hmem & Hart).
  pose proof (tree_size_bound R HR Hdup (fun e He => leaves_range R e HR He))
    as Hsize.
  assert (Hcodes : forall e, e ∈ B ->
            leaf_at R (code_of R e) = Some e /\ 0 <= e < 256
            /\ Forall is_opcode (code_of R e)
            /\ (0 < length (code_of R e) <= 510)%nat).
  { intros e He.
    destruct (tree_codes R e HR Hlf Hdup (Hmem e He))
      as (Hleaf & Hrange & Hops & Hcode & _).
    repeat split; try assumption; lia. }
  assert (Hlong : (length (concat (map (code_of R) B)) <= length B * 510)%nat).
  { apply concat_length_bound. intros e He.
    destruct (Hcodes e He) as (_ & _ & _ & Hcode). lia. }
  exists artifact. split; [exact Hencode|]. intros in_fd Hipos Hidata.
  destruct (huffman_decode_text_reads decode_flags R (code_of R) B
              in_fd decoded_fd Hdflag Hdprint HR Hlf)
    as (decoded & Hdecode & Hsame); try assumption; try reflexivity;
    try (rewrite Hidata; assumption).
  - intros e He. destruct (Hcodes e He) as (Hleaf & Hrange & Hops & _).
    now repeat split.
  - rewrite Hidata, Hart, !length_app, !u64_bytes_length,
      serialized_length, length_map. lia.
  - exists decoded. now split.
Qed.

(** X23. Text mode round trip.  For an input of bytes with at least two
    different values, with the ASCII flag set and the print flag off on both
    runs: [huffman_encode] returns 0 and [huffman_decode], run on the file it
    wrote, returns 0 and writes the input.  (With -a and -p both pipelines
    print their opcodes with [printf] and read past the buffer.) *)
Theorem huffman_text_round_trip (fresh : nat -> Z)
    (encode_flags decode_flags : option bvector_t) (B : list Z) (x y : Z)
    (out_fd decoded_fd : file) :
  bvector_check_bit encode_flags FLAG_ASCII = 1 ->
  bvector_check_bit decode_flags FLAG_ASCII = 1 ->
  bvector_check_bit encode_flags FLAG_PRINT = 0 ->
  bvector_check_bit decode_flags FLAG_PRINT = 0 ->
  Forall (fun b => 0 <= b < 256) B ->
  x ∈ B -> y ∈ B -> x <> y ->
  Z.of_nat (length B) < 2 ^ 50 ->
  fd_data out_fd = [] ->
  fd_pos out_fd = 0 ->
  1040 + 512 * Z.of_nat (length B) <= Z.min (fd_limit out_fd) OFF_MAX ->
  fd_data decoded_fd = [] ->
  fd_pos decoded_fd = 0 ->
  Z.of_nat (length B) <= Z.min (fd_limit decoded_fd) OFF_MAX ->
  exists artifact decoded,
    huffman_encode fresh encode_flags B out_fd = (artifact, Return 0)
    /\ huffman_decode decode_flags (reopen artifact) decoded_fd
       = (decoded, Return 0)
    /\ fd_data decoded = B.
Proof.
  intros Heflag Hdflag Heprint Hdprint HB Hx Hy Hne Hlen Hdata Hpos Hroom Hddata Hdpos Hdroom.
  destruct (text_mode_round_trip fresh encode_flags decode_flags B x y out_fd
              decoded_fd Heflag Hdflag Heprint Hdprint HB Hx Hy Hne Hlen Hdata Hpos Hroom
              Hddata Hdpos Hdroom) as (artifact & Hencode & Hdecode).
  destruct (Hdecode (reopen artifact) eq_refl eq_refl) as (decoded & Hd & Hsame).
  now exists artifact, decoded.
Qed.

Lemma huffman_text_round_trip_witness :
  exists artifact decoded,
    huffman_encode zero_fresh text_mode_flags [97; 98; 97; 99] new_file
    = (artifact, Return 0)
    /\ huffman_decode text_mode_flags (reopen artifact) new_file
       = (decoded, Return 0)
    /\ fd_data decoded = [97; 98; 97; 99].
Proof.
  apply (huffman_text_round_trip zero_fresh text_mode_flags text_mode_flags
           [97; 98; 97; 99] 97 98 new_file new_file);
    try reflexivity; try (vm_compute; lia); try (vm_compute; congruence).
  - repeat constructor; lia.
  - repeat constructor.
  - repeat constructor.
Defined.

(** What [huffman_decode] reads from an artifact in text mode, run without
    -p: the tree and every byte behind it. *)
Lemma decode_input_text (flags : option bvector_t) (R : helement_t)
    (chars : list Z) (in_fd : file) :
  bvector_check_bit flags FLAG_ASCII = 1 ->
  bvector_check_bit flags FLAG_PRINT = 0 ->
  proper R = true ->
  leaf_node R = 0 ->
  fd_pos in_fd = 0 ->
  fd_data in_fd = u64_bytes (Z.of_nat (size R)) ++ serialized R ++ chars ->
  Z.of_nat (length (fd_data in_fd)) < 2 ^ 60 ->
  decode_input flags in_fd
  = Done ({| root := Some (rebuilt R); count := Z.of_nat (size R);
             _parsed := 0 |}, chars, None).
Proof.
  intros Hflag Hprint HR Hlf Hpos Hdata Hlen.
  pose proof (size_positive R) as Hnodes.
  assert (Hsizes : Z.of_nat (length (fd_data in_fd))
                   = 8 + 2 * Z.of_nat (size R) + Z.of_nat (length chars)).
  { rewrite Hdata, !length_app, !u64_bytes_length, serialized_length. lia. }
  unfold decode_input. rewrite Hflag, Hprint.
  destruct (htree_input in_fd) as [fd' constructed_tree] eqn:Hin.
  pose proof (htree_input_rebuilds in_fd (Z.of_nat (size R)) R chars
                HR ltac:(lia) Hpos Hdata ltac:(lia) ltac:(now left)) as Htree.
  pose proof (htree_input_data in_fd) as Hsame.
  rewrite Hin in Htree, Hsame. cbn [fst snd] in Htree, Hsame.
  subst constructed_tree.
  cbn [count]. change (1 =? VECTOR_BIT_OFF) with false. cbv iota.
  unfold TREE_INPUT_OBJECT_OFFSET, TREE_INPUT_COUNT_OFFSET,
    TREE_INPUT_COUNT_SIZE, TREE_INPUT_OBJECT_SIZE, TREE_INPUT_ELEMENT_SIZE,
    TREE_INPUT_LEAFNODE_SIZE.
  rewrite (u64_small (0 + 8 + _)) by lia.
  rewrite ssize_t_small by lia. rewrite u64_small by lia.
  replace (0 + 8 + Z.of_nat (size R) * (1 + 1))
    with (Z.of_nat (length (u64_bytes (Z.of_nat (size R)) ++ serialized R)))
    by (rewrite length_app, u64_bytes_length, serialized_length; lia).
  rewrite (ascii_read_loop_reads fd' chars);
    [| rewrite Hsame, Hdata; now rewrite <- app_assoc
     | rewrite Hsame; lia
     | rewrite Hsame, Hdata, !length_app; lia].
  reflexivity.
Qed.

(** ** A character that is no opcode *)

(** Once the node pointer is [NULL] it stays [NULL], and every further
    opcode appends the value left in [decoded_element] when it is not
    negative. *)
Lemma state_step_loop_stuck (t : htree_t) (ascii_set : Z)
    (vec : option bvector_t) (ascii : list Z) (n : nat) :
  forall (i : Z) (st : stepping),
    temp_ptr st = None ->
    state_step_loop n i ascii_set ascii vec (Some t) st
    = Some {| temp_ptr := None;
              decoded_element := decoded_element st;
              decoded_string :=
                decoded_string st
                ++ (if 0 <=? decoded_element st
                    then replicate n (u8 (decoded_element st)) else []) |}.
Proof.
  induction n as [|n IH]; intros i st Hst.
  - cbn [state_step_loop replicate]. destruct st as [p e s]. cbn in *.
    subst p. destruct (0 <=? e); now rewrite app_nil_r.
  - cbn [state_step_loop]. unfold htree_state_step. rewrite Hst.
    rewrite IH by reflexivity. cbn [decoded_element decoded_string].
    unfold array_append.
    destruct (0 <=? decoded_element st); cbn [replicate].
    + now rewrite <- app_assoc.
    + reflexivity.
Qed.

(** The stepping over text opcodes that hold a character other than '0' and
    '1' directly behind a complete code: the last decoded symbol is appended
    for the character and for every character behind it. *)
Lemma decode_bad_character_steps (flags : option bvector_t)
    (in_fd out_fd : file) (t : htree_t) (R : helement_t) (code : Z -> list Z)
    (B : list Z) (c : Z) (rest : list Z) :
  bvector_check_bit flags FLAG_ASCII = 1 ->
  decode_input flags in_fd
  = Done (t, map (fun d => d + 48) (concat (map code B)) ++ c :: rest, None) ->
  root t = Some R ->
  leaf_node R = 0 ->
  (forall e, e ∈ B ->
             leaf_at R (code e) = Some e /\ 0 <= e < 256
             /\ Forall is_opcode (code e)) ->
  c <> 48 -> c <> 49 ->
  fd_data out_fd = [] ->
  fd_pos out_fd = 0 ->
  2 * Z.of_nat (length B) + Z.of_nat (length rest) + 1
    <= Z.min (fd_limit out_fd) OFF_MAX ->
  exists dec,
    huffman_decode flags in_fd out_fd = (dec, Return 0)
    /\ fd_data dec
       = B ++ match last B with
              | Some e => replicate (S (length rest)) e
              | None => []
              end.
Proof.
  intros Hflag Hinput Hroot Hlf Hcode Hc0 Hc1 Hodata Hopos Hroom.
  unfold huffman_decode. rewrite Hinput.
  unfold decode_steps. rewrite Hflag.
  change (1 =? VECTOR_BIT_SET) with true. cbv iota.
  rewrite Nat2Z.id, length_app, length_map. cbn [length].
  set (chars := map (fun d => d + 48) (concat (map code B)) ++ c :: rest).
  rewrite (state_step_stream_any t R 1 None chars code B Hroot Hlf Hcode
             0 _ (S (length rest)));
    [| exact Hroot|].
  2:{ intros k d Hk. change (negb (1 =? 0)) with true. cbv iota.
      rewrite Z.add_0_l. unfold chars, byte_at. rewrite Nat2Z.id.
      rewrite lookup_app_l
        by (rewrite length_map; now apply lookup_lt_Some in Hk).
      rewrite map_fmap, list_lookup_fmap, Hk. cbn. lia. }
  cbn [state_step_loop decoded_element decoded_string temp_ptr app].
  change (negb (1 =? 0)) with true. cbv iota.
  assert (Hbad : byte_at chars (0 + Z.of_nat (length (concat (map code B))))
                 = c).
  { unfold chars, byte_at. rewrite Z.add_0_l, Nat2Z.id.
    rewrite lookup_app_r by (rewrite length_map; lia).
    rewrite length_map, Nat.sub_diag. reflexivity. }
  rewrite Hbad. unfold htree_state_step.
  assert (Hrange : (1 <? c - 48) || (c - 48 <? 0) = true).
  { destruct (Z.ltb_spec 1 (c - 48)); [reflexivity|].
    destruct (Z.ltb_spec (c - 48) 0); [reflexivity | lia]. }
  rewrite Hrange. rewrite state_step_loop_stuck by reflexivity.
  cbn [decoded_element decoded_string].
  set (out := B ++ match last B with
                   | Some e => replicate (S (length rest)) e
                   | None => []
                   end).
  assert (Hout : (if 0 <=? default (-1) (last B)
                  then array_append B [u8 (default (-1) (last B))]
                  else B)
                 ++ (if 0 <=? default (-1) (last B)
                     then replicate (length rest) (u8 (default (-1) (last B)))
                     else []) = out).
  { unfold out. destruct (last B) as [e|] eqn:Hlast.
    - cbn [default from_option id].
      assert (He : 0 <= e < 256).
      { apply Hcode. apply last_Some in Hlast as [l' ->].
        apply elem_of_app. right. now left. }
      destruct (Z.leb_spec 0 e); [|lia].
      replace (u8 e) with e by (unfold u8; rewrite Z.mod_small; lia).
      unfold array_append. rewrite <- app_assoc. reflexivity.
    - cbn [default from_option id]. change (0 <=? -1) with false.
      cbv iota. reflexivity. }
  rewrite Hout.
  assert (Hlen : Z.of_nat (length out)
                 <= 2 * Z.of_nat (length B) + Z.of_nat (length rest) + 1).
  { unfold out. rewrite length_app. destruct (last B) as [e|] eqn:Hlast.
    - rewrite length_replicate. lia.
    - cbn [length]. lia. }
  destruct (write out_fd out) as [dec n] eqn:Hwrite.
  destruct (write_fits out_fd out ltac:(lia) ltac:(lia)) as (Hn & _ & Hdec).
  rewrite Hwrite in Hn, Hdec. cbn [fst snd] in Hn, Hdec. subst n.
  rewrite Z.ltb_irrefl. exists dec. split; [reflexivity|].
  rewrite Hdec, Hodata, Hopos. destruct out as [|b out']; [reflexivity|].
  change (Z.to_nat 0) with (@length Z []). now rewrite store_at_end.
Qed.

(** X24. In text mode, run without -p, a character other than '0' and '1'
    is not reported.  For an artifact of fewer than 2^60 bytes that holds,
    behind its tree (the root no leaf, every node a leaf or a node with two
    children), the codes of the symbols [B], then such a character, then any
    bytes: the symbols [B] are decoded, then the last of them is appended
    once more for the character and for every byte behind it;
    [huffman_decode] writes that to an empty output file with room for it
    and returns 0. *)
Theorem huffman_decode_bad_character (flags : option bvector_t)
    (in_fd out_fd : file) (R : helement_t) (code : Z -> list Z)
    (B : list Z) (c : Z) (rest : list Z) :
  bvector_check_bit flags FLAG_ASCII = 1 ->
  bvector_check_bit flags FLAG_PRINT = 0 ->
  proper R = true ->
  leaf_node R = 0 ->
  (forall e, e ∈ B ->
             leaf_at R (code e) = Some e /\ 0 <= e < 256
             /\ Forall is_opcode (code e)) ->
  c <> 48 -> c <> 49 ->
  fd_pos in_fd = 0 ->
  fd_data in_fd
  = u64_bytes (Z.of_nat (size R)) ++ serialized R
    ++ map (fun d => d + 48) (concat (map code B)) ++ c :: rest ->
  Z.of_nat (length (fd_data in_fd)) < 2 ^ 60 ->
  fd_data out_fd = [] ->
  fd_pos out_fd = 0 ->
  2 * Z.of_nat (length B) + Z.of_nat (length rest) + 1
    <= Z.min (fd_limit out_fd) OFF_MAX ->
  exists dec,
    huffman_decode flags in_fd out_fd = (dec, Return 0)
    /\ fd_data dec
       = B ++ match last B with
              | Some e => replicate (S (length rest)) e
              | None => []
              end.
Proof.
  intros Hflag Hprint HR Hlf Hcode Hc0 Hc1 Hpos Hdata Hlen Hodata Hopos Hroom.
  apply (decode_bad_character_steps flags in_fd out_fd
           {| root := Some (rebuilt R); count := Z.of_nat (size R);
              _parsed := 0 |}
           (rebuilt R) code B c rest); try assumption; try reflexivity.
  - now apply decode_input_text.
  - destruct R; exact Hlf.
  - intros e He. rewrite leaf_at_rebuilt. now apply Hcode.
Qed.

Lemma huffman_decode_bad_character_witness :
  exists dec,
    huffman_decode text_mode_flags bad_character_file new_file
    = (dec, Return 0)
    /\ fd_data dec = [97] ++ replicate 2 97.
Proof.
  apply (huffman_decode_bad_character text_mode_flags bad_character_file
           new_file three_nodes (fun e => if e =? 97 then [0] else [1])
           [97] 120 [49]);
    try reflexivity; try lia; try (vm_compute; lia).
  - intros e He. apply list_elem_of_singleton in He. subst e.
    split; [reflexivity|]. split; [lia|]. repeat constructor.
  - vm_compute. discriminate.
Defined.

(** * A stream that ends inside a code *)

Lemma size_rebuilt (n : helement_t) : size (rebuilt n) = size n.
Proof.
  induction n as [n IHl IHr] using helement_induction.
  destruct n as [e lf [l|] [r|] f]; cbn in *; now rewrite ?IHl, ?IHr.
Qed.

Lemma node_at_rebuilt (p : list Z) :
  forall n, node_at (rebuilt n) p = rebuilt <$> node_at n p.
Proof.
  induction p as [|b p IH]; intros [e lf l r f];
    cbn [node_at rebuilt leaf_node element left_child right_child].
  - reflexivity.
  - destruct (negb (lf =? 0)); [reflexivity|].
    destruct (b =? 0).
    + destruct l as [l|]; [apply IH | reflexivity].
    + destruct r as [r|]; [apply IH | reflexivity].
Qed.

(** A path that is not empty leads to a smaller tree. *)
Lemma node_at_smaller (p : list Z) :
  forall n c, node_at n p = Some c -> (size c <= size n)%nat
              /\ (p <> [] -> (size c < size n)%nat).
Proof.
  induction p as [|b p IH]; intros n c Hc.
  - cbn in Hc. injection Hc as ->. split; [lia | congruence].
  - cbn [node_at] in Hc.
    destruct (negb (leaf_node n =? 0)); [discriminate|].
    destruct n as [e lf l r f]. cbn [left_child right_child] in Hc.
    cbn [size left_child right_child].
    destruct (b =? 0).
    + destruct l as [l|]; [|discriminate].
      destruct (IH l c Hc) as [Hle _]. destruct r; split; intros; lia.
    + destruct r as [r|]; [|discriminate].
      destruct (IH r c Hc) as [Hle _]. destruct l; split; intros; lia.
Qed.

(** Stepping along a path that ends at a node which is no leaf: nothing is
    appended, [decoded_element] is left at -1 and the stepping stays at that
    node. *)
Lemma state_step_cut (t : htree_t) (ascii_set : Z) (vec : option bvector_t)
    (ascii : list Z) (c : helement_t) (path : list Z) :
  forall (b : Z) (n : helement_t) (i : Z) (st : stepping),
    node_at n (b :: path) = Some c ->
    leaf_node c = 0 ->
    Forall is_opcode (b :: path) ->
    temp_ptr st = Some n ->
    (forall k d, (b :: path) !! k = Some d ->
                 (if negb (ascii_set =? 0)
                  then byte_at ascii (i + Z.of_nat k) - 48
                  else bvector_check_bit vec (i + Z.of_nat k)) = d) ->
    state_step_loop (length (b :: path)) i ascii_set ascii vec (Some t) st
    = Some {| temp_ptr := Some c; decoded_element := -1;
              decoded_string := decoded_string st |}.
Proof.
  induction path as [|b' path IH]; intros b n i st Hnode Hc Hops Hst Hread.
  - cbn [length state_step_loop].
    pose proof (Hread O b eq_refl) as Hfirst.
    change (Z.of_nat 0) with 0 in Hfirst. rewrite Z.add_0_r in Hfirst.
    rewrite Hfirst.
    apply Forall_cons in Hops as [Hb _].
    cbn [node_at] in Hnode.
    destruct (negb (leaf_node n =? 0)); [discriminate|].
    unfold htree_state_step. rewrite Hst.
    assert (Hrange : (1 <? b) || (b <? 0) = false)
      by (destruct Hb as [-> | ->]; reflexivity).
    rewrite Hrange.
    destruct (if b =? 0 then left_child n else right_child n) as [ch|];
      [|discriminate].
    injection Hnode as ->. rewrite Hc. cbn [Z.eqb negb].
    change (0 <=? -1) with false. reflexivity.
  - change (length (b :: b' :: path)) with (S (length (b' :: path))).
    cbn [state_step_loop].
    pose proof (Hread O b eq_refl) as Hfirst.
    change (Z.of_nat 0) with 0 in Hfirst. rewrite Z.add_0_r in Hfirst.
    rewrite Hfirst.
    apply Forall_cons in Hops as [Hb Hops].
    cbn [node_at] in Hnode.
    destruct (negb (leaf_node n =? 0)); [discriminate|].
    unfold htree_state_step. rewrite Hst.
    assert (Hrange : (1 <? b) || (b <? 0) = false)
      by (destruct Hb as [-> | ->]; reflexivity).
    rewrite Hrange.
    destruct (if b =? 0 then left_child n else right_child n) as [ch|];
      [|discriminate].
    assert (Hch : leaf_node ch = 0).
    { cbn [node_at] in Hnode.
      destruct (Z.eqb_spec (leaf_node ch) 0); [assumption | discriminate]. }
    rewrite Hch. cbn [Z.eqb negb]. change (0 <=? -1) with false. cbv iota.
    rewrite (IH b' ch (i + 1)
               {| temp_ptr := Some ch; decoded_element := -1;
                  decoded_string := decoded_string st |} Hnode Hc Hops eq_refl).
    + reflexivity.
    + intros k d Hk. rewrite <- (Hread (S k) d Hk).
      replace (i + 1 + Z.of_nat k) with (i + Z.of_nat (S k)) by lia.
      reflexivity.
Qed.

(** The stepping over the codes of [B] and then over the start of a code:
    the symbols of [B] and nothing else, and the node the start leads to. *)
Lemma state_step_codes_cut (t : htree_t) (R c : helement_t) (ascii_set : Z)
    (vec : option bvector_t) (ascii : list Z) (code : Z -> list Z)
    (B cut : list Z) :
  root t = Some R ->
  leaf_node R = 0 ->
  (forall e, e ∈ B ->
             leaf_at R (code e) = Some e /\ 0 <= e < 256
             /\ Forall is_opcode (code e)) ->
  cut <> [] ->
  Forall is_opcode cut ->
  node_at R cut = Some c ->
  leaf_node c = 0 ->
  (forall k d, (concat (map code B) ++ cut) !! k = Some d ->
               (if negb (ascii_set =? 0)
                then byte_at ascii (Z.of_nat k) - 48
                else bvector_check_bit vec (Z.of_nat k)) = d) ->
  state_step_loop (length (concat (map code B) ++ cut)) 0 ascii_set ascii vec
                  (Some t)
                  {| temp_ptr := root t; decoded_element := -1;
                     decoded_string := [] |}
  = Some {| temp_ptr := Some c; decoded_element := -1; decoded_string := B |}.
Proof.
  intros Hroot Hlf Hcode Hcut Hops Hnode Hc Hread.
  destruct cut as [|b cut]; [congruence|].
  rewrite length_app.
  rewrite (state_step_stream_any t R ascii_set vec ascii code B Hroot Hlf Hcode
             0 _ (length (b :: cut))); [|exact Hroot|].
  2:{ intros k d Hk. rewrite Z.add_0_l. apply Hread.
      now apply lookup_app_l_Some. }
  rewrite (state_step_cut t ascii_set vec ascii c cut b R);
    [reflexivity | exact Hnode | exact Hc | exact Hops | reflexivity |].
  intros k d Hk.
  {
    replace (0 + Z.of_nat (length (concat (map code B))) + Z.of_nat k)
      with (Z.of_nat (length (concat (map code B)) + k)) by lia.
    apply Hread. rewrite lookup_app_r by lia.
    now replace (length (concat (map code B)) + k
                 - length (concat (map code B)))%nat with k by lia. }
Qed.

(** What [huffman_decode] reads from an artifact in bit mode: the tree and
    the vector of the opcodes. *)
Lemma decode_input_bits (flags : option bvector_t) (R : helement_t) (L : Z)
    (stream : list Z) (in_fd : file) :
  bvector_check_bit flags FLAG_ASCII = 0 ->
  proper R = true ->
  leaf_node R = 0 ->
  fd_pos in_fd = 0 ->
  fd_data in_fd
  = u64_bytes (Z.of_nat (size R)) ++ serialized R ++ u64_bytes L ++ stream ->
  0 < L ->
  Z.of_nat (length stream) = L / 8 + 1 ->
  Z.of_nat (length (fd_data in_fd)) < 2 ^ 60 ->
  decode_input flags in_fd
  = Done ({| root := Some (rebuilt R); count := Z.of_nat (size R);
             _parsed := 0 |}, [],
          Some {| vector := stream; vector_length := L;
                  working_index := L |}).
Proof.
  intros Hflag HR Hlf Hpos Hdata HL Hstream Hlen.
  pose proof (size_positive R) as Hnodes.
  assert (Hsizes : Z.of_nat (length (fd_data in_fd))
                   = 8 + 2 * Z.of_nat (size R) + 8 + (L / 8 + 1)).
  { rewrite Hdata, !length_app, !u64_bytes_length, serialized_length. lia. }
  assert (H0 : 0 <= L / 8) by (apply Z.div_pos; lia).
  assert (HL' : L < 2 ^ 63).
  { assert (L < 8 * (L / 8 + 1)).
    { pose proof (Z.mul_succ_div_gt L 8 ltac:(lia)). lia. }
    lia. }
  unfold decode_input. rewrite Hflag.
  destruct (htree_input in_fd) as [fd' constructed_tree] eqn:Hin.
  pose proof (htree_input_rebuilds in_fd (Z.of_nat (size R)) R
                (u64_bytes L ++ stream) HR ltac:(lia) Hpos Hdata
                ltac:(lia) ltac:(now left)) as Htree.
  pose proof (htree_input_data in_fd) as Hsame.
  rewrite Hin in Htree, Hsame. cbn [fst snd] in Htree, Hsame.
  subst constructed_tree.
  cbn [count]. change (0 =? VECTOR_BIT_OFF) with true. cbv iota.
  unfold TREE_INPUT_OBJECT_OFFSET, TREE_INPUT_COUNT_OFFSET,
    TREE_INPUT_COUNT_SIZE, TREE_INPUT_OBJECT_SIZE, TREE_INPUT_ELEMENT_SIZE,
    TREE_INPUT_LEAFNODE_SIZE.
  rewrite (u64_small (0 + 8 + _)) by lia.
  rewrite ssize_t_small by lia. rewrite u64_small by lia.
  rewrite (bvector_input_reads fd' _ L
             (u64_bytes (Z.of_nat (size R)) ++ serialized R) stream []).
  - reflexivity.
  - rewrite Hsame, Hdata, app_nil_r. now rewrite <- app_assoc.
  - rewrite length_app, u64_bytes_length, serialized_length. lia.
  - lia.
  - exact Hstream.
  - rewrite Hsame. lia.
Qed.

(** What [huffman_decode] reads from an artifact that holds the opcodes
    [ops] behind its tree, and how the stepping loop reads an opcode of
    it. *)
Lemma decode_input_opcodes (flags : option bvector_t) (R : helement_t)
    (tail ops : list Z) (in_fd : file) :
  proper R = true ->
  leaf_node R = 0 ->
  ops <> [] ->
  Forall is_opcode ops ->
  fd_pos in_fd = 0 ->
  fd_data in_fd = u64_bytes (Z.of_nat (size R)) ++ serialized R ++ tail ->
  holds_opcodes flags tail ops ->
  Z.of_nat (length (fd_data in_fd)) < 2 ^ 60 ->
  exists ascii vec,
    decode_input flags in_fd
    = Done ({| root := Some (rebuilt R); count := Z.of_nat (size R);
               _parsed := 0 |}, ascii, vec)
    /\ (if bvector_check_bit flags FLAG_ASCII =? VECTOR_BIT_SET
        then Some (Z.of_nat (length ascii))
        else match vec with
             | Some _ => Some (bvector_get_size vec VECTOR_FLAG_STREAM)
             | None => None
             end) = Some (Z.of_nat (length ops))
    /\ forall k d, ops !! k = Some d ->
         (if negb (bvector_check_bit flags FLAG_ASCII =? 0)
          then byte_at ascii (Z.of_nat k) - 48
          else bvector_check_bit vec (Z.of_nat k)) = d.
Proof.
  intros HR Hlf Hsome Hops Hpos Hdata Hholds Hlen.
  destruct Hholds as [(Hflag & Hprint & ->)
                     | (Hflag & stream & -> & Hstream & Hbits)].
  - exists (map (fun d => d + 48) ops), None.
    split; [now apply decode_input_text|].
    rewrite Hflag. change (1 =? VECTOR_BIT_SET) with true.
    change (negb (1 =? 0)) with true. cbv iota.
    split; [now rewrite length_map|].
    intros k d Hk. rewrite (byte_at_map _ _ k d Hk). lia.
  - assert (HL : 0 < Z.of_nat (length ops))
      by (destruct ops; [congruence | cbn [length]; lia]).
    exists [], (Some {| vector := stream;
                        vector_length := Z.of_nat (length ops);
                        working_index := Z.of_nat (length ops) |}).
    split; [now apply decode_input_bits|].
    rewrite Hflag. change (0 =? VECTOR_BIT_SET) with false.
    change (negb (0 =? 0)) with false. cbv iota.
    split; [reflexivity|].
    intros k d Hk.
    rewrite check_bit_bit_at
      by (cbn [vector_length]; apply lookup_lt_Some in Hk; lia).
    cbn [vector]. rewrite (Hbits k d Hk).
    rewrite Forall_forall in Hops.
    destruct (Hops d (list_elem_of_lookup_2 _ _ _ Hk)) as [-> | ->];
      reflexivity.
Qed.

(** C2, as amended.  An artifact of fewer than 2^60 bytes holds a tree (the
    root no leaf, every node a leaf or a node with two children) and, behind
    it, the codes of the symbols [B] followed by the start [cut] of a code
    that leads to a node which is no leaf: the opcodes are used up while the stepping of
    [huffman_decode] stands at that node, which is not the root.
    [huffman_decode] returns 0 all the same: it writes [B], the symbols of
    the codes that were complete, to an empty output file with room for
    them, and nothing reports the code that was cut.  This is so in bit mode
    and in text mode (there without -p, with which the printing of the
    opcodes reads past their buffer). *)
Theorem huffman_decode_ignores_last_node (flags : option bvector_t)
    (in_fd out_fd : file) (R n : helement_t) (code : Z -> list Z)
    (B cut tail : list Z) :
  proper R = true ->
  leaf_node R = 0 ->
  (forall e, e ∈ B ->
             leaf_at R (code e) = Some e /\ 0 <= e < 256
             /\ Forall is_opcode (code e)) ->
  cut <> [] ->
  Forall is_opcode cut ->
  node_at R cut = Some n ->
  leaf_node n = 0 ->
  fd_pos in_fd = 0 ->
  fd_data in_fd = u64_bytes (Z.of_nat (size R)) ++ serialized R ++ tail ->
  holds_opcodes flags tail (concat (map code B) ++ cut) ->
  Z.of_nat (length (fd_data in_fd)) < 2 ^ 60 ->
  fd_data out_fd = [] ->
  fd_pos out_fd = 0 ->
  Z.of_nat (length B) <= Z.min (fd_limit out_fd) OFF_MAX ->
  exists t ascii_opcodes vector_opcodes st decoded,
    decode_input flags in_fd = Done (t, ascii_opcodes, vector_opcodes)
    /\ decode_steps flags t ascii_opcodes vector_opcodes = Done st
    /\ temp_ptr st = Some (rebuilt n)
    /\ temp_ptr st <> root t
    /\ decoded_string st = B
    /\ huffman_decode flags in_fd out_fd = (decoded, Return 0)
    /\ fd_data decoded = B.
Proof.
  intros HR Hlf Hcode Hcut Hops Hnode Hn Hpos Hdata Hholds Hlen
         Hodata Hopos Hroom.
  set (ops := concat (map code B) ++ cut) in *.
  assert (Hall : Forall is_opcode ops).
  { unfold ops. apply Forall_app. split; [|exact Hops].
    apply concat_codes_opcodes. intros e He. now apply Hcode. }
  assert (Hsome : ops <> []).
  { unfold ops. destruct cut; [congruence|]. now destruct (concat _). }
  destruct (decode_input_opcodes flags R tail ops in_fd HR Hlf Hsome Hall
              Hpos Hdata Hholds Hlen) as (ascii & vec & Hinput & Hsize & Hread).
  set (t := {| root := Some (rebuilt R); count := Z.of_nat (size R);
               _parsed := 0 |}) in *.
  assert (Hsteps : decode_steps flags t ascii vec
                   = Done {| temp_ptr := Some (rebuilt n);
                             decoded_element := -1; decoded_string := B |}).
  { unfold decode_steps. rewrite Hsize, Nat2Z.id.
    unfold ops at 1.
    rewrite (state_step_codes_cut t (rebuilt R) (rebuilt n)
               (bvector_check_bit flags FLAG_ASCII) vec ascii code B cut
               eq_refl).
    - reflexivity.
    - destruct R; exact Hlf.
    - intros e He. rewrite leaf_at_rebuilt. now apply Hcode.
    - exact Hcut.
    - exact Hops.
    - now rewrite node_at_rebuilt, Hnode.
    - destruct n; exact Hn.
    - exact Hread. }
  exists t, ascii, vec, {| temp_ptr := Some (rebuilt n);
                          decoded_element := -1; decoded_string := B |}.
  destruct (write out_fd B) as [dec w] eqn:Hwrite.
  exists dec.
  split; [exact Hinput|]. split; [exact Hsteps|].
  split; [reflexivity|]. split.
  { cbn [temp_ptr t root]. intros [= E].
    destruct (node_at_smaller cut R n Hnode) as [_ Hless].
    specialize (Hless Hcut).
    rewrite <- (size_rebuilt n), <- (size_rebuilt R), E in Hless. lia. }
  split; [reflexivity|].
  unfold huffman_decode. rewrite Hinput, Hsteps. cbn [decoded_string].
  rewrite Hwrite.
  destruct (write_fits out_fd B ltac:(lia) ltac:(lia)) as (Hw & _ & Hdec).
  rewrite Hwrite in Hw, Hdec. cbn [fst snd] in Hw, Hdec. subst w.
  rewrite Z.ltb_irrefl. split; [reflexivity|].
  rewrite Hdec, Hodata, Hopos. destruct B as [|b B]; [reflexivity|].
  change (Z.to_nat 0) with (@length Z []). now rewrite store_at_end.
Qed.

Lemma huffman_decode_ignores_last_node_witness :
  exists t ascii_opcodes vector_opcodes st decoded,
    decode_input bit_mode_flags short_stream
    = Done (t, ascii_opcodes, vector_opcodes)
    /\ decode_steps bit_mode_flags t ascii_opcodes vector_opcodes = Done st
    /\ temp_ptr st
       = Some (rebuilt {| element := 255; leaf_node := 0;
                          left_child := Some (helement_create 97 1 0);
                          right_child := Some (helement_create 98 1 0);
                          frequency := 0 |})
    /\ temp_ptr st <> root t
    /\ decoded_string st = []
    /\ huffman_decode bit_mode_flags short_stream new_file
       = (decoded, Return 0)
    /\ fd_data decoded = [].
Proof.
  apply (huffman_decode_ignores_last_node bit_mode_flags short_stream new_file
           five_nodes _ (fun _ => []) [] [0] [1; 0; 0; 0; 0; 0; 0; 0; 0]);
    try reflexivity; try discriminate; try (vm_compute; lia).
  - intros e He. now apply elem_of_nil in He.
  - repeat constructor.
  - right. split; [reflexivity|]. exists [0].
    split; [reflexivity|]. split; [reflexivity|].
    intros [|k] d Hk; [|discriminate]. now injection Hk as <-.
Defined.

(** * The pipelines on files that are too short *)

(** A file that does not hold the first ten bytes of a tree. *)
Lemma huffman_decode_too_short (flags : option bvector_t)
    (in_fd out_fd : file) :
  fd_pos in_fd = 0 ->
  (length (fd_data in_fd) < 10)%nat ->
  huffman_decode flags in_fd out_fd
  = (out_fd, ErrorDebug "Error On Input {constructed_tree}").
Proof.
  intros Hpos Hshort. unfold huffman_decode, decode_input.
  destruct (htree_input_header in_fd Hpos) as [Hnone _].
  destruct (htree_input in_fd) as [fd' tree]. cbn [snd] in Hnone.
  now rewrite (proj2 Hnone Hshort).
Qed.

(** X25. On an input file of fewer than ten bytes [huffman_decode] ends with
    the error of [htree_input], in either mode, and leaves the output file
    as it is. *)
Theorem huffman_decode_short_file (flags : option bvector_t)
    (in_fd out_fd : file) :
  fd_pos in_fd = 0 ->
  (length (fd_data in_fd) < 10)%nat ->
  huffman_decode flags in_fd out_fd
  = (out_fd, ErrorDebug "Error On Input {constructed_tree}").
Proof.
  exact (huffman_decode_too_short flags in_fd out_fd).
Qed.

Lemma huffman_decode_short_file_witness :
  huffman_decode bit_mode_flags
    {| fd_data := [3; 0; 0; 0; 0; 0; 0; 0; 255]; fd_pos := 0; fd_limit := 64 |}
    new_file
  = (new_file, ErrorDebug "Error On Input {constructed_tree}").
Proof.
  apply (huffman_decode_short_file bit_mode_flags
           {| fd_data := [3; 0; 0; 0; 0; 0; 0; 0; 255]; fd_pos := 0;
              fd_limit := 64 |} new_file).
  - reflexivity.
  - cbn. lia.
Defined.

(** ** Opcodes that do not fit into the output file *)





(** * The command line *)

Lemma times_cons (c : Z) (o : getopt_t) (options : list getopt_t) :
  times c (o :: options)
  = ((if decide (opt_option o = c) then 1 else 0) + times c options)%nat.
Proof.
  unfold times. rewrite filter_cons.
  destruct (decide (opt_option o = c)); reflexivity.
Qed.

Lemma flag_bit_binary (g : globals_t) (k : Z) :
  flags_ok g -> 0 <= k < FLAG_LENGTH ->
  bvector_check_bit (flags g) k = 0 \/ bvector_check_bit (flags g) k = 1.
Proof.
  intros (b & -> & _ & Hlen) Hk. apply check_bit_binary. lia.
Qed.

(** One option that is not refused: its flag is set, the other flags and
    the file names of the other options stay. *)
Lemma set_flags_case_plain (o : getopt_t) (g : globals_t) :
  plain o -> flags_ok g ->
  let c := opt_option o in
  if ((c =? 105) || (c =? 111) || (c =? 101) || (c =? 100))
     && (bvector_check_bit (flags g) (flag_of c) =? 1)
  then exists code, set_flags_case o g = (g, Some (Returned code)) /\ code < 0
  else exists g',
      set_flags_case o g = (g', None) /\ flags_ok g'
      /\ (forall j, 0 <= j < FLAG_LENGTH ->
            bvector_check_bit (flags g') j
            = if j =? flag_of c then 1 else bvector_check_bit (flags g) j)
      /\ input_filename g'
         = (if c =? 105 then optarg o else input_filename g)
      /\ output_filename g'
         = (if c =? 111 then optarg o else output_filename g).
Proof.
  intros Hplain (b & Hb & Hsized & Hlen). cbv zeta.
  assert (Hset : forall k, 0 <= k < FLAG_LENGTH ->
            exists b', (bvector_set_bit (flags g) k).1 = Some b'
              /\ bvector_sized b' /\ vector_length b' = FLAG_LENGTH
              /\ forall j, 0 <= j < FLAG_LENGTH ->
                   bvector_check_bit (Some b') j
                   = if j =? k then 1 else bvector_check_bit (flags g) j).
  { intros k Hk. rewrite Hb.
    destruct (set_bit_reads b k Hsized ltac:(lia))
      as (b' & -> & Hs' & Hl' & _ & Hbits).
    exists b'. split; [reflexivity|]. split; [exact Hs'|].
    split; [lia|]. intros j Hj. apply Hbits. lia. }
  unfold set_flags_case, VECTOR_BIT_SET.
  destruct Hplain as [[-> _] | [[-> _] | [-> | [-> | [-> | ->]]]]];
    cbn [Z.eqb Pos.eqb orb andb flag_of];
    match goal with
    | |- context [bvector_check_bit (flags g) ?k =? 1] =>
      destruct (bvector_check_bit (flags g) k =? 1);
        [eexists; split; [reflexivity | lia] |];
        destruct (Hset k ltac:(vm_compute; split; congruence))
          as (b' & Hb' & Hs' & Hl' & Hbits)
    | |- context [bvector_set_bit (flags g) ?k] =>
      destruct (Hset k ltac:(vm_compute; split; congruence))
        as (b' & Hb' & Hs' & Hl' & Hbits)
    end;
    (eexists; split; [reflexivity|]; unfold with_flags;
     cbn [flags input_filename output_filename]; rewrite Hb';
     split; [now exists b'|]; split; [exact Hbits|]; split; reflexivity).
Qed.

Lemma plain_option (o : getopt_t) :
  plain o -> opt_option o ∈ [105; 111; 101; 100; 97; 112].
Proof.
  intros [[-> _] | [[-> _] | [-> | [-> | [-> | ->]]]]];
    repeat first [left | right].
Qed.

Lemma flag_of_range (c : Z) :
  c ∈ [105; 111; 101; 100; 97; 112] -> 0 <= flag_of c < FLAG_LENGTH.
Proof.
  intros Hc. repeat (apply elem_of_cons in Hc as [-> | Hc]);
    [vm_compute; split; congruence ..|]. now apply elem_of_nil in Hc.
Qed.

Lemma flag_of_inj (c c' : Z) :
  c ∈ [105; 111; 101; 100; 97; 112] ->
  c' ∈ [105; 111; 101; 100; 97; 112] ->
  flag_of c = flag_of c' -> c = c'.
Proof.
  intros Hc Hc'.
  repeat (apply elem_of_cons in Hc as [-> | Hc]);
    try (now apply elem_of_nil in Hc);
    repeat (apply elem_of_cons in Hc' as [-> | Hc']);
    try (now apply elem_of_nil in Hc');
    vm_compute; congruence.
Qed.

Lemma exclusive_option (c : Z) :
  c ∈ [105; 111; 101; 100] ->
  c ∈ [105; 111; 101; 100; 97; 112]
  /\ (c =? 105) || (c =? 111) || (c =? 101) || (c =? 100) = true.
Proof.
  intros Hc. repeat (apply elem_of_cons in Hc as [-> | Hc]);
    try (now apply elem_of_nil in Hc);
    (split; [repeat first [left | right] | reflexivity]).
Qed.

Ltac flag_bit g c :=
  let H := fresh "Hbit" in
  pose proof (flag_bit_binary g (flag_of c) ltac:(assumption)
                ltac:(apply flag_of_range; assumption)) as H.

(** Options of which none is refused: the flags count them, the file names
    are the arguments of -i and -o. *)
Lemma set_flags_loop_goes_on (options : list getopt_t) :
  Forall plain options ->
  forall g, flags_ok g ->
    (forall c, c ∈ [105; 111; 101; 100] ->
       bvector_check_bit (flags g) (flag_of c)
       + Z.of_nat (times c options) <= 1) ->
    exists g',
      set_flags_loop options g = (g', None) /\ flags_ok g'
      /\ (forall c, c ∈ [105; 111; 101; 100; 97; 112] ->
            bvector_check_bit (flags g') (flag_of c)
            = Z.min 1 (bvector_check_bit (flags g) (flag_of c)
                       + Z.of_nat (times c options)))
      /\ (times 105 options = 0%nat -> input_filename g' = input_filename g)
      /\ (forall o, o ∈ options -> opt_option o = 105 ->
            input_filename g' = optarg o)
      /\ (times 111 options = 0%nat -> output_filename g' = output_filename g)
      /\ (forall o, o ∈ options -> opt_option o = 111 ->
            output_filename g' = optarg o).
Proof.
  induction 1 as [|o options Hplain _ IH]; intros g Hg Honce.
  - exists g. split; [reflexivity|]. split; [exact Hg|].
    split.
    { intros c Hc. flag_bit g c. unfold times. cbn. lia. }
    repeat split; try reflexivity; intros o Ho; now apply elem_of_nil in Ho.
  - pose proof (plain_option o Hplain) as Hopt.
    assert (Hno : (opt_option o =? -1) = false).
    { repeat (apply elem_of_cons in Hopt as [-> | Hopt]);
        try reflexivity. now apply elem_of_nil in Hopt. }
    cbn [set_flags_loop]. rewrite Hno.
    pose proof (set_flags_case_plain o g Hplain Hg) as Hcase. cbv zeta in Hcase.
    match type of Hcase with
    | if ?refused then _ else _ => destruct refused eqn:Hrefused
    end.
    { exfalso. apply andb_true_iff in Hrefused as [Hex Hone].
      assert (Hin : opt_option o ∈ [105; 111; 101; 100]).
      { rewrite !orb_true_iff, !Z.eqb_eq in Hex.
        destruct Hex as [[[-> | ->] | ->] | ->]; repeat first [left | right]. }
      specialize (Honce _ Hin). rewrite times_cons in Honce.
      rewrite decide_True in Honce by reflexivity.
      apply Z.eqb_eq in Hone. lia. }
    destruct Hcase as (g1 & -> & Hg1 & Hbits & Hin1 & Hout1).
    destruct (IH g1 Hg1) as (g' & Hloop & Hg' & Hflags & Hi0 & Hi & Ho0 & Ho).
    { intros c Hc. destruct (exclusive_option c Hc) as [Hsix Hex].
      rewrite (Hbits _ (flag_of_range c Hsix)).
      specialize (Honce c Hc). rewrite times_cons in Honce.
      flag_bit g c.
      destruct (decide (opt_option o = c)) as [-> | Hne].
      - rewrite Z.eqb_refl. lia.
      - destruct (Z.eqb_spec (flag_of c) (flag_of (opt_option o))) as [E|_];
          [|lia].
        exfalso. apply Hne. symmetry. now apply flag_of_inj. }
    exists g'. split; [exact Hloop|]. split; [exact Hg'|].
    split.
    { intros c Hc. rewrite (Hflags c Hc), (Hbits _ (flag_of_range c Hc)).
      rewrite times_cons. flag_bit g c.
      destruct (decide (opt_option o = c)) as [-> | Hne].
      - rewrite Z.eqb_refl. lia.
      - destruct (Z.eqb_spec (flag_of c) (flag_of (opt_option o))) as [E|_];
          [|lia].
        exfalso. apply Hne. symmetry. now apply flag_of_inj. }
    assert (Hfirst : forall c, c ∈ [105; 111; 101; 100] ->
              opt_option o = c -> times c options = 0%nat).
    { intros c Hc E. specialize (Honce c Hc). rewrite times_cons in Honce.
      rewrite decide_True in Honce by exact E.
      destruct (exclusive_option c Hc) as [Hsix _]. flag_bit g c. lia. }
    split; [|split; [|split]].
    + rewrite times_cons. intros Hnone.
      destruct (decide (opt_option o = 105)) as [E|Hne]; [lia|].
      rewrite (Hi0 ltac:(lia)), Hin1.
      now destruct (Z.eqb_spec (opt_option o) 105).
    + intros o' Ho' E'. apply elem_of_cons in Ho' as [-> | Ho'].
      * rewrite (Hi0 (Hfirst 105 ltac:(left) E')), Hin1, E'. reflexivity.
      * now apply Hi.
    + rewrite times_cons. intros Hnone.
      destruct (decide (opt_option o = 111)) as [E|Hne]; [lia|].
      rewrite (Ho0 ltac:(lia)), Hout1.
      now destruct (Z.eqb_spec (opt_option o) 111).
    + intros o' Ho' E'. apply elem_of_cons in Ho' as [-> | Ho'].
      * rewrite (Ho0 (Hfirst 111 ltac:(right; left) E')), Hout1, E'.
        reflexivity.
      * now apply Ho.
Qed.

(** An option given again is refused with a negative code. *)
Lemma set_flags_loop_refuses (options : list getopt_t) :
  Forall plain options ->
  forall g c, flags_ok g ->
    c ∈ [105; 111; 101; 100] ->
    2 <= bvector_check_bit (flags g) (flag_of c) + Z.of_nat (times c options) ->
    exists g' code,
      set_flags_loop options g = (g', Some (Returned code)) /\ code < 0.
Proof.
  induction 1 as [|o options Hplain _ IH]; intros g c Hg Hc Htwice.
  - destruct (exclusive_option c Hc) as [Hsix _]. flag_bit g c.
    unfold times in Htwice. cbn in Htwice. lia.
  - pose proof (plain_option o Hplain) as Hopt.
    assert (Hno : (opt_option o =? -1) = false).
    { repeat (apply elem_of_cons in Hopt as [-> | Hopt]);
        try reflexivity. now apply elem_of_nil in Hopt. }
    cbn [set_flags_loop]. rewrite Hno.
    pose proof (set_flags_case_plain o g Hplain Hg) as Hcase. cbv zeta in Hcase.
    match type of Hcase with
    | if ?refused then _ else _ => destruct refused eqn:Hrefused
    end.
    { destruct Hcase as (code & -> & Hcode). now exists g, code. }
    destruct Hcase as (g1 & -> & Hg1 & Hbits & _).
    apply (IH g1 c Hg1 Hc).
    destruct (exclusive_option c Hc) as [Hsix Hex].
    rewrite (Hbits _ (flag_of_range c Hsix)).
    rewrite times_cons in Htwice. flag_bit g c.
    destruct (decide (opt_option o = c)) as [E | Hne].
    + rewrite E in Hrefused. rewrite Hex in Hrefused. cbn [andb] in Hrefused.
      apply Z.eqb_neq in Hrefused. rewrite E, Z.eqb_refl. lia.
    + destruct (Z.eqb_spec (flag_of c) (flag_of (opt_option o))) as [E|_];
        [|lia].
      exfalso. apply Hne. symmetry. now apply flag_of_inj.
Qed.

Lemma initial_globals_ok : flags_ok initial_globals.
Proof.
  eexists. split; [reflexivity|]. split; [|reflexivity].
  split; [reflexivity | vm_compute; split; congruence].
Qed.

Lemma initial_globals_bits (c : Z) :
  c ∈ [105; 111; 101; 100; 97; 112] ->
  bvector_check_bit (flags initial_globals) (flag_of c) = 0.
Proof.
  intros Hc. repeat (apply elem_of_cons in Hc as [-> | Hc]);
    try reflexivity. now apply elem_of_nil in Hc.
Qed.

(** The command lines [set_flags] accepts, and the globals it leaves. *)
Lemma set_flags_globals (options : list getopt_t) :
  Forall plain options ->
  times 105 options = 1%nat ->
  times 111 options = 1%nat ->
  (times 101 options <= 1)%nat ->
  (times 100 options <= 1)%nat ->
  (1 <= times 101 options + times 100 options)%nat ->
  exists g',
    set_flags options initial_globals = (g', Returned 0)
    /\ flags_ok g'
    /\ (forall c, c ∈ [105; 111; 101; 100; 97; 112] ->
          bvector_check_bit (flags g') (flag_of c)
          = Z.min 1 (Z.of_nat (times c options)))
    /\ (forall o, o ∈ options -> opt_option o = 105 ->
          input_filename g' = optarg o)
    /\ (forall o, o ∈ options -> opt_option o = 111 ->
          output_filename g' = optarg o).
Proof.
  intros Hplain Hi Ho He Hd Hed.
  destruct (set_flags_loop_goes_on options Hplain initial_globals
              initial_globals_ok)
    as (g' & Hloop & Hg' & Hbits & _ & Hin & _ & Hout).
  { intros c Hc. destruct (exclusive_option c Hc) as [Hsix _].
    rewrite (initial_globals_bits c Hsix).
    repeat (apply elem_of_cons in Hc as [-> | Hc]); try lia.
    now apply elem_of_nil in Hc. }
  assert (Hbits' : forall c, c ∈ [105; 111; 101; 100; 97; 112] ->
            bvector_check_bit (flags g') (flag_of c)
            = Z.min 1 (Z.of_nat (times c options))).
  { intros c Hc. now rewrite (Hbits c Hc), (initial_globals_bits c Hc). }
  exists g'. split; [|now repeat split].
  unfold set_flags. rewrite Hloop.
  pose proof (Hbits' 101 ltac:(repeat first [left | right])) as Hbe.
  pose proof (Hbits' 100 ltac:(repeat first [left | right])) as Hbd.
  change (flag_of 101) with FLAG_ENCODE in Hbe.
  change (flag_of 100) with FLAG_DECODE in Hbd.
  rewrite Hbe, Hbd. unfold VECTOR_BIT_OFF.
  assert (Hnot : (Z.min 1 (Z.of_nat (times 101 options)) =? 0)
                 && (Z.min 1 (Z.of_nat (times 100 options)) =? 0) = false).
  { apply andb_false_iff.
    destruct (Z.eqb_spec (Z.min 1 (Z.of_nat (times 101 options))) 0);
      destruct (Z.eqb_spec (Z.min 1 (Z.of_nat (times 100 options))) 0);
      try (now left); try (now right). lia. }
  rewrite Hnot.
  assert (Hname : forall c, times c options = 1%nat ->
            exists o, o ∈ options /\ opt_option o = c /\ plain o).
  { intros c Hc. unfold times in Hc.
    destruct (filter (fun o => opt_option o = c) options) as [|o l] eqn:E;
      [discriminate|].
    assert (Ho' : o ∈ filter (fun o => opt_option o = c) options)
      by (rewrite E; left).
    apply list_elem_of_filter in Ho' as [Hoc Hoin].
    exists o. split; [exact Hoin|]. split; [exact Hoc|].
    rewrite Forall_forall in Hplain. now apply Hplain. }
  destruct (Hname 105 Hi) as (oi & Hoi & Hci & Hpi).
  destruct (Hname 111 Ho) as (oo & Hoo & Hco & Hpo).
  rewrite (Hin oi Hoi Hci), (Hout oo Hoo Hco).
  assert (Hsi : is_Some (optarg oi)).
  { destruct Hpi as [[_ H] | [[E _] | [E | [E | [E | E]]]]];
      [exact H | congruence ..]. }
  assert (Hso : is_Some (optarg oo)).
  { destruct Hpo as [[E _] | [[_ H] | [E | [E | [E | E]]]]];
      [congruence | exact H | congruence ..]. }
  destruct Hsi as [ni ->], Hso as [no ->]. reflexivity.
Qed.

(** X27. From the globals [main] starts with, and for options that are all
    among -i and -o with an argument, -e, -d, -a and -p: [set_flags] returns 0
    exactly when -i and -o are given once each, -e and -d at most once each
    and at least one of the two.  Giving both -e and -d is not refused. *)
Theorem set_flags_accepts (options : list getopt_t) :
  Forall plain options ->
  (set_flags options initial_globals).2 = Returned 0
  <-> (times 105 options = 1%nat /\ times 111 options = 1%nat
       /\ (times 101 options <= 1)%nat /\ (times 100 options <= 1)%nat
       /\ (1 <= times 101 options + times 100 options)%nat).
Proof.
  intros Hplain. split.
  - intros Hret.
    assert (Honce : forall c, c ∈ [105; 111; 101; 100] ->
              (times c options <= 1)%nat).
    { intros c Hc. destruct (le_lt_dec (times c options) 1) as [|Hmore];
        [assumption|]. exfalso.
      destruct (set_flags_loop_refuses options Hplain initial_globals c
                  initial_globals_ok Hc) as (g' & code & Hloop & Hcode).
      { destruct (exclusive_option c Hc) as [Hsix _].
        rewrite (initial_globals_bits c Hsix). lia. }
      unfold set_flags in Hret. rewrite Hloop in Hret. cbn [snd] in Hret.
      injection Hret as ->. lia. }
    destruct (set_flags_loop_goes_on options Hplain initial_globals
                initial_globals_ok)
      as (g' & Hloop & Hg' & Hbits & Hi0 & _ & Ho0 & _).
    { intros c Hc. destruct (exclusive_option c Hc) as [Hsix _].
      rewrite (initial_globals_bits c Hsix). specialize (Honce c Hc). lia. }
    unfold set_flags in Hret. rewrite Hloop in Hret.
    pose proof (Hbits 101 ltac:(repeat first [left | right])) as Hbe.
    pose proof (Hbits 100 ltac:(repeat first [left | right])) as Hbd.
    rewrite (initial_globals_bits 101) in Hbe by (repeat first [left | right]).
    rewrite (initial_globals_bits 100) in Hbd by (repeat first [left | right]).
    change (flag_of 101) with FLAG_ENCODE in Hbe.
    change (flag_of 100) with FLAG_DECODE in Hbd.
    rewrite Hbe, Hbd in Hret. unfold VECTOR_BIT_OFF in Hret.
    pose proof (Honce 105 ltac:(repeat first [left | right])) as Hi.
    pose proof (Honce 111 ltac:(repeat first [left | right])) as Ho.
    pose proof (Honce 101 ltac:(repeat first [left | right])) as He.
    pose proof (Honce 100 ltac:(repeat first [left | right])) as Hd.
    destruct (Z.eqb_spec (Z.min 1 (0 + Z.of_nat (times 101 options))) 0)
      as [Ee|Ee];
      destruct (Z.eqb_spec (Z.min 1 (0 + Z.of_nat (times 100 options))) 0)
        as [Ed|Ed]; cbn [andb snd] in Hret; try discriminate;
      destruct (input_filename g') as [ni|] eqn:Hni;
      destruct (output_filename g') as [no|] eqn:Hno;
      cbn [snd] in Hret; try discriminate;
      (assert (times 105 options <> 0%nat)
         by (intros E; specialize (Hi0 E); discriminate Hi0));
      (assert (times 111 options <> 0%nat)
         by (intros E; specialize (Ho0 E); discriminate Ho0));
      lia.
  - intros (Hi & Ho & He & Hd & Hed).
    destruct (set_flags_globals options Hplain Hi Ho He Hd Hed)
      as (g' & -> & _). reflexivity.
Qed.

Ltac plain_options :=
  repeat (apply List.Forall_cons;
          [unfold plain; cbn;
           first [ left; split; [reflexivity | now eexists]
                 | right; left; split; [reflexivity | now eexists]
                 | do 2 right; left; reflexivity
                 | do 3 right; left; reflexivity
                 | do 4 right; left; reflexivity
                 | do 5 right; reflexivity ] |]);
  apply List.Forall_nil.

Lemma set_flags_accepts_witness :
  (set_flags [option_of 101; option_of 100; option_with 105 "a";
              option_with 111 "b"] initial_globals).2 = Returned 0.
Proof.
  apply (set_flags_accepts [option_of 101; option_of 100; option_with 105 "a";
                            option_with 111 "b"]).
  - plain_options.
  - vm_compute. repeat split; lia.
Defined.

(** * Encoding and decoding through [main] *)

(** [main] on an accepted command line: the file it leaves under the output
    name is what the pipeline wrote, the pipeline being [huffman_encode]
    when -e is given. *)
Lemma main_runs (fresh : nat -> Z) (path : string -> string) (limit : Z)
    (options : list getopt_t) (files : gmap string (list Z))
    (input output : string) (content : list Z) :
  Forall plain options ->
  names 105 input options ->
  names 111 output options ->
  (times 101 options <= 1)%nat ->
  (times 100 options <= 1)%nat ->
  (1 <= times 101 options + times 100 options)%nat ->
  files !! path input = Some content ->
  exists f,
    bvector_check_bit f FLAG_ASCII
    = Z.min 1 (Z.of_nat (times 97 options))
    /\ bvector_check_bit f FLAG_PRINT
       = Z.min 1 (Z.of_nat (times 112 options))
    /\ main fresh path limit options files
       = let read :=
           if decide (path input = path output) then [] else content in
         let out_fd := {| fd_data := []; fd_pos := 0; fd_limit := limit |} in
         let r :=
           if (0 <? times 101 options)%nat
           then huffman_encode fresh f read out_fd
           else huffman_decode f {| fd_data := read; fd_pos := 0;
                                    fd_limit := limit |} out_fd in
         (<[path output := fd_data r.1]> files, FromMain r.2).
Proof.
  intros Hplain [Hi Hin] [Ho Hout] He Hd Hed Hfile.
  destruct (set_flags_globals options Hplain Hi Ho He Hd Hed)
    as (g' & Hset & _ & Hbits & Hgi & Hgo).
  assert (Hname : forall c, times c options = 1%nat ->
            exists o, o ∈ options /\ opt_option o = c).
  { intros c Hc. unfold times in Hc.
    destruct (filter (fun o => opt_option o = c) options) as [|o l] eqn:E;
      [discriminate|].
    assert (Ho' : o ∈ filter (fun o => opt_option o = c) options)
      by (rewrite E; left).
    apply list_elem_of_filter in Ho' as [Hoc Hoin]. now exists o. }
  destruct (Hname 105 Hi) as (oi & Hoi & Hci).
  destruct (Hname 111 Ho) as (oo & Hoo & Hco).
  pose proof (Hgi oi Hoi Hci) as Hinput. rewrite (Hin oi Hoi Hci) in Hinput.
  pose proof (Hgo oo Hoo Hco) as Houtput. rewrite (Hout oo Hoo Hco) in Houtput.
  exists (flags g'). split.
  { exact (Hbits 97 ltac:(repeat first [left | right])). }
  split.
  { exact (Hbits 112 ltac:(repeat first [left | right])). }
  assert (Hcreate : exists b0,
            bvector_create FLAG_LENGTH = Some b0
            /\ initial_globals
               = {| flags := Some b0; input_filename := None;
                    output_filename := None |})
    by (eexists; split; reflexivity).
  destruct Hcreate as (b0 & Hb0 & Hg0).
  unfold main. rewrite Hb0, <- Hg0, Hset. change (0 <? 0) with false. cbv iota.
  rewrite Hinput, Houtput. cbn [mbind option_bind]. rewrite Hfile.
  assert (Hread : default [] (<[path output := []]> files !! path input)
                  = if decide (path input = path output) then [] else content).
  { destruct (decide (path input = path output)) as [-> | Hne].
    - now rewrite lookup_insert_eq.
    - rewrite lookup_insert_ne by congruence. now rewrite Hfile. }
  rewrite Hread. cbn [fd_data].
  pose proof (Hbits 101 ltac:(repeat first [left | right])) as Hbe.
  change (flag_of 101) with FLAG_ENCODE in Hbe. rewrite Hbe.
  unfold VECTOR_BIT_SET. cbv zeta.
  destruct (times 101 options) as [|[|n]] eqn:Htimes; [| |lia].
  - change (Z.min 1 (Z.of_nat 0) =? 1) with false.
    change (0 <? 0)%nat with false. cbv iota.
    destruct (huffman_decode _ _ _) as [out o]. cbn [fst snd].
    now rewrite insert_insert_eq.
  - change (Z.min 1 (Z.of_nat 1) =? 1) with true.
    change (0 <? 1)%nat with true. cbv iota.
    destruct (huffman_encode _ _ _ _) as [out o]. cbn [fst snd].
    now rewrite insert_insert_eq.
Qed.

(** X28. [main] with -e, then [main] with -d on the file the first run
    wrote, with -a on both command lines or on neither, and -p on none of
    them when -a is given: both runs return 0 and the second leaves the input
    of the first in its output file.  The input holds bytes with at least two
    different values, the input and the output of a run are different files
    (not only different names), and -d may be given next to -e on the first
    command line. *)
Theorem main_round_trip (fresh : nat -> Z) (path : string -> string)
    (limit : Z) (encode_options decode_options : list getopt_t)
    (files : gmap string (list Z)) (a b c : string) (B : list Z) (x y : Z) :
  files !! path a = Some B ->
  path a <> path b -> path b <> path c ->
  Forall (fun e => 0 <= e < 256) B ->
  x ∈ B -> y ∈ B -> x <> y ->
  Z.of_nat (length B) < 2 ^ 50 ->
  1040 + 512 * Z.of_nat (length B) <= Z.min limit OFF_MAX ->
  Forall plain encode_options ->
  names 105 a encode_options ->
  names 111 b encode_options ->
  times 101 encode_options = 1%nat ->
  (times 100 encode_options <= 1)%nat ->
  Forall plain decode_options ->
  names 105 b decode_options ->
  names 111 c decode_options ->
  times 100 decode_options = 1%nat ->
  times 101 decode_options = 0%nat ->
  (times 97 encode_options = 0%nat <-> times 97 decode_options = 0%nat) ->
  times 97 encode_options = 0%nat
  \/ (times 112 encode_options = 0%nat /\ times 112 decode_options = 0%nat) ->
  exists artifact,
    main fresh path limit encode_options files
    = (<[path b := artifact]> files, FromMain (Return 0))
    /\ main fresh path limit decode_options (<[path b := artifact]> files)
       = (<[path c := B]> (<[path b := artifact]> files), FromMain (Return 0)).
Proof.
  intros Hfile Hab Hbc HB Hx Hy Hne Hlen Hroom Hpe Hia Hob He Hd
         Hpd Hib Hoc Hdd Hde Hmode Hprint.
  destruct (main_runs fresh path limit encode_options files a b B Hpe Hia Hob
              ltac:(lia) Hd ltac:(lia) Hfile)
    as (fe & Hfe & Hfep & Hmain_e).
  rewrite decide_False in Hmain_e by exact Hab.
  rewrite He in Hmain_e. change (0 <? 1)%nat with true in Hmain_e.
  cbv zeta iota in Hmain_e.
  assert (Hruns : forall artifact,
            exists fd,
              bvector_check_bit fd FLAG_ASCII
              = Z.min 1 (Z.of_nat (times 97 decode_options))
              /\ bvector_check_bit fd FLAG_PRINT
                 = Z.min 1 (Z.of_nat (times 112 decode_options))
              /\ main fresh path limit decode_options
                      (<[path b := artifact]> files)
                 = let r := huffman_decode fd
                              {| fd_data := artifact; fd_pos := 0;
                                 fd_limit := limit |}
                              {| fd_data := []; fd_pos := 0;
                                 fd_limit := limit |} in
                   (<[path c := fd_data r.1]> (<[path b := artifact]> files),
                    FromMain r.2)).
  { intros artifact.
    destruct (main_runs fresh path limit decode_options
                (<[path b := artifact]> files)
                b c artifact Hpd Hib Hoc ltac:(lia) ltac:(lia) ltac:(lia)
                (lookup_insert_eq _ _ _))
      as (fd & Hfd & Hfdp & Hmain_d).
    rewrite decide_False in Hmain_d by exact Hbc.
    rewrite Hde in Hmain_d. change (0 <? 0)%nat with false in Hmain_d.
    cbv zeta iota in Hmain_d. now exists fd. }
  set (out_fd := {| fd_data := []; fd_pos := 0; fd_limit := limit |}) in *.
  assert (Hmax : OFF_MAX = 2 ^ 63 - 1) by reflexivity.
  assert (Hboth : forall fd,
            bvector_check_bit fd FLAG_ASCII
            = Z.min 1 (Z.of_nat (times 97 decode_options)) ->
            bvector_check_bit fd FLAG_PRINT
            = Z.min 1 (Z.of_nat (times 112 decode_options)) ->
            exists artifact,
              huffman_encode fresh fe B out_fd = (artifact, Return 0)
              /\ forall in_fd,
                   fd_pos in_fd = 0 ->
                   fd_data in_fd = fd_data artifact ->
                   exists decoded,
                     huffman_decode fd in_fd out_fd = (decoded, Return 0)
                     /\ fd_data decoded = B).
  { intros fd Hfd Hfdp.
    destruct (times 97 encode_options) as [|n] eqn:Hascii.
    - rewrite (proj1 Hmode eq_refl) in Hfd.
      apply (bit_mode_round_trip fresh fe fd B x y out_fd out_fd);
        try assumption; try reflexivity; cbn [out_fd fd_limit]; lia.
    - assert (times 97 decode_options <> 0%nat)
        by (intros E; apply Hmode in E; discriminate).
      destruct Hprint as [E | [Hep Hdp]]; [discriminate E|].
      rewrite Hep in Hfep. rewrite Hdp in Hfdp.
      apply (text_mode_round_trip fresh fe fd B x y out_fd out_fd);
        try assumption; try reflexivity; cbn [out_fd fd_limit]; lia. }
  destruct (Hruns []) as (fd0 & Hfd0 & Hfdp0 & _).
  destruct (Hboth fd0 Hfd0 Hfdp0) as (artifact & Hencode & _).
  exists (fd_data artifact). split.
  { rewrite Hmain_e, Hencode. reflexivity. }
  destruct (Hruns (fd_data artifact)) as (fd & Hfd & Hfdp & ->).
  destruct (Hboth fd Hfd Hfdp) as (artifact' & Hencode' & Hdecode).
  rewrite Hencode in Hencode'. injection Hencode' as <-.
  destruct (Hdecode {| fd_data := fd_data artifact; fd_pos := 0;
                       fd_limit := limit |} eq_refl eq_refl)
    as (decoded & -> & Hsame).
  cbv zeta. cbn [fst snd]. now rewrite Hsame.
Qed.

Ltac named_option :=
  split; [reflexivity|];
  let o := fresh "o" in
  let Ho := fresh "Ho" in
  intros o Ho; repeat (apply elem_of_cons in Ho as [-> | Ho]);
  try (now apply elem_of_nil in Ho); cbn; congruence.

(** X29. When the names after -i and -o lead to the same file (the same
    name, or two names of one file), [main] empties the file before a byte
    of it is read: the encoder goes into the undefined behaviour it has on an
    empty input, the decoder ends with the error of [htree_input], and the
    file is left empty. *)
Theorem main_same_file (fresh : nat -> Z) (path : string -> string)
    (limit : Z) (options : list getopt_t) (files : gmap string (list Z))
    (input output : string) (content : list Z) :
  Forall plain options ->
  names 105 input options ->
  names 111 output options ->
  (times 101 options <= 1)%nat ->
  (times 100 options <= 1)%nat ->
  (1 <= times 101 options + times 100 options)%nat ->
  path input = path output ->
  files !! path input = Some content ->
  main fresh path limit options files
  = (<[path output := []]> files,
     FromMain (if (0 <? times 101 options)%nat
               then Undefined "parent is read before it is assigned"
               else ErrorDebug "Error On Input {constructed_tree}")).
Proof.
  intros Hplain Hi Ho He Hd Hed Hsame Hfile.
  destruct (main_runs fresh path limit options files input output content
              Hplain Hi Ho He Hd Hed Hfile) as (f & _ & _ & ->).
  rewrite decide_True by exact Hsame. cbv zeta.
  destruct (0 <? times 101 options)%nat.
  - now rewrite (huffman_encode_one_symbol fresh f 0 0).
  - now rewrite huffman_decode_too_short by (cbn; lia).
Qed.

Lemma main_same_file_witness :
  main zero_fresh here 4096
       [option_of 101; option_with 105 "a"; option_with 111 "./a"] one_file
  = (<["a"%string := []]> one_file,
     FromMain (Undefined "parent is read before it is assigned")).
Proof.
  apply (main_same_file zero_fresh here 4096
           [option_of 101; option_with 105 "a"; option_with 111 "./a"]
           one_file "a" "./a" [97; 98; 97; 99]);
    try reflexivity; try plain_options; try (vm_compute; lia);
    try named_option.
Defined.

Lemma main_round_trip_witness :
  exists artifact,
    main zero_fresh here 4096
         [option_of 101; option_with 105 "a"; option_with 111 "./b"] one_file
    = (<["b"%string := artifact]> one_file, FromMain (Return 0))
    /\ main zero_fresh here 4096
            [option_of 100; option_with 105 "./b"; option_with 111 "c"]
            (<["b"%string := artifact]> one_file)
       = (<["c"%string := [97; 98; 97; 99]]>
            (<["b"%string := artifact]> one_file),
          FromMain (Return 0)).
Proof.
  apply (main_round_trip zero_fresh here 4096
           [option_of 101; option_with 105 "a"; option_with 111 "./b"]
           [option_of 100; option_with 105 "./b"; option_with 111 "c"]
           one_file "a" "./b" "c" [97; 98; 97; 99] 97 98);
    try reflexivity; try discriminate; try plain_options;
    try (vm_compute; lia); try (vm_compute; congruence).
  - repeat constructor; lia.
  - repeat constructor.
  - repeat constructor.
  - named_option.
  - named_option.
  - named_option.
  - named_option.
Defined.
